(** * StruktoLab: pseudocode parser, serializer, code generator, tree editor
      and structogram layout, embedded from the JavaScript sources.

    Conventions of the embedding.
    - A JavaScript string is a [string]: a sequence of code units below 256
      (the Latin-1 range, which holds both built-in keyword sets).
    - A JavaScript number is a rational [Q]: arithmetic is exact, where the
      script rounds to the nearest double, and there is no [Infinity] or
      [NaN].
    - [null], [undefined] and an absent property are one value ([Null] for a
      node, [None] for an optional field): the sources only ever test them
      by truthiness or with [!= null].
    - Thrown errors are values of a sum type; module-level counters are
      threaded as explicit state. *)

From Stdlib Require Import String Ascii List Bool Arith ZArith NArith QArith.
From Stdlib Require Import Qminmax Lia Lqa DecimalString DecimalNat.
Import ListNotations.

Close Scope Q_scope.
Close Scope Z_scope.
Open Scope string_scope.
Open Scope nat_scope.
Open Scope list_scope.

(** String concatenation, the [+] of JavaScript on strings. *)
Infix "+++" := String.append (at level 60, right associativity).

(* ================================================================== *)
(** * JavaScript string primitives *)
(* ================================================================== *)

Module JsString.

Definition code (c : ascii) : nat := nat_of_ascii c.

Definition chr (n : nat) : ascii := ascii_of_nat n.

(** The double quote, tab and line feed characters. *)
Definition dquote : ascii := chr 34.
Definition tab : ascii := chr 9.
Definition lf : ascii := chr 10.

Definition str1 (c : ascii) : string := String c EmptyString.

(** WhiteSpace and LineTerminator code units below 256: TAB, LF, VT, FF,
    CR, SP and NBSP.  This is the set of [\s] and of [trim]. *)
Definition is_space (c : ascii) : bool :=
  let n := code c in
  ((9 <=? n) && (n <=? 13)) || (n =? 32) || (n =? 160).

Definition is_digit (c : ascii) : bool :=
  let n := code c in (48 <=? n) && (n <=? 57).

Definition is_upper (c : ascii) : bool :=
  let n := code c in (65 <=? n) && (n <=? 90).

Definition is_lower (c : ascii) : bool :=
  let n := code c in (97 <=? n) && (n <=? 122).

(** [\w] is [[A-Za-z0-9_]]. *)
Definition is_word (c : ascii) : bool :=
  is_upper c || is_lower c || is_digit c || (code c =? 95).

(** [.] matches everything but a line terminator. *)
Definition is_dot (c : ascii) : bool :=
  negb ((code c =? 10) || (code c =? 13)).

(** Canonicalize of a case-insensitive RegExp without the unicode flag:
    the upper-case mapping when it is a single code unit and does not send
    a non-ASCII unit into ASCII.  Micro sign and y-diaeresis map outside
    Latin-1, sharp s (two units in upper case) stays. *)
Definition canon (c : ascii) : nat :=
  let n := code c in
  if is_lower c then n - 32
  else if (n =? 181) then 924
  else if (n =? 255) then 376
  else if (224 <=? n) && (n <=? 254) && negb (n =? 247) then n - 32
  else n.

Definition eq_ci (a b : ascii) : bool := canon a =? canon b.

(** [String.prototype.toLowerCase] on code units below 256. *)
Definition lower_char (c : ascii) : ascii :=
  let n := code c in
  if is_upper c then chr (n + 32)
  else if (192 <=? n) && (n <=? 222) && negb (n =? 215) then chr (n + 32)
  else c.

Fixpoint toLowerCase (s : string) : string :=
  match s with
  | EmptyString => EmptyString
  | String c r => String (lower_char c) (toLowerCase r)
  end.

Definition is_empty (s : string) : bool :=
  match s with EmptyString => true | _ => false end.

Fixpoint trimStart (s : string) : string :=
  match s with
  | String c r => if is_space c then trimStart r else s
  | EmptyString => EmptyString
  end.

Fixpoint trimEnd (s : string) : string :=
  match s with
  | EmptyString => EmptyString
  | String c r =>
      let r' := trimEnd r in
      if is_space c && is_empty r' then EmptyString else String c r'
  end.

Definition trim (s : string) : string := trimStart (trimEnd s).

Definition startsWith (s p : string) : bool := String.prefix p s.

Fixpoint endsWithChar (s : string) (c : ascii) : bool :=
  match s with
  | EmptyString => false
  | String a EmptyString => Ascii.eqb a c
  | String _ r => endsWithChar r c
  end.

(** [s.slice(0, -1)]. *)
Fixpoint dropLast (s : string) : string :=
  match s with
  | EmptyString => EmptyString
  | String _ EmptyString => EmptyString
  | String a r => String a (dropLast r)
  end.

(** [s.split(sep)] for a one-character separator. *)
Fixpoint split (sep : ascii) (s : string) : list string :=
  match s with
  | EmptyString => [EmptyString]
  | String c r =>
      if Ascii.eqb c sep then EmptyString :: split sep r
      else match split sep r with
           | [] => [str1 c]
           | h :: t => String c h :: t
           end
  end.

(** [parts.join(sep)]. *)
Fixpoint join (sep : string) (parts : list string) : string :=
  match parts with
  | [] => EmptyString
  | [p] => p
  | p :: rest => p +++ sep +++ join sep rest
  end.

(** [s.repeat(n)]. *)
Fixpoint repeat (s : string) (n : nat) : string :=
  match n with
  | O => EmptyString
  | S k => s +++ repeat s k
  end.

(** Every tab replaced by four spaces. *)
Fixpoint expandTabs (s : string) : string :=
  match s with
  | EmptyString => EmptyString
  | String c r =>
      if Ascii.eqb c tab then "    " +++ expandTabs r
      else String c (expandTabs r)
  end.

(** Decimal text of a natural number, as [String(n)] prints it. *)
Definition ofNat (n : nat) : string :=
  NilZero.string_of_uint (Nat.to_uint n).

End JsString.

(* ================================================================== *)
(** * Regular expressions *)
(* ================================================================== *)

(** The fragment of RegExp the sources use: every pattern is anchored at the
    start, every repetition ranges over a character class, and alternatives
    are explored in the order of a backtracking matcher (greedy repetitions
    try the longest run first, lazy ones the shortest). *)
Module Regex.
Import JsString.

Inductive re : Type :=
| Eps
| Cls (p : ascii -> bool)                     (* one unit of a class *)
| Rep (greedy : bool) (min : nat) (p : ascii -> bool)
                                              (* p* , p+ , p*? *)
| Opt (p : ascii -> bool)                     (* p? *)
| Seq (r1 r2 : re)
| Grp (r : re)                                (* capture group *)
| Eos.                                        (* $ *)

(** The first [length s - length rest] units of [s]. *)
Definition consumed (s rest : string) : string :=
  substring 0 (String.length s - String.length rest) s.

Section Exec.
Context {A : Type}.

Definition orElse (x : option A) (y : unit -> option A) : option A :=
  match x with Some r => Some r | None => y tt end.

Fixpoint rep_greedy (p : ascii -> bool) (min : nat) (s : string)
         (k : string -> option A) : option A :=
  let stop := if min =? 0 then k s else None in
  match s with
  | String c r =>
      if p c then orElse (rep_greedy p (pred min) r k) (fun _ => stop)
      else stop
  | EmptyString => stop
  end.

Fixpoint rep_lazy (p : ascii -> bool) (min : nat) (s : string)
         (k : string -> option A) : option A :=
  let more :=
    fun _ : unit =>
      match s with
      | String c r => if p c then rep_lazy p (pred min) r k else None
      | EmptyString => None
      end in
  if min =? 0 then orElse (k s) more else more tt.

Fixpoint run (r : re) (s : string) (caps : list string)
         (k : string -> list string -> option A) : option A :=
  match r with
  | Eps => k s caps
  | Cls p =>
      match s with
      | String c rest => if p c then k rest caps else None
      | EmptyString => None
      end
  | Rep true min p => rep_greedy p min s (fun rest => k rest caps)
  | Rep false min p => rep_lazy p min s (fun rest => k rest caps)
  | Opt p =>
      match s with
      | String c rest =>
          if p c then orElse (k rest caps) (fun _ => k s caps)
          else k s caps
      | EmptyString => k s caps
      end
  | Seq r1 r2 => run r1 s caps (fun rest caps' => run r2 rest caps' k)
  | Grp r1 =>
      run r1 s caps
          (fun rest caps' => k rest (caps' ++ [consumed s rest]))
  | Eos => if is_empty s then k s caps else None
  end.
End Exec.

(** [exec r s]: the capture groups (in order of their closing bracket)
    and the text after the match, or [None]. *)
Definition exec (r : re) (s : string) : option (list string * string) :=
  run r s [] (fun rest caps => Some (caps, rest)).

(** [r.test(s)]. *)
Definition test (r : re) (s : string) : bool :=
  match exec r s with Some _ => true | None => false end.

(** Replacing the match of an anchored pattern by the empty string: the
    match is cut off the front. *)
Definition stripMatch (r : re) (s : string) : string :=
  match exec r s with Some (_, rest) => rest | None => s end.

(** A keyword after [escapeRegex]: every unit stands for itself, compared
    case-insensitively (flag [i]). *)
Fixpoint lit_ci (kw : string) : re :=
  match kw with
  | EmptyString => Eps
  | String c r => Seq (Cls (eq_ci c)) (lit_ci r)
  end.

Definition chr_is (c : ascii) : re := Cls (Ascii.eqb c).

Fixpoint seq (rs : list re) : re :=
  match rs with
  | [] => Eps
  | [r] => r
  | r :: rest => Seq r (seq rest)
  end.

Definition ws_star : re := Rep true 0 is_space.   (* \s* *)
Definition ws_plus : re := Rep true 1 is_space.   (* \s+ *)
Definition any_plus : re := Rep true 1 is_dot.    (* .+  *)

End Regex.

(* ================================================================== *)
(** * The structogram tree *)
(* ================================================================== *)

Set Warnings "-register-all".

Module Tree.

(** A function parameter [{ pos, parName }]. *)
Record param : Type := mkParam { pos : string; parName : string }.

(** The object literals of the sources, by their [type] tag.  [id] is
    optional (a parsed [Placeholder] and an exported tree carry none);
    a [Placeholder] is created without [followElement] ([Null]) but the
    editor may give it one;
    a missing [text] is the empty string, which is what every reader
    substitutes for it. *)
Inductive node : Type :=
| Null
| InsertNode (id : option string) (followElement : node)
| Placeholder (id : option string) (followElement : node)
| TaskNode (id : option string) (text : string) (followElement : node)
| InputNode (id : option string) (text : string) (followElement : node)
| OutputNode (id : option string) (text : string) (followElement : node)
| BranchNode (id : option string) (text : string)
             (columnWidths : option (list Q))
             (trueChild falseChild followElement : node)
| CaseNode (id : option string) (text : string)
           (columnWidths : option (list Q))
           (defaultOn : bool) (defaultNode : node) (cases : list node)
           (followElement : node)
| InsertCase (id : option string) (text : string) (followElement : node)
| HeadLoopNode (id : option string) (text : string)
               (child followElement : node)
| CountLoopNode (id : option string) (text : string)
                (child followElement : node)
| FootLoopNode (id : option string) (text : string)
               (child followElement : node)
| FunctionNode (id : option string) (text : string)
               (parameters : list param) (child followElement : node)
| TryCatchNode (id : option string) (text : string)
               (tryChild catchChild followElement : node).

(** [node.id]. *)
Definition node_id (n : node) : option string :=
  match n with
  | Null => None
  | InsertNode i _ | Placeholder i _ | TaskNode i _ _ | InputNode i _ _
  | OutputNode i _ _ | BranchNode i _ _ _ _ _ | CaseNode i _ _ _ _ _ _
  | InsertCase i _ _ | HeadLoopNode i _ _ _ | CountLoopNode i _ _ _
  | FootLoopNode i _ _ _ | FunctionNode i _ _ _ _
  | TryCatchNode i _ _ _ _ => i
  end.

(** [node.followElement]. *)
Definition follow (n : node) : node :=
  match n with
  | Null => Null
  | InsertNode _ f | Placeholder _ f
  | TaskNode _ _ f | InputNode _ _ f | OutputNode _ _ f
  | BranchNode _ _ _ _ _ f | CaseNode _ _ _ _ _ _ f | InsertCase _ _ f
  | HeadLoopNode _ _ _ f | CountLoopNode _ _ _ f | FootLoopNode _ _ _ f
  | FunctionNode _ _ _ _ f | TryCatchNode _ _ _ _ f => f
  end.

Definition is_null (n : node) : bool :=
  match n with Null => true | _ => false end.

(** The tree with every identifier removed: two trees are structurally
    equal modulo identifiers when their images are equal. *)
Fixpoint erase_ids (n : node) : node :=
  match n with
  | Null => Null
  | InsertNode _ f => InsertNode None (erase_ids f)
  | Placeholder _ f => Placeholder None (erase_ids f)
  | TaskNode _ t f => TaskNode None t (erase_ids f)
  | InputNode _ t f => InputNode None t (erase_ids f)
  | OutputNode _ t f => OutputNode None t (erase_ids f)
  | BranchNode _ t cw a b f =>
      BranchNode None t cw (erase_ids a) (erase_ids b) (erase_ids f)
  | CaseNode _ t cw d dn cs f =>
      CaseNode None t cw d (erase_ids dn) (map erase_ids cs) (erase_ids f)
  | InsertCase _ t f => InsertCase None t (erase_ids f)
  | HeadLoopNode _ t c f => HeadLoopNode None t (erase_ids c) (erase_ids f)
  | CountLoopNode _ t c f => CountLoopNode None t (erase_ids c) (erase_ids f)
  | FootLoopNode _ t c f => FootLoopNode None t (erase_ids c) (erase_ids f)
  | FunctionNode _ t ps c f =>
      FunctionNode None t ps (erase_ids c) (erase_ids f)
  | TryCatchNode _ t a b f =>
      TryCatchNode None t (erase_ids a) (erase_ids b) (erase_ids f)
  end.

(** The direct sub-nodes, in the order the traversals of the sources
    visit them: [followElement], [trueChild], [falseChild], [child],
    [tryChild], [catchChild], each of [cases], [defaultNode]. *)
Definition subnodes (n : node) : list node :=
  match n with
  | Null => []
  | InsertNode _ f | Placeholder _ f
  | TaskNode _ _ f | InputNode _ _ f | OutputNode _ _ f
  | InsertCase _ _ f => [f]
  | BranchNode _ _ _ a b f => [f; a; b]
  | CaseNode _ _ _ _ dn cs f => f :: cs ++ [dn]
  | HeadLoopNode _ _ c f | CountLoopNode _ _ c f | FootLoopNode _ _ c f
  | FunctionNode _ _ _ c f => [f; c]
  | TryCatchNode _ _ a b f => [f; a; b]
  end.

(** Every node of the tree, in depth-first order. *)
Fixpoint nodes (n : node) : list node :=
  n ::
  match n with
  | Null => []
  | InsertNode _ f | Placeholder _ f
  | TaskNode _ _ f | InputNode _ _ f | OutputNode _ _ f
  | InsertCase _ _ f => nodes f
  | BranchNode _ _ _ a b f => nodes f ++ nodes a ++ nodes b
  | CaseNode _ _ _ _ dn cs f =>
      nodes f ++ flat_map nodes cs ++ nodes dn
  | HeadLoopNode _ _ c f | CountLoopNode _ _ c f | FootLoopNode _ _ c f
  | FunctionNode _ _ _ c f => nodes f ++ nodes c
  | TryCatchNode _ _ a b f => nodes f ++ nodes a ++ nodes b
  end.

End Tree.

(* ================================================================== *)
(** * A counter threaded through the code that draws identifiers *)
(* ================================================================== *)

Module Counter.

Definition M (A : Type) : Type := nat -> A * nat.

Definition ret {A} (a : A) : M A := fun s => (a, s).

Definition bind {A B} (m : M A) (f : A -> M B) : M B :=
  fun s => let (a, s') := m s in f a s'.

(** [++_idCounter]. *)
Definition tick : M nat := fun s => (S s, S s).

Definition eval {A} (m : M A) (s : nat) : A := fst (m s).

End Counter.

Notation "x <- m ;; k" := (Counter.bind m (fun x => k))
  (at level 61, m at next level, right associativity).

(* ================================================================== *)
(** * The pseudocode parser *)
(* ================================================================== *)

Module Parser.
Import JsString Regex Tree Counter.

(** A keyword map. *)
Record keywords : Type := mkKeywords {
  kw_if : string; kw_else : string;
  kw_repeat : string; kw_while : string; kw_for : string;
  kw_switch : string; kw_case : string;
  kw_function : string;
  kw_try : string; kw_catch : string;
  kw_input : string; kw_output : string;
  kw_true : string; kw_false : string;
  kw_default : string
}.

(** u with diaeresis, code unit 252. *)
Definition u_uml : string := str1 (chr 252).

Definition KEYWORDS_DE : keywords := {|
  kw_if := "falls"; kw_else := "sonst";
  kw_repeat := "wiederhole"; kw_while := "solange";
  kw_for := "f" +++ u_uml +++ "r";
  kw_switch := "unterscheide"; kw_case := "fall";
  kw_function := "funktion";
  kw_try := "versuche"; kw_catch := "fange";
  kw_input := "eingabe"; kw_output := "ausgabe";
  kw_true := "Wahr"; kw_false := "Falsch";
  kw_default := "Sonst" |}.

Definition KEYWORDS_EN : keywords := {|
  kw_if := "if"; kw_else := "else";
  kw_repeat := "repeat"; kw_while := "while"; kw_for := "for";
  kw_switch := "switch"; kw_case := "case";
  kw_function := "function";
  kw_try := "try"; kw_catch := "catch";
  kw_input := "input"; kw_output := "output";
  kw_true := "True"; kw_false := "False";
  kw_default := "Default" |}.

(** ** Identifiers *)

(** [uid()]: the prefix [__pseudo_] and the incremented counter. *)
Definition uid : M string :=
  n <- tick ;; ret ("__pseudo_" +++ ofNat n).

(** [makeInsert(followElement)]. *)
Definition makeInsert (followElement : node) : M node :=
  i <- uid ;; ret (InsertNode (Some i) followElement).

(** [placeholder()]. *)
Definition placeholder : node := Placeholder None Null.

(** ** Numbers in a column-width list *)

(** The run of decimal digits at the head of [s]: its value continuing
    [acc], its length, and the rest. *)
Fixpoint read_digits (s : string) (acc : N) : N * nat * string :=
  match s with
  | String c r =>
      if is_digit c
      then let '(v, n, rest) :=
             read_digits r (acc * 10 + N.of_nat (code c - 48))%N in
           (v, S n, rest)
      else (acc, 0, s)
  | EmptyString => (acc, 0, s)
  end.

Definition pow10 (n : nat) : positive := Pos.pow 10 (Pos.of_nat n).

(** [parseFloat(s)] on text made of digits, dots and white space, which is
    all the class [[0-9.,\s]] split at commas lets through: the longest
    prefix [digits], [digits.digits] or [.digits] after leading white
    space; [None] is NaN.  The value is the exact decimal value, in
    lowest terms; the script has the nearest double instead, and
    [Infinity] beyond the range of doubles. *)
Definition parseFloat (s : string) : option Q :=
  let '(ip, n1, r1) := read_digits (trimStart s) 0%N in
  match r1 with
  | String "." r2 =>
      let '(fp, n2, _) := read_digits r2 0%N in
      if (n1 =? 0) && (n2 =? 0) then None
      else if n2 =? 0 then Some (Qred (Z.of_N ip # 1))
      else Some (Qred (Z.of_N (ip * Npos (pow10 n2) + fp) # pow10 n2))
  | _ => if n1 =? 0 then None else Some (Qred (Z.of_N ip # 1))
  end.

(** [.filter(n => !isNaN(n))] after [.map(parseFloat)]. *)
Fixpoint keepNumbers (xs : list (option Q)) : list Q :=
  match xs with
  | [] => []
  | Some q :: r => q :: keepNumbers r
  | None :: r => keepNumbers r
  end.

(** The pattern of a trailing bracketed list: a lazy group of
    non-terminators, white space, an opening bracket, a group of one or
    more digits, dots, commas and white space, a closing bracket, white
    space, the end. *)
Definition is_width_char (c : ascii) : bool :=
  is_digit c || Ascii.eqb c "." || Ascii.eqb c "," || is_space c.

Definition reColumnWidths : re :=
  seq [Grp (Rep false 0 is_dot); ws_star; chr_is "[";
       Grp (Rep true 1 is_width_char); chr_is "]"; ws_star; Eos].

(** [extractColumnWidths(str)]: [{ text, columnWidths }]. *)
Definition extractColumnWidths (str : string) : string * option (list Q) :=
  match exec reColumnWidths str with
  | Some ([m1; m2], _) =>
      let widths :=
        keepNumbers (map (fun s => parseFloat (trim s)) (split "," m2)) in
      (trim m1, if 0 <? length widths then Some widths else None)
  | _ => (str, None)
  end.

(** ** Lines and blocks *)

Record line : Type := mkLine { text : string; indent : nat }.

Record block : Type :=
  mkBlock { btext : string; bindent : nat; children : list line }.

Definition tokenizeLine (raw : string) : option line :=
  let trimmed := trimEnd raw in
  if is_empty trimmed || startsWith trimmed "#" then None
  else
    let stripped := expandTabs raw in
    Some {| text := trim trimmed;
            indent := String.length stripped
                      - String.length (trimStart stripped) |}.

Fixpoint keepLines (xs : list (option line)) : list line :=
  match xs with
  | [] => []
  | Some l :: r => l :: keepLines r
  | None :: r => keepLines r
  end.

(** [tokenize(source)]. *)
Definition tokenize (source : string) : list line :=
  keepLines (map tokenizeLine (split lf source)).

Definition deeper (baseIndent : nat) (l : line) : bool :=
  baseIndent <? indent l.

Fixpoint takeWhile {A} (p : A -> bool) (xs : list A) : list A :=
  match xs with
  | x :: r => if p x then x :: takeWhile p r else []
  | [] => []
  end.

Fixpoint dropWhile {A} (p : A -> bool) (xs : list A) : list A :=
  match xs with
  | x :: r => if p x then dropWhile p r else xs
  | [] => []
  end.

(** [groupBlocks(lines, baseIndent)].  The loop of the source resumes
    after the children it has collected; resuming right after the header
    gives the same blocks, because deeper lines met outside a block are
    skipped (lemma [groupBlocks_resume] below). *)
Fixpoint groupBlocks (lines : list line) (baseIndent : nat) : list block :=
  match lines with
  | [] => []
  | l :: rest =>
      if indent l <? baseIndent then []
      else if baseIndent <? indent l then groupBlocks rest baseIndent
      else {| btext := text l; bindent := indent l;
              children := takeWhile (deeper baseIndent) rest |}
           :: groupBlocks rest baseIndent
  end.

(** [stripColon(text)]. *)
Definition stripColon (t : string) : string :=
  if endsWithChar t ":" then trimEnd (dropLast t) else t.

(** ** The patterns built from the keyword map *)

Definition not_char (c : ascii) : ascii -> bool :=
  fun x => negb (Ascii.eqb x c).

Definition colon_end : list re := [ws_star; chr_is ":"; Eos].

Definition reTryBlock (k : keywords) : re :=
  seq (lit_ci (kw_try k) :: colon_end).
Definition reCatchPrefix (k : keywords) : re :=
  seq [lit_ci (kw_catch k); ws_plus].
Definition reIfPrefix (k : keywords) : re :=
  seq [lit_ci (kw_if k); ws_plus].
Definition reElseBlock (k : keywords) : re :=
  seq (lit_ci (kw_else k) :: colon_end).
Definition reRepeatBlock (k : keywords) : re :=
  seq (lit_ci (kw_repeat k) :: colon_end).
Definition reWhilePrefix (k : keywords) : re :=
  seq [lit_ci (kw_while k); ws_plus].
Definition reCountLoop (k : keywords) : re :=
  seq ([lit_ci (kw_repeat k); ws_plus; lit_ci (kw_for k); ws_plus;
        Grp any_plus] ++ colon_end).
Definition reHeadLoop (k : keywords) : re :=
  seq ([lit_ci (kw_repeat k); ws_plus; lit_ci (kw_while k); ws_plus;
        Grp any_plus] ++ colon_end).
Definition reFuncDef (k : keywords) : re :=
  seq ([lit_ci (kw_function k); ws_plus; Grp (Rep true 1 is_word);
        ws_star; chr_is "("; Grp (Rep true 0 (not_char ")")); chr_is ")"]
       ++ colon_end).
Definition reSwitchBlock (k : keywords) : re :=
  seq ([lit_ci (kw_switch k); ws_plus; Grp any_plus] ++ colon_end).
Definition reCaseLabel (k : keywords) : re :=
  seq ([lit_ci (kw_case k); ws_plus; Grp any_plus] ++ colon_end).
Definition reCall (name : string) : re :=
  seq [lit_ci name; ws_star; chr_is "("; ws_star; Opt (Ascii.eqb dquote);
       Grp (Rep true 0 (not_char dquote)); Opt (Ascii.eqb dquote);
       ws_star; chr_is ")"; Eos].
Definition reInput (k : keywords) : re := reCall (kw_input k).
Definition reOutput (k : keywords) : re := reCall (kw_output k).

(** A double quote, any run of non-terminators, a double quote, the end:
    the pattern that recognises a quoted case label. *)
Definition reQuoted : re :=
  seq [chr_is dquote; Grp (Rep true 0 is_dot); chr_is dquote; Eos].

(** Replacing that pattern by its group: one pair of enclosing quotes is
    removed. *)
Definition unquote (s : string) : string :=
  match exec reQuoted s with
  | Some ([inner], _) => inner
  | _ => s
  end.

(** The first capture group of a match. *)
Definition capture1 (r : re) (s : string) : option string :=
  match exec r s with
  | Some (c :: _, _) => Some c
  | _ => None
  end.

(** The first two capture groups of a match. *)
Definition capture2 (r : re) (s : string) : option (string * string) :=
  match exec r s with
  | Some (c1 :: c2 :: _, _) => Some (c1, c2)
  | _ => None
  end.

(** ** The merge pass *)

(** The test of the forward pre-scan: does [nextText] complete the pair
    that [text] opens?  All three branches of the source set the same
    flag. *)
Definition pairs (k : keywords) (t nextText : string) : bool :=
  (test (reTryBlock k) t && test (reCatchPrefix k) nextText)
  || (test (reIfPrefix k) t && test (reElseBlock k) nextText)
  || (test (reRepeatBlock k) t && test (reWhilePrefix k) nextText
      && negb (endsWithChar nextText ":")).

(** [paramStr.split(",").map((p, idx) => ...)], from index [idx]. *)
Fixpoint makeParams (idx : nat) (ps : list string) : list param :=
  match ps with
  | [] => []
  | p :: r =>
      {| pos := ofNat (idx * 3); parName := trim p |} :: makeParams (S idx) r
  end.

Definition parseParams (raw : string) : list param :=
  let paramStr := trim raw in
  if is_empty paramStr then [] else makeParams 0 (split "," paramStr).

Section Merge.
Variable k : keywords.

(** [mergeBlocks] on the children of a block, one nesting level down. *)
Variable recur : list line -> nat -> M node.

(** The state of the loop over the blocks of a switch body. *)
Definition caseAcc : Type := (list node * option node * bool)%type.

Fixpoint caseLoop (caseChildIndent : nat) (caseBlocks : list block)
         (acc : caseAcc) : M caseAcc :=
  match caseBlocks with
  | [] => ret acc
  | cb :: rest =>
      let '(cases, defaultNode, defaultOn) := acc in
      match capture1 (reCaseLabel k) (btext cb) with
      | Some label =>
          caseBody <- recur (children cb) caseChildIndent ;;
          i <- uid ;;
          caseLoop caseChildIndent rest
            (cases ++ [InsertCase (Some i) (unquote label) caseBody],
             defaultNode, defaultOn)
      | None =>
          if test (reElseBlock k) (btext cb) then
            caseBody <- recur (children cb) caseChildIndent ;;
            i <- uid ;;
            caseLoop caseChildIndent rest
              (cases, Some (InsertCase (Some i) (kw_default k) caseBody),
               true)
          else caseLoop caseChildIndent rest acc
      end
  end.

(** One turn of the backward loop for a block that is not the second
    half of a pair: the chain that starts at this block, given the chain
    [tail] built for everything after it. *)
Definition statement (baseIndent : nat) (b : block)
           (nextBlock : option block) (tail : node) : M node :=
  let t := btext b in
  let childIndent := baseIndent + 4 in
  let next_is (r : re) : bool :=
    match nextBlock with
    | Some nb => test r (btext nb)
    | None => false
    end in
  let nextText := match nextBlock with Some nb => btext nb | None => "" end in
  let nextChildren :=
    match nextBlock with Some nb => children nb | None => [] end in
  if test (reTryBlock k) t && next_is (reCatchPrefix k) then
    tryChild <- recur (children b) childIndent ;;
    let catchText := stripColon (stripMatch (reCatchPrefix k) nextText) in
    catchChild <- recur nextChildren childIndent ;;
    i <- uid ;;
    makeInsert (TryCatchNode (Some i) catchText tryChild catchChild tail)
  else if test (reIfPrefix k) t && next_is (reElseBlock k) then
    let rawCond := stripColon (stripMatch (reIfPrefix k) t) in
    let '(cond, cw) := extractColumnWidths rawCond in
    trueChild <- recur (children b) childIndent ;;
    falseChild <- recur nextChildren childIndent ;;
    i <- uid ;;
    makeInsert (BranchNode (Some i) cond cw trueChild falseChild tail)
  else if test (reIfPrefix k) t then
    let rawCond := stripColon (stripMatch (reIfPrefix k) t) in
    let '(cond, cw) := extractColumnWidths rawCond in
    trueChild <- recur (children b) childIndent ;;
    i <- uid ;;
    falseChild <- makeInsert placeholder ;;
    makeInsert (BranchNode (Some i) cond cw trueChild falseChild tail)
  else if test (reRepeatBlock k) t && next_is (reWhilePrefix k)
          && negb (endsWithChar nextText ":") then
    let cond := trim (stripMatch (reWhilePrefix k) nextText) in
    childTree <- recur (children b) childIndent ;;
    i <- uid ;;
    makeInsert (FootLoopNode (Some i) cond childTree tail)
  else
  match capture1 (reCountLoop k) t with
  | Some header =>
      childTree <- recur (children b) childIndent ;;
      i <- uid ;;
      makeInsert (CountLoopNode (Some i) header childTree tail)
  | None =>
  match capture1 (reHeadLoop k) t with
  | Some header =>
      childTree <- recur (children b) childIndent ;;
      i <- uid ;;
      makeInsert (HeadLoopNode (Some i) header childTree tail)
  | None =>
  match capture2 (reFuncDef k) t with
  | Some (fname, rawParams) =>
      let parameters := parseParams rawParams in
      childTree <- recur (children b) childIndent ;;
      i <- uid ;;
      makeInsert (FunctionNode (Some i) fname parameters childTree tail)
  | None =>
  match capture1 (reSwitchBlock k) t with
  | Some rawVar =>
      let '(varName, cw) := extractColumnWidths rawVar in
      let caseBlocks := groupBlocks (children b) childIndent in
      acc <- caseLoop (childIndent + 4) caseBlocks ([], None, false) ;;
      let '(cases, found, defaultOn) := acc in
      defaultNode <-
        match found with
        | Some d => ret d
        | None =>
            i <- uid ;;
            body <- makeInsert placeholder ;;
            ret (InsertCase (Some i) (kw_default k) body)
        end ;;
      i <- uid ;;
      makeInsert
        (CaseNode (Some i) varName cw defaultOn defaultNode cases tail)
  | None =>
  match capture1 (reInput k) t with
  | Some arg =>
      i <- uid ;; makeInsert (InputNode (Some i) arg tail)
  | None =>
  match capture1 (reOutput k) t with
  | Some arg =>
      i <- uid ;; makeInsert (OutputNode (Some i) arg tail)
  | None =>
      i <- uid ;; makeInsert (TaskNode (Some i) t tail)
  end end end end end end.

(** The backward loop over the sibling blocks.  [skip] is the flag the
    pre-scan has put on the first block; the flag of the next block is
    [pairs] of this block and the next.  The chain for the later blocks
    is built first, as the loop runs from the last block. *)
Fixpoint build (baseIndent : nat) (skip : bool) (blocks : list block)
  : M node :=
  match blocks with
  | [] => makeInsert Null
  | b :: rest =>
      let nextBlock := hd_error rest in
      let skipNext :=
        match nextBlock with
        | Some nb => pairs k (btext b) (btext nb)
        | None => false
        end in
      tail <- build baseIndent skipNext rest ;;
      if skip then ret tail else statement baseIndent b nextBlock tail
  end.

Definition mergeBody (lines : list line) (baseIndent : nat) : M node :=
  match groupBlocks lines baseIndent with
  | [] => makeInsert placeholder
  | blocks => build baseIndent false blocks
  end.
End Merge.

(** [mergeBlocks(lines, baseIndent, keywords)].  The recursion descends
    into the children of a block, a strictly shorter list of lines;
    [fuel] bounds the nesting depth and the length of [lines] is enough
    (lemma [mergeBlocks_fuel]). *)
Fixpoint mergeBlocks (fuel : nat) (lines : list line) (baseIndent : nat)
         (k : keywords) : M node :=
  match fuel with
  | O => mergeBody k (fun _ _ => makeInsert placeholder) lines baseIndent
  | S f =>
      mergeBody k (fun ls b => mergeBlocks f ls b k) lines baseIndent
  end.

(** [Math.min(...lines.map(l => l.indent))] for a non-empty list. *)
Fixpoint minIndent (first : line) (rest : list line) : nat :=
  match rest with
  | [] => indent first
  | l :: r => Nat.min (indent first) (minIndent l r)
  end.

(** [parsePseudocode(source, keywords)]; the counter is reset first. *)
Definition parsePseudocode (source : string) (k : keywords) : node :=
  let lines := tokenize source in
  eval
    match lines with
    | [] => makeInsert placeholder
    | l :: rest =>
        mergeBlocks (length lines) lines (minIndent l rest) k
    end 0.

(** Lines of a text joined by line feeds. *)
Definition unlines (ls : list string) : string := join (str1 lf) ls.

End Parser.

(* ================================================================== *)
(** * Thrown errors *)
(* ================================================================== *)

Module Result.

Inductive error : Type :=
| Error (message : string)        (* [throw new Error(message)] *)
| TypeError.                      (* a property read on null or undefined *)

Inductive result (A : Type) : Type :=
| Ok (a : A)
| Throw (e : error).
Arguments Ok {A} a.
Arguments Throw {A} e.

Definition bind {A B} (m : result A) (f : A -> result B) : result B :=
  match m with
  | Ok a => f a
  | Throw e => Throw e
  end.

Definition throws {A} (m : result A) : bool :=
  match m with Ok _ => false | Throw _ => true end.

End Result.

Notation "x <~ m ;; k" := (Result.bind m (fun x => k))
  (at level 61, m at next level, right associativity).

(* ================================================================== *)
(** * The serializer: tree to pseudocode *)
(* ================================================================== *)

Module Serializer.
Import JsString Tree Parser Result.

Definition INDENT : string := "    ".

Definition ind (level : nat) : string := JsString.repeat INDENT level.

(** [c.text] of an entry of [cases], read without a default: reading it on
    [null] throws, and a missing field joins the line as the text
    [undefined]. *)
Definition text_of (c : node) : result string :=
  match c with
  | Null => Throw TypeError
  | InsertNode _ _ | Placeholder _ _ => Ok "undefined"
  | TaskNode _ t _ | InputNode _ t _ | OutputNode _ t _
  | BranchNode _ t _ _ _ _ | CaseNode _ t _ _ _ _ _ | InsertCase _ t _
  | HeadLoopNode _ t _ _ | CountLoopNode _ t _ _ | FootLoopNode _ t _ _
  | FunctionNode _ t _ _ _ | TryCatchNode _ t _ _ _ => Ok t
  end.

Section Serialize.
(** The text of a number, [String(x)] of the host. *)
Variable numberToString : Q -> string.

Variable kw : keywords.

(** [colWidthSuffix(node)] from the [columnWidths] field. *)
Definition colWidthSuffix (cw : option (list Q)) : string :=
  match cw with
  | Some (w :: ws) =>
      " [" +++ join ", " (map numberToString (w :: ws)) +++ "]"
  | _ => ""
  end.

Definition quoted (t : string) : string :=
  "(" +++ str1 dquote +++ t +++ str1 dquote +++ ")".

(** [serialize(node, level, lines, kw)]: the lines it pushes. *)
Fixpoint serialize (n : node) (level : nat) : result (list string) :=
  match n with
  | Null => Ok []
  | InsertNode _ f => serialize f level
  | Placeholder _ _ => Ok []
  | TaskNode _ t f =>
      rest <~ serialize f level ;;
      Ok ((ind level +++ t) :: rest)
  | InputNode _ t f =>
      rest <~ serialize f level ;;
      Ok ((ind level +++ kw_input kw +++ quoted t) :: rest)
  | OutputNode _ t f =>
      rest <~ serialize f level ;;
      Ok ((ind level +++ kw_output kw +++ quoted t) :: rest)
  | BranchNode _ t cw a b f =>
      la <~ serialize a (level + 1) ;;
      lb <~ serialize b (level + 1) ;;
      rest <~ serialize f level ;;
      Ok ((ind level +++ kw_if kw +++ " " +++ t +++ colWidthSuffix cw +++ ":")
            :: la ++ (ind level +++ kw_else kw +++ ":") :: lb ++ rest)
  | CaseNode _ t cw defaultOn dn cs f =>
      let fix each (cs : list node) : result (list string) :=
        match cs with
        | [] => Ok []
        | c :: more =>
            label <~ text_of c ;;
            body <~
              match c with
              | Null => Ok []
              | InsertNode _ g | Placeholder _ g
              | TaskNode _ _ g | InputNode _ _ g
              | OutputNode _ _ g | BranchNode _ _ _ _ _ g
              | CaseNode _ _ _ _ _ _ g | InsertCase _ _ g
              | HeadLoopNode _ _ _ g | CountLoopNode _ _ _ g
              | FootLoopNode _ _ _ g | FunctionNode _ _ _ _ g
              | TryCatchNode _ _ _ _ g => serialize g (level + 2)
              end ;;
            others <~ each more ;;
            Ok ((ind (level + 1) +++ kw_case kw +++ " " +++ label +++ ":")
                  :: body ++ others)
        end in
      lcases <~ each cs ;;
      ldefault <~
        (if defaultOn && negb (is_null dn) then
           body <~
             match dn with
             | Null => Ok []
             | InsertNode _ g | Placeholder _ g
             | TaskNode _ _ g | InputNode _ _ g
             | OutputNode _ _ g | BranchNode _ _ _ _ _ g
             | CaseNode _ _ _ _ _ _ g | InsertCase _ _ g
             | HeadLoopNode _ _ _ g | CountLoopNode _ _ _ g
             | FootLoopNode _ _ _ g | FunctionNode _ _ _ _ g
             | TryCatchNode _ _ _ _ g => serialize g (level + 2)
             end ;;
           Ok ((ind (level + 1) +++ kw_else kw +++ ":") :: body)
         else Ok []) ;;
      rest <~ serialize f level ;;
      Ok ((ind level +++ kw_switch kw +++ " " +++ t +++ colWidthSuffix cw
             +++ ":")
            :: lcases ++ ldefault ++ rest)
  | InsertCase _ _ _ => Ok []
  | HeadLoopNode _ t c f =>
      lc <~ serialize c (level + 1) ;;
      rest <~ serialize f level ;;
      Ok ((ind level +++ kw_repeat kw +++ " " +++ kw_while kw +++ " " +++ t
             +++ ":")
            :: lc ++ rest)
  | CountLoopNode _ t c f =>
      lc <~ serialize c (level + 1) ;;
      rest <~ serialize f level ;;
      Ok ((ind level +++ kw_repeat kw +++ " " +++ kw_for kw +++ " " +++ t
             +++ ":")
            :: lc ++ rest)
  | FootLoopNode _ t c f =>
      lc <~ serialize c (level + 1) ;;
      rest <~ serialize f level ;;
      Ok ((ind level +++ kw_repeat kw +++ ":")
            :: lc ++ (ind level +++ kw_while kw +++ " " +++ t) :: rest)
  | FunctionNode _ t ps c f =>
      let params := join ", " (map parName ps) in
      lc <~ serialize c (level + 1) ;;
      rest <~ serialize f level ;;
      Ok ((ind level +++ kw_function kw +++ " " +++ t +++ "(" +++ params
             +++ "):")
            :: lc ++ rest)
  | TryCatchNode _ t a b f =>
      la <~ serialize a (level + 1) ;;
      lb <~ serialize b (level + 1) ;;
      rest <~ serialize f level ;;
      Ok ((ind level +++ kw_try kw +++ ":")
            :: la ++ (ind level +++ kw_catch kw +++ " " +++ t +++ ":")
            :: lb ++ rest)
  end.

(** [treeToPseudocode(tree, keywords)]. *)
Definition treeToPseudocode (tree : node) : result string :=
  lines <~ serialize tree 0 ;;
  Ok (join (str1 lf) lines).
End Serialize.

(** A number with a finite decimal expansion, printed as the host prints it
    when it lies below [10^21] and has fewer than six zeros after the
    point: integer digits, and after a point the fraction digits up to the
    last one that is not zero. *)
Fixpoint fractionDigits (fuel : nat) (num : N) (den : N) : string :=
  match fuel with
  | O => ""
  | S f =>
      if (num =? 0)%N then ""
      else let d := (num * 10 / den)%N in
           String (chr (48 + N.to_nat d))
                  (fractionDigits f (num * 10 mod den)%N den)
  end.

Definition decimalToString (q : Q) : string :=
  let sign := if (Qnum q <? 0)%Z then "-" else "" in
  let n := Z.to_N (Z.abs (Qnum q)) in
  let d := Npos (Qden q) in
  let ip := ofNat (N.to_nat (n / d)) in
  let fp := fractionDigits 30 (n mod d)%N d in
  sign +++ ip +++ (if is_empty fp then "" else "." +++ fp).

End Serializer.

(* ================================================================== *)
(** * The code generator *)
(* ================================================================== *)

Module CodeGen.
Import JsString Tree Result.

(** A template entry.  A field an entry of the table does not define is
    never read by [transform]; it is the empty string here. *)
Record entry : Type := mkEntry {
  prepre : string; pre : string; between : string; post : string
}.

(** The [InsertCase] entry. *)
Record caseEntry : Type := mkCaseEntry {
  preNormal : string; preDefault : string;
  casePost : string; postpost : string
}.

(** The value of [TRANSLATIONS[key]] as [transform] reads it: the
    per-node entries ([None] when the object has no such property),
    the brackets (a missing one is falsy like the empty text) and the
    [pseudoSwitch] flag (missing is falsy). *)
Record table : Type := mkTable {
  tInputNode : option entry;
  tOutputNode : option entry;
  tTaskNode : option entry;
  tBranchNode : option entry;
  tTryCatchNode : option entry;
  tCountLoopNode : option entry;
  tHeadLoopNode : option entry;
  tFootLoopNode : option entry;
  tFunctionNode : option entry;
  tCaseNode : option entry;
  tInsertCase : option caseEntry;
  leftBracket : string;
  rightBracket : string;
  pseudoSwitch : bool
}.

Definition nl : string := str1 lf.
Definition dq : string := str1 dquote.

Definition e2 (a b : string) : option entry :=
  Some {| prepre := ""; pre := a; between := ""; post := b |}.
Definition e3 (a m b : string) : option entry :=
  Some {| prepre := ""; pre := a; between := m; post := b |}.
Definition ep (pp a b : string) : option entry :=
  Some {| prepre := pp; pre := a; between := ""; post := b |}.

Definition python : table := {|
  tInputNode := e2 "" (" = input(" +++ dq +++ "Eingabe" +++ dq +++ ")" +++ nl);
  tOutputNode := e2 "print(" (")" +++ nl);
  tTaskNode := e2 "" nl;
  tBranchNode := e3 "if " ("else:" +++ nl) (":" +++ nl);
  tTryCatchNode := e3 ("try:" +++ nl) "except " (":" +++ nl);
  tCountLoopNode := e2 "for " (":" +++ nl);
  tHeadLoopNode := e2 "while " (":" +++ nl);
  tFootLoopNode :=
    ep ("while True:" +++ nl) "    if not "
       (":" +++ nl +++ "        break" +++ nl);
  tFunctionNode := e3 "def " "(" ("):" +++ nl);
  tCaseNode := e2 "if " (":" +++ nl);
  tInsertCase :=
    Some {| preNormal := "elif "; preDefault := "else";
            casePost := ":" +++ nl; postpost := nl |};
  leftBracket := "";
  rightBracket := "";
  pseudoSwitch := true |}.

Definition cStyle (input output func : option entry) : table := {|
  tInputNode := input;
  tOutputNode := output;
  tTaskNode := e2 "" (";" +++ nl);
  tBranchNode := e3 "if (" ("} else {" +++ nl) ")";
  tTryCatchNode := e3 "try" "catch (" ")";
  tCountLoopNode := e2 "for (" ")";
  tHeadLoopNode := e2 "while (" ")";
  tFootLoopNode := ep "do" "while (" (");" +++ nl);
  tFunctionNode := func;
  tCaseNode := e2 "switch (" ")";
  tInsertCase :=
    Some {| preNormal := "case "; preDefault := "default";
            casePost := ":" +++ nl; postpost := "break;" +++ nl |};
  leftBracket := "{";
  rightBracket := "}";
  pseudoSwitch := false |}.

Definition java : table :=
  cStyle (e2 "" (" = System.console().readLine();" +++ nl))
         (e2 "System.out.println(" (");" +++ nl))
         (e3 "public void " "(" ")").

Definition javascript : table :=
  cStyle (e2 "" (" = prompt(" +++ dq +++ "Eingabe" +++ dq +++ ");" +++ nl))
         (e2 "console.log(" (");" +++ nl))
         (e3 "function " "(" ")").

(** The own keys of [TRANSLATIONS], in insertion order
    ([Object.keys(TRANSLATIONS)]). *)
Definition ownKeys : list string := ["python"; "java"; "javascript"].

(** The properties every object literal inherits from [Object.prototype].
    Each is a function or an object, hence truthy, and none has any of
    the properties [transform] reads. *)
Definition inheritedKeys : list string :=
  ["constructor"; "__proto__"; "hasOwnProperty"; "isPrototypeOf";
   "propertyIsEnumerable"; "toLocaleString"; "toString"; "valueOf";
   "__defineGetter__"; "__defineSetter__"; "__lookupGetter__";
   "__lookupSetter__"].

Definition inherited : table := {|
  tInputNode := None; tOutputNode := None; tTaskNode := None;
  tBranchNode := None; tTryCatchNode := None; tCountLoopNode := None;
  tHeadLoopNode := None; tFootLoopNode := None; tFunctionNode := None;
  tCaseNode := None; tInsertCase := None;
  leftBracket := ""; rightBracket := ""; pseudoSwitch := false |}.

Definition mem (x : string) (xs : list string) : bool :=
  existsb (String.eqb x) xs.

(** [TRANSLATIONS[key]]: an own property, else one found on the
    prototype, else [undefined] ([None]). *)
Definition lookup (key : string) : option table :=
  if String.eqb key "python" then Some python
  else if String.eqb key "java" then Some java
  else if String.eqb key "javascript" then Some javascript
  else if mem key inheritedKeys then Some inherited
  else None.

Definition indent (level : nat) : string := JsString.repeat "    " level.

(** Reading a property of a table entry that may be [undefined]. *)
Definition get {A} (o : option A) : result A :=
  match o with
  | Some a => Ok a
  | None => Throw TypeError
  end.

Definition truthy (s : string) : bool := negb (is_empty s).

Section Transform.
Variable t : table.
Variable lang : string.

(** The text [" " + t.leftBracket + "\n"] after a header, if the
    target has brackets. *)
Definition opening : string :=
  if truthy (leftBracket t) then " " +++ leftBracket t +++ nl else "".

(** The closing line of a block, if the target has brackets. *)
Definition closing (level : nat) : list string :=
  if truthy (rightBracket t) then [indent level +++ rightBracket t +++ nl]
  else [].

(** [transform(node, level, t, lang)]. *)
Fixpoint transform (n : node) (level : nat) : result (list string) :=
  match n with
  | Null => Ok []
  | InsertNode _ f | Placeholder _ f => transform f level
  | TaskNode _ text f =>
      e <~ get (tTaskNode t) ;;
      rest <~ transform f level ;;
      Ok ((indent level +++ pre e +++ text +++ post e) :: rest)
  | InputNode _ text f =>
      e <~ get (tInputNode t) ;;
      rest <~ transform f level ;;
      Ok ((indent level +++ pre e +++ text +++ post e) :: rest)
  | OutputNode _ text f =>
      e <~ get (tOutputNode t) ;;
      rest <~ transform f level ;;
      Ok ((indent level +++ pre e +++ text +++ post e) :: rest)
  | BranchNode _ text _ a b f =>
      e <~ get (tBranchNode t) ;;
      la <~ transform a (level + 1) ;;
      lb <~ transform b (level + 1) ;;
      rest <~ transform f level ;;
      Ok ((indent level +++ pre e +++ text +++ post e +++ opening)
            :: la ++ (indent level +++ between e) :: lb
            ++ closing level ++ rest)
  | HeadLoopNode _ text c f =>
      e <~ get (tHeadLoopNode t) ;;
      lc <~ transform c (level + 1) ;;
      rest <~ transform f level ;;
      Ok ((indent level +++ pre e +++ text +++ post e +++ opening)
            :: lc ++ closing level ++ rest)
  | CountLoopNode _ text c f =>
      e <~ get (tCountLoopNode t) ;;
      lc <~ transform c (level + 1) ;;
      rest <~ transform f level ;;
      Ok ((indent level +++ pre e +++ text +++ post e +++ opening)
            :: lc ++ closing level ++ rest)
  | FootLoopNode _ text c f =>
      e <~ get (tFootLoopNode t) ;;
      lc <~ transform c (level + 1) ;;
      rest <~ transform f level ;;
      Ok ((indent level +++ prepre e +++ opening)
            :: lc
            ++ (if pseudoSwitch t
                then [indent level +++ pre e +++ text +++ post e]
                else (if truthy (rightBracket t)
                      then [indent level +++ rightBracket t +++ " "]
                      else [])
                     ++ [pre e +++ text +++ post e])
            ++ rest)
  | FunctionNode _ text ps c f =>
      let params := join ", " (map parName ps) in
      e <~ get (tFunctionNode t) ;;
      lc <~ transform c (level + 1) ;;
      rest <~ transform f level ;;
      Ok ((indent level +++ pre e +++ text +++ between e +++ params
             +++ post e +++ opening)
            :: lc ++ closing level ++ rest)
  | TryCatchNode _ text a b f =>
      e <~ get (tTryCatchNode t) ;;
      la <~ transform a (level + 1) ;;
      lb <~ transform b (level + 1) ;;
      rest <~ transform f level ;;
      Ok ((indent level +++ pre e +++ opening)
            :: la
            ++ (indent level
                  +++ (if truthy (rightBracket t)
                       then rightBracket t +++ " " else "")
                  +++ between e +++ text +++ post e +++ opening)
            :: lb ++ closing level ++ rest)
  | CaseNode _ text _ defaultOn dn cs f =>
      if pseudoSwitch t then
        let fix each (first : bool) (cs : list node)
          : result (list string) :=
          match cs with
          | [] => Ok []
          | Null :: _ => Throw TypeError
          | InsertCase _ ctext g :: more =>
              ic <~ get (tInsertCase t) ;;
              let prefix := if first then "if " else preNormal ic in
              body <~ transform g (level + 1) ;;
              others <~ each false more ;;
              Ok ((indent level +++ prefix +++ text +++ " == " +++ ctext
                     +++ casePost ic) :: body ++ others)
          | _ :: more => each first more
          end in
        lcases <~ each true cs ;;
        ldefault <~
          match dn with
          | Null => Ok []
          | _ =>
              if defaultOn then
                ic <~ get (tInsertCase t) ;;
                body <~
                  match dn with
                  | Null => Ok []
                  | InsertNode _ g | Placeholder _ g
                  | TaskNode _ _ g | InputNode _ _ g
                  | OutputNode _ _ g | BranchNode _ _ _ _ _ g
                  | CaseNode _ _ _ _ _ _ g | InsertCase _ _ g
                  | HeadLoopNode _ _ _ g | CountLoopNode _ _ _ g
                  | FootLoopNode _ _ _ g | FunctionNode _ _ _ _ g
                  | TryCatchNode _ _ _ _ g => transform g (level + 1)
                  end ;;
                Ok ((indent level +++ preDefault ic +++ casePost ic)
                      :: body)
              else Ok []
          end ;;
        rest <~ transform f level ;;
        Ok (lcases ++ ldefault ++ rest)
      else
        e <~ get (tCaseNode t) ;;
        let fix each (cs : list node) : result (list string) :=
          match cs with
          | [] => Ok []
          | Null :: _ => Throw TypeError
          | InsertCase _ ctext g :: more =>
              ic <~ get (tInsertCase t) ;;
              body <~ transform g (level + 2) ;;
              others <~ each more ;;
              Ok ((indent (level + 1) +++ preNormal ic +++ ctext
                     +++ casePost ic)
                    :: body
                    ++ (if truthy (postpost ic)
                        then [indent (level + 2) +++ postpost ic] else [])
                    ++ others)
          | _ :: more => each more
          end in
        lcases <~ each cs ;;
        ldefault <~
          match dn with
          | Null => Ok []
          | _ =>
              if defaultOn then
                ic <~ get (tInsertCase t) ;;
                body <~
                  match dn with
                  | Null => Ok []
                  | InsertNode _ g | Placeholder _ g
                  | TaskNode _ _ g | InputNode _ _ g
                  | OutputNode _ _ g | BranchNode _ _ _ _ _ g
                  | CaseNode _ _ _ _ _ _ g | InsertCase _ _ g
                  | HeadLoopNode _ _ _ g | CountLoopNode _ _ _ g
                  | FootLoopNode _ _ _ g | FunctionNode _ _ _ _ g
                  | TryCatchNode _ _ _ _ g => transform g (level + 2)
                  end ;;
                Ok ((indent (level + 1) +++ preDefault ic +++ casePost ic)
                      :: body
                      ++ (if String.eqb lang "java"
                          then [indent (level + 2) +++ postpost ic]
                          else []))
              else Ok []
          end ;;
        rest <~ transform f level ;;
        Ok ((indent level +++ pre e +++ text +++ post e +++ opening)
              :: lcases ++ ldefault ++ closing level ++ rest)
  | InsertCase _ _ f => transform f level
  end.
End Transform.

(** The message of the error thrown for an unknown target. *)
Definition unsupported (lang : string) : string :=
  "Unsupported language: " +++ lang +++ ". Supported: "
    +++ join ", " ownKeys.

(** [generateCode(tree, lang)]. *)
Definition generateCode (tree : node) (lang : string) : result string :=
  match lookup (toLowerCase lang) with
  | None => Throw (Error (unsupported lang))
  | Some t =>
      lines <~ transform t (toLowerCase lang) tree 0 ;;
      Ok (join "" lines)
  end.

End CodeGen.

(* ================================================================== *)
(** * The tree editor *)
(* ================================================================== *)

Module Editor.
Import JsString Tree Result.

(** ** Properties that hold sub-nodes *)

Inductive key : Type :=
| KfollowElement | KtrueChild | KfalseChild | Kchild | KtryChild
| KcatchChild | Kcases (index : nat) | KdefaultNode.

(** [node[key]] (and [node.cases[index]]); [Null] when absent. *)
Definition getKey (n : node) (k : key) : node :=
  match k, n with
  | KfollowElement, _ => follow n
  | KtrueChild, BranchNode _ _ _ a _ _ => a
  | KfalseChild, BranchNode _ _ _ _ b _ => b
  | Kchild, (HeadLoopNode _ _ c _ | CountLoopNode _ _ c _
            | FootLoopNode _ _ c _ | FunctionNode _ _ _ c _) => c
  | KtryChild, TryCatchNode _ _ a _ _ => a
  | KcatchChild, TryCatchNode _ _ _ b _ => b
  | Kcases i, CaseNode _ _ _ _ _ cs _ => nth i cs Null
  | KdefaultNode, CaseNode _ _ _ _ dn _ _ => dn
  | _, _ => Null
  end.

Fixpoint setNth (i : nat) (cs : list node) (v : node) : list node :=
  match cs, i with
  | [], _ => []
  | _ :: r, O => v :: r
  | c :: r, S j => c :: setNth j r v
  end.

(** [node.followElement = v]. *)
Definition setFollow (n v : node) : node :=
  match n with
  | Null => Null
  | InsertNode i _ => InsertNode i v
  | Placeholder i _ => Placeholder i v
  | TaskNode i t _ => TaskNode i t v
  | InputNode i t _ => InputNode i t v
  | OutputNode i t _ => OutputNode i t v
  | BranchNode i t cw a b _ => BranchNode i t cw a b v
  | CaseNode i t cw d dn cs _ => CaseNode i t cw d dn cs v
  | InsertCase i t _ => InsertCase i t v
  | HeadLoopNode i t c _ => HeadLoopNode i t c v
  | CountLoopNode i t c _ => CountLoopNode i t c v
  | FootLoopNode i t c _ => FootLoopNode i t c v
  | FunctionNode i t ps c _ => FunctionNode i t ps c v
  | TryCatchNode i t a b _ => TryCatchNode i t a b v
  end.

(** [node[key] = v] for a property the node has (the only ones the
    traversals return). *)
Definition setKey (n : node) (k : key) (v : node) : node :=
  match k, n with
  | KfollowElement, _ => setFollow n v
  | KtrueChild, BranchNode i t cw _ b f => BranchNode i t cw v b f
  | KfalseChild, BranchNode i t cw a _ f => BranchNode i t cw a v f
  | Kchild, HeadLoopNode i t _ f => HeadLoopNode i t v f
  | Kchild, CountLoopNode i t _ f => CountLoopNode i t v f
  | Kchild, FootLoopNode i t _ f => FootLoopNode i t v f
  | Kchild, FunctionNode i t ps _ f => FunctionNode i t ps v f
  | KtryChild, TryCatchNode i t _ b f => TryCatchNode i t v b f
  | KcatchChild, TryCatchNode i t a _ f => TryCatchNode i t a v f
  | Kcases j, CaseNode i t cw d dn cs f =>
      CaseNode i t cw d dn (setNth j cs v) f
  | KdefaultNode, CaseNode i t cw d _ cs f => CaseNode i t cw d v cs f
  | _, _ => n
  end.

(** A reference to an object inside a tree: the properties to follow from
    the root.  The [{ parent, key, index }] of [findParent] is the last
    step of the path and the object the steps before it lead to; the
    empty path is [{ parent: null, key: null, index: null }]. *)
Definition path : Type := list key.

Fixpoint getAt (n : node) (p : path) : node :=
  match p with
  | [] => n
  | k :: r => getAt (getKey n k) r
  end.

(** The tree after the object at [p] has been replaced by [v]. *)
Fixpoint setAt (n : node) (p : path) (v : node) : node :=
  match p with
  | [] => v
  | k :: r => setKey n k (setAt (getKey n k) r v)
  end.

(** [tree.id === id]. *)
Definition has_id (n : node) (id : string) : bool :=
  match node_id n with
  | Some i => String.eqb i id
  | None => false
  end.

Definition orElse {A} (x y : option A) : option A :=
  match x with Some a => Some a | None => y end.

(** [findNode(tree, id)]. *)
Fixpoint findNode (tree : node) (id : string) : option node :=
  if has_id tree id then Some tree
  else
    match tree with
    | Null => None
    | InsertNode _ f | Placeholder _ f
    | TaskNode _ _ f | InputNode _ _ f | OutputNode _ _ f
    | InsertCase _ _ f => findNode f id
    | BranchNode _ _ _ a b f =>
        orElse (findNode f id) (orElse (findNode a id) (findNode b id))
    | HeadLoopNode _ _ c f | CountLoopNode _ _ c f | FootLoopNode _ _ c f
    | FunctionNode _ _ _ c f => orElse (findNode f id) (findNode c id)
    | TryCatchNode _ _ a b f =>
        orElse (findNode f id) (orElse (findNode a id) (findNode b id))
    | CaseNode _ _ _ _ dn cs f =>
        let fix each (cs : list node) : option node :=
          match cs with
          | [] => None
          | c :: r => orElse (findNode c id) (each r)
          end in
        orElse (findNode f id) (orElse (each cs) (findNode dn id))
    end.

Definition under (k : key) (r : option path) : option path :=
  option_map (cons k) r.

(** [findParent(tree, id)]. *)
Fixpoint findParent (tree : node) (id : string) : option path :=
  if has_id tree id then Some []
  else
    match tree with
    | Null => None
    | InsertNode _ f | Placeholder _ f
    | TaskNode _ _ f | InputNode _ _ f | OutputNode _ _ f
    | InsertCase _ _ f => under KfollowElement (findParent f id)
    | BranchNode _ _ _ a b f =>
        orElse (under KfollowElement (findParent f id))
          (orElse (under KtrueChild (findParent a id))
                  (under KfalseChild (findParent b id)))
    | HeadLoopNode _ _ c f | CountLoopNode _ _ c f | FootLoopNode _ _ c f
    | FunctionNode _ _ _ c f =>
        orElse (under KfollowElement (findParent f id))
               (under Kchild (findParent c id))
    | TryCatchNode _ _ a b f =>
        orElse (under KfollowElement (findParent f id))
          (orElse (under KtryChild (findParent a id))
                  (under KcatchChild (findParent b id)))
    | CaseNode _ _ _ _ dn cs f =>
        let fix each (i : nat) (cs : list node) : option path :=
          match cs with
          | [] => None
          | c :: r =>
              orElse (under (Kcases i) (findParent c id)) (each (S i) r)
          end in
        orElse (under KfollowElement (findParent f id))
          (orElse (each 0 cs) (under KdefaultNode (findParent dn id)))
    end.

(** ** Identifiers and templates *)

(** The editor's counter with thrown errors. *)
Definition Ed (A : Type) : Type := nat -> result (A * nat).

Definition ret {A} (a : A) : Ed A := fun s => Ok (a, s).

Definition bind {A B} (m : Ed A) (f : A -> Ed B) : Ed B :=
  fun s => match m s with
           | Ok (a, s') => f a s'
           | Throw e => Throw e
           end.

Definition throw {A} (e : error) : Ed A := fun _ => Throw e.

Section Ops.
(** [Date.now().toString(36)] as read by the call of [genId] that
    moves the counter to [n]. *)
Variable clock : nat -> string.

Local Notation "x <- m ;;; k" := (bind m (fun x => k))
  (at level 61, m at next level, right associativity).

(** [genId()]. *)
Definition genId : Ed string :=
  fun s => Ok ("__ed_" +++ clock (S s) +++ "_" +++ ofNat (S s), S s).

(** A fresh empty chain: an InsertNode with a new id leading to a
    Placeholder. *)
Definition emptyChain : Ed node :=
  i <- genId ;;; ret (InsertNode (Some i) (Placeholder None Null)).

(** A fresh InsertCase with an empty chain under it. *)
Definition emptyCase (label : string) : Ed node :=
  i <- genId ;;;
  body <- emptyChain ;;;
  ret (InsertCase (Some i) label body).

(** [createNode(type)].  The unused [insert] template draws an
    identifier of its own. *)
Definition createNode (type : string) : Ed node :=
  id <- genId ;;;
  _ <- genId ;;;
  let i := Some id in
  if String.eqb type "TaskNode" then ret (TaskNode i "Anweisung" Null)
  else if String.eqb type "InputNode" then ret (InputNode i "Eingabe" Null)
  else if String.eqb type "OutputNode" then
    ret (OutputNode i "Ausgabe" Null)
  else if String.eqb type "BranchNode" then
    a <- emptyChain ;;;
    b <- emptyChain ;;;
    ret (BranchNode i "Bedingung" None a b Null)
  else if String.eqb type "CaseNode" then
    dn <- emptyCase "Sonst" ;;;
    c1 <- emptyCase "Fall 1" ;;;
    c2 <- emptyCase "Fall 2" ;;;
    ret (CaseNode i "Variable" None true dn [c1; c2] Null)
  else if String.eqb type "HeadLoopNode" then
    c <- emptyChain ;;; ret (HeadLoopNode i "Bedingung" c Null)
  else if String.eqb type "CountLoopNode" then
    c <- emptyChain ;;; ret (CountLoopNode i "i = 1 bis 10" c Null)
  else if String.eqb type "FootLoopNode" then
    c <- emptyChain ;;; ret (FootLoopNode i "Bedingung" c Null)
  else if String.eqb type "FunctionNode" then
    c <- emptyChain ;;;
    ret (FunctionNode i "funktion"
                      [{| pos := "0"; parName := "param" |}] c Null)
  else if String.eqb type "TryCatchNode" then
    a <- emptyChain ;;;
    b <- emptyChain ;;;
    ret (TryCatchNode i "Exception e" a b Null)
  else ret (TaskNode i type Null).

(** ** Operations *)

(** What an operation hands back: the very object it was given, or the
    root of an object graph it has built.  [JSON.parse] only makes new
    objects, so a built graph is never identical ([===]) to the input. *)
Inductive returned : Type :=
| TheInput
| Fresh (root : node).

(** The tree a returned reference denotes. *)
Definition value (input : node) (r : returned) : node :=
  match r with
  | TheInput => input
  | Fresh root => root
  end.

(** [output === input]. *)
Definition identical (r : returned) : bool :=
  match r with TheInput => true | Fresh _ => false end.

(** [cloneTree(node)]: the object graph read back from its JSON text.
    It has the nodes, identifiers and texts of [node]; of the numbers,
    JSON keeps the finite ones and writes [null] for the others.  The
    numbers of this model are finite; a statement about the content of
    a copy as a whole leaves the column widths out. *)
Definition cloneTree (n : node) : node := n.

(** The reference to the clone [root] of [tree]: [null] is cloned to
    [null] itself, an object to a new object. *)
Definition cloned (tree root : node) : returned :=
  if is_null tree then TheInput else Fresh root.

(** Writing through [{ parent, key, index }]: a property of [null]
    cannot be read. *)
Definition writeSlot (root : node) (p : path) (v : node) : Ed node :=
  match p with
  | [] => throw TypeError
  | _ => ret (setAt root p v)
  end.

(** Reading through [{ parent, key, index }]. *)
Definition readSlot (root : node) (p : path) : Ed node :=
  match p with
  | [] => throw TypeError
  | _ => ret (getAt root p)
  end.

(** [node.followElement || { type: Placeholder }]. *)
Definition followOrPlaceholder (n : node) : node :=
  match follow n with
  | Null => Placeholder None Null
  | f => f
  end.

(** [insertAt(tree, targetId, nodeType)].  The object [findNode]
    returns is the one at the path [findParent] returns (lemma
    [findNode_findParent]); it is updated in place there. *)
Definition insertAt (tree : node) (targetId nodeType : string)
  : Ed returned :=
  let root := cloneTree tree in
  match findNode root targetId, findParent root targetId with
  | Some target, Some p =>
      newNode <- createNode nodeType ;;;
      match target with
      | InsertNode i f =>
          ret (cloned tree
                 (setAt root p (InsertNode i (setFollow newNode f))))
      | Placeholder _ _ =>
          i1 <- genId ;;;
          i2 <- genId ;;;
          let newNode' :=
            setFollow newNode
                      (InsertNode (Some i2) (Placeholder None Null)) in
          root' <- writeSlot root p (InsertNode (Some i1) newNode') ;;;
          ret (cloned tree root')
      | _ => ret (cloned tree root)
      end
  | _, _ => ret (cloned tree root)
  end.

(** [removeNode(tree, nodeId)]. *)
Definition removeNode (tree : node) (nodeId : string) : Ed returned :=
  let root := cloneTree tree in
  match findParent root nodeId with
  | None => ret (cloned tree root)
  | Some p =>
      n <- readSlot root p ;;;
      if is_null n then ret (cloned tree root)
      else
        root' <- writeSlot root p (followOrPlaceholder n) ;;;
        ret (cloned tree root')
  end.

(** [node.text = newText] on a node that carries a text.  An InsertNode
    or Placeholder has no text field in this model and is left as it
    is; the editor only edits content nodes and case labels. *)
Definition setText (n : node) (s : string) : node :=
  match n with
  | Null => Null
  | InsertNode i f => InsertNode i f
  | Placeholder i f => Placeholder i f
  | TaskNode i _ f => TaskNode i s f
  | InputNode i _ f => InputNode i s f
  | OutputNode i _ f => OutputNode i s f
  | BranchNode i _ cw a b f => BranchNode i s cw a b f
  | CaseNode i _ cw d dn cs f => CaseNode i s cw d dn cs f
  | InsertCase i _ f => InsertCase i s f
  | HeadLoopNode i _ c f => HeadLoopNode i s c f
  | CountLoopNode i _ c f => CountLoopNode i s c f
  | FootLoopNode i _ c f => FootLoopNode i s c f
  | FunctionNode i _ ps c f => FunctionNode i s ps c f
  | TryCatchNode i _ a b f => TryCatchNode i s a b f
  end.

(** [editText(tree, nodeId, newText)]. *)
Definition editText (tree : node) (nodeId newText : string)
  : Ed returned :=
  let root := cloneTree tree in
  match findNode root nodeId, findParent root nodeId with
  | Some n, Some p => ret (cloned tree (setAt root p (setText n newText)))
  | _, _ => ret (cloned tree root)
  end.

(** [moveNode(tree, nodeId, targetId)]. *)
Definition moveNode (tree : node) (nodeId targetId : string)
  : Ed returned :=
  if String.eqb nodeId targetId then ret TheInput
  else
    let root := cloneTree tree in
    match findParent root nodeId with
    | None => ret (cloned tree root)
    | Some sp =>
        srcNode <- readSlot root sp ;;;
        if is_null srcNode then ret (cloned tree root)
        else
          root1 <- writeSlot root sp (followOrPlaceholder srcNode) ;;;
          match findNode root1 targetId, findParent root1 targetId with
          | Some (InsertNode i f), Some tp =>
              ret (cloned tree
                     (setAt root1 tp (InsertNode i (setFollow srcNode f))))
          | _, _ => ret (cloned tree root1)
          end
    end.
End Ops.

(** [collectInsertPoints(tree)]. *)
Fixpoint collectInsertPoints (n : node) : list string :=
  let own :=
    match n with
    | InsertNode (Some i) _ | Placeholder (Some i) _ =>
        if is_empty i then [] else [i]
    | _ => []
    end in
  own ++
  match n with
  | Null => []
  | InsertNode _ f | Placeholder _ f
  | TaskNode _ _ f | InputNode _ _ f | OutputNode _ _ f
  | InsertCase _ _ f => collectInsertPoints f
  | BranchNode _ _ _ a b f =>
      collectInsertPoints f ++ collectInsertPoints a
        ++ collectInsertPoints b
  | HeadLoopNode _ _ c f | CountLoopNode _ _ c f | FootLoopNode _ _ c f
  | FunctionNode _ _ _ c f => collectInsertPoints f ++ collectInsertPoints c
  | TryCatchNode _ _ a b f =>
      collectInsertPoints f ++ collectInsertPoints a
        ++ collectInsertPoints b
  | CaseNode _ _ _ _ dn cs f =>
      collectInsertPoints f ++ flat_map collectInsertPoints cs
        ++ collectInsertPoints dn
  end.

(** ** Preparing a tree for the editor *)

Section Prep.
Variable clock : nat -> string.

Local Notation "x <- m ;;; k" := (bind m (fun x => k))
  (at level 61, m at next level, right associativity).

(** [{ id: genId(), type: Placeholder }]. *)
Definition newPlaceholder : Ed node :=
  j <- genId clock ;;; ret (Placeholder (Some j) Null).

(** An InsertNode with a new id that leads to a Placeholder with a new
    id; the outer identifier is drawn first. *)
Definition newChain : Ed node :=
  i <- genId clock ;;;
  p <- newPlaceholder ;;;
  ret (InsertNode (Some i) p).

(** [_wrapChain(node)], given [_wrapContent]: the two functions of the
    source call each other. *)
Definition wrapChainWith (wrapContent : node -> Ed node) (n : node)
  : Ed node :=
  match n with
  | Null => newChain
  | InsertNode i f =>
      f' <- (if is_null f then newPlaceholder else wrapContent f) ;;;
      ret (InsertNode i f')
  | Placeholder _ _ =>
      i <- genId clock ;;; ret (InsertNode (Some i) n)
  | _ =>
      wrapped <- wrapContent n ;;;
      i <- genId clock ;;;
      ret (InsertNode (Some i) wrapped)
  end.

(** [_wrapContent(node)].  [child] is the update of one of the properties
    [trueChild], [falseChild], [child], [tryChild], [catchChild] (left
    alone when it is [null]), [next] the update of [followElement],
    [inCase] the update of an entry of [cases] or of [defaultNode]. *)
Fixpoint wrapContent (n : node) : Ed node :=
  let wrapChain := wrapChainWith wrapContent in
  let child (c : node) : Ed node :=
    if is_null c then ret c else wrapChain c in
  let next (f : node) : Ed node :=
    if is_null f then newChain else wrapChain f in
  let inCase (c : node) : Ed node :=
    match c with
    | InsertCase j u g => g' <- wrapChain g ;;; ret (InsertCase j u g')
    | _ => wrapChain c
    end in
  match n with
  | Null => newPlaceholder
  | InsertNode i f =>
      f' <- (if is_null f then newPlaceholder else wrapContent f) ;;;
      ret (InsertNode i f')
  | Placeholder _ _ => ret n
  | TaskNode i t f => f' <- next f ;;; ret (TaskNode i t f')
  | InputNode i t f => f' <- next f ;;; ret (InputNode i t f')
  | OutputNode i t f => f' <- next f ;;; ret (OutputNode i t f')
  | InsertCase i t f => f' <- next f ;;; ret (InsertCase i t f')
  | BranchNode i t cw a b f =>
      a' <- child a ;;;
      b' <- child b ;;;
      f' <- next f ;;;
      ret (BranchNode i t cw a' b' f')
  | HeadLoopNode i t c f =>
      c' <- child c ;;; f' <- next f ;;; ret (HeadLoopNode i t c' f')
  | CountLoopNode i t c f =>
      c' <- child c ;;; f' <- next f ;;; ret (CountLoopNode i t c' f')
  | FootLoopNode i t c f =>
      c' <- child c ;;; f' <- next f ;;; ret (FootLoopNode i t c' f')
  | FunctionNode i t ps c f =>
      c' <- child c ;;; f' <- next f ;;; ret (FunctionNode i t ps c' f')
  | TryCatchNode i t a b f =>
      a' <- child a ;;;
      b' <- child b ;;;
      f' <- next f ;;;
      ret (TryCatchNode i t a' b' f')
  | CaseNode i t cw d dn cs f =>
      let fix each (cs : list node) : Ed (list node) :=
        match cs with
        | [] => ret []
        | c :: r =>
            c' <- inCase c ;;;
            r' <- each r ;;;
            ret (c' :: r')
        end in
      cs' <- each cs ;;;
      dn' <- (if is_null dn then ret dn else inCase dn) ;;;
      f' <- next f ;;;
      ret (CaseNode i t cw d dn' cs' f')
  end.

(** [_wrapChain(node)]. *)
Definition wrapChain : node -> Ed node := wrapChainWith wrapContent.

(** [wrapWithInsertNodes(tree)]. *)
Definition wrapWithInsertNodes (tree : node) : Ed node :=
  if is_null tree then newChain else wrapChain (cloneTree tree).

(** [!node.id]: no identifier, or the empty one. *)
Definition falsy (i : option string) : bool :=
  match i with
  | Some s => is_empty s
  | None => true
  end.

(** [if (!node.id) node.id = genId()]. *)
Definition ensureId (i : option string) : Ed (option string) :=
  if falsy i then (j <- genId clock ;;; ret (Some j)) else ret i.

(** The [walk] of [ensureIds]: the node first, then [followElement], the
    children, the cases and the default case. *)
Fixpoint walk (n : node) : Ed node :=
  match n with
  | Null => ret Null
  | InsertNode i f =>
      i' <- ensureId i ;;; f' <- walk f ;;; ret (InsertNode i' f')
  | Placeholder i f =>
      i' <- ensureId i ;;; f' <- walk f ;;; ret (Placeholder i' f')
  | TaskNode i t f =>
      i' <- ensureId i ;;; f' <- walk f ;;; ret (TaskNode i' t f')
  | InputNode i t f =>
      i' <- ensureId i ;;; f' <- walk f ;;; ret (InputNode i' t f')
  | OutputNode i t f =>
      i' <- ensureId i ;;; f' <- walk f ;;; ret (OutputNode i' t f')
  | InsertCase i t f =>
      i' <- ensureId i ;;; f' <- walk f ;;; ret (InsertCase i' t f')
  | BranchNode i t cw a b f =>
      i' <- ensureId i ;;;
      f' <- walk f ;;;
      a' <- walk a ;;;
      b' <- walk b ;;;
      ret (BranchNode i' t cw a' b' f')
  | HeadLoopNode i t c f =>
      i' <- ensureId i ;;;
      f' <- walk f ;;;
      c' <- walk c ;;;
      ret (HeadLoopNode i' t c' f')
  | CountLoopNode i t c f =>
      i' <- ensureId i ;;;
      f' <- walk f ;;;
      c' <- walk c ;;;
      ret (CountLoopNode i' t c' f')
  | FootLoopNode i t c f =>
      i' <- ensureId i ;;;
      f' <- walk f ;;;
      c' <- walk c ;;;
      ret (FootLoopNode i' t c' f')
  | FunctionNode i t ps c f =>
      i' <- ensureId i ;;;
      f' <- walk f ;;;
      c' <- walk c ;;;
      ret (FunctionNode i' t ps c' f')
  | TryCatchNode i t a b f =>
      i' <- ensureId i ;;;
      f' <- walk f ;;;
      a' <- walk a ;;;
      b' <- walk b ;;;
      ret (TryCatchNode i' t a' b' f')
  | CaseNode i t cw d dn cs f =>
      let fix each (cs : list node) : Ed (list node) :=
        match cs with
        | [] => ret []
        | c :: r =>
            c' <- walk c ;;;
            r' <- each r ;;;
            ret (c' :: r')
        end in
      i' <- ensureId i ;;;
      f' <- walk f ;;;
      cs' <- each cs ;;;
      dn' <- walk dn ;;;
      ret (CaseNode i' t cw d dn' cs' f')
  end.

(** [ensureIds(tree)]. *)
Definition ensureIds (tree : node) : Ed node :=
  if is_null tree then ret tree else walk (cloneTree tree).
End Prep.

(** ** Cleaning a tree for export *)

(** [_cleanIds(node)]: [id] deleted on the node and on everything under
    it. *)
Fixpoint cleanIds (n : node) : node :=
  match n with
  | Null => Null
  | InsertNode _ f => InsertNode None (cleanIds f)
  | Placeholder _ f => Placeholder None (cleanIds f)
  | TaskNode _ t f => TaskNode None t (cleanIds f)
  | InputNode _ t f => InputNode None t (cleanIds f)
  | OutputNode _ t f => OutputNode None t (cleanIds f)
  | InsertCase _ t f => InsertCase None t (cleanIds f)
  | BranchNode _ t cw a b f =>
      BranchNode None t cw (cleanIds a) (cleanIds b) (cleanIds f)
  | HeadLoopNode _ t c f => HeadLoopNode None t (cleanIds c) (cleanIds f)
  | CountLoopNode _ t c f => CountLoopNode None t (cleanIds c) (cleanIds f)
  | FootLoopNode _ t c f => FootLoopNode None t (cleanIds c) (cleanIds f)
  | FunctionNode _ t ps c f =>
      FunctionNode None t ps (cleanIds c) (cleanIds f)
  | TryCatchNode _ t a b f =>
      TryCatchNode None t (cleanIds a) (cleanIds b) (cleanIds f)
  | CaseNode _ t cw d dn cs f =>
      CaseNode None t cw d (cleanIds dn) (map cleanIds cs) (cleanIds f)
  end.

(** [.filter(Boolean)] on an array of objects and [null]s. *)
Definition keepObjects (cs : list node) : list node :=
  filter (fun c => negb (is_null c)) cs.

(** [_stripChain(node)].  The children are stripped, then the cases (an
    InsertCase keeps its place and has its chain stripped, [null]s are
    filtered out), the default case, the chain that follows; last the
    identifiers are deleted. *)
Fixpoint stripChain (n : node) : node :=
  match n with
  | Null => Null
  | Placeholder _ _ => Null
  | InsertNode _ f => stripChain f
  | TaskNode _ t f => cleanIds (TaskNode None t (stripChain f))
  | InputNode _ t f => cleanIds (InputNode None t (stripChain f))
  | OutputNode _ t f => cleanIds (OutputNode None t (stripChain f))
  | InsertCase _ t f => cleanIds (InsertCase None t (stripChain f))
  | BranchNode _ t cw a b f =>
      cleanIds
        (BranchNode None t cw (stripChain a) (stripChain b) (stripChain f))
  | HeadLoopNode _ t c f =>
      cleanIds (HeadLoopNode None t (stripChain c) (stripChain f))
  | CountLoopNode _ t c f =>
      cleanIds (CountLoopNode None t (stripChain c) (stripChain f))
  | FootLoopNode _ t c f =>
      cleanIds (FootLoopNode None t (stripChain c) (stripChain f))
  | FunctionNode _ t ps c f =>
      cleanIds (FunctionNode None t ps (stripChain c) (stripChain f))
  | TryCatchNode _ t a b f =>
      cleanIds
        (TryCatchNode None t (stripChain a) (stripChain b) (stripChain f))
  | CaseNode _ t cw d dn cs f =>
      let cs' :=
        keepObjects
          (map (fun c =>
                  match c with
                  | InsertCase j u g => InsertCase j u (stripChain g)
                  | _ => stripChain c
                  end) cs) in
      let dn' :=
        match dn with
        | InsertCase j u g => InsertCase j u (stripChain g)
        | _ => stripChain dn
        end in
      cleanIds (CaseNode None t cw d dn' cs' (stripChain f))
  end.

(** [stripInsertNodes(tree)]. *)
Definition stripInsertNodes (tree : node) : node :=
  if is_null tree then Null else stripChain (cloneTree tree).

(** ** Listing the editable nodes *)

(** [node.type]. *)
Definition typeName (n : node) : string :=
  match n with
  | Null => ""
  | InsertNode _ _ => "InsertNode"
  | Placeholder _ _ => "Placeholder"
  | TaskNode _ _ _ => "TaskNode"
  | InputNode _ _ _ => "InputNode"
  | OutputNode _ _ _ => "OutputNode"
  | BranchNode _ _ _ _ _ _ => "BranchNode"
  | CaseNode _ _ _ _ _ _ _ => "CaseNode"
  | InsertCase _ _ _ => "InsertCase"
  | HeadLoopNode _ _ _ _ => "HeadLoopNode"
  | CountLoopNode _ _ _ _ => "CountLoopNode"
  | FootLoopNode _ _ _ _ => "FootLoopNode"
  | FunctionNode _ _ _ _ _ => "FunctionNode"
  | TryCatchNode _ _ _ _ _ => "TryCatchNode"
  end.

(** [node.text], the empty string on a node that has none. *)
Definition textOf (n : node) : string :=
  match n with
  | Null | InsertNode _ _ | Placeholder _ _ => ""
  | TaskNode _ t _ | InputNode _ t _ | OutputNode _ t _
  | BranchNode _ t _ _ _ _ | CaseNode _ t _ _ _ _ _ | InsertCase _ t _
  | HeadLoopNode _ t _ _ | CountLoopNode _ t _ _ | FootLoopNode _ t _ _
  | FunctionNode _ t _ _ _ | TryCatchNode _ t _ _ _ => t
  end.

(** [{ id, type, text }]. *)
Record editable : Type := mkEditable {
  eid : option string; etype : string; etext : string
}.

(** [collectEditableNodes(tree)].  The first test pushes every node that
    is no InsertNode, Placeholder or InsertCase, the second every
    InsertCase. *)
Fixpoint collectEditableNodes (n : node) : list editable :=
  let entry := {| eid := node_id n; etype := typeName n; etext := textOf n |} in
  let own :=
    (if negb (String.eqb (typeName n) "InsertNode")
        && negb (String.eqb (typeName n) "Placeholder")
        && negb (String.eqb (typeName n) "InsertCase")
     then [entry] else [])
      ++ (if String.eqb (typeName n) "InsertCase" then [entry] else []) in
  match n with
  | Null => []
  | InsertNode _ f | Placeholder _ f
  | TaskNode _ _ f | InputNode _ _ f | OutputNode _ _ f
  | InsertCase _ _ f => own ++ collectEditableNodes f
  | BranchNode _ _ _ a b f =>
      own ++ collectEditableNodes f ++ collectEditableNodes a
        ++ collectEditableNodes b
  | HeadLoopNode _ _ c f | CountLoopNode _ _ c f | FootLoopNode _ _ c f
  | FunctionNode _ _ _ c f =>
      own ++ collectEditableNodes f ++ collectEditableNodes c
  | TryCatchNode _ _ a b f =>
      own ++ collectEditableNodes f ++ collectEditableNodes a
        ++ collectEditableNodes b
  | CaseNode _ _ _ _ dn cs f =>
      own ++ collectEditableNodes f ++ flat_map collectEditableNodes cs
        ++ collectEditableNodes dn
  end.

End Editor.

(* ================================================================== *)
(** * The layout engine: measuring and placing *)
(* ================================================================== *)

Module Renderer.
Import JsString Tree.
Local Open Scope Q_scope.

(** The primitives placed on the drawing: [bg] makes a rectangle, [ln] a
    line, [textEl] a text with one span per wrapped line ([y] is the
    baseline of the first span, [dy] the advance of the next ones). *)
Inductive element : Type :=
| Rect (x y width height : Q) (fill : string)
| Line (x1 y1 x2 y2 : Q)
| Text (x y fontSize : Q) (anchor : string) (dy : Q) (lines : list string).

Definition DEFAULT_ROW_HEIGHT : Q := 40.
Definition LOOP_INDENT : Q := 20.
Definition PADDING_X : Q := 8.
Definition PADDING_Y : Q := 6.

Definition colorStatement : string := "rgb(253, 237, 206)".
Definition colorLoop : string := "rgb(220, 239, 231)".
Definition colorBranch : string := "rgb(250, 218, 209)".
Definition colorFunction : string := "rgb(255, 255, 255)".

(** The marks put before the text of an input and of an output: a
    triangle pointing right, resp. left, and a space.  Both triangles lie
    outside Latin-1 and stand here as their three UTF-8 bytes; only the
    text measurement of the host looks at them. *)
Definition inputMark : string :=
  String (chr 226) (String (chr 150) (String (chr 182) " ")).
Definition outputMark : string :=
  String (chr 226) (String (chr 151) (String (chr 128) " ")).

Definition ofLength {A} (l : list A) : Q := inject_Z (Z.of_nat (length l)).

(** [a > b] on numbers. *)
Definition gt (a b : Q) : bool := negb (Qle_bool a b).

(** Truthiness of a number. *)
Definition nonzero (a : Q) : bool := negb (Qeq_bool a 0).

(** Splitting a paragraph at every run of white space: [inRun] tells that
    the separator of the current run has been cut already. *)
Fixpoint splitWs (s : string) (inRun : bool) : list string :=
  match s with
  | EmptyString => [EmptyString]
  | String c r =>
      if is_space c then
        if inRun then splitWs r true else EmptyString :: splitWs r true
      else match splitWs r false with
           | h :: t => String c h :: t
           | [] => [str1 c]
           end
  end.

(** [columnWidths(totalWidth, numCols, fractions)]. *)
Definition columnWidths (totalWidth : Q) (numCols : nat)
           (fractions : option (list Q)) : list Q :=
  let even := List.repeat (totalWidth / inject_Z (Z.of_nat numCols)) numCols in
  match fractions with
  | Some fs =>
      if Nat.eqb (length fs) numCols
      then map (fun f => totalWidth * f) fs
      else even
  | None => even
  end.

(** [colW[i]]. *)
Definition at_ (colW : list Q) (i : nat) : Q := nth i colW 0.

(** [colXPositions]: the running sums of the column widths, from [acc]. *)
Fixpoint runningSums (acc : Q) (colW : list Q) : list Q :=
  acc :: match colW with
         | [] => []
         | w :: r => runningSums (acc + w) r
         end.

(** [{ elements, height }]. *)
Record rendered : Type := mkRendered {
  elements : list element;
  height : Q
}.

(** The loop that measures the case columns: [maxChildH] is raised to the
    height [measure c colW[i]] of every column [c], [i] counting from the
    first. *)
Fixpoint measureEach (measure : node -> Q -> Q) (colW : list Q) (i : nat)
         (cs : list node) (maxChildH : Q) : Q :=
  match cs with
  | [] => maxChildH
  | c :: r =>
      measureEach measure colW (S i) r
                  (Qmax maxChildH (measure c (at_ colW i)))
  end.

(** The loop that places the case columns from [curX] on: the elements of
    every column [place c curX colW[i]], a divider before every column but
    the first, and the final [curX]. *)
Fixpoint renderEach (place : node -> Q -> Q -> rendered) (colW : list Q)
         (top bottom : Q) (i : nat) (cs : list node) (curX : Q)
  : list element * Q :=
  match cs with
  | [] => ([], curX)
  | c :: r =>
      let caseResult := place c curX (at_ colW i) in
      let line :=
        if (0 <? i)%nat then [Line curX top curX bottom] else [] in
      let (more, endX) :=
        renderEach place colW top bottom (S i) r (curX + at_ colW i) in
      (elements caseResult ++ line ++ more, endX)
  end.

Section Layout.
(** [ctx.measureText(str).width] at a font size: the host's text
    measurement. *)
Variable measureText : Q -> string -> Q.

(** [_insertNodeHeight] at the time of the call. *)
Variable insertNodeHeight : Q.

(** The loop of [wrapText] over the words of a paragraph: the lines
    pushed and the last value of [current]. *)
Fixpoint wrapWords (maxWidth fontSize : Q) (words : list string)
         (current : string) : list string * string :=
  match words with
  | [] => ([], current)
  | word :: rest =>
      let test :=
        if is_empty current then word else current +++ " " +++ word in
      if gt (measureText fontSize test) maxWidth && negb (is_empty current)
      then let (ls, cur) := wrapWords maxWidth fontSize rest word in
           (current :: ls, cur)
      else wrapWords maxWidth fontSize rest test
  end.

Definition wrapParagraph (maxWidth fontSize : Q) (para : string)
  : list string :=
  if is_empty para || Qle_bool (measureText fontSize para) maxWidth
  then [para]
  else
    let (ls, current) :=
      wrapWords maxWidth fontSize (splitWs para false) EmptyString in
    if is_empty current then ls else ls ++ [current].

(** [wrapText(str, maxWidth, fontSize)]. *)
Definition wrapText (str : string) (maxWidth fontSize : Q) : list string :=
  if is_empty str then [EmptyString]
  else
    match flat_map (wrapParagraph maxWidth fontSize) (split lf str) with
    | [] => [EmptyString]
    | allLines => allLines
    end.

(** [wrappedTextHeight(str, maxWidth, fontSize)]. *)
Definition wrappedTextHeight (str : string) (maxWidth fontSize : Q) : Q :=
  let lines := wrapText str maxWidth fontSize in
  let lineH := fontSize * (13 # 10) in
  Qmax DEFAULT_ROW_HEIGHT (ofLength lines * lineH + PADDING_Y * 2).

(** [textEl(str, x, y, h, fontSize, maxWidth, anchor)]; [maxWidth] is
    [None] for [null]. *)
Definition textEl (str : string) (x y h fontSize : Q) (maxWidth : option Q)
           (anchor : string) : element :=
  let lines :=
    match maxWidth with
    | Some w => wrapText str w fontSize
    | None => [str]
    end in
  let lineH := fontSize * (13 # 10) in
  let totalTextH := ofLength lines * lineH in
  let startY := y + (h - totalTextH) / 2 + lineH / 2 in
  Text x startY fontSize anchor lineH lines.

Definition bg (x y w h : Q) (fill : string) : element := Rect x y w h fill.
Definition ln (x1 y1 x2 y2 : Q) : element := Line x1 y1 x2 y2.

(** The header text of a function: name, parameter names in brackets, and
    an opening brace. *)
Definition functionHeader (t : string) (ps : list param) : string :=
  t +++ (match ps with
         | [] => "()"
         | _ => "(" +++ join ", " (map parName ps) +++ ")"
         end) +++ " {".

(** The label of the catch row. *)
Definition catchLabel (t : string) : string :=
  if is_empty t then "Catch" else "Catch" +++ " (" +++ t +++ ")".

(** [measureHeight(node, fontSize, width)]. *)
Fixpoint measureHeight (n : node) (fontSize width : Q) : Q :=
  let textW := width - PADDING_X * 2 in
  match n with
  | Null => 0
  | InsertNode _ f => insertNodeHeight + measureHeight f fontSize width
  | Placeholder _ _ => 0
  | TaskNode _ t f =>
      let rowH := wrappedTextHeight t textW fontSize in
      rowH + measureHeight f fontSize width
  | InputNode _ t f =>
      let rowH := wrappedTextHeight (inputMark +++ t) textW fontSize in
      rowH + measureHeight f fontSize width
  | OutputNode _ t f =>
      let rowH := wrappedTextHeight (outputMark +++ t) textW fontSize in
      rowH + measureHeight f fontSize width
  | InsertCase _ t f =>
      let rowH := wrappedTextHeight t textW fontSize in
      rowH + measureHeight f fontSize width
  | BranchNode _ t cw a b f =>
      let condH := wrappedTextHeight t textW fontSize in
      let slopeH := fontSize * (13 # 10) + PADDING_Y in
      let labelRowH := fontSize * (13 # 10) + PADDING_Y in
      let headerH := condH + slopeH + labelRowH in
      let colW := columnWidths width 2 cw in
      let trueH := measureHeight a fontSize (at_ colW 0) in
      let falseH := measureHeight b fontSize (at_ colW 1) in
      headerH + Qmax trueH falseH + measureHeight f fontSize width
  | CaseNode _ t cw defaultOn dn cs f =>
      let numCols := (length cs + (if defaultOn then 1 else 0))%nat in
      let colW := columnWidths width numCols cw in
      let condH := wrappedTextHeight t textW fontSize in
      let slopeH := fontSize * (13 # 10) + PADDING_Y in
      let headerH := condH + slopeH in
      let maxChildH :=
        measureEach (fun c w => measureHeight c fontSize w) colW O cs 0 in
      let maxChildH :=
        if defaultOn && negb (is_null dn)
        then Qmax maxChildH
                  (measureHeight dn fontSize (at_ colW (numCols - 1)))
        else maxChildH in
      headerH + maxChildH + measureHeight f fontSize width
  | HeadLoopNode _ t c f | CountLoopNode _ t c f =>
      let innerW := width - LOOP_INDENT in
      let rowH := wrappedTextHeight t textW fontSize in
      let childH := measureHeight c fontSize innerW in
      let bodyH := Qmax childH (rowH * (1 # 2)) in
      rowH + bodyH + measureHeight f fontSize width
  | FootLoopNode _ t c f =>
      let innerW := width - LOOP_INDENT in
      let rowH := wrappedTextHeight t textW fontSize in
      let childH := measureHeight c fontSize innerW in
      let bodyH := Qmax childH (rowH * (1 # 2)) in
      bodyH + rowH + measureHeight f fontSize width
  | FunctionNode _ t ps c f =>
      let innerW := width - LOOP_INDENT in
      let rowH := wrappedTextHeight (functionHeader t ps) textW fontSize in
      let childH := measureHeight c fontSize innerW in
      let bodyH := Qmax childH (rowH * (1 # 2)) in
      let footH := DEFAULT_ROW_HEIGHT * (6 # 10) in
      rowH + bodyH + footH + measureHeight f fontSize width
  | TryCatchNode _ t a b f =>
      let innerW := width - LOOP_INDENT in
      let tryRowH := wrappedTextHeight "Try" textW fontSize in
      let catchRowH := wrappedTextHeight (catchLabel t) textW fontSize in
      let tryH := measureHeight a fontSize innerW in
      let tryBodyH := Qmax tryH (tryRowH * (1 # 2)) in
      let catchH := measureHeight b fontSize innerW in
      let catchBodyH := Qmax catchH (catchRowH * (1 # 2)) in
      tryRowH + tryBodyH + catchRowH + catchBodyH
        + measureHeight f fontSize width
  end.

(** [availH != null ? availH - h : undefined]. *)
Definition remaining (availH : option Q) (h : Q) : option Q :=
  match availH with
  | Some a => Some (a - h)
  | None => None
  end.

(** [availH ? availH - h : undefined], a test of truthiness. *)
Definition remainingIfTruthy (availH : option Q) (h : Q) : option Q :=
  match availH with
  | Some a => if nonzero a then Some (a - h) else None
  | None => None
  end.

(** [availH != null && availH > natural]. *)
Definition exceeds (availH : option Q) (natural : Q) : bool :=
  match availH with
  | Some a => gt a natural
  | None => false
  end.

(** The value of [availH] where the source has tested it not to be
    [null]. *)
Definition the (availH : option Q) : Q :=
  match availH with Some a => a | None => 0 end.

(** The label of a statement row. *)
Definition statementLabel (n : node) (t : string) : string :=
  match n with
  | InputNode _ _ _ => inputMark +++ t
  | OutputNode _ _ _ => outputMark +++ t
  | _ => t
  end.

(** The intermediate dividers of a switch header, for the columns [i] of
    [columns]: each runs from the diagonal down to the foot of the header;
    [span] is the horizontal extent of the diagonal. *)
Definition dividers (x y condH slopeH headerH span : Q) (colX : list Q)
           (columns : list nat) : list element :=
  map (fun i =>
         let dividerX := x + at_ colX i in
         let frac := at_ colX i / span in
         let diagY := y + condH + slopeH * frac in
         ln dividerX diagY dividerX (y + headerH))
      columns.

(** [renderNode(node, x, y, width, fontSize, availH)]; [availH] is [None]
    when omitted. *)
Fixpoint renderNode (n : node) (x y width fontSize : Q) (availH : option Q)
  : rendered :=
  let textW := width - PADDING_X * 2 in
  match n with
  | Null => {| elements := []; height := 0 |}
  | InsertNode _ f =>
      let inh := insertNodeHeight in
      let sub :=
        renderNode f x (y + inh) width fontSize
                   (remainingIfTruthy availH inh) in
      {| elements := elements sub; height := inh + height sub |}
  | Placeholder _ _ => {| elements := []; height := 0 |}
  | TaskNode _ t f | InputNode _ t f | OutputNode _ t f =>
      let color := colorStatement in
      let label := statementLabel n t in
      let rowH := wrappedTextHeight label textW fontSize in
      let followH := measureHeight f fontSize width in
      let naturalH := rowH + followH in
      let stretchH :=
        if exceeds availH naturalH
        then rowH + (the availH - naturalH) else rowH in
      let own :=
        [bg x y width stretchH color;
         ln x y (x + width) y;
         ln x y x (y + stretchH);
         textEl label (x + PADDING_X) y rowH fontSize (Some textW) "start"] in
      let remainH := remaining availH stretchH in
      let follow := renderNode f x (y + stretchH) width fontSize remainH in
      {| elements := own ++ elements follow;
         height := stretchH + height follow |}
  | InsertCase _ t f =>
      let color := colorBranch in
      let rowH := wrappedTextHeight t textW fontSize in
      let followH := measureHeight f fontSize width in
      let naturalH := rowH + followH in
      let stretchH :=
        if exceeds availH naturalH
        then rowH + (the availH - naturalH) else rowH in
      let own :=
        [bg x y width stretchH color;
         ln x y x (y + stretchH);
         textEl t (x + PADDING_X) y rowH fontSize (Some textW) "start"] in
      let remainH := remaining availH stretchH in
      let follow := renderNode f x (y + stretchH) width fontSize remainH in
      {| elements := own ++ elements follow;
         height := stretchH + height follow |}
  | BranchNode _ t cw a b f =>
      let color := colorBranch in
      let condH := wrappedTextHeight t textW fontSize in
      let slopeH := fontSize * (13 # 10) + PADDING_Y in
      let labelRowH := fontSize * (13 # 10) + PADDING_Y in
      let headerH := condH + slopeH + labelRowH in
      let colW := columnWidths width 2 cw in
      let divX := x + at_ colW 0 in
      let slopeBottom := y + condH + slopeH in
      let smallFS := fontSize * (8 # 10) in
      let header :=
        [bg x y width headerH color;
         ln x y (x + width) y;
         ln x y x (y + headerH);
         textEl t (x + width / 2) y condH fontSize (Some textW) "middle";
         ln x (y + condH) divX slopeBottom;
         ln (x + width) (y + condH) divX slopeBottom;
         textEl "Wahr" (x + PADDING_X) slopeBottom labelRowH smallFS None
                "start";
         textEl "Falsch" (x + width - PADDING_X) slopeBottom labelRowH
                smallFS None "end";
         ln divX slopeBottom divX (y + headerH)] in
      let trueH := measureHeight a fontSize (at_ colW 0) in
      let falseH := measureHeight b fontSize (at_ colW 1) in
      let followH := measureHeight f fontSize width in
      let naturalChildH := Qmax trueH falseH in
      let extraH :=
        if exceeds availH (headerH + naturalChildH + followH)
        then the availH - headerH - naturalChildH - followH else 0 in
      let childH := naturalChildH + extraH in
      let trueResult :=
        renderNode a x (y + headerH) (at_ colW 0) fontSize (Some childH) in
      let falseResult :=
        renderNode b divX (y + headerH) (at_ colW 1) fontSize (Some childH) in
      let totalH := headerH + childH in
      let remainH := remaining availH totalH in
      let follow := renderNode f x (y + totalH) width fontSize remainH in
      {| elements :=
           (header ++ elements trueResult ++ elements falseResult
              ++ [ln divX (y + headerH) divX (y + headerH + childH)])
             ++ elements follow;
         height := totalH + height follow |}
  | CaseNode _ t cw defaultOn dn cs f =>
      let color := colorBranch in
      let numCols := (length cs + (if defaultOn then 1 else 0))%nat in
      let colW := columnWidths width numCols cw in
      let condH := wrappedTextHeight t textW fontSize in
      let slopeH := fontSize * (13 # 10) + PADDING_Y in
      let headerH := condH + slopeH in
      let header :=
        [bg x y width headerH color;
         ln x y (x + width) y;
         ln x y x (y + headerH);
         textEl t (x + width / 2) y condH fontSize (Some textW) "middle"] in
      let colXPositions := runningSums 0 colW in
      let slopes :=
        if defaultOn then
          let lastDivX := x + at_ colXPositions (numCols - 1) in
          [ln x (y + condH) lastDivX (y + headerH);
           ln (x + width) (y + condH) lastDivX (y + headerH)]
            ++ dividers x y condH slopeH headerH
                        (at_ colXPositions (numCols - 1)) colXPositions
                        (seq 1 (numCols - 2))
        else
          ln x (y + condH) (x + width) (y + headerH)
            :: dividers x y condH slopeH headerH width colXPositions
                        (seq 1 (numCols - 1)) in
      let maxChildH :=
        measureEach (fun c w => measureHeight c fontSize w) colW O cs 0 in
      let maxChildH :=
        if defaultOn && negb (is_null dn)
        then Qmax maxChildH
                  (measureHeight dn fontSize (at_ colW (numCols - 1)))
        else maxChildH in
      let followH := measureHeight f fontSize width in
      let extraCaseH :=
        if exceeds availH (headerH + maxChildH + followH)
        then the availH - headerH - maxChildH - followH else 0 in
      let maxChildH := maxChildH + extraCaseH in
      let placed :=
        renderEach
          (fun c curX w =>
             renderNode c curX (y + headerH) w fontSize (Some maxChildH))
          colW (y + headerH) (y + headerH + maxChildH) O cs x in
      let columns := fst placed in
      let curX := snd placed in
      let default :=
        if defaultOn && negb (is_null dn) then
          let defaultResult :=
            renderNode dn curX (y + headerH) (at_ colW (numCols - 1))
                       fontSize (Some maxChildH) in
          elements defaultResult
            ++ [ln curX (y + headerH) curX (y + headerH + maxChildH)]
        else [] in
      let totalH := headerH + maxChildH in
      let remainH := remaining availH totalH in
      let follow := renderNode f x (y + totalH) width fontSize remainH in
      {| elements := (header ++ slopes ++ columns ++ default)
                       ++ elements follow;
         height := totalH + height follow |}
  | HeadLoopNode _ t c f | CountLoopNode _ t c f =>
      let color := colorLoop in
      let rowH := wrappedTextHeight t textW fontSize in
      let innerW := width - LOOP_INDENT in
      let childH := measureHeight c fontSize innerW in
      let bodyH := Qmax childH (rowH * (1 # 2)) in
      let childResult :=
        renderNode c (x + LOOP_INDENT) (y + rowH) innerW fontSize None in
      let own :=
        [bg x y width rowH color;
         ln x y (x + width) y;
         ln x y x (y + rowH);
         textEl t (x + PADDING_X) y rowH fontSize (Some textW) "start";
         bg x (y + rowH) LOOP_INDENT bodyH color;
         ln x (y + rowH) x (y + rowH + bodyH);
         ln (x + LOOP_INDENT) (y + rowH) (x + LOOP_INDENT) (y + rowH + bodyH)]
          ++ elements childResult in
      let totalH := rowH + bodyH in
      let remainH := remaining availH totalH in
      let follow := renderNode f x (y + totalH) width fontSize remainH in
      {| elements := own ++ elements follow;
         height := totalH + height follow |}
  | FootLoopNode _ t c f =>
      let color := colorLoop in
      let innerW := width - LOOP_INDENT in
      let rowH := wrappedTextHeight t textW fontSize in
      let childH := measureHeight c fontSize innerW in
      let bodyH := Qmax childH (rowH * (1 # 2)) in
      let childResult :=
        renderNode c (x + LOOP_INDENT) y innerW fontSize None in
      let own :=
        [bg x y LOOP_INDENT bodyH color;
         ln x y (x + width) y;
         ln x y x (y + bodyH);
         ln (x + LOOP_INDENT) y (x + LOOP_INDENT) (y + bodyH)]
          ++ elements childResult
          ++ [bg x (y + bodyH) width rowH color;
              ln (x + LOOP_INDENT) (y + bodyH) (x + width) (y + bodyH);
              ln x (y + bodyH) x (y + bodyH + rowH);
              textEl t (x + PADDING_X) (y + bodyH) rowH fontSize
                     (Some textW) "start"] in
      let totalH := bodyH + rowH in
      let remainH := remaining availH totalH in
      let follow := renderNode f x (y + totalH) width fontSize remainH in
      {| elements := own ++ elements follow;
         height := totalH + height follow |}
  | FunctionNode _ t ps c f =>
      let color := colorFunction in
      let headerText := functionHeader t ps in
      let rowH := wrappedTextHeight headerText textW fontSize in
      let innerW := width - LOOP_INDENT in
      let childH := measureHeight c fontSize innerW in
      let bodyH := Qmax childH (rowH * (1 # 2)) in
      let childResult :=
        renderNode c (x + LOOP_INDENT) (y + rowH) innerW fontSize None in
      let footH := DEFAULT_ROW_HEIGHT * (6 # 10) in
      let own :=
        [bg x y width rowH color;
         ln x y (x + width) y;
         ln x y x (y + rowH);
         textEl headerText (x + PADDING_X) y rowH fontSize (Some textW)
                "start";
         bg x (y + rowH) LOOP_INDENT bodyH color;
         ln x (y + rowH) x (y + rowH + bodyH);
         ln (x + LOOP_INDENT) (y + rowH) (x + LOOP_INDENT) (y + rowH + bodyH)]
          ++ elements childResult
          ++ [bg x (y + rowH + bodyH) width footH color;
              ln (x + LOOP_INDENT) (y + rowH + bodyH) (x + width)
                 (y + rowH + bodyH);
              ln x (y + rowH + bodyH) x (y + rowH + bodyH + footH);
              textEl "}" (x + PADDING_X) (y + rowH + bodyH) footH fontSize
                     None "start"] in
      let totalH := rowH + bodyH + footH in
      let remainH := remaining availH totalH in
      let follow := renderNode f x (y + totalH) width fontSize remainH in
      {| elements := own ++ elements follow;
         height := totalH + height follow |}
  | TryCatchNode _ t a b f =>
      let color := colorBranch in
      let innerW := width - LOOP_INDENT in
      let tryRowH := wrappedTextHeight "Try" textW fontSize in
      let tryH := measureHeight a fontSize innerW in
      let tryBodyH := Qmax tryH (tryRowH * (1 # 2)) in
      let tryResult :=
        renderNode a (x + LOOP_INDENT) (y + tryRowH) innerW fontSize None in
      let catchY := y + tryRowH + tryBodyH in
      let label := catchLabel t in
      let catchRowH := wrappedTextHeight label textW fontSize in
      let catchH := measureHeight b fontSize innerW in
      let catchBodyH := Qmax catchH (catchRowH * (1 # 2)) in
      let catchResult :=
        renderNode b (x + LOOP_INDENT) (catchY + catchRowH) innerW fontSize
                   None in
      let own :=
        [bg x y width tryRowH color;
         ln x y (x + width) y;
         ln x y x (y + tryRowH);
         textEl "Try" (x + PADDING_X) y tryRowH fontSize None "start";
         bg x (y + tryRowH) LOOP_INDENT tryBodyH color;
         ln x (y + tryRowH) x (y + tryRowH + tryBodyH);
         ln (x + LOOP_INDENT) (y + tryRowH) (x + LOOP_INDENT)
            (y + tryRowH + tryBodyH)]
          ++ elements tryResult
          ++ [bg x catchY width catchRowH color;
              ln (x + LOOP_INDENT) catchY (x + width) catchY;
              ln x catchY x (catchY + catchRowH);
              textEl label (x + PADDING_X) catchY catchRowH fontSize
                     (Some textW) "start";
              bg x (catchY + catchRowH) LOOP_INDENT catchBodyH color;
              ln x (catchY + catchRowH) x (catchY + catchRowH + catchBodyH);
              ln (x + LOOP_INDENT) (catchY + catchRowH) (x + LOOP_INDENT)
                 (catchY + catchRowH + catchBodyH);
              ln x (catchY + catchRowH + catchBodyH) (x + LOOP_INDENT)
                 (catchY + catchRowH + catchBodyH)]
          ++ elements catchResult in
      let totalH := tryRowH + tryBodyH + catchRowH + catchBodyH in
      let remainH := remaining availH totalH in
      let follow := renderNode f x (y + totalH) width fontSize remainH in
      {| elements := own ++ elements follow;
         height := totalH + height follow |}
  end.

(** ** The drawing as a whole *)

Definition STROKE_WIDTH : Q := 3 # 2.

(** [value || fallback] on an optional number. *)
Definition orDefault (value : option Q) (fallback : Q) : Q :=
  match value with
  | Some v => if nonzero v then v else fallback
  | None => fallback
  end.

(** The svg element: the four numbers of its [viewBox] and its children
    in the order they are appended. *)
Record svg : Type := mkSvg {
  viewBox : Q * Q * Q * Q;
  appended : list element
}.

(** [renderStructogramSVG(tree, options)], with the options [width] and
    [fontSize]. *)
Definition renderStructogramSVG (tree : node) (optWidth optFontSize : option Q)
  : svg :=
  let width := orDefault optWidth 600 in
  let fontSize := orDefault optFontSize 14 in
  let totalHeight := measureHeight tree fontSize width in
  let h := if nonzero totalHeight then totalHeight else 40 in
  let pad := STROKE_WIDTH in
  let result := renderNode tree 0 0 width fontSize None in
  {| viewBox := (- pad, - pad, width + pad * 2, h + pad * 2);
     appended :=
       elements result
         ++ [ln width 0 width (height result);
             ln 0 (height result) width (height result)] |}.

End Layout.
End Renderer.

(* ================================================================== *)
(** * Vocabulary of the statements *)
(* ================================================================== *)

Import JsString Regex Tree Counter Parser Result Serializer CodeGen.

(** Two double quotes. *)
Definition emptyQuoted : string := str1 dquote +++ str1 dquote.

(** A switch whose only case is labelled by the empty string literal. *)
Definition emptyLabelSwitch : string :=
  unlines ["switch x:"; "    case " +++ emptyQuoted +++ ":"; "        a"].

(** Two lines indented alike, the first starting with a hash sign. *)
Definition indentedHash : string := unlines ["  # note"; "  x = 1"].

(** The empty diagram, as the parser builds it. *)
Definition emptyTree : node := parsePseudocode "" KEYWORDS_EN.

(** Does the chain that starts at [n] hold a node that takes up slack: a
    statement, a case label, a branch or a switch, reached through insert
    markers, loops, functions and try/catch blocks? *)
Fixpoint absorbs (n : node) : bool :=
  match n with
  | Null | Placeholder _ _ => false
  | InsertNode _ f => absorbs f
  | TaskNode _ _ _ | InputNode _ _ _ | OutputNode _ _ _ | InsertCase _ _ _
  | BranchNode _ _ _ _ _ _ | CaseNode _ _ _ _ _ _ _ => true
  | HeadLoopNode _ _ _ f | CountLoopNode _ _ _ f | FootLoopNode _ _ _ f
  | FunctionNode _ _ _ _ f | TryCatchNode _ _ _ _ f => absorbs f
  end.

(** A text measurement that finds every text narrow enough. *)
Definition narrowText : Q -> string -> Q := fun _ _ => 0%Q.

(** Top edge and height of every rectangle of a drawing, in order. *)
Fixpoint rectangles (els : list Renderer.element) : list (Q * Q) :=
  match els with
  | [] => []
  | Renderer.Rect _ y _ h _ :: r => (Qred y, Qred h) :: rectangles r
  | _ :: r => rectangles r
  end.

(** The layout of a parsed text at width 600 and font size 14, with the
    narrow text measurement and insert markers of no height. *)
Definition layoutOf (source : string) (availH : option Q)
  : Renderer.rendered :=
  Renderer.renderNode narrowText 0 (parsePseudocode source KEYWORDS_EN)
                      0 0 600 14 availH.

(** The number of nodes of a tree that satisfy [P]. *)
Definition occurrences (P : node -> bool) (T : node) : nat :=
  length (filter P (nodes T)).

(** The node carries the identifier [id]. *)
Definition carries (id : string) : node -> bool :=
  fun n => Editor.has_id n id.

(** The node is an InsertNode that carries the identifier [id]. *)
Definition insertCarrying (id : string) : node -> bool :=
  fun n => match n with
           | InsertNode _ _ => Editor.has_id n id
           | _ => false
           end.

(** Some node of the tree carries the identifier [id]. *)
Definition present (T : node) (id : string) : bool :=
  existsb (carries id) (nodes T).

(** A clock that always reads the same instant. *)
Definition stillClock : nat -> string := fun _ => "t0".

(** The node has the property [k] (for [cases], the index is in range). *)
Definition key_ok (n : node) (k : Editor.key) : bool :=
  match k, n with
  | Editor.KfollowElement, Null => false
  | Editor.KfollowElement, _ => true
  | Editor.KtrueChild, BranchNode _ _ _ _ _ _ => true
  | Editor.KfalseChild, BranchNode _ _ _ _ _ _ => true
  | Editor.Kchild, (HeadLoopNode _ _ _ _ | CountLoopNode _ _ _ _
                   | FootLoopNode _ _ _ _ | FunctionNode _ _ _ _ _) => true
  | Editor.KtryChild, TryCatchNode _ _ _ _ _ => true
  | Editor.KcatchChild, TryCatchNode _ _ _ _ _ => true
  | Editor.Kcases i, CaseNode _ _ _ _ _ cs _ => i <? length cs
  | Editor.KdefaultNode, CaseNode _ _ _ _ _ _ _ => true
  | _, _ => false
  end.

(** The path follows properties the nodes on its way have. *)
Fixpoint valid (n : node) (p : Editor.path) : bool :=
  match p with
  | [] => true
  | k :: r => key_ok n k && valid (Editor.getKey n k) r
  end.

(** Two statements, [a] then [b], between insert markers, closed by a
    Placeholder that carries an identifier. *)
Definition twoStatements : node :=
  InsertNode (Some "i0")
    (TaskNode (Some "a") "x = 1"
       (InsertNode (Some "i1")
          (TaskNode (Some "b") "y = 2"
             (InsertNode (Some "i2") (Placeholder (Some "end") Null))))).

(** An insert marker with identifier [s] at the root, leading to a
    Placeholder with identifier [t]. *)
Definition rootedAtSource : node :=
  InsertNode (Some "s") (Placeholder (Some "t") Null).

(** A [columnWidths] field is absent or holds at least one number. *)
Definition cw_ok (cw : option (list Q)) : bool :=
  match cw with
  | Some [] => false
  | _ => true
  end.

(** Every [columnWidths] field of the tree is absent or not empty. *)
Fixpoint widths_ok (n : node) : bool :=
  match n with
  | Null => true
  | InsertNode _ f | Placeholder _ f
  | TaskNode _ _ f | InputNode _ _ f | OutputNode _ _ f
  | InsertCase _ _ f => widths_ok f
  | BranchNode _ _ cw a b f =>
      cw_ok cw && widths_ok a && widths_ok b && widths_ok f
  | CaseNode _ _ cw _ dn cs f =>
      cw_ok cw && widths_ok dn && forallb widths_ok cs && widths_ok f
  | HeadLoopNode _ _ c f | CountLoopNode _ _ c f | FootLoopNode _ _ c f
  | FunctionNode _ _ _ c f => widths_ok c && widths_ok f
  | TryCatchNode _ _ a b f => widths_ok a && widths_ok b && widths_ok f
  end.

(** A [columnWidths] field is absent or has exactly [n] entries. *)
Definition cw_has (n : nat) (cw : option (list Q)) : bool :=
  match cw with
  | Some ws => length ws =? n
  | None => true
  end.

(** Every [columnWidths] field of the tree has as many entries as the node
    has branches: two for a branch, the cases and the enabled default for a
    switch. *)
Fixpoint widths_match (n : node) : bool :=
  match n with
  | Null => true
  | InsertNode _ f | Placeholder _ f
  | TaskNode _ _ f | InputNode _ _ f | OutputNode _ _ f
  | InsertCase _ _ f => widths_match f
  | BranchNode _ _ cw a b f =>
      cw_has 2 cw && widths_match a && widths_match b && widths_match f
  | CaseNode _ _ cw d dn cs f =>
      cw_has (length cs + (if d then 1 else 0)) cw
      && widths_match dn && forallb widths_match cs && widths_match f
  | HeadLoopNode _ _ c f | CountLoopNode _ _ c f | FootLoopNode _ _ c f
  | FunctionNode _ _ _ c f => widths_match c && widths_match f
  | TryCatchNode _ _ a b f =>
      widths_match a && widths_match b && widths_match f
  end.

(** The text matches none of the patterns [mergeBlocks] builds from the
    keyword map. *)
Definition matches_none (k : keywords) (t : string) : bool :=
  negb (test (reTryBlock k) t || test (reCatchPrefix k) t
        || test (reIfPrefix k) t || test (reElseBlock k) t
        || test (reRepeatBlock k) t || test (reWhilePrefix k) t
        || test (reCountLoop k) t || test (reHeadLoop k) t
        || test (reFuncDef k) t || test (reSwitchBlock k) t
        || test (reCaseLabel k) t || test (reInput k) t
        || test (reOutput k) t).

(** The text could be the second half of a pair: a catch line, an else
    line or a while line. *)
Definition second_half (k : keywords) (t : string) : bool :=
  test (reCatchPrefix k) t || test (reElseBlock k) t
  || test (reWhilePrefix k) t.

(** The identifier [uid()] returns when it moves the counter to [n]. *)
Definition uidText (n : nat) : string := "__pseudo_" +++ ofNat n.

(** The flag the pre-scan puts on the first of [blocks] when [b] is the
    block before it. *)
Definition skipAfter (k : keywords) (b : block) (blocks : list block)
  : bool :=
  match blocks with
  | nb :: _ => pairs k (btext b) (btext nb)
  | [] => false
  end.







(** The branch example: an if with an output in each branch. *)
Definition call (name arg : string) : string :=
  name +++ "(" +++ str1 dquote +++ arg +++ str1 dquote +++ ")".

Definition fourLines : string :=
  unlines ["if x > 0:"; "    " +++ call "output" "pos";
           "else:"; "    " +++ call "output" "neg"].

(** [t] starts with the keyword [kw], letter case apart. *)
Fixpoint prefix_ci (kw t : string) : bool :=
  match kw, t with
  | EmptyString, _ => true
  | String a kw', String c t' => eq_ci a c && prefix_ci kw' t'
  | String _ _, EmptyString => false
  end.

(** One of the two built-in keyword maps. *)
Definition builtin (k : keywords) : Prop :=
  k = KEYWORDS_EN \/ k = KEYWORDS_DE.

(** The node is an InsertCase. *)
Definition is_insertCase (n : node) : bool :=
  match n with InsertCase _ _ _ => true | _ => false end.

(** The node is an InsertNode or a Placeholder. *)
Definition is_marker (n : node) : bool :=
  match n with InsertNode _ _ | Placeholder _ _ => true | _ => false end.

(** No [cases] array of the tree holds [null]. *)
Fixpoint cases_total (n : node) : bool :=
  match n with
  | Null => true
  | InsertNode _ f | Placeholder _ f
  | TaskNode _ _ f | InputNode _ _ f | OutputNode _ _ f
  | InsertCase _ _ f => cases_total f
  | BranchNode _ _ _ a b f =>
      cases_total a && cases_total b && cases_total f
  | CaseNode _ _ _ _ dn cs f =>
      forallb (fun c => negb (is_null c) && cases_total c) cs
      && cases_total dn && cases_total f
  | HeadLoopNode _ _ c f | CountLoopNode _ _ c f | FootLoopNode _ _ c f
  | FunctionNode _ _ _ c f => cases_total c && cases_total f
  | TryCatchNode _ _ a b f =>
      cases_total a && cases_total b && cases_total f
  end.

(** A tree as the parser and the editor build them: nothing follows a
    Placeholder, every entry of a [cases] array is an InsertCase, and a
    default case is an InsertCase or missing. *)
Fixpoint tidy (n : node) : bool :=
  match n with
  | Null => true
  | Placeholder _ f => is_null f
  | InsertNode _ f
  | TaskNode _ _ f | InputNode _ _ f | OutputNode _ _ f
  | InsertCase _ _ f => tidy f
  | BranchNode _ _ _ a b f => tidy a && tidy b && tidy f
  | CaseNode _ _ _ _ dn cs f =>
      forallb (fun c => is_insertCase c && tidy c) cs
      && (is_null dn || is_insertCase dn) && tidy dn && tidy f
  | HeadLoopNode _ _ c f | CountLoopNode _ _ c f | FootLoopNode _ _ c f
  | FunctionNode _ _ _ c f => tidy c && tidy f
  | TryCatchNode _ _ a b f => tidy a && tidy b && tidy f
  end.

(** The shape of a chain the parser builds.  It starts at an InsertNode
    with an identifier.  What follows is nothing (the end of a sequence of
    statements), a bare Placeholder (an empty body), or a content node
    with an identifier whose bodies and continuation are such chains
    again; the cases and the default case of a switch are InsertCases
    with an identifier over such a chain, and a list of column widths is
    not empty. *)
Fixpoint parsedChain (n : node) : bool :=
  match n with
  | InsertNode (Some _) f =>
      match f with
      | Null => true
      | Placeholder None Null => true
      | TaskNode (Some _) _ g | InputNode (Some _) _ g
      | OutputNode (Some _) _ g => parsedChain g
      | BranchNode (Some _) _ cw a b g =>
          cw_ok cw && parsedChain a && parsedChain b && parsedChain g
      | CaseNode (Some _) _ cw _ dn cs g =>
          cw_ok cw
          && forallb (fun c =>
                        match c with
                        | InsertCase (Some _) _ body => parsedChain body
                        | _ => false
                        end) cs
          && match dn with
             | InsertCase (Some _) _ body => parsedChain body
             | _ => false
             end
          && parsedChain g
      | HeadLoopNode (Some _) _ c g | CountLoopNode (Some _) _ c g
      | FootLoopNode (Some _) _ c g | FunctionNode (Some _) _ _ c g =>
          parsedChain c && parsedChain g
      | TryCatchNode (Some _) _ a b g =>
          parsedChain a && parsedChain b && parsedChain g
      | _ => false
      end
  | _ => false
  end.

(** The identifier of a node, as a list of at most one. *)
Definition idOf (n : node) : list string :=
  match node_id n with
  | Some i => [i]
  | None => []
  end.

(** The identifiers of the nodes of a tree, in depth-first order. *)
Definition ids (n : node) : list string := flat_map idOf (nodes n).

(** The node is no InsertNode and no Placeholder and has no identifier. *)
Definition bareNode (n : node) : bool :=
  negb (is_marker n)
  && match node_id n with Some _ => false | None => true end.

(** The node is [null] or carries an identifier that is not empty. *)
Definition identified (n : node) : bool :=
  is_null n || negb (Editor.falsy (node_id n)).

(** The sum of a list of numbers. *)
Definition total (ws : list Q) : Q := fold_right Qplus 0%Q ws.

(** The content of a node as [collectEditableNodes] reports it. *)
Definition summary (n : node) : Editor.editable :=
  {| Editor.eid := node_id n; Editor.etype := Editor.typeName n;
     Editor.etext := Editor.textOf n |}.

(** The node is an object that is no InsertNode and no Placeholder. *)
Definition is_content (n : node) : bool :=
  negb (is_null n) && negb (is_marker n).

(** The shape of an entry of [cases] and of a default case in a parsed
    tree: an InsertCase with an identifier over a parsed chain. *)
Definition caseShape (c : node) : bool :=
  match c with
  | InsertCase (Some _) _ body => parsedChain body
  | _ => false
  end.

(** Every identifier of the list is the one drawn when the counter moved
    to some value above [lo] and not above [hi]. *)
Definition drawn (lo hi : nat) (l : list string) : Prop :=
  forall i, In i l -> exists j, lo < j <= hi /\ i = uidText j.

(** The identifiers of the tree are pairwise different and drawn between
    [lo] and [hi]. *)
Definition freshIn (lo hi : nat) (n : node) : Prop :=
  lo <= hi /\ NoDup (ids n) /\ drawn lo hi (ids n).

(** The identifiers under the default case found so far. *)
Definition idsOpt (found : option node) : list string :=
  match found with
  | Some d => ids d
  | None => []
  end.

(** The state of the loop over the cases of a switch: the identifiers
    gathered so far, in the cases and under the default case, are pairwise
    different and drawn between [lo] and [hi]. *)
Definition gathered (lo hi : nat) (cases : list node) (found : option node)
  : Prop :=
  lo <= hi
  /\ NoDup (flat_map ids cases) /\ NoDup (idsOpt found)
  /\ (forall i, In i (flat_map ids cases) -> ~ In i (idsOpt found))
  /\ drawn lo hi (flat_map ids cases)
  /\ drawn lo hi (idsOpt found).

(** The table has an entry for every kind of node. *)
Definition complete (t : table) : bool :=
  match tInputNode t, tOutputNode t, tTaskNode t, tBranchNode t,
        tTryCatchNode t, tCountLoopNode t, tHeadLoopNode t, tFootLoopNode t,
        tFunctionNode t, tCaseNode t, tInsertCase t with
  | Some _, Some _, Some _, Some _, Some _, Some _, Some _, Some _,
    Some _, Some _, Some _ => true
  | _, _, _, _, _, _, _, _, _, _, _ => false
  end.

(** No node of the tree is an InsertNode or a Placeholder, and none has
    an identifier. *)
Definition bare (n : node) : bool := forallb bareNode (nodes n).

(** What [_stripChain] leaves of an entry of [cases] or of a default case
    once the identifiers are deleted: an InsertCase stays, over the
    stripped chain; any other entry is stripped as a chain. *)
Definition stripCase (c : node) : node :=
  match c with
  | InsertCase _ u g => InsertCase None u (Editor.stripChain g)
  | _ => Editor.stripChain c
  end.

(** The shape [_wrapContent] gives what follows an InsertNode.  An
    InsertNode is followed by something of this shape; a Placeholder is
    left as it is; a content node is followed by an InsertNode, each of
    its bodies is missing or starts with an InsertNode, and so does the
    chain under each of its cases. *)
Fixpoint wrappedContent (n : node) : bool :=
  let chain (c : node) : bool :=
    match c with
    | InsertNode _ f => negb (is_null f) && wrappedContent f
    | _ => false
    end in
  let body (c : node) : bool := is_null c || chain c in
  let inCase (c : node) : bool :=
    match c with
    | InsertCase _ _ g => chain g
    | _ => chain c
    end in
  match n with
  | Null => false
  | InsertNode _ f => negb (is_null f) && wrappedContent f
  | Placeholder _ _ => true
  | TaskNode _ _ f | InputNode _ _ f | OutputNode _ _ f
  | InsertCase _ _ f => chain f
  | BranchNode _ _ _ a b f => body a && body b && chain f
  | HeadLoopNode _ _ c f | CountLoopNode _ _ c f | FootLoopNode _ _ c f
  | FunctionNode _ _ _ c f => body c && chain f
  | TryCatchNode _ _ a b f => body a && body b && chain f
  | CaseNode _ _ _ _ dn cs f =>
      forallb inCase cs && (is_null dn || inCase dn) && chain f
  end.

(** A chain as [_wrapChain] returns it: an InsertNode followed by
    something of the wrapped shape. *)
Definition wrappedChain (n : node) : bool :=
  match n with
  | InsertNode _ f => negb (is_null f) && wrappedContent f
  | _ => false
  end.

(** An entry of [cases] or a default case of a wrapped switch. *)
Definition wrappedCase (c : node) : bool :=
  match c with
  | InsertCase _ _ g => wrappedChain g
  | _ => wrappedChain c
  end.

(** A computation of the editor that throws nothing and returns, from
    every state of the counter, a value with the property [Q]. *)
Definition returns {A : Type} (m : Editor.Ed A) (Q : A -> Prop) : Prop :=
  forall s, exists a s', m s = Ok (a, s') /\ Q a.

(** Every node of the tree carries an identifier that is not empty. *)
Definition allIdentified (n : node) : bool := forallb identified (nodes n).

(** The identifier [genId] returns when it moves the counter to [n]. *)
Definition edId (clock : nat -> string) (n : nat) : string :=
  "__ed_" +++ clock n +++ "_" +++ ofNat n.

(** The tree after the node at [p] has been taken out: what followed the
    node, or a Placeholder, stands in its place. *)
Definition detached (T : node) (p : Editor.path) : node :=
  Editor.setAt T p (Editor.followOrPlaceholder (Editor.getAt T p)).

(** [_prepTree(tree)] of the editor element:
    [ensureIds(wrapWithInsertNodes(tree))]. *)
Definition prepTree (clock : nat -> string) (tree : node) : Editor.Ed node :=
  Editor.bind (Editor.wrapWithInsertNodes clock tree) (Editor.ensureIds clock).

(** The character does not occur in the string. *)
Fixpoint lacks (c : ascii) (s : string) : bool :=
  match s with
  | EmptyString => true
  | String a r => negb (Ascii.eqb a c) && lacks c r
  end.

(** The types [createNode] has a template for. *)
Definition templateTypes : list string :=
  ["TaskNode"; "InputNode"; "OutputNode"; "BranchNode"; "CaseNode";
   "HeadLoopNode"; "CountLoopNode"; "FootLoopNode"; "FunctionNode";
   "TryCatchNode"].

(** The search has found an InsertNode. *)
Definition insertFound (found : option node) : bool :=
  match found with
  | Some (InsertNode _ _) => true
  | _ => false
  end.

(** The identifier of a node as [collectInsertPoints] takes it: none when
    it is missing or empty. *)
Definition pointId (n : node) : list string :=
  match node_id n with
  | Some i => if is_empty i then [] else [i]
  | None => []
  end.

(** A line that is a plain statement at the first column: it holds no
    line feed, the tokenizer keeps it as it is with indentation 0, and
    its text matches none of the patterns of the parser. *)
Definition plainLine (k : keywords) (t : string) : Prop :=
  lacks lf t = true
  /\ tokenizeLine t = Some {| text := t; Parser.indent := 0 |}
  /\ matches_none k t = true.

(** The chain of statements with the given texts as the parser builds
    it, without identifiers. *)
Fixpoint statements (texts : list string) : node :=
  match texts with
  | [] => InsertNode None Null
  | t :: r => InsertNode None (TaskNode None t (statements r))
  end.

(** A line the tokenizer drops: blank, or a comment that starts at the
    first column. *)
Definition blankLine (raw : string) : bool :=
  is_empty (trimEnd raw) || startsWith (trimEnd raw) "#".

(** The diagram without statements. *)
Definition emptyDiagram : node :=
  InsertNode (Some "__pseudo_1") (Placeholder None Null).

(** One when the identifier [i] is [x], zero otherwise. *)
Definition own (x : string) (i : option string) : nat :=
  match i with
  | Some j => if String.eqb j x then 1 else 0
  | None => 0
  end.

(** The number of values of the counter above [s] and up to [s'] at
    which [genId] returns [x]. *)
Definition drawnAs (clock : nat -> string) (s s' : nat) (x : string) : nat :=
  list_sum (map (fun j => own x (Some (edId clock j))) (List.seq (S s) (s' - s))).

(** Every identifier is carried by at most one node of the tree. *)
Definition distinctIds (T : node) : Prop :=
  forall x, occurrences (carries x) T <= 1.

(** No node of the tree carries an identifier that [genId] returns at a
    value of the counter above [s]. *)
Definition settled (clock : nat -> string) (s : nat) (T : node) : Prop :=
  forall j, s < j -> occurrences (carries (edId clock j)) T = 0.

(** A computation of the editor that throws nothing and moves the
    counter forward, with a property of the state before, the value
    returned and the state after. *)
Definition grows {A : Type} (m : Editor.Ed A) (Q : nat -> A -> nat -> Prop)
  : Prop :=
  forall s, exists a s', m s = Ok (a, s') /\ s <= s' /\ Q s a s'.

(** The tree [n'] carries no identifier more often than [n] does, the
    identifiers drawn between the two states apart. *)
Definition addsTo (clock : nat -> string) (n : node)
  : nat -> node -> nat -> Prop :=
  fun s n' s' =>
    forall x, occurrences (carries x) n'
              <= occurrences (carries x) n + drawnAs clock s s' x.

(** A token of a flat program of plain statements: it is indented by [m]
    and its text is a plain line. *)
Definition flatPlain (k : keywords) (m : nat) (l : line) : Prop :=
  Parser.indent l = m /\ plainLine k (text l).

(** The parser of a body: [mergeBlocks] with the bound on the recursion
    that [parsePseudocode] gives it, the number of lines. *)
Definition parseBody (k : keywords) (ls : list line) (base : nat) : M node :=
  mergeBlocks (length ls) ls base k.

(** The flag the pre-scan leaves on the block [b] that comes after the
    blocks [above], the first of which has the flag [skip]: [b] is marked
    when it completes a pair with the block before it. *)
Fixpoint flagged (k : keywords) (skip : bool) (above : list block)
         (b : block) : bool :=
  match above with
  | [] => skip
  | a :: r => flagged k (pairs k (btext a) (btext (hd b r))) r b
  end.

(** Does the pattern match ([text.match(re)] is not [null])? *)
Definition matched {A : Type} (o : option A) : bool :=
  match o with Some _ => true | None => false end.

(** A block of a switch body that is a case label, and one that is the
    else line of the default case. *)
Definition isCase (k : keywords) (cb : block) : bool :=
  matched (capture1 (reCaseLabel k) (btext cb)).

Definition isDefault (k : keywords) (cb : block) : bool :=
  negb (isCase k cb) && test (reElseBlock k) (btext cb).

(** The last else block of a switch body: each one overwrites the
    default case of the one before. *)
Fixpoint lastDefault (k : keywords) (caseBlocks : list block)
  : option block :=
  match caseBlocks with
  | [] => None
  | cb :: rest =>
      match lastDefault k rest with
      | Some d => Some d
      | None => if isDefault k cb then Some cb else None
      end
  end.

(** The bodies of a switch that reach the tree: those of the case labels
    and that of the last else block. *)
Definition caseBodies (k : keywords) (caseBlocks : list block)
  : list (list line) :=
  map children (filter (isCase k) caseBlocks)
  ++ match lastDefault k caseBlocks with
     | Some d => [children d]
     | None => []
     end.

(** The bodies [mergeBlocks] parses in the turn of the block [b], with
    the indentation it parses them at, following the tests of the loop in
    their order: the children of the block (and of the else or catch
    block after it) four columns deeper, the bodies of the cases of a
    switch eight columns deeper; none for an input, an output or a plain
    statement, and none for the while line of a foot-tested loop. *)
Definition bodiesOf (k : keywords) (baseIndent : nat) (b : block)
           (nextBlock : option block) : list (list line * nat) :=
  let t := btext b in
  let childIndent := baseIndent + 4 in
  let next_is (r : re) : bool :=
    match nextBlock with
    | Some nb => test r (btext nb)
    | None => false
    end in
  let nextText := match nextBlock with Some nb => btext nb | None => "" end in
  let nextChildren :=
    match nextBlock with Some nb => children nb | None => [] end in
  if test (reTryBlock k) t && next_is (reCatchPrefix k) then
    [(children b, childIndent); (nextChildren, childIndent)]
  else if test (reIfPrefix k) t && next_is (reElseBlock k) then
    [(children b, childIndent); (nextChildren, childIndent)]
  else if test (reIfPrefix k) t then [(children b, childIndent)]
  else if test (reRepeatBlock k) t && next_is (reWhilePrefix k)
          && negb (endsWithChar nextText ":") then
    [(children b, childIndent)]
  else if matched (capture1 (reCountLoop k) t) then [(children b, childIndent)]
  else if matched (capture1 (reHeadLoop k) t) then [(children b, childIndent)]
  else if matched (capture2 (reFuncDef k) t) then [(children b, childIndent)]
  else if matched (capture1 (reSwitchBlock k) t) then
    map (fun ls => (ls, childIndent + 4))
        (caseBodies k (groupBlocks (children b) childIndent))
  else [].

(** The bodies the parser parses on the way from the body [lines] at
    [baseIndent]: that body itself, and every body parsed in the turn of
    a block of a parsed body that the pre-scan has not marked. *)
Inductive parses (k : keywords) (lines : list line) (baseIndent : nat)
  : list line -> nat -> Prop :=
| parses_self : parses k lines baseIndent lines baseIndent
| parses_nested :
    forall (above : list block) (b : block) (rest : list block)
           (body : list line) (childIndent : nat)
           (ls : list line) (i : nat),
      groupBlocks lines baseIndent = above ++ b :: rest ->
      flagged k false above b = false ->
      In (body, childIndent) (bodiesOf k baseIndent b (hd_error rest)) ->
      parses k body childIndent ls i ->
      parses k lines baseIndent ls i.

(** The bodies parsed for a text: the tokens at their least indentation,
    and what the parser reaches from there. *)
Definition parsed (k : keywords) (source : string) (ls : list line)
           (i : nat) : Prop :=
  match tokenize source with
  | [] => False
  | l :: rest => parses k (l :: rest) (minIndent l rest) ls i
  end.

(** Does [parseFloat] find a number at the head of the text: after white
    space, a digit, or a dot followed by a digit? *)
Definition numeric (s : string) : bool :=
  match trimStart s with
  | String c r =>
      is_digit c
      || (Ascii.eqb c "."
          && match r with
             | String d _ => is_digit d
             | EmptyString => false
             end)
  | EmptyString => false
  end.

(** The number of entries of the list [extractColumnWidths] returns for a
    text: one for each part between the commas of a trailing bracketed
    list in which [parseFloat] finds a number; no list at all when the
    text does not end in such brackets or no part holds a number. *)
Definition widthCount (str : string) : option nat :=
  match exec reColumnWidths str with
  | Some ([_; m2], _) =>
      let n := length (filter (fun s => numeric (trim s)) (split "," m2)) in
      if 0 <? n then Some n else None
  | _ => None
  end.


Definition loopedBranch : string :=
  unlines ["repeat while c:"; "    if x > 0:"; "        a";
           "    else:"; "        b"].

Definition loopedFootLoop : string :=
  unlines ["repeat while c:"; "    repeat:"; "        a"; "    while x > 0"].

Definition loopedColon : string :=
  unlines ["repeat while c:"; "    repeat:"; "        a"; "    while x > 0:"].

Definition widthsInLoop : string :=
  unlines ["repeat while c:"; "    if x [0.25, 0.25, 0.5]:"; "        a"].

(** Keyword maps in which one keyword is used twice over: the catch
    keyword is the if keyword; the try keyword is an if line and the
    catch keyword the else keyword; the if keyword is the repeat
    keyword; the try and catch keywords are the repeat and while
    keywords. *)
Definition withKeywords (kif ktry kcatch : string) : keywords := {|
  kw_if := kif; kw_else := "else";
  kw_repeat := "repeat"; kw_while := "while"; kw_for := "for";
  kw_switch := "switch"; kw_case := "case";
  kw_function := "function";
  kw_try := ktry; kw_catch := kcatch;
  kw_input := "input"; kw_output := "output";
  kw_true := "True"; kw_false := "False";
  kw_default := "Default" |}.

(** The node is a FootLoopNode. *)
Definition is_footLoop (n : node) : bool :=
  match n with FootLoopNode _ _ _ _ => true | _ => false end.

(** The variable of a switch line: what the switch pattern captures in a
    text that none of the tests the loop makes before takes (a try, if
    or repeat line, a counting or pre-tested loop, a function). *)
Definition opensSwitch (k : keywords) (t : string) : option string :=
  if test (reTryBlock k) t || test (reIfPrefix k) t
     || test (reRepeatBlock k) t
     || matched (capture1 (reCountLoop k) t)
     || matched (capture1 (reHeadLoop k) t)
     || matched (capture2 (reFuncDef k) t)
  then None
  else capture1 (reSwitchBlock k) t.

(** A switch with two cases and one width, in the body of a loop. *)
Definition switchInLoop : string :=
  unlines ["repeat while c:"; "    switch x [1]:"; "        case 1:";
           "            a"; "        case 2:"; "            b"].

(** Two statements, and a pre-tested loop with an empty body. *)
Definition twoRows : node := parsePseudocode (unlines ["a"; "b"]) KEYWORDS_EN.

Definition emptyLoop : node := parsePseudocode "repeat while c:" KEYWORDS_EN.

(** The tree without its column widths: two trees agree in everything
    but the [columnWidths] fields when their images are equal. *)
Fixpoint erase_widths (n : node) : node :=
  match n with
  | Null => Null
  | InsertNode i f => InsertNode i (erase_widths f)
  | Placeholder i f => Placeholder i (erase_widths f)
  | TaskNode i t f => TaskNode i t (erase_widths f)
  | InputNode i t f => InputNode i t (erase_widths f)
  | OutputNode i t f => OutputNode i t (erase_widths f)
  | BranchNode i t _ a b f =>
      BranchNode i t None (erase_widths a) (erase_widths b) (erase_widths f)
  | CaseNode i t _ d dn cs f =>
      CaseNode i t None d (erase_widths dn) (map erase_widths cs)
               (erase_widths f)
  | InsertCase i t f => InsertCase i t (erase_widths f)
  | HeadLoopNode i t c f =>
      HeadLoopNode i t (erase_widths c) (erase_widths f)
  | CountLoopNode i t c f =>
      CountLoopNode i t (erase_widths c) (erase_widths f)
  | FootLoopNode i t c f =>
      FootLoopNode i t (erase_widths c) (erase_widths f)
  | FunctionNode i t ps c f =>
      FunctionNode i t ps (erase_widths c) (erase_widths f)
  | TryCatchNode i t a b f =>
      TryCatchNode i t (erase_widths a) (erase_widths b) (erase_widths f)
  end.

(* ================================================================== *)
(** * Properties *)
(* ================================================================== *)

(** ** Induction over trees *)

Section NodeInduction.
Variable P : node -> Prop.
Hypothesis HNull : P Null.
Hypothesis HInsert : forall i f, P f -> P (InsertNode i f).
Hypothesis HPlaceholder : forall i f, P f -> P (Placeholder i f).
Hypothesis HTask : forall i t f, P f -> P (TaskNode i t f).
Hypothesis HInput : forall i t f, P f -> P (InputNode i t f).
Hypothesis HOutput : forall i t f, P f -> P (OutputNode i t f).
Hypothesis HBranch :
  forall i t cw a b f, P a -> P b -> P f -> P (BranchNode i t cw a b f).
Hypothesis HCase :
  forall i t cw d dn cs f,
    P dn -> Forall P cs -> P f -> P (CaseNode i t cw d dn cs f).
Hypothesis HInsertCase : forall i t f, P f -> P (InsertCase i t f).
Hypothesis HHead : forall i t c f, P c -> P f -> P (HeadLoopNode i t c f).
Hypothesis HCount : forall i t c f, P c -> P f -> P (CountLoopNode i t c f).
Hypothesis HFoot : forall i t c f, P c -> P f -> P (FootLoopNode i t c f).
Hypothesis HFunction :
  forall i t ps c f, P c -> P f -> P (FunctionNode i t ps c f).
Hypothesis HTry :
  forall i t a b f, P a -> P b -> P f -> P (TryCatchNode i t a b f).

Lemma node_induction : forall n, P n.
Proof.
  fix IH 1. intros n. destruct n.
  - exact HNull.
  - apply HInsert, IH.
  - apply HPlaceholder, IH.
  - apply HTask, IH.
  - apply HInput, IH.
  - apply HOutput, IH.
  - apply HBranch; apply IH.
  - apply HCase; [apply IH | | apply IH].
    induction cases as [|c r IHr]; constructor; [apply IH | exact IHr].
  - apply HInsertCase, IH.
  - apply HHead; apply IH.
  - apply HCount; apply IH.
  - apply HFoot; apply IH.
  - apply HFunction; apply IH.
  - apply HTry; apply IH.
Qed.
End NodeInduction.

(** ** The text round trip *)

(** C1.  The round trip through the serializer fails, whatever the host's
    printing of numbers.  On a switch with an empty quoted case label the
    first parse has one case (of empty text); the serializer writes it as
    a label with nothing between keyword and colon, which the case pattern
    does not match, and the second parse has no case at all.  On a text
    whose lines are all indented, a line that starts with a hash sign after
    the indentation is a statement for the first parse; the serializer
    writes it at the first column, where the tokenizer takes it for a
    comment, and the second parse has lost the statement. *)
Theorem round_trip_loses_empty_case_label :
  forall numberToString : Q -> string,
    (exists t',
        treeToPseudocode numberToString KEYWORDS_EN
                         (parsePseudocode emptyLabelSwitch KEYWORDS_EN)
        = Ok t'
        /\ t' = unlines ["switch x:"; "    case :"; "        a"]
        /\ erase_ids (parsePseudocode t' KEYWORDS_EN)
           <> erase_ids (parsePseudocode emptyLabelSwitch KEYWORDS_EN))
    /\ (exists t',
          treeToPseudocode numberToString KEYWORDS_EN
                           (parsePseudocode indentedHash KEYWORDS_EN)
          = Ok t'
          /\ t' = unlines ["# note"; "x = 1"]
          /\ erase_ids (parsePseudocode t' KEYWORDS_EN)
             <> erase_ids (parsePseudocode indentedHash KEYWORDS_EN)).
Proof.
  intros numberToString. split.
  - eexists. split; [vm_compute; reflexivity |]. split; [reflexivity |].
    vm_compute. discriminate.
  - eexists. split; [vm_compute; reflexivity |]. split; [reflexivity |].
    vm_compute. discriminate.
Qed.

(** ** The code generator's unsupported-target error *)

(** C7.  [constructor] is not a supported target, yet [generateCode] does
    not throw for it: the lookup finds the property every object inherits,
    the guard lets it pass, and the empty diagram is turned into the empty
    text.  On a diagram with a statement the call throws a TypeError, not
    the error that names the target. *)
Theorem generateCode_inherited_key_not_rejected :
  mem (toLowerCase "constructor") ownKeys = false
  /\ generateCode emptyTree "constructor" = Ok ""
  /\ generateCode (parsePseudocode "x = 1" KEYWORDS_EN) "constructor"
     = Throw TypeError.
Proof. repeat split; vm_compute; reflexivity. Qed.

(** For a key found neither on the table nor on its prototype the error
    names the target and lists the supported ones. *)
Lemma generateCode_unsupported :
  forall tree lang,
    lookup (toLowerCase lang) = None ->
    generateCode tree lang
    = Throw (Error ("Unsupported language: " +++ lang
                      +++ ". Supported: python, java, javascript")).
Proof.
  intros tree lang H. unfold generateCode. rewrite H. reflexivity.
Qed.

Example generateCode_cobol :
  generateCode emptyTree "cobol"
  = Throw (Error
      "Unsupported language: cobol. Supported: python, java, javascript").
Proof. reflexivity. Qed.

(** ** Measuring and placing *)

Section LayoutFacts.
Import Renderer.
Variable measureText : Q -> string -> Q.
Variable insertNodeHeight : Q.

Let measure := measureHeight measureText insertNodeHeight.
Let render := renderNode measureText insertNodeHeight.

Lemma Qplus_zero_right : forall q : Q, (q + 0)%Q = q.
Proof.
  intros [a b]. unfold Qplus. simpl.
  rewrite Z.mul_1_r, Z.add_0_r, Pos.mul_1_r. reflexivity.
Qed.

(** The height of a placement that is given no available height. *)
Lemma placed_height :
  forall (n : node) (x y width fontSize : Q),
    height (render n x y width fontSize None)
    = measure n fontSize width.
Proof.
  unfold measure, render.
  induction n using node_induction; intros x y width fontSize.
  all: cbn [renderNode measureHeight height elements remaining
            remainingIfTruthy exceeds].
  all: rewrite ?Qplus_zero_right.
  all: try rewrite IHn; try rewrite IHn3; try rewrite IHn2; reflexivity.
Qed.

(** C5.  Placing a subtree without an available height returns exactly the
    height the measuring pass computes, at every origin. *)
Theorem measure_place_agree :
  forall (n : node) (x y width fontSize : Q),
    height (render n x y width fontSize None)
    = measure n fontSize width.
Proof.
  unfold measure, render.
  induction n using node_induction; intros x y width fontSize.
  all: cbn [renderNode measureHeight height elements remaining
            remainingIfTruthy exceeds].
  all: rewrite ?Qplus_zero_right.
  all: try rewrite IHn; try rewrite IHn3; try rewrite IHn2; reflexivity.
Qed.

Lemma gt_true : forall a b : Q, gt a b = true <-> (b < a)%Q.
Proof.
  intros a b. unfold gt. rewrite negb_true_iff.
  destruct (Qle_bool a b) eqn:E.
  - apply Qle_bool_iff in E. split; [discriminate | intros H; lra].
  - split; [intros _ | reflexivity].
    destruct (Qlt_le_dec b a) as [L | L]; [exact L |].
    apply Qle_bool_iff in L. congruence.
Qed.

Lemma gt_false : forall a b : Q, gt a b = false <-> (a <= b)%Q.
Proof.
  intros a b. unfold gt. rewrite negb_false_iff. apply Qle_bool_iff.
Qed.

Lemma row_height_positive :
  forall str maxWidth fontSize,
    (40 <= wrappedTextHeight measureText str maxWidth fontSize)%Q.
Proof. intros. unfold wrappedTextHeight. apply Q.le_max_l. Qed.

Lemma measureEach_ge :
  forall h colW cs i m, (m <= measureEach h colW i cs m)%Q.
Proof.
  induction cs as [|c r IH]; intros i m; cbn [measureEach].
  - lra.
  - eapply Qle_trans; [apply Q.le_max_l | apply IH].
Qed.

Lemma measure_nonneg :
  (0 <= insertNodeHeight)%Q ->
  forall (n : node) (fontSize width : Q),
    (0 <= fontSize)%Q -> (0 <= measure n fontSize width)%Q.
Proof.
  intros Hinh. unfold measure.
  induction n using node_induction; intros fontSize width Hfs.
  all: cbn [measureHeight].
  all: try lra.
  all: repeat match goal with
         | |- context [wrappedTextHeight measureText ?s ?w ?f] =>
             let H := fresh "Hrow" in
             pose proof (row_height_positive s w f) as H;
             generalize dependent (wrappedTextHeight measureText s w f);
             intros
         end.
  all: repeat match goal with
         | IH : forall fontSize width : Q, _ -> (0 <= measureHeight _ _ ?n _ _)%Q
           |- context [measureHeight _ _ ?n ?f ?w] =>
             let H := fresh "Hm" in
             pose proof (IH f w Hfs) as H;
             generalize dependent (measureHeight measureText insertNodeHeight n f w);
             intros
         end.
  all: unfold PADDING_Y, DEFAULT_ROW_HEIGHT in *.
  all: repeat match goal with
         | |- context [Qmax ?a ?b] =>
             pose proof (Q.le_max_l a b);
             generalize dependent (Qmax a b); intros
         end.
  all: try lra.
  (* CaseNode: the loop over the columns starts from 0 *)
  match goal with
  | |- context [measureEach ?h ?c ?i ?l ?m] =>
      pose proof (measureEach_ge h c l i m);
      generalize dependent (measureEach h c i l m); intros
  end.
  destruct (d && negb (is_null n1)); lra.
Qed.

(** A chain without an absorbing node ignores the available height. *)
Lemma stretch_ignored :
  forall (n : node),
    absorbs n = false ->
    forall (width fontSize x y : Q) (availH : option Q),
      render n x y width fontSize availH
      = render n x y width fontSize None.
Proof.
  unfold render.
  induction n using node_induction; intros Habs width fontSize x y availH.
  all: try discriminate Habs.
  all: cbn [renderNode absorbs remaining] in *.
  all: try reflexivity.
  - rewrite IHn by assumption. reflexivity.
  - rewrite IHn2 by assumption. reflexivity.
  - rewrite IHn2 by assumption. reflexivity.
  - rewrite IHn2 by assumption. reflexivity.
  - rewrite IHn2 by assumption. reflexivity.
  - rewrite IHn3 by assumption. reflexivity.
Qed.

End LayoutFacts.

(** ** The row that takes the slack *)

(** A text of one letter is one line, whatever its measured width. *)
Lemma wrapText_letter :
  forall (measureText : Q -> string -> Q) (c : ascii) (w f : Q),
    is_space c = false -> Ascii.eqb c lf = false ->
    Renderer.wrapText measureText (str1 c) w f = [str1 c].
Proof.
  intros measureText c w f Hs Hlf. unfold Renderer.wrapText, str1.
  cbn [is_empty split].
  rewrite Hlf. cbn [flat_map app]. unfold Renderer.wrapParagraph.
  cbn [is_empty orb Renderer.splitWs]. rewrite Hs.
  destruct (Qle_bool _ _); [reflexivity |].
  cbn [Renderer.wrapWords is_empty negb]. rewrite andb_false_r.
  cbn [Renderer.wrapWords is_empty app]. reflexivity.
Qed.

(** The layout of the two statements and of the empty loop does not
    depend on the text measurement. *)
Lemma letters_layout :
  forall (measureText : Q -> string -> Q) (n : node) (availH : option Q),
    n = twoRows \/ n = emptyLoop ->
    Renderer.renderNode measureText 0 n 0 0 600 14 availH
    = Renderer.renderNode narrowText 0 n 0 0 600 14 availH
    /\ Renderer.measureHeight measureText 0 n 14 600
       = Renderer.measureHeight narrowText 0 n 14 600.
Proof.
  intros measureText n availH [-> | ->].
  - replace twoRows
      with (InsertNode (Some "__pseudo_5")
              (TaskNode (Some "__pseudo_4") "a"
                 (InsertNode (Some "__pseudo_3")
                    (TaskNode (Some "__pseudo_2") "b"
                       (InsertNode (Some "__pseudo_1") Null)))))
      by (vm_compute; reflexivity).
    cbn [Renderer.renderNode Renderer.measureHeight Renderer.statementLabel].
    unfold Renderer.wrappedTextHeight, Renderer.textEl.
    change "a" with (str1 "a"). change "b" with (str1 "b").
    rewrite !(wrapText_letter measureText) by reflexivity.
    rewrite !(wrapText_letter narrowText) by reflexivity.
    split; reflexivity.
  - replace emptyLoop
      with (InsertNode (Some "__pseudo_4")
              (HeadLoopNode (Some "__pseudo_3") "c"
                 (InsertNode (Some "__pseudo_2") (Placeholder None Null))
                 (InsertNode (Some "__pseudo_1") Null)))
      by (vm_compute; reflexivity).
    cbn [Renderer.renderNode Renderer.measureHeight Renderer.statementLabel].
    unfold Renderer.wrappedTextHeight, Renderer.textEl.
    change "c" with (str1 "c").
    rewrite !(wrapText_letter measureText) by reflexivity.
    rewrite !(wrapText_letter narrowText) by reflexivity.
    split; reflexivity.
Qed.

(** C6.  The script does not stretch the last rendered node.  Two
    statements of natural height 40 each, placed in an available height
    of 100, come out as a first row of height 60 and a last row of height
    40: the slack goes to the first statement of the chain, against the
    description of [availH] in the script itself.  And a chain that ends
    in a loop does not grow at all: the pre-tested loop of natural height
    60 placed in 100 returns the height 60.  This is so for every text
    measurement of the host, at width 600 and font size 14, with insert
    markers of no height. *)
Theorem stretch_goes_to_first_row :
  forall measureText : Q -> string -> Q,
    (Qred (Renderer.measureHeight measureText 0 twoRows 14 600) = 80%Q
     /\ rectangles
          (Renderer.elements
             (Renderer.renderNode measureText 0 twoRows 0 0 600 14
                                  (Some 100%Q)))
        = [(0%Q, 60%Q); (60%Q, 40%Q)]
     /\ rectangles
          (Renderer.elements
             (Renderer.renderNode measureText 0 twoRows 0 0 600 14 None))
        = [(0%Q, 40%Q); (40%Q, 40%Q)])
    /\ (Qred (Renderer.measureHeight measureText 0 emptyLoop 14 600) = 60%Q
        /\ Qred (Renderer.height
                   (Renderer.renderNode measureText 0 emptyLoop 0 0 600 14
                                        (Some 100%Q)))
           = 60%Q).
Proof.
  intros measureText.
  rewrite (proj2 (letters_layout measureText twoRows None (or_introl eq_refl))).
  rewrite (proj1 (letters_layout measureText twoRows (Some 100%Q)
                                 (or_introl eq_refl))).
  rewrite (proj1 (letters_layout measureText twoRows None
                                 (or_introl eq_refl))).
  rewrite (proj2 (letters_layout measureText emptyLoop None
                                 (or_intror eq_refl))).
  rewrite (proj1 (letters_layout measureText emptyLoop (Some 100%Q)
                                 (or_intror eq_refl))).
  repeat split; vm_compute; reflexivity.
Qed.

(** ** The tree editor *)

Section EditorFacts.
Import Editor.

Lemma orElse_None :
  forall (A : Type) (x y : option A),
    orElse x y = None <-> x = None /\ y = None.
Proof.
  intros A [a|] y; simpl; split; try tauto; try discriminate.
  all: intros [H _]; discriminate.
Qed.

Lemma under_None :
  forall k r, under k r = None <-> r = None.
Proof. intros k [p|]; simpl; split; intros H; try discriminate; auto. Qed.

(** The two traversals fail together. *)
Lemma findNode_findParent_None :
  forall (T : node) (id : string),
    findNode T id = None <-> findParent T id = None.
Proof.
  induction T using node_induction; intros id.
  all: cbn [findNode findParent].
  all: destruct (has_id _ id); [split; discriminate |].
  all: rewrite ?orElse_None, ?under_None.
  all: try tauto.
  all: try (rewrite ?IHT, ?IHT1, ?IHT2, ?IHT3; tauto).
  (* CaseNode *)
  rewrite IHT1, IHT2.
  assert (Hcs : forall i,
    (fix each (cs0 : list node) : option node :=
       match cs0 with
       | [] => None
       | c :: r => orElse (findNode c id) (each r)
       end) cs = None
    <-> (fix each (i0 : nat) (cs0 : list node) {struct cs0} : option path :=
           match cs0 with
           | [] => None
           | c :: r =>
               orElse (under (Kcases i0) (findParent c id)) (each (S i0) r)
           end) i cs = None).
  { induction H as [|c r Hc Hr IH]; intros n; [tauto |].
    rewrite !orElse_None, under_None, Hc, (IH (S n)). tauto. }
  rewrite (Hcs 0). tauto.
Qed.

Lemma existsb_app_false :
  forall (A : Type) (p : A -> bool) (l1 l2 : list A),
    existsb p (l1 ++ l2) = false <->
    existsb p l1 = false /\ existsb p l2 = false.
Proof. intros. rewrite existsb_app, orb_false_iff. tauto. Qed.

(** An identifier no node carries is not found. *)
Lemma absent_not_found :
  forall (T : node) (id : string),
    present T id = false -> findNode T id = None.
Proof.
  unfold present, carries.
  induction T using node_induction; intros id.
  all: cbn [findNode nodes existsb].
  all: rewrite orb_false_iff; intros [Hid Hrest]; rewrite Hid.
  all: rewrite ?existsb_app_false in Hrest.
  all: rewrite ?orElse_None.
  all: try reflexivity.
  all: try (apply IHT; assumption).
  all: try (destruct Hrest as (? & ? & ?); repeat split; auto).
  all: try (destruct Hrest as (? & ?); repeat split; auto).
  (* CaseNode *)
  clear - H H1.
  induction H as [|c r Hc Hr IH]; [reflexivity |].
  cbn [flat_map] in H1. rewrite existsb_app_false in H1.
  destruct H1 as [H1 H2]. rewrite orElse_None. auto.
Qed.

(** C8, amended.  For an identifier no node of the tree carries, the three
    operations throw nothing, leave the counter alone and return the same
    copy of the input: a new object for a tree object (never identical to
    the input), and [null] for [null].  The copy agrees with the input in
    every node, identifier and text; the column widths are left out of
    the comparison, because the copy is read back from a JSON text, which
    does not keep a number that is not finite. *)
Theorem missing_id_returns_copy :
  forall (clock : nat -> string) (T : node) (id type newText : string)
         (s : nat),
    present T id = false ->
    exists r,
      insertAt clock T id type s = Ok (r, s)
      /\ removeNode T id s = Ok (r, s)
      /\ editText T id newText s = Ok (r, s)
      /\ erase_widths (value T r) = erase_widths T
      /\ identical r = is_null T.
Proof.
  intros clock T id type newText s Habs.
  pose proof (absent_not_found T id Habs) as Hn.
  pose proof (proj1 (findNode_findParent_None T id) Hn) as Hp.
  exists (cloned T (cloneTree T)).
  unfold insertAt, removeNode, editText.
  unfold cloneTree. rewrite Hn, Hp. repeat split.
  - unfold cloned, value. destruct T; reflexivity.
  - unfold cloned, identical. destruct T; reflexivity.
Qed.

(** *** Counting nodes *)

Lemma filter_length_app :
  forall (A : Type) (P : A -> bool) (l1 l2 : list A),
    length (filter P (l1 ++ l2))
    = length (filter P l1) + length (filter P l2).
Proof. intros. rewrite filter_app, length_app. reflexivity. Qed.

Section Counting.
Variable P : node -> bool.
Hypothesis shallow : forall n k v, P (setKey n k v) = P n.

Let occ := occurrences P.

Lemma occ_cases_setNth :
  forall (cs : list node) (i : nat) (v : node),
    i < length cs ->
    length (filter P (flat_map nodes (setNth i cs v)))
    + occ (nth i cs Null)
    = length (filter P (flat_map nodes cs)) + occ v.
Proof.
  unfold occ, occurrences.
  induction cs as [|c r IH]; intros i v Hi; [simpl in Hi; lia |].
  destruct i as [|j]; cbn [setNth nth flat_map].
  - rewrite !filter_length_app. lia.
  - rewrite !filter_length_app.
    simpl in Hi. specialize (IH j v ltac:(lia)). lia.
Qed.

Lemma occ_setKey :
  forall (n : node) (k : key) (v : node),
    key_ok n k = true ->
    occ (setKey n k v) + occ (getKey n k) = occ n + occ v.
Proof.
  intros n k v Hok. unfold occ, occurrences.
  pose proof (shallow n k v) as Hsh.
  destruct k; destruct n; try discriminate Hok.
  all: cbn [setKey setFollow getKey follow nodes filter] in *.
  all: rewrite Hsh.
  all: match goal with |- context [P ?n] => destruct (P n) end.
  all: cbn [length]; rewrite ?filter_length_app.
  all: try lia.
  all: cbn [key_ok] in Hok; apply Nat.ltb_lt in Hok.
  all: pose proof (occ_cases_setNth cases index v Hok) as Hc.
  all: unfold occ, occurrences in Hc; lia.
Qed.

Lemma occ_setAt :
  forall (p : path) (n v : node),
    valid n p = true ->
    occ (setAt n p v) + occ (getAt n p) = occ n + occ v.
Proof.
  induction p as [|k r IH]; intros n v Hv; cbn [setAt getAt].
  - lia.
  - cbn [valid] in Hv. apply andb_true_iff in Hv. destruct Hv as [Hk Hr].
    pose proof (occ_setKey n k (setAt (getKey n k) r v) Hk).
    pose proof (IH (getKey n k) v Hr). lia.
Qed.

Lemma occ_cases_nth_le :
  forall (cs : list node) (i : nat),
    i < length cs ->
    occ (nth i cs Null) <= length (filter P (flat_map nodes cs)).
Proof.
  unfold occ, occurrences.
  induction cs as [|c r IH]; intros i Hi; [simpl in Hi; lia |].
  destruct i as [|j]; cbn [nth flat_map]; rewrite filter_length_app.
  - lia.
  - simpl in Hi. specialize (IH j ltac:(lia)). lia.
Qed.

Lemma occ_getKey_le :
  forall (n : node) (k : key),
    key_ok n k = true -> occ (getKey n k) <= occ n.
Proof.
  intros n k Hok. unfold occ, occurrences.
  destruct k; destruct n; try discriminate Hok.
  all: cbn [getKey follow nodes filter] in *.
  all: match goal with |- context [P ?n] => destruct (P n) end.
  all: cbn [length]; rewrite ?filter_length_app.
  all: try lia.
  all: cbn [key_ok] in Hok; apply Nat.ltb_lt in Hok.
  all: pose proof (occ_cases_nth_le cases index Hok) as Hc.
  all: unfold occ, occurrences in Hc; lia.
Qed.

Lemma occ_getAt_le :
  forall (p : path) (n : node),
    valid n p = true -> occ (getAt n p) <= occ n.
Proof.
  induction p as [|k r IH]; intros n Hv; cbn [getAt].
  - lia.
  - cbn [valid] in Hv. apply andb_true_iff in Hv. destruct Hv as [Hk Hr].
    pose proof (occ_getKey_le n k Hk). specialize (IH _ Hr). lia.
Qed.

End Counting.

(** *** What the traversals return *)

Lemma orElse_Some :
  forall (A : Type) (x y : option A) (a : A),
    orElse x y = Some a -> x = Some a \/ (x = None /\ y = Some a).
Proof. intros A [b|] y a H; simpl in H; auto. Qed.

Lemma under_Some :
  forall k r p, under k r = Some p -> exists q, r = Some q /\ p = k :: q.
Proof.
  intros k [q|] p H; simpl in H; [| discriminate].
  injection H as <-. eauto.
Qed.

(** The loop of [findParent] over the cases, from index [i]. *)
Lemma findParent_cases :
  forall (id : string) (r : list node) (i : nat) (p : path),
    (fix each (i0 : nat) (cs0 : list node) {struct cs0} : option path :=
       match cs0 with
       | [] => None
       | c :: r =>
           orElse (under (Kcases i0) (findParent c id)) (each (S i0) r)
       end) i r = Some p ->
    exists j q,
      p = Kcases (i + j) :: q /\ j < length r
      /\ findParent (nth j r Null) id = Some q.
Proof.
  intros id. induction r as [|c r IH]; intros i p H; [discriminate |].
  apply orElse_Some in H. destruct H as [H | [_ H]].
  - apply under_Some in H. destruct H as (q & Hq & ->).
    exists 0, q. rewrite Nat.add_0_r. simpl. auto with arith.
  - apply IH in H. destruct H as (j & q & -> & Hj & Hq).
    exists (S j), q. rewrite Nat.add_succ_r. simpl. auto with arith.
Qed.

(** A path [findParent] returns is valid and leads to a node that carries
    the identifier. *)
Lemma findParent_sound :
  forall (T : node) (id : string) (p : path),
    findParent T id = Some p ->
    valid T p = true /\ has_id (getAt T p) id = true.
Proof.
  induction T using node_induction; intros id p.
  all: cbn [findParent].
  all: destruct (has_id _ id) eqn:Hid;
    [intros [= <-]; split; [reflexivity | exact Hid] |].
  all: try discriminate.
  all: intros Hp.
  all: repeat match goal with
         | H : orElse _ _ = Some _ |- _ =>
             apply orElse_Some in H; destruct H as [H | [_ H]]
         end.
  all: try match goal with
         | H : under _ (findParent _ _) = Some _ |- _ =>
             apply under_Some in H; destruct H as (q & Hq & ->);
             cbn [valid getAt key_ok getKey follow andb];
             eauto
         end.
  (* the cases of a switch *)
  apply findParent_cases in Hp. destruct Hp as (j & q & -> & Hj & Hq).
  cbn [Nat.add valid getAt key_ok getKey].
  rewrite (proj2 (Nat.ltb_lt _ _) Hj). cbn [andb].
  rewrite Forall_forall in H. apply (H (nth j cs Null)); [| exact Hq].
  apply nth_In. exact Hj.
Qed.

(** The loop of [findNode] over the cases. *)
Lemma findNode_cases :
  forall (id : string) (r : list node) (m : node),
    (fix each (cs0 : list node) : option node :=
       match cs0 with
       | [] => None
       | c :: r => orElse (findNode c id) (each r)
       end) r = Some m ->
    exists c, In c r /\ findNode c id = Some m.
Proof.
  intros id. induction r as [|c r IH]; intros m H; [discriminate |].
  apply orElse_Some in H. destruct H as [H | [_ H]].
  - exists c. simpl. auto.
  - apply IH in H. destruct H as (c' & Hin & Hc'). exists c'. simpl. auto.
Qed.

(** A node [findNode] returns is a node of the tree and carries the
    identifier. *)
Lemma findNode_sound :
  forall (T : node) (id : string) (m : node),
    findNode T id = Some m ->
    In m (nodes T) /\ has_id m id = true.
Proof.
  induction T using node_induction; intros id m.
  all: cbn [findNode].
  all: destruct (has_id _ id) eqn:Hid;
    [intros [= <-]; split; [cbn [nodes]; left; reflexivity | exact Hid] |].
  all: try discriminate.
  all: intros Hm.
  all: repeat match goal with
         | H : orElse _ _ = Some _ |- _ =>
             apply orElse_Some in H; destruct H as [H | [_ H]]
         end.
  all: try match goal with
         | IH : forall id m, findNode ?n id = Some m -> _,
           H : findNode ?n _ = Some _ |- _ =>
             apply IH in H; destruct H as [Hin Hc]; split; [| exact Hc];
             cbn [nodes]; right; rewrite ?in_app_iff; tauto
         end.
  (* the cases of a switch *)
  apply findNode_cases in Hm. destruct Hm as (c & Hin & Hc).
  rewrite Forall_forall in H. apply (H c Hin) in Hc.
  destruct Hc as [Hc1 Hc2]. split; [| exact Hc2].
  cbn [nodes]. right. rewrite !in_app_iff. right. left.
  apply in_flat_map. eauto.
Qed.

Lemma occurrences_zero :
  forall (P : node -> bool) (T : node),
    occurrences P T = 0 <-> existsb P (nodes T) = false.
Proof.
  intros P T. unfold occurrences.
  induction (nodes T) as [|n l IH]; simpl; [tauto |].
  destruct (P n); simpl; [split; [lia | discriminate] | exact IH].
Qed.

Lemma occurrences_In :
  forall (P : node -> bool) (T m : node),
    In m (nodes T) -> P m = true -> 1 <= occurrences P T.
Proof.
  intros P T m Hin Hm. unfold occurrences.
  induction (nodes T) as [|n l IH]; simpl in *; [contradiction |].
  destruct Hin as [-> | Hin].
  - rewrite Hm. simpl. lia.
  - specialize (IH Hin). destruct (P n); simpl; lia.
Qed.

(** An identifier that occurs is found. *)
Lemma occurring_found :
  forall (T : node) (id : string),
    1 <= occurrences (carries id) T ->
    exists p, findParent T id = Some p.
Proof.
  intros T id H.
  destruct (findParent T id) as [p|] eqn:E; [eauto |].
  apply findNode_findParent_None in E.
  exfalso.
  assert (Hz : occurrences (carries id) T = 0); [| lia].
  apply occurrences_zero.
  clear H. revert id E.
  induction T using node_induction; intros id.
  all: cbn [findNode nodes existsb].
  all: unfold carries at 1.
  all: destruct (has_id _ id); [discriminate |].
  all: cbn [orb]; rewrite ?orElse_None; rewrite ?existsb_app.
  all: try reflexivity.
  all: try (intros E; rewrite ?orb_false_iff; repeat split;
            first [apply IHT | apply IHT1 | apply IHT2 | apply IHT3];
            tauto).
  (* CaseNode *)
  intros (Ef & Ec & Ed).
  rewrite (IHT2 _ Ef), (IHT1 _ Ed). rewrite orb_false_r. cbn [orb].
  clear - H Ec. induction H as [|c r Hc Hr IH]; [reflexivity |].
  apply orElse_None in Ec. destruct Ec as [E1 E2].
  cbn [flat_map]. rewrite existsb_app, (Hc _ E1). apply IH. exact E2.
Qed.

(** *** Moving a node onto a Placeholder *)

Lemma carries_shallow :
  forall id n k v, carries id (setKey n k v) = carries id n.
Proof. intros id n k v. destruct k; destruct n; reflexivity. Qed.

Lemma insertCarrying_shallow :
  forall id n k v, insertCarrying id (setKey n k v) = insertCarrying id n.
Proof. intros id n k v. destruct k; destruct n; reflexivity. Qed.

Lemma occurrences_follow :
  forall (P : node -> bool) (n : node),
    (if P n then 1 else 0) + occurrences P (follow n) <= occurrences P n
    \/ n = Null.
Proof.
  intros P n. unfold occurrences.
  destruct n; [right; reflexivity | left ..].
  all: cbn [follow nodes filter].
  all: repeat match goal with
         | |- context [if ?c then _ else _] => destruct c
         end.
  all: cbn [length]; rewrite ?filter_length_app; lia.
Qed.

Lemma occurrences_followOrPlaceholder :
  forall (P : node -> bool) (n : node),
    P (Placeholder None Null) = false -> P Null = false ->
    n <> Null ->
    (if P n then 1 else 0) + occurrences P (followOrPlaceholder n)
    <= occurrences P n.
Proof.
  intros P n HP HN Hn.
  destruct (occurrences_follow P n) as [H | H]; [| contradiction].
  unfold followOrPlaceholder.
  destruct (follow n) eqn:E; try exact H.
  unfold occurrences in *. cbn [nodes filter] in *.
  rewrite HP, HN in *. simpl in *. lia.
Qed.

Lemma occurrences_strict :
  forall (P1 P2 : node -> bool) (T m : node),
    (forall n, P2 n = true -> P1 n = true) ->
    In m (nodes T) -> P1 m = true -> P2 m = false ->
    occurrences P2 T + 1 <= occurrences P1 T.
Proof.
  intros P1 P2 T m Himp Hin H1 H2. unfold occurrences.
  induction (nodes T) as [|n l IH]; simpl in *; [contradiction |].
  assert (Hle : length (filter P2 l) <= length (filter P1 l)).
  { clear - Himp. induction l as [|a l IH]; simpl; [lia |].
    destruct (P2 a) eqn:E2.
    - rewrite (Himp a E2). simpl. lia.
    - destruct (P1 a); simpl; lia. }
  destruct Hin as [-> | Hin].
  - rewrite H1, H2. simpl. lia.
  - specialize (IH Hin).
    destruct (P2 n) eqn:E2.
    + rewrite (Himp n E2). simpl. lia.
    + destruct (P1 n); simpl; lia.
Qed.

Lemma readSlot_inner :
  forall (root : node) (p : path) (st : nat),
    p <> [] -> readSlot root p st = Ok (getAt root p, st).
Proof. intros root [|k r] st H; [congruence | reflexivity]. Qed.

Lemma writeSlot_inner :
  forall (root : node) (p : path) (v : node) (st : nat),
    p <> [] -> writeSlot root p v st = Ok (setAt root p v, st).
Proof. intros root [|k r] v st H; [congruence | reflexivity]. Qed.

Lemma has_id_not_null :
  forall n id, has_id n id = true -> n <> Null.
Proof. intros n id H ->. discriminate H. Qed.

(** C10, amended.  In a tree where the identifiers [s] and [t] each occur
    once, [s] is not the identifier of the root, and the node with
    identifier [t] is a Placeholder, [moveNode(T, s, t)] throws nothing and
    returns a new tree: the input with the source replaced by what followed
    it.  No node of that tree carries [s]: the source is detached and not
    put back. *)
Theorem moveNode_drops_on_placeholder :
  forall (T : node) (s t : string) (st : nat) (i : option string) (f : node),
    s <> t ->
    has_id T s = false ->
    occurrences (carries s) T = 1 ->
    occurrences (carries t) T = 1 ->
    findNode T t = Some (Placeholder i f) ->
    exists (sp : path) (T' : node),
      findParent T s = Some sp
      /\ T' = setAt T sp (followOrPlaceholder (getAt T sp))
      /\ moveNode T s t st = Ok (Fresh T', st)
      /\ present T' s = false.
Proof.
  intros T s t st i f Hne Hroot Hs Ht Hfind.
  destruct (occurring_found T s ltac:(lia)) as [sp Hsp].
  destruct (findParent_sound T s sp Hsp) as [Hvalid Hsrc].
  set (src := getAt T sp) in *.
  set (T' := setAt T sp (followOrPlaceholder src)).
  exists sp, T'. split; [exact Hsp |]. split; [reflexivity |].
  assert (Hsp_ne : sp <> []).
  { intros ->. unfold src in Hsrc. cbn in Hsrc. congruence. }
  assert (Hsrc_ne : src <> Null) by (eapply has_id_not_null; eauto).
  assert (HT_ne : is_null T = false).
  { destruct T; try reflexivity. discriminate Hs. }
  (* no node of T' carries s *)
  assert (Hs' : occurrences (carries s) T' = 0).
  { pose proof (occ_setAt (carries s) (carries_shallow s) sp T
                  (followOrPlaceholder src) Hvalid) as Hc.
    pose proof (occ_getAt_le (carries s) sp T Hvalid) as Hle.
    pose proof (occurrences_followOrPlaceholder (carries s) src
                  eq_refl eq_refl Hsrc_ne) as Hf.
    fold src in Hc, Hle. fold T' in Hc.
    unfold carries at 1 in Hf. rewrite Hsrc in Hf. lia. }
  (* no InsertNode of T' carries t *)
  assert (Ht0 : occurrences (insertCarrying t) T = 0).
  { destruct (findNode_sound T t _ Hfind) as [Hin Hid].
    pose proof (occurrences_strict (carries t) (insertCarrying t) T
                  (Placeholder i f)) as Hst.
    assert (Himp : forall n, insertCarrying t n = true -> carries t n = true).
    { intros n. destruct n; simpl; try discriminate. auto. }
    specialize (Hst Himp Hin Hid eq_refl). lia. }
  assert (Ht' : occurrences (insertCarrying t) T' = 0).
  { pose proof (occ_setAt (insertCarrying t) (insertCarrying_shallow t) sp T
                  (followOrPlaceholder src) Hvalid) as Hc.
    pose proof (occ_getAt_le (insertCarrying t) sp T Hvalid) as Hle.
    pose proof (occurrences_followOrPlaceholder (insertCarrying t) src
                  eq_refl eq_refl Hsrc_ne) as Hf.
    fold src in Hc, Hle. fold T' in Hc.
    destruct (insertCarrying t src); lia. }
  split.
  - assert (Hnn : is_null src = false).
    { destruct src; try reflexivity. congruence. }
    unfold moveNode, cloneTree.
    rewrite (proj2 (String.eqb_neq s t) Hne).
    rewrite Hsp. unfold bind.
    rewrite (readSlot_inner T sp st Hsp_ne). fold src. rewrite Hnn.
    rewrite (writeSlot_inner T sp _ st Hsp_ne). fold T'.
    destruct (findNode T' t) as [m|] eqn:Em;
      [| unfold cloned, ret; rewrite HT_ne; reflexivity].
    destruct (findNode_sound T' t m Em) as [Hin Hid].
    destruct m;
      try (destruct (findParent T' t);
           unfold cloned, ret; rewrite HT_ne; reflexivity).
    exfalso.
    pose proof (occurrences_In (insertCarrying t) T' _ Hin Hid). lia.
  - unfold present. apply occurrences_zero. exact Hs'.
Qed.

End EditorFacts.

(** Witness of [missing_id_returns_copy]: a one-statement diagram and an
    identifier it does not hold. *)
Lemma missing_id_returns_copy_witness :
  let T := parsePseudocode "x = 1" KEYWORDS_EN in
  exists r,
    Editor.insertAt stillClock T "nowhere" "TaskNode" 0 = Ok (r, 0)
    /\ Editor.removeNode T "nowhere" 0 = Ok (r, 0)
    /\ Editor.editText T "nowhere" "y" 0 = Ok (r, 0)
    /\ erase_widths (Editor.value T r) = erase_widths T
    /\ Editor.identical r = is_null T.
Proof.
  exact (missing_id_returns_copy stillClock
           (parsePseudocode "x = 1" KEYWORDS_EN)
           "nowhere" "TaskNode" "y" 0 eq_refl).
Defined.

(** C8 as stated fails: for an absent identifier the operations return a
    new object, so the output is not identical to the input and a caller
    comparing references sees a change although nothing was changed. *)
Lemma missing_id_counterexample :
  let T := parsePseudocode "x = 1" KEYWORDS_EN in
  present T "nowhere" = false
  /\ Editor.insertAt stillClock T "nowhere" "TaskNode" 0
     = Ok (Editor.Fresh T, 0)
  /\ Editor.removeNode T "nowhere" 0 = Ok (Editor.Fresh T, 0)
  /\ Editor.editText T "nowhere" "y" 0 = Ok (Editor.Fresh T, 0)
  /\ Editor.identical (Editor.Fresh T) = false.
Proof. repeat split; vm_compute; reflexivity. Qed.

(** A chain of two statements whose end marker is a Placeholder with an
    identifier, the shape the editor gives a tree before editing it. *)
Lemma moveNode_drops_on_placeholder_witness :
  exists sp T',
    Editor.findParent twoStatements "a" = Some sp
    /\ T' = Editor.setAt twoStatements sp
              (Editor.followOrPlaceholder (Editor.getAt twoStatements sp))
    /\ Editor.moveNode twoStatements "a" "end" 0 = Ok (Editor.Fresh T', 0)
    /\ present T' "a" = false.
Proof.
  refine (moveNode_drops_on_placeholder twoStatements "a" "end" 0
            (Some "end") Null _ _ _ _ _).
  - discriminate.
  - reflexivity.
  - reflexivity.
  - reflexivity.
  - reflexivity.
Defined.

(** C10 as stated fails when the source is the root: [findParent] answers
    with a null parent, reading the source through it throws, and no tree
    is returned. *)
Lemma moveNode_root_counterexample :
  present rootedAtSource "s" = true
  /\ Editor.findNode rootedAtSource "t" = Some (Placeholder (Some "t") Null)
  /\ Editor.moveNode rootedAtSource "s" "t" 0 = Throw TypeError.
Proof. repeat split. Qed.

(** ** The parser *)

Section ParserFacts.
Variable k : keywords.

(** *** Grouping *)

Lemma takeWhile_length :
  forall (A : Type) (p : A -> bool) (xs : list A),
    length (takeWhile p xs) <= length xs.
Proof.
  induction xs as [|x r IH]; simpl; [lia |].
  destruct (p x); simpl; lia.
Qed.

(** The children of a block are fewer than the lines it was cut from. *)
Lemma groupBlocks_children :
  forall (lines : list line) (baseIndent : nat) (b : block),
    In b (groupBlocks lines baseIndent) ->
    length (children b) < length lines.
Proof.
  induction lines as [|l rest IH]; intros baseIndent b Hin; [contradiction |].
  cbn [groupBlocks] in Hin.
  destruct (Parser.indent l <? baseIndent); [contradiction |].
  destruct (baseIndent <? Parser.indent l).
  - apply IH in Hin. simpl. lia.
  - destruct Hin as [<- | Hin].
    + cbn [children]. simpl.
      pose proof (takeWhile_length _ (deeper baseIndent) rest). lia.
    + apply IH in Hin. simpl. lia.
Qed.

(** Resuming after the children, as the loop of the source does, or right
    after the header gives the same blocks. *)
Lemma groupBlocks_resume :
  forall (rest : list line) (baseIndent : nat),
    groupBlocks (dropWhile (deeper baseIndent) rest) baseIndent
    = groupBlocks rest baseIndent.
Proof.
  induction rest as [|l r IH]; intros baseIndent; [reflexivity |].
  cbn [dropWhile]. unfold deeper at 1.
  destruct (baseIndent <? Parser.indent l) eqn:E; [| reflexivity].
  rewrite IH. cbn [groupBlocks]. rewrite E.
  apply Nat.ltb_lt in E.
  destruct (Parser.indent l <? baseIndent) eqn:E2; [| reflexivity].
  apply Nat.ltb_lt in E2. lia.
Qed.

(** *** The recursion of [mergeBlocks] is well founded *)

(** Two parsers of nested bodies agree on every list of fewer than [n]
    lines. *)
Definition agree (n : nat) (r1 r2 : list line -> nat -> M node) : Prop :=
  forall ls i s, length ls < n -> r1 ls i s = r2 ls i s.

Lemma caseLoop_agree :
  forall (r1 r2 : list line -> nat -> M node) (n : nat),
    agree n r1 r2 ->
    forall (caseBlocks : list block) (ci : nat) (acc : caseAcc) (s : nat),
      (forall cb, In cb caseBlocks -> length (children cb) < n) ->
      caseLoop k r1 ci caseBlocks acc s = caseLoop k r2 ci caseBlocks acc s.
Proof.
  intros r1 r2 n Hag.
  induction caseBlocks as [|cb rest IH]; intros ci acc s Hlen;
    [reflexivity |].
  cbn [caseLoop]. destruct acc as [[cases dn] don].
  assert (Hcb : length (children cb) < n) by (apply Hlen; left; reflexivity).
  assert (Hrest : forall c, In c rest -> length (children c) < n)
    by (intros c Hc; apply Hlen; right; exact Hc).
  destruct (capture1 (reCaseLabel k) (btext cb)).
  - unfold Counter.bind. rewrite (Hag _ _ _ Hcb).
    destruct (r2 (children cb) ci s) as [body s1].
    destruct (uid s1) as [i s2]. apply IH. exact Hrest.
  - destruct (test (reElseBlock k) (btext cb)).
    + unfold Counter.bind. rewrite (Hag _ _ _ Hcb).
      destruct (r2 (children cb) ci s) as [body s1].
      destruct (uid s1) as [i s2]. apply IH. exact Hrest.
    + apply IH. exact Hrest.
Qed.

Lemma statement_agree :
  forall (r1 r2 : list line -> nat -> M node) (n : nat),
    agree n r1 r2 ->
    forall (baseIndent : nat) (b : block) (nextBlock : option block)
           (tail : node) (s : nat),
      length (children b) < n ->
      (forall nb, nextBlock = Some nb -> length (children nb) < n) ->
      statement k r1 baseIndent b nextBlock tail s
      = statement k r2 baseIndent b nextBlock tail s.
Proof.
  intros r1 r2 n Hag baseIndent b nextBlock tail s Hb Hnb.
  assert (Hnext : length (match nextBlock with
                          | Some nb => children nb
                          | None => []
                          end) < n).
  { destruct nextBlock as [nb|]; [apply Hnb; reflexivity |].
    simpl. lia. }
  unfold statement.
  repeat match goal with
         | |- (if ?c then _ else _) _ = (if ?c then _ else _) _ =>
             destruct c
         | |- (match ?c with Some _ => _ | None => _ end) _
              = (match ?c with Some _ => _ | None => _ end) _ =>
             destruct c
         | |- (let '(_, _) := ?c in _) _ = (let '(_, _) := ?c in _) _ =>
             destruct c
         end.
  all: unfold Counter.bind.
  all: try rewrite (Hag _ _ _ Hb).
  all: try (destruct (r2 (children b) (baseIndent + 4) s) as [c1 s1]).
  all: try rewrite (Hag _ _ _ Hnext).
  all: try reflexivity.
  (* the switch: the bodies of the cases are nested one level deeper *)
  all: rewrite (caseLoop_agree r1 r2 n Hag); [reflexivity |].
  all: intros cb Hcb; apply groupBlocks_children in Hcb; lia.
Qed.

Lemma build_agree :
  forall (r1 r2 : list line -> nat -> M node) (n : nat),
    agree n r1 r2 ->
    forall (baseIndent : nat) (blocks : list block) (skip : bool) (s : nat),
      (forall b, In b blocks -> length (children b) < n) ->
      build k r1 baseIndent skip blocks s = build k r2 baseIndent skip blocks s.
Proof.
  intros r1 r2 n Hag baseIndent.
  induction blocks as [|b rest IH]; intros skip s Hlen; [reflexivity |].
  cbn [build]. unfold Counter.bind.
  rewrite IH by (intros c Hc; apply Hlen; right; exact Hc).
  destruct (build k r2 baseIndent _ rest s) as [tail s1].
  destruct skip; [reflexivity |].
  apply (statement_agree r1 r2 n Hag).
  - apply Hlen. left. reflexivity.
  - intros nb Hnb. apply Hlen. right.
    destruct rest as [|x r]; [discriminate |].
    injection Hnb as <-. left. reflexivity.
Qed.

Lemma mergeBody_agree :
  forall (r1 r2 : list line -> nat -> M node) (lines : list line)
         (baseIndent s : nat),
    agree (length lines) r1 r2 ->
    mergeBody k r1 lines baseIndent s = mergeBody k r2 lines baseIndent s.
Proof.
  intros r1 r2 lines baseIndent s Hag. unfold mergeBody.
  pose proof (groupBlocks_children lines baseIndent) as Hc.
  destruct (groupBlocks lines baseIndent) as [|b rest]; [reflexivity |].
  apply (build_agree r1 r2 _ Hag). exact Hc.
Qed.

(** Fuel: any amount not below the number of lines gives the same tree, so
    the bound [length lines] that [parsePseudocode] passes never cuts the
    recursion short. *)
Lemma mergeBlocks_fuel :
  forall (f1 f2 : nat) (lines : list line) (baseIndent s : nat),
    length lines <= f1 -> length lines <= f2 ->
    mergeBlocks f1 lines baseIndent k s = mergeBlocks f2 lines baseIndent k s.
Proof.
  induction f1 as [|f IH]; intros f2 lines baseIndent s H1 H2.
  - destruct lines; [| simpl in H1; lia].
    destruct f2; reflexivity.
  - destruct f2 as [|g].
    + destruct lines; [| simpl in H2; lia]. reflexivity.
    + cbn [mergeBlocks]. apply mergeBody_agree.
      intros ls i s' Hls. apply IH; lia.
Qed.

(** *** Column widths of parsed trees *)

Lemma extractColumnWidths_ok :
  forall str, cw_ok (snd (extractColumnWidths str)) = true.
Proof.
  intros str. unfold extractColumnWidths.
  destruct (exec reColumnWidths str) as [[caps rest]|]; [| reflexivity].
  destruct caps as [|m1 [|m2 [|m3 caps]]]; try reflexivity.
  cbn [snd].
  destruct (keepNumbers _) as [|w ws]; reflexivity.
Qed.

Section WidthsInvariant.
Variable rec : list line -> nat -> M node.
Hypothesis Hrec : forall ls i s, widths_ok (fst (rec ls i s)) = true.

Lemma caseLoop_ok :
  forall (caseBlocks : list block) (ci : nat) (cases : list node)
         (found : option node) (don : bool) (s : nat),
    forallb widths_ok cases = true ->
    (forall d, found = Some d -> widths_ok d = true) ->
    let '(cases', found', _) :=
      fst (caseLoop k rec ci caseBlocks (cases, found, don) s) in
    forallb widths_ok cases' = true
    /\ (forall d, found' = Some d -> widths_ok d = true).
Proof.
  induction caseBlocks as [|cb rest IH]; intros ci cases found don s Hc Hf.
  - cbn. auto.
  - cbn [caseLoop].
    destruct (capture1 (reCaseLabel k) (btext cb)) as [label|].
    + unfold Counter.bind.
      pose proof (Hrec (children cb) ci s) as Hb.
      destruct (rec (children cb) ci s) as [body s1]. cbn [fst] in Hb.
      destruct (uid s1) as [i s2].
      apply IH; [| exact Hf].
      rewrite forallb_app, Hc. cbn. rewrite Hb. reflexivity.
    + destruct (test (reElseBlock k) (btext cb)).
      * unfold Counter.bind.
        pose proof (Hrec (children cb) ci s) as Hb.
        destruct (rec (children cb) ci s) as [body s1]. cbn [fst] in Hb.
        destruct (uid s1) as [i s2].
        apply IH; [exact Hc |].
        intros d [= <-]. exact Hb.
      * apply IH; assumption.
Qed.

Lemma statement_ok :
  forall (baseIndent : nat) (b : block) (nextBlock : option block)
         (tail : node) (s : nat),
    widths_ok tail = true ->
    widths_ok (fst (statement k rec baseIndent b nextBlock tail s)) = true.
Proof.
  intros baseIndent b nextBlock tail s Htail.
  unfold statement.
  repeat match goal with
         | |- context [if ?c then _ else _] => destruct c
         | |- context [match ?c with Some _ => _ | None => _ end] =>
             destruct c
         end.
  all: repeat match goal with
         | |- context [extractColumnWidths ?x] =>
             let H := fresh "Hcw" in
             pose proof (extractColumnWidths_ok x) as H;
             destruct (extractColumnWidths x); cbn [snd] in H
         | p : (string * string)%type |- _ => destruct p
         end.
  all: cbv beta iota delta [Counter.bind makeInsert uid tick Counter.ret].
  all: repeat match goal with
         | |- context [rec ?ls ?i ?s0] =>
             let H := fresh "Hr" in
             pose proof (Hrec ls i s0) as H;
             destruct (rec ls i s0); cbn [fst] in H
         end.
  all: cbn [fst widths_ok placeholder].
  all: rewrite ?Htail.
  all: repeat match goal with
         | H : widths_ok _ = true |- _ => rewrite H; clear H
         | H : cw_ok _ = true |- _ => rewrite H; clear H
         end.
  all: try reflexivity.
  (* the switch *)
  all: match goal with
       | |- context [caseLoop k rec ?ci ?bs (?c, ?f, ?d) ?s0] =>
           pose proof (caseLoop_ok bs ci c f d s0 eq_refl
                         ltac:(intros ? [=])) as Hloop;
           destruct (caseLoop k rec ci bs (c, f, d) s0)
             as [[[cs fd] don] sLoop]
       end.
  all: cbn [fst] in Hloop; destruct Hloop as [Hcs Hfd].
  all: destruct fd as [d|]; cbn [fst widths_ok placeholder].
  all: rewrite ?Hcs, ?Htail; rewrite ?(Hfd _ eq_refl).
  all: repeat match goal with
         | H : cw_ok _ = true |- _ => rewrite H; clear H
         end.
  all: reflexivity.
Qed.

Lemma build_ok :
  forall (baseIndent : nat) (blocks : list block) (skip : bool) (s : nat),
    widths_ok (fst (build k rec baseIndent skip blocks s)) = true.
Proof.
  intros baseIndent.
  induction blocks as [|b rest IH]; intros skip s; [reflexivity |].
  cbn [build]. unfold Counter.bind.
  match goal with
  | |- context [build k rec baseIndent ?f rest s] =>
      specialize (IH f s); destruct (build k rec baseIndent f rest s)
  end.
  cbn [fst] in IH.
  destruct skip; [exact IH |].
  apply statement_ok. exact IH.
Qed.

Lemma mergeBody_ok :
  forall (lines : list line) (baseIndent s : nat),
    widths_ok (fst (mergeBody k rec lines baseIndent s)) = true.
Proof.
  intros lines baseIndent s. unfold mergeBody.
  destruct (groupBlocks lines baseIndent); [reflexivity |].
  apply build_ok.
Qed.

End WidthsInvariant.

Lemma mergeBlocks_ok :
  forall (fuel : nat) (lines : list line) (baseIndent s : nat),
    widths_ok (fst (mergeBlocks fuel lines baseIndent k s)) = true.
Proof.
  induction fuel as [|f IH]; intros lines baseIndent s; cbn [mergeBlocks].
  - apply mergeBody_ok. reflexivity.
  - apply mergeBody_ok. intros ls i s0. apply IH.
Qed.

Lemma columnWidths_length :
  forall (w : Q) (n : nat) (fr : option (list Q)),
    length (Renderer.columnWidths w n fr) = n.
Proof.
  intros w n fr. unfold Renderer.columnWidths.
  destruct fr as [fs|]; [| apply repeat_length].
  destruct (Nat.eqb_spec (length fs) n) as [E | E].
  - rewrite length_map. exact E.
  - apply repeat_length.
Qed.

(** *** The fallback to a statement *)

Lemma test_false_exec :
  forall r t, test r t = false -> exec r t = None.
Proof.
  intros r t. unfold test. destruct (exec r t); [discriminate | reflexivity].
Qed.

Lemma test_false_capture1 :
  forall r t, test r t = false -> capture1 r t = None.
Proof.
  intros r t H. unfold capture1. rewrite (test_false_exec r t H). reflexivity.
Qed.

Lemma test_false_capture2 :
  forall r t, test r t = false -> capture2 r t = None.
Proof.
  intros r t H. unfold capture2. rewrite (test_false_exec r t H). reflexivity.
Qed.

Lemma uid_run : forall s, uid s = (uidText (S s), S s).
Proof. reflexivity. Qed.

Lemma makeInsert_run :
  forall n s, makeInsert n s = (InsertNode (Some (uidText (S s))) n, S s).
Proof. reflexivity. Qed.

Section Fallback.
Variable rec : list line -> nat -> M node.

(** A block whose text matches no pattern becomes a TaskNode with that
    text, before the chain built so far. *)
Lemma statement_task :
  forall (baseIndent : nat) (b : block) (nextBlock : option block)
         (tail : node) (s : nat),
    matches_none k (btext b) = true ->
    statement k rec baseIndent b nextBlock tail s
    = (InsertNode (Some (uidText (S (S s))))
         (TaskNode (Some (uidText (S s))) (btext b) tail),
       S (S s)).
Proof.
  intros baseIndent b nextBlock tail s H.
  unfold matches_none in H. rewrite negb_true_iff in H.
  repeat (apply orb_false_iff in H; destruct H as [H ?]).
  unfold statement.
  repeat match goal with
         | Ht : test ?r ?t = false |- context [test ?r ?t] => rewrite Ht
         | Ht : test ?r ?t = false |- context [capture1 ?r ?t] =>
             rewrite (test_false_capture1 r t Ht)
         | Ht : test ?r ?t = false |- context [capture2 ?r ?t] =>
             rewrite (test_false_capture2 r t Ht)
         end.
  reflexivity.
Qed.

(** Whatever a block becomes, the chain built so far follows it. *)
Lemma statement_keeps_tail :
  forall (baseIndent : nat) (b : block) (nextBlock : option block)
         (tail : node) (s : nat) (x : node),
    In x (nodes tail) ->
    In x (nodes (fst (statement k rec baseIndent b nextBlock tail s))).
Proof.
  intros baseIndent b nextBlock tail s x Hx.
  unfold statement.
  repeat match goal with
         | |- context [if ?c then _ else _] => destruct c
         | |- context [match ?c with Some _ => _ | None => _ end] =>
             destruct c
         end.
  all: repeat match goal with
         | |- context [extractColumnWidths ?y] =>
             destruct (extractColumnWidths y)
         | p : (string * string)%type |- _ => destruct p
         end.
  all: cbv beta iota delta [Counter.bind makeInsert uid tick Counter.ret].
  all: repeat match goal with
         | |- context [rec ?ls ?i ?s0] => destruct (rec ls i s0)
         | |- context [caseLoop k rec ?ci ?bs ?acc ?s0] =>
             destruct (caseLoop k rec ci bs acc s0) as [[[? fd] ?] ?];
             destruct fd
         end.
  all: cbn [fst nodes]; right; right.
  all: first [exact Hx | apply in_or_app; left; exact Hx].
Qed.


End Fallback.



Lemma groupBlocks_complete :
  forall (lines : list line) (baseIndent : nat) (l : line),
    (forall x, In x lines -> baseIndent <= Parser.indent x) ->
    In l lines -> Parser.indent l = baseIndent ->
    exists b, In b (groupBlocks lines baseIndent) /\ btext b = text l.
Proof.
  induction lines as [|l0 rest IH]; intros baseIndent l Hmin Hin Hl;
    [contradiction |].
  cbn [groupBlocks].
  assert (H0 : baseIndent <= Parser.indent l0) by (apply Hmin; left; auto).
  destruct (Parser.indent l0 <? baseIndent) eqn:E1;
    [apply Nat.ltb_lt in E1; lia |].
  assert (Hrest : forall x, In x rest -> baseIndent <= Parser.indent x)
    by (intros x Hx; apply Hmin; right; exact Hx).
  destruct (baseIndent <? Parser.indent l0) eqn:E2.
  - apply Nat.ltb_lt in E2.
    destruct Hin as [-> | Hin]; [lia |].
    apply IH; assumption.
  - destruct Hin as [-> | Hin].
    + eexists. split; [left; reflexivity | reflexivity].
    + destruct (IH baseIndent l Hrest Hin Hl) as (b & Hb & Ht).
      exists b. split; [right; exact Hb | exact Ht].
Qed.

Lemma minIndent_le :
  forall (rest : list line) (l x : line),
    In x (l :: rest) -> minIndent l rest <= Parser.indent x.
Proof.
  induction rest as [|l1 r IH]; intros l x Hx.
  - destruct Hx as [-> | []]. simpl. lia.
  - cbn [minIndent]. destruct Hx as [-> | Hx]; [lia |].
    specialize (IH l1 x Hx). lia.
Qed.

Lemma minIndent_attained :
  forall (rest : list line) (l : line),
    exists x, In x (l :: rest) /\ Parser.indent x = minIndent l rest.
Proof.
  induction rest as [|l1 r IH]; intros l.
  - exists l. simpl. auto.
  - cbn [minIndent]. destruct (IH l1) as (x & Hx & Hm).
    destruct (Nat.min_dec (Parser.indent l) (minIndent l1 r)) as [E | E].
    + exists l. rewrite E. simpl. auto.
    + exists x. rewrite E. split; [right; exact Hx | exact Hm].
Qed.

(** *** Pairs of blocks *)

Section Pairs.
Variable rec : list line -> nat -> M node.

Lemma skipAfter_hd :
  forall (b : block) (rest : list block),
    match hd_error rest with
    | Some nb => pairs k (btext b) (btext nb)
    | None => false
    end = skipAfter k b rest.
Proof. intros b [|nb r]; reflexivity. Qed.

(** The chain for a group of blocks whose second block is consumed by the
    first. *)
Lemma build_pair :
  forall (baseIndent : nat) (b nb : block) (rest : list block) (s : nat),
    pairs k (btext b) (btext nb) = true ->
    build k rec baseIndent false (b :: nb :: rest) s
    = let (tail, s1) := build k rec baseIndent (skipAfter k nb rest) rest s in
      statement k rec baseIndent b (Some nb) tail s1.
Proof.
  intros baseIndent b nb rest s Hp.
  cbn [build hd_error]. unfold Counter.bind. rewrite Hp.
  rewrite skipAfter_hd.
  destruct (build k rec baseIndent (skipAfter k nb rest) rest s).
  reflexivity.
Qed.

(** The chain for a group of blocks whose second block is not consumed. *)
Lemma build_single :
  forall (baseIndent : nat) (b nb : block) (rest : list block) (s : nat),
    pairs k (btext b) (btext nb) = false ->
    build k rec baseIndent false (b :: nb :: rest) s
    = let (tail, s1) := build k rec baseIndent false (nb :: rest) s in
      statement k rec baseIndent b (Some nb) tail s1.
Proof.
  intros baseIndent b nb rest s Hp.
  cbn [build hd_error]. unfold Counter.bind. rewrite Hp.
  reflexivity.
Qed.

Lemma statement_branch_else :
  forall (baseIndent : nat) (b nb : block) (tail : node) (s : nat),
    test (reIfPrefix k) (btext b) = true ->
    test (reElseBlock k) (btext nb) = true ->
    test (reTryBlock k) (btext b) && test (reCatchPrefix k) (btext nb)
    = false ->
    statement k rec baseIndent b (Some nb) tail s
    = let '(cond, cw) :=
        extractColumnWidths
          (stripColon (stripMatch (reIfPrefix k) (btext b))) in
      let '(trueChild, s1) := rec (children b) (baseIndent + 4) s in
      let '(falseChild, s2) := rec (children nb) (baseIndent + 4) s1 in
      (InsertNode (Some (uidText (S (S s2))))
         (BranchNode (Some (uidText (S s2))) cond cw trueChild falseChild
                     tail),
       S (S s2)).
Proof.
  intros baseIndent b nb tail s Hif Helse Htry.
  unfold statement. rewrite Htry, Hif, Helse. cbn [andb].
  destruct (extractColumnWidths _) as [cond cw].
  unfold Counter.bind.
  destruct (rec (children b) (baseIndent + 4) s) as [trueChild s1].
  destruct (rec (children nb) (baseIndent + 4) s1) as [falseChild s2].
  reflexivity.
Qed.

Lemma statement_branch_alone :
  forall (baseIndent : nat) (b : block) (nextBlock : option block)
         (tail : node) (s : nat),
    test (reIfPrefix k) (btext b) = true ->
    (forall nb, nextBlock = Some nb ->
                test (reElseBlock k) (btext nb) = false) ->
    (forall nb, nextBlock = Some nb ->
                test (reTryBlock k) (btext b)
                && test (reCatchPrefix k) (btext nb) = false) ->
    statement k rec baseIndent b nextBlock tail s
    = let '(cond, cw) :=
        extractColumnWidths
          (stripColon (stripMatch (reIfPrefix k) (btext b))) in
      let '(trueChild, s1) := rec (children b) (baseIndent + 4) s in
      (InsertNode (Some (uidText (S (S (S s1)))))
         (BranchNode (Some (uidText (S s1))) cond cw trueChild
            (InsertNode (Some (uidText (S (S s1)))) (Placeholder None Null))
            tail),
       S (S (S s1))).
Proof.
  intros baseIndent b nextBlock tail s Hif Helse Htry.
  unfold statement. rewrite Hif.
  destruct nextBlock as [nb|].
  - rewrite (Htry nb eq_refl), (Helse nb eq_refl). cbn [andb].
    destruct (extractColumnWidths _) as [cond cw].
    unfold Counter.bind.
    destruct (rec (children b) (baseIndent + 4) s) as [trueChild s1].
    reflexivity.
  - rewrite !andb_false_r.
    destruct (extractColumnWidths _) as [cond cw].
    unfold Counter.bind.
    destruct (rec (children b) (baseIndent + 4) s) as [trueChild s1].
    reflexivity.
Qed.

Lemma statement_foot_loop :
  forall (baseIndent : nat) (b nb : block) (tail : node) (s : nat),
    test (reRepeatBlock k) (btext b) = true ->
    test (reWhilePrefix k) (btext nb) = true ->
    endsWithChar (btext nb) ":" = false ->
    test (reIfPrefix k) (btext b) = false ->
    test (reTryBlock k) (btext b) && test (reCatchPrefix k) (btext nb)
    = false ->
    statement k rec baseIndent b (Some nb) tail s
    = let '(childTree, s1) := rec (children b) (baseIndent + 4) s in
      (InsertNode (Some (uidText (S (S s1))))
         (FootLoopNode (Some (uidText (S s1)))
            (trim (stripMatch (reWhilePrefix k) (btext nb))) childTree tail),
       S (S s1)).
Proof.
  intros baseIndent b nb tail s Hrep Hwhile Hcolon Hif Htry.
  unfold statement. rewrite Htry, Hif, Hrep, Hwhile, Hcolon. cbn [andb negb].
  unfold Counter.bind.
  destruct (rec (children b) (baseIndent + 4) s) as [childTree s1].
  reflexivity.
Qed.

(** A block followed by a while line that ends in a colon is parsed as if
    nothing followed it, unless the two form a try/catch or if/else pair. *)
Lemma statement_ignores_head_loop :
  forall (baseIndent : nat) (b nb : block) (tail : node) (s : nat),
    endsWithChar (btext nb) ":" = true ->
    test (reTryBlock k) (btext b) && test (reCatchPrefix k) (btext nb)
    = false ->
    test (reIfPrefix k) (btext b) && test (reElseBlock k) (btext nb)
    = false ->
    statement k rec baseIndent b (Some nb) tail s
    = statement k rec baseIndent b None tail s.
Proof.
  intros baseIndent b nb tail s Hcolon Htry Hif.
  unfold statement. rewrite Htry, Hif, Hcolon.
  rewrite !andb_false_r. reflexivity.
Qed.

End Pairs.

End ParserFacts.


(** C9 as stated fails: a branch header with one number in brackets gives a
    BranchNode whose [columnWidths] has one entry, not two. *)
Lemma widths_counterexample :
  widths_match (parsePseudocode "if x [0.5]:" KEYWORDS_EN) = false
  /\ erase_ids (parsePseudocode "if x [0.5]:" KEYWORDS_EN)
     = InsertNode None
         (BranchNode None "x" (Some [(1 # 2)%Q])
            (InsertNode None (Placeholder None Null))
            (InsertNode None (Placeholder None Null))
            (InsertNode None Null)).
Proof. split; vm_compute; reflexivity. Qed.

(** ** The built-in keyword maps keep the pairs apart *)

Lemma run_lit_ci :
  forall (A : Type) (kw t : string) (caps : list string)
         (K : string -> list string -> option A),
    prefix_ci kw t = false -> run (lit_ci kw) t caps K = None.
Proof.
  intros A. induction kw as [|a kw IH]; intros t caps K H; [discriminate |].
  cbn [lit_ci run]. destruct t as [|c t]; [reflexivity |].
  cbn [prefix_ci] in H. destruct (eq_ci a c); [| reflexivity].
  apply IH. exact H.
Qed.

Lemma test_keyword :
  forall (kw : string) (r : re) (more : list re) (t : string),
    test (seq (lit_ci kw :: r :: more)) t = true -> prefix_ci kw t = true.
Proof.
  intros kw r more t H.
  destruct (prefix_ci kw t) eqn:E; [reflexivity |].
  unfold test, exec in H. cbn [seq run] in H.
  rewrite run_lit_ci in H by exact E. discriminate H.
Qed.

Lemma eq_ci_clash :
  forall a b c : ascii,
    canon a <> canon b -> eq_ci a c = true -> eq_ci b c = false.
Proof.
  intros a b c Hne Ha. unfold eq_ci in *.
  apply Nat.eqb_eq in Ha. apply Nat.eqb_neq. congruence.
Qed.

(** Two keywords that differ in one of their first three letters cannot
    both start a text. *)
Ltac keywords_clash H1 H2 :=
  let t := fresh "t" in
  match type of H1 with
  | prefix_ci _ ?x = true =>
      destruct x as [|? [|? [|? t]]]; cbn [prefix_ci] in H1, H2;
      try discriminate H1;
      repeat (apply andb_true_iff in H1; destruct H1 as [? H1]);
      repeat match goal with
             | E : eq_ci ?a ?c = true, H : context [eq_ci ?b ?c] |- _ =>
                 first [ rewrite E in H
                       | rewrite (eq_ci_clash a b c ltac:(vm_compute; discriminate) E) in H ]
             end;
      cbn [andb] in H2; try discriminate H2
  end.

Lemma builtin_if_exclusive :
  forall (k : keywords) (t : string),
    builtin k ->
    test (reIfPrefix k) t = true ->
    test (reTryBlock k) t = false /\ second_half k t = false.
Proof.
  intros k t Hk Hif.
  assert (Hpre : prefix_ci (kw_if k) t = true)
    by exact (test_keyword (kw_if k) ws_plus [] t Hif).
  assert (forall kw r more,
             (prefix_ci kw t = true -> False) ->
             test (seq (lit_ci kw :: r :: more)) t = false) as Hno.
  { intros kw r more Hc.
    destruct (test (seq (lit_ci kw :: r :: more)) t) eqn:E; [| reflexivity].
    exfalso. apply Hc. eapply test_keyword. exact E. }
  unfold second_half, reTryBlock, reCatchPrefix, reElseBlock, reWhilePrefix,
    colon_end.
  destruct Hk as [-> | ->]; cbn [kw_if kw_try kw_catch kw_else kw_while
                                  KEYWORDS_EN KEYWORDS_DE] in *.
  all: rewrite !Hno; [auto | ..].
  all: intros H2; keywords_clash Hpre H2.
Qed.

Lemma builtin_repeat_exclusive :
  forall (k : keywords) (t : string),
    builtin k ->
    test (reRepeatBlock k) t = true ->
    test (reIfPrefix k) t = false
    /\ test (reTryBlock k) t = false /\ second_half k t = false.
Proof.
  intros k t Hk Hrep.
  assert (Hpre : prefix_ci (kw_repeat k) t = true)
    by exact (test_keyword (kw_repeat k) ws_star [chr_is ":"; Eos] t Hrep).
  assert (forall kw r more,
             (prefix_ci kw t = true -> False) ->
             test (seq (lit_ci kw :: r :: more)) t = false) as Hno.
  { intros kw r more Hc.
    destruct (test (seq (lit_ci kw :: r :: more)) t) eqn:E; [| reflexivity].
    exfalso. apply Hc. eapply test_keyword. exact E. }
  unfold second_half, reIfPrefix, reTryBlock, reCatchPrefix, reElseBlock,
    reWhilePrefix, colon_end.
  destruct Hk as [-> | ->]; cbn [kw_if kw_try kw_catch kw_else kw_while
                                  kw_repeat KEYWORDS_EN KEYWORDS_DE] in *.
  all: rewrite !Hno; [auto | ..].
  all: intros H2; keywords_clash Hpre H2.
Qed.

(** With a built-in keyword map an if block is never taken for the second
    half of a pair, whatever block comes before it, and never opens a
    try/catch pair: the side conditions of [if_else_merge] hold. *)
Lemma builtin_if_visited :
  forall (k : keywords) (prev t next : string),
    builtin k ->
    test (reIfPrefix k) t = true ->
    pairs k prev t = false
    /\ test (reTryBlock k) t && test (reCatchPrefix k) next = false.
Proof.
  intros k prev t next Hk Hif.
  destruct (builtin_if_exclusive k t Hk Hif) as [Htry Hsec].
  unfold second_half in Hsec.
  apply orb_false_iff in Hsec. destruct Hsec as [Hsec Hw].
  apply orb_false_iff in Hsec. destruct Hsec as [Hc He].
  unfold pairs. rewrite Htry, Hc, He, Hw.
  rewrite !andb_false_r. auto.
Qed.

(** Likewise for a repeat block and the side conditions of
    [foot_loop_merge]. *)
Lemma builtin_repeat_visited :
  forall (k : keywords) (prev t next : string),
    builtin k ->
    test (reRepeatBlock k) t = true ->
    pairs k prev t = false
    /\ test (reIfPrefix k) t = false
    /\ test (reTryBlock k) t && test (reCatchPrefix k) next = false.
Proof.
  intros k prev t next Hk Hrep.
  destruct (builtin_repeat_exclusive k t Hk Hrep) as (Hif & Htry & Hsec).
  unfold second_half in Hsec.
  apply orb_false_iff in Hsec. destruct Hsec as [Hsec Hw].
  apply orb_false_iff in Hsec. destruct Hsec as [Hc He].
  unfold pairs. rewrite Htry, Hc, He, Hw, Hif.
  rewrite !andb_false_r. auto.
Qed.

(** ** The bodies the parser parses *)

Section ParsedBodies.
Variable k : keywords.

(** One level of the recursion of [mergeBlocks], with the parser of
    bodies for the levels below. *)
Lemma mergeBlocks_unfold :
  forall (fuel : nat) (lines : list line) (baseIndent s : nat),
    length lines <= fuel ->
    mergeBlocks fuel lines baseIndent k s
    = mergeBody k (parseBody k) lines baseIndent s.
Proof.
  intros fuel lines baseIndent s Hf.
  destruct fuel as [|f].
  - destruct lines; [reflexivity | simpl in Hf; lia].
  - cbn [mergeBlocks]. apply mergeBody_agree.
    intros ls i s' Hls. unfold parseBody. apply mergeBlocks_fuel; lia.
Qed.

Lemma parseBody_unfold :
  forall (lines : list line) (baseIndent s : nat),
    parseBody k lines baseIndent s
    = mergeBody k (parseBody k) lines baseIndent s.
Proof.
  intros. unfold parseBody at 1. apply mergeBlocks_unfold. lia.
Qed.

Section AnyNested.
Variable rec : list line -> nat -> M node.

(** The chain of a block that has its turn is part of the chain of the
    group, with the chain of the blocks after it as its tail. *)
Lemma build_at :
  forall (baseIndent : nat) (above : list block) (b : block)
         (rest : list block) (skip : bool) (s : nat) (x : node),
    flagged k skip above b = false ->
    In x (nodes (fst (let (tail, s1) :=
                        build k rec baseIndent (skipAfter k b rest) rest s in
                      statement k rec baseIndent b (hd_error rest) tail s1))) ->
    In x (nodes (fst (build k rec baseIndent skip (above ++ b :: rest) s))).
Proof.
  intros baseIndent.
  induction above as [|a r IH]; intros b rest skip s x Hflag Hx.
  - cbn [flagged] in Hflag. subst skip.
    cbn [app build]. unfold Counter.bind. rewrite skipAfter_hd.
    exact Hx.
  - cbn [flagged] in Hflag.
    change ((a :: r) ++ b :: rest) with (a :: (r ++ b :: rest)).
    cbn [build]. unfold Counter.bind.
    assert (Hhd : hd_error (r ++ b :: rest) = Some (hd b r))
      by (destruct r; reflexivity).
    rewrite Hhd.
    specialize (IH b rest _ s x Hflag Hx).
    destruct (build k rec baseIndent (pairs k (btext a) (btext (hd b r)))
                    (r ++ b :: rest) s) as [tail s1].
    cbn [fst] in IH.
    destruct skip; [exact IH |].
    apply statement_keeps_tail. exact IH.
Qed.

(** The cases gathered so far stay in the list. *)
Lemma caseLoop_keeps :
  forall (ci : nat) (caseBlocks : list block) (acc : caseAcc) (s : nat)
         (c : node),
    In c (fst (fst acc)) ->
    In c (fst (fst (fst (caseLoop k rec ci caseBlocks acc s)))).
Proof.
  intros ci. induction caseBlocks as [|cb rest IH]; intros acc s c Hc.
  - exact Hc.
  - cbn [caseLoop]. destruct acc as [[cases dn] don]. cbn [fst] in Hc.
    destruct (capture1 (reCaseLabel k) (btext cb)).
    + unfold Counter.bind.
      destruct (rec (children cb) ci s) as [body s1].
      destruct (uid s1) as [i s2].
      apply IH. cbn [fst]. apply in_or_app. left. exact Hc.
    + destruct (test (reElseBlock k) (btext cb)).
      * unfold Counter.bind.
        destruct (rec (children cb) ci s) as [body s1].
        destruct (uid s1) as [i s2].
        apply IH. exact Hc.
      * apply IH. exact Hc.
Qed.

(** Without an else block the default case is the one found before. *)
Lemma caseLoop_default :
  forall (ci : nat) (caseBlocks : list block) (acc : caseAcc) (s : nat),
    lastDefault k caseBlocks = None ->
    snd (fst (fst (caseLoop k rec ci caseBlocks acc s))) = snd (fst acc).
Proof.
  intros ci. induction caseBlocks as [|cb rest IH]; intros acc s Hd.
  - reflexivity.
  - cbn [caseLoop]. destruct acc as [[cases dn] don].
    cbn [lastDefault] in Hd.
    destruct (lastDefault k rest) eqn:Er; [discriminate Hd |].
    unfold isDefault, isCase, matched in Hd.
    destruct (capture1 (reCaseLabel k) (btext cb)).
    + unfold Counter.bind.
      destruct (rec (children cb) ci s) as [body s1].
      destruct (uid s1) as [i s2].
      rewrite IH by reflexivity. reflexivity.
    + cbn [negb andb] in Hd.
      destruct (test (reElseBlock k) (btext cb)); [discriminate Hd |].
      rewrite IH by reflexivity. reflexivity.
Qed.

(** Every body of a switch that [caseBodies] lists is parsed, and its
    chain hangs under a case of the list or under the default case. *)
Lemma caseLoop_bodies :
  forall (ci : nat) (caseBlocks : list block) (acc : caseAcc) (s : nat)
         (body : list line),
    In body (caseBodies k caseBlocks) ->
    exists s',
      forall x,
        In x (nodes (fst (rec body ci s'))) ->
        let r := fst (caseLoop k rec ci caseBlocks acc s) in
        (exists c, In c (fst (fst r)) /\ In x (nodes c))
        \/ (exists d, snd (fst r) = Some d /\ In x (nodes d)).
Proof.
  intros ci. induction caseBlocks as [|cb rest IH]; intros acc s body Hb.
  - contradiction.
  - unfold caseBodies in Hb. cbn [filter lastDefault] in Hb.
    cbn [caseLoop]. destruct acc as [[cases dn] don].
    unfold isDefault, isCase, matched in Hb.
    destruct (capture1 (reCaseLabel k) (btext cb)) as [label|] eqn:Ec.
    + (* a case label *)
      cbn [negb andb] in Hb.
      assert (Hrest : body = children cb \/ In body (caseBodies k rest)).
      { unfold caseBodies. cbn [map app] in Hb.
        destruct Hb as [Hb | Hb]; [left; symmetry; exact Hb | right].
        destruct (lastDefault k rest); exact Hb. }
      unfold Counter.bind.
      destruct Hrest as [-> | Hrest].
      * exists s. intros x Hx.
        destruct (rec (children cb) ci s) as [cbody s1].
        destruct (uid s1) as [i s2]. cbn [fst] in Hx.
        left. exists (InsertCase (Some i) (unquote label) cbody).
        split.
        -- apply caseLoop_keeps. cbn [fst]. apply in_or_app. right.
           left. reflexivity.
        -- cbn [nodes]. right. exact Hx.
      * destruct (rec (children cb) ci s) as [cbody s1].
        destruct (uid s1) as [i s2].
        apply IH. exact Hrest.
    + cbn [negb andb] in Hb.
      destruct (test (reElseBlock k) (btext cb)) eqn:Ee.
      * (* an else block *)
        unfold Counter.bind.
        destruct (lastDefault k rest) as [d|] eqn:Ed.
        -- destruct (rec (children cb) ci s) as [cbody s1].
           destruct (uid s1) as [i s2].
           apply IH. unfold caseBodies. rewrite Ed. exact Hb.
        -- apply in_app_or in Hb. destruct Hb as [Hb | Hb].
           ++ destruct (rec (children cb) ci s) as [cbody s1].
              destruct (uid s1) as [i s2].
              apply IH. unfold caseBodies. apply in_or_app. left. exact Hb.
           ++ destruct Hb as [<- | []].
              exists s. intros x Hx.
              destruct (rec (children cb) ci s) as [cbody s1].
              destruct (uid s1) as [i s2]. cbn [fst] in Hx.
              right. exists (InsertCase (Some i) (kw_default k) cbody).
              split.
              ** rewrite caseLoop_default by exact Ed. reflexivity.
              ** cbn [nodes]. right. exact Hx.
      * apply IH. unfold caseBodies.
        destruct (lastDefault k rest); exact Hb.
Qed.

(** Every body parsed in the turn of a block is parsed by the parser of
    nested bodies, and its chain is part of the chain of the block. *)
Lemma statement_body :
  forall (baseIndent : nat) (b : block) (nextBlock : option block)
         (tail : node) (s : nat) (body : list line) (ci : nat),
    In (body, ci) (bodiesOf k baseIndent b nextBlock) ->
    exists s',
      forall x,
        In x (nodes (fst (rec body ci s'))) ->
        In x (nodes (fst (statement k rec baseIndent b nextBlock tail s))).
Proof.
  intros baseIndent b nextBlock tail s body ci Hin.
  unfold bodiesOf in Hin. unfold statement.
  destruct (test (reTryBlock k) (btext b)
            && match nextBlock with
               | Some nb => test (reCatchPrefix k) (btext nb)
               | None => false
               end).
  { unfold Counter.bind.
    destruct Hin as [E | [E | []]]; injection E as <- <-.
    - exists s. intros x Hx.
      destruct (rec (children b) (baseIndent + 4) s) as [c1 s1].
      destruct (rec _ (baseIndent + 4) s1) as [c2 s2].
      cbn [fst nodes uid makeInsert tick Counter.bind Counter.ret] in *.
      right. right. apply in_or_app. right. apply in_or_app. left. exact Hx.
    - destruct (rec (children b) (baseIndent + 4) s) as [c1 s1].
      exists s1. intros x Hx.
      destruct (rec _ (baseIndent + 4) s1) as [c2 s2].
      cbn [fst nodes uid makeInsert tick Counter.bind Counter.ret] in *.
      right. right. apply in_or_app. right. apply in_or_app. right. exact Hx. }
  destruct (test (reIfPrefix k) (btext b)
            && match nextBlock with
               | Some nb => test (reElseBlock k) (btext nb)
               | None => false
               end).
  { destruct (extractColumnWidths _) as [cond cw]. unfold Counter.bind.
    destruct Hin as [E | [E | []]]; injection E as <- <-.
    - exists s. intros x Hx.
      destruct (rec (children b) (baseIndent + 4) s) as [c1 s1].
      destruct (rec _ (baseIndent + 4) s1) as [c2 s2].
      cbn [fst nodes uid makeInsert tick Counter.bind Counter.ret] in *.
      right. right. apply in_or_app. right. apply in_or_app. left. exact Hx.
    - destruct (rec (children b) (baseIndent + 4) s) as [c1 s1].
      exists s1. intros x Hx.
      destruct (rec _ (baseIndent + 4) s1) as [c2 s2].
      cbn [fst nodes uid makeInsert tick Counter.bind Counter.ret] in *.
      right. right. apply in_or_app. right. apply in_or_app. right. exact Hx. }
  destruct (test (reIfPrefix k) (btext b)).
  { destruct (extractColumnWidths _) as [cond cw]. unfold Counter.bind.
    destruct Hin as [E | []]; injection E as <- <-.
    exists s. intros x Hx.
    destruct (rec (children b) (baseIndent + 4) s) as [c1 s1].
    cbn [fst nodes uid makeInsert tick Counter.bind Counter.ret] in *.
    right. right. apply in_or_app. right. apply in_or_app. left. exact Hx. }
  destruct (test (reRepeatBlock k) (btext b)
            && match nextBlock with
               | Some nb => test (reWhilePrefix k) (btext nb)
               | None => false
               end
            && negb (endsWithChar match nextBlock with
                                  | Some nb => btext nb
                                  | None => ""
                                  end ":")).
  { unfold Counter.bind.
    destruct Hin as [E | []]; injection E as <- <-.
    exists s. intros x Hx.
    destruct (rec (children b) (baseIndent + 4) s) as [c1 s1].
    cbn [fst nodes uid makeInsert tick Counter.bind Counter.ret] in *.
    right. right. apply in_or_app. right. exact Hx. }
  unfold matched in Hin.
  destruct (capture1 (reCountLoop k) (btext b)).
  { unfold Counter.bind.
    destruct Hin as [E | []]; injection E as <- <-.
    exists s. intros x Hx.
    destruct (rec (children b) (baseIndent + 4) s) as [c1 s1].
    cbn [fst nodes uid makeInsert tick Counter.bind Counter.ret] in *.
    right. right. apply in_or_app. right. exact Hx. }
  destruct (capture1 (reHeadLoop k) (btext b)).
  { unfold Counter.bind.
    destruct Hin as [E | []]; injection E as <- <-.
    exists s. intros x Hx.
    destruct (rec (children b) (baseIndent + 4) s) as [c1 s1].
    cbn [fst nodes uid makeInsert tick Counter.bind Counter.ret] in *.
    right. right. apply in_or_app. right. exact Hx. }
  destruct (capture2 (reFuncDef k) (btext b)) as [[fname raw]|].
  { unfold Counter.bind.
    destruct Hin as [E | []]; injection E as <- <-.
    exists s. intros x Hx.
    destruct (rec (children b) (baseIndent + 4) s) as [c1 s1].
    cbn [fst nodes uid makeInsert tick Counter.bind Counter.ret] in *.
    right. right. apply in_or_app. right. exact Hx. }
  destruct (capture1 (reSwitchBlock k) (btext b)) as [rawVar|].
  { apply in_map_iff in Hin. destruct Hin as (ls & E & Hls).
    injection E as <- <-.
    destruct (extractColumnWidths rawVar) as [varName cw].
    destruct (caseLoop_bodies (baseIndent + 4 + 4)
                (groupBlocks (children b) (baseIndent + 4))
                ([], None, false) s ls Hls) as (s' & Hs').
    exists s'. intros x Hx. specialize (Hs' x Hx). cbv zeta in Hs'.
    unfold Counter.bind.
    destruct (caseLoop k rec (baseIndent + 4 + 4) _ _ s)
      as [[[cases fd] don] s1].
    cbn [fst snd] in Hs'.
    destruct Hs' as [(c & Hc & Hxc) | (d & Hd & Hxd)].
    - destruct fd as [d|];
        cbn [fst nodes uid makeInsert tick Counter.bind Counter.ret].
      all: right; right; apply in_or_app; right; apply in_or_app; left.
      all: apply in_flat_map; exists c; split; assumption.
    - subst fd.
      cbn [fst nodes uid makeInsert tick Counter.bind Counter.ret].
      right. right. apply in_or_app. right. apply in_or_app. right.
      exact Hxd. }
  contradiction.
Qed.

End AnyNested.

(** The chain of every body the parser reaches is part of the chain of
    the body it started from. *)
Lemma parses_part :
  forall (lines : list line) (baseIndent : nat) (ls : list line) (i : nat),
    parses k lines baseIndent ls i ->
    forall s, exists s',
      forall x,
        In x (nodes (fst (parseBody k ls i s'))) ->
        In x (nodes (fst (parseBody k lines baseIndent s))).
Proof.
  intros lines baseIndent ls i H.
  induction H as [lines baseIndent
                 | lines baseIndent above b rest body ci ls i
                         Hg Hflag Hin Hp IH];
    intros s.
  - exists s. auto.
  - rewrite parseBody_unfold.
    assert (Hm : mergeBody k (parseBody k) lines baseIndent s
                 = build k (parseBody k) baseIndent false
                         (above ++ b :: rest) s)
      by (unfold mergeBody; rewrite Hg; destruct above; reflexivity).
    rewrite Hm.
    destruct (build k (parseBody k) baseIndent (skipAfter k b rest) rest s)
      as [tail s1] eqn:Eb.
    destruct (statement_body (parseBody k) baseIndent b (hd_error rest)
                             tail s1 body ci Hin) as (s2 & H2).
    destruct (IH s2) as (s' & H').
    exists s'. intros x Hx.
    apply build_at; [exact Hflag |].
    rewrite Eb. apply H2. apply H'. exact Hx.
Qed.

(** The chain of every body parsed for a text is part of the tree. *)
Lemma parsed_part :
  forall (source : string) (ls : list line) (i : nat),
    parsed k source ls i ->
    exists s,
      forall x,
        In x (nodes (fst (parseBody k ls i s))) ->
        In x (nodes (parsePseudocode source k)).
Proof.
  intros source ls i H. unfold parsed in H. unfold parsePseudocode, eval.
  destruct (tokenize source) as [|l rest]; [contradiction |].
  exact (parses_part _ _ _ _ H 0).
Qed.

End ParsedBodies.

(** ** The numbers of a width list *)

Lemma read_digits_none :
  forall (s : string) (acc : N),
    match s with
    | String c _ => is_digit c = false
    | EmptyString => True
    end ->
    read_digits s acc = (acc, 0, s).
Proof.
  intros [|c r] acc H; [reflexivity |].
  cbn [read_digits]. rewrite H. reflexivity.
Qed.

Lemma read_digits_some :
  forall (c : ascii) (r : string) (acc : N),
    is_digit c = true ->
    exists v n rest, read_digits (String c r) acc = (v, S n, rest).
Proof.
  intros c r acc H. cbn [read_digits]. rewrite H.
  destruct (read_digits r _) as [[v n] rest]. eauto.
Qed.

(** [parseFloat] returns a number exactly on the texts [numeric] accepts. *)
Lemma parseFloat_numeric :
  forall s : string,
    match parseFloat s with Some _ => true | None => false end = numeric s.
Proof.
  intros s. unfold parseFloat, numeric.
  destruct (trimStart s) as [|c r]; [reflexivity |].
  destruct (is_digit c) eqn:Ec.
  - destruct (read_digits_some c r 0%N Ec) as (v & n & rest & E).
    rewrite E. cbn [orb].
    destruct rest as [|d rest']; [reflexivity |].
    destruct (Ascii.eqb_spec d "."%char) as [-> | Hd].
    + destruct (read_digits rest' 0%N) as [[fp n2] r3].
      cbn [Nat.eqb andb]. destruct (n2 =? 0); reflexivity.
    + assert (Hm : forall (A : Type) (x y : A),
                 match d with
                 | "."%char => x
                 | _ => y
                 end = y).
      { intros A x y.
        destruct d as [[] [] [] [] [] [] [] []]; try reflexivity.
        exfalso. apply Hd. reflexivity. }
      rewrite Hm. reflexivity.
  - rewrite read_digits_none by exact Ec. cbn [orb].
    destruct (Ascii.eqb_spec c "."%char) as [-> | Hc].
    + cbn [andb].
      destruct r as [|d r'].
      * reflexivity.
      * destruct (is_digit d) eqn:Ed.
        -- destruct (read_digits_some d r' 0%N Ed) as (v & n & rest & E).
           rewrite E. reflexivity.
        -- rewrite read_digits_none by exact Ed. reflexivity.
    + cbn [andb].
      assert (Hm : forall (A : Type) (x y : A),
                 match c with
                 | "."%char => x
                 | _ => y
                 end = y).
      { intros A x y.
        destruct c as [[] [] [] [] [] [] [] []]; try reflexivity.
        exfalso. apply Hc. reflexivity. }
      rewrite Hm. reflexivity.
Qed.

Lemma keepNumbers_length :
  forall (parts : list string),
    length (keepNumbers (map (fun s => parseFloat (trim s)) parts))
    = length (filter (fun s => numeric (trim s)) parts).
Proof.
  induction parts as [|p r IH]; [reflexivity |].
  cbn [map keepNumbers filter].
  rewrite <- parseFloat_numeric.
  destruct (parseFloat (trim p)); cbn [length]; rewrite IH; reflexivity.
Qed.

(** The list [extractColumnWidths] returns has one entry for each part of
    the bracketed list that holds a number. *)
Lemma extractColumnWidths_count :
  forall str : string,
    option_map (@length Q) (snd (extractColumnWidths str)) = widthCount str.
Proof.
  intros str. unfold extractColumnWidths, widthCount.
  destruct (exec reColumnWidths str) as [[caps rest]|]; [| reflexivity].
  destruct caps as [|m1 [|m2 [|m3 caps]]]; try reflexivity.
  cbn [snd]. rewrite <- keepNumbers_length.
  destruct (0 <? _); cbn [option_map]; reflexivity.
Qed.

(** ** Blocks of the bodies parsed for a text *)

Section ParsedBlocks.
Variable k : keywords.

(** A block marked by the pre-scan is skipped: the chain is the one of
    the blocks after it. *)
Lemma build_marked :
  forall (rec : list line -> nat -> M node) (baseIndent : nat)
         (b : block) (rest : list block) (s : nat),
    build k rec baseIndent true (b :: rest) s
    = build k rec baseIndent (skipAfter k b rest) rest s.
Proof.
  intros rec baseIndent b rest s. cbn [build]. unfold Counter.bind.
  rewrite skipAfter_hd.
  destruct (build k rec baseIndent (skipAfter k b rest) rest s).
  reflexivity.
Qed.

(** The turn of a block of a parsed body that the pre-scan has not
    marked: the chain it builds is part of the tree. *)
Lemma parsed_turn :
  forall (source : string) (ls : list line) (i : nat)
         (above : list block) (b : block) (rest : list block),
    parsed k source ls i ->
    groupBlocks ls i = above ++ b :: rest ->
    flagged k false above b = false ->
    exists s,
      forall x,
        In x (nodes (fst (let (tail, s1) :=
                            build k (parseBody k) i (skipAfter k b rest)
                                  rest s in
                          statement k (parseBody k) i b (hd_error rest)
                                    tail s1))) ->
        In x (nodes (parsePseudocode source k)).
Proof.
  intros source ls i above b rest Hp Hg Hflag.
  destruct (parsed_part k source ls i Hp) as (s & Hs).
  exists s. intros x Hx. apply Hs.
  rewrite parseBody_unfold.
  assert (Hm : mergeBody k (parseBody k) ls i s
               = build k (parseBody k) i false (above ++ b :: rest) s)
    by (unfold mergeBody; rewrite Hg; destruct above; reflexivity).
  rewrite Hm. apply build_at; assumption.
Qed.

(** A block that completes no pair is never marked. *)
Lemma flagged_unpaired :
  forall (above : list block) (b : block) (skip : bool),
    (forall p, pairs k p (btext b) = false) ->
    flagged k skip above b = match above with [] => skip | _ => false end.
Proof.
  induction above as [|a r IH]; intros b skip Hp; [reflexivity |].
  cbn [flagged]. rewrite IH by exact Hp.
  destruct r as [|a' r']; [apply Hp | reflexivity].
Qed.








End ParsedBlocks.



(** ** If/else merging *)

(** An if block followed by an else block, in its turn. *)
Lemma parsed_branch_else :
  forall (k : keywords) (source : string) (ls : list line) (i : nat)
         (above : list block) (b nb : block) (rest : list block),
    parsed k source ls i ->
    groupBlocks ls i = above ++ b :: nb :: rest ->
    flagged k false above b = false ->
    test (reIfPrefix k) (btext b) = true ->
    test (reElseBlock k) (btext nb) = true ->
    test (reTryBlock k) (btext b) && test (reCatchPrefix k) (btext nb)
    = false ->
    exists s,
      let (tail, s1) :=
        build k (parseBody k) i (skipAfter k nb rest) rest s in
      let '(cond, cw) :=
        extractColumnWidths
          (stripColon (stripMatch (reIfPrefix k) (btext b))) in
      let '(trueChild, s2) := parseBody k (children b) (i + 4) s1 in
      let '(falseChild, s3) := parseBody k (children nb) (i + 4) s2 in
      In (BranchNode (Some (uidText (S s3))) cond cw trueChild falseChild
                     tail)
         (nodes (parsePseudocode source k)).
Proof.
  intros k source ls i above b nb rest Hp Hg Hflag Hif Helse Htry.
  destruct (parsed_turn k source ls i above b (nb :: rest) Hp Hg Hflag)
    as (s & Hs).
  exists s.
  assert (Hpair : skipAfter k b (nb :: rest) = true).
  { unfold skipAfter, pairs. rewrite Hif, Helse. cbn [andb].
    rewrite orb_true_r. reflexivity. }
  rewrite Hpair, build_marked in Hs. cbn [hd_error] in Hs.
  destruct (build k (parseBody k) i (skipAfter k nb rest) rest s)
    as [tail s1].
  rewrite (statement_branch_else k (parseBody k) i b nb tail s1
             Hif Helse Htry) in Hs.
  destruct (extractColumnWidths _) as [cond cw].
  destruct (parseBody k (children b) (i + 4) s1) as [trueChild s2].
  destruct (parseBody k (children nb) (i + 4) s2) as [falseChild s3].
  apply Hs. cbn [fst nodes]. right. left. reflexivity.
Qed.

(** An if block that no else block follows, in its turn. *)
Lemma parsed_branch_alone :
  forall (k : keywords) (source : string) (ls : list line) (i : nat)
         (above : list block) (b : block) (rest : list block),
    parsed k source ls i ->
    groupBlocks ls i = above ++ b :: rest ->
    flagged k false above b = false ->
    test (reIfPrefix k) (btext b) = true ->
    (forall nb, hd_error rest = Some nb ->
                test (reElseBlock k) (btext nb) = false) ->
    (forall nb, hd_error rest = Some nb ->
                test (reTryBlock k) (btext b)
                && test (reCatchPrefix k) (btext nb) = false) ->
    exists s,
      let (tail, s1) :=
        build k (parseBody k) i (skipAfter k b rest) rest s in
      let '(cond, cw) :=
        extractColumnWidths
          (stripColon (stripMatch (reIfPrefix k) (btext b))) in
      let '(trueChild, s2) := parseBody k (children b) (i + 4) s1 in
      In (BranchNode (Some (uidText (S s2))) cond cw trueChild
            (InsertNode (Some (uidText (S (S s2)))) (Placeholder None Null))
            tail)
         (nodes (parsePseudocode source k)).
Proof.
  intros k source ls i above b rest Hp Hg Hflag Hif Helse Htry.
  destruct (parsed_turn k source ls i above b rest Hp Hg Hflag) as (s & Hs).
  exists s.
  destruct (build k (parseBody k) i (skipAfter k b rest) rest s)
    as [tail s1].
  rewrite (statement_branch_alone k (parseBody k) i b (hd_error rest)
             tail s1 Hif Helse Htry) in Hs.
  destruct (extractColumnWidths _) as [cond cw].
  destruct (parseBody k (children b) (i + 4) s1) as [trueChild s2].
  apply Hs. cbn [fst nodes]. right. left. reflexivity.
Qed.

(** With a built-in keyword map the pre-scan never marks an if block. *)
Lemma builtin_if_turn :
  forall (k : keywords) (above : list block) (b : block) (next : string),
    builtin k ->
    test (reIfPrefix k) (btext b) = true ->
    flagged k false above b = false
    /\ test (reTryBlock k) (btext b) && test (reCatchPrefix k) next = false.
Proof.
  intros k above b next Hk Hif. split.
  - rewrite flagged_unpaired; [destruct above; reflexivity |].
    intros p. apply (builtin_if_visited k p (btext b) "" Hk Hif).
  - apply (builtin_if_visited k "" (btext b) next Hk Hif).
Qed.

(** C3, amended.  In every body the parser parses, at any depth, a block
    that starts with the if keyword and is followed by an else block
    becomes one BranchNode of the tree: its text is the condition (prefix,
    colon and bracketed widths removed), its [trueChild] the chain the
    parser builds for the lines under the if line, its [falseChild] the
    chain it builds for the lines under the else line, both taken four
    columns deeper, and it is followed by the chain of the blocks after
    the else block, which gets no node of its own.  Without an else block
    after it, the if block becomes a BranchNode whose [falseChild] is an
    insert marker leading to a Placeholder.  This holds when the pre-scan
    has not marked the if block as the second half of a pair with the
    block before it, and when the two blocks are not also a try/catch
    pair, which the loop tests first; with the built-in keyword maps both
    conditions hold by themselves.  The four-line example gives one
    BranchNode with text [x > 0]. *)
Theorem if_else_merge :
  (forall (k : keywords) (source : string) (ls : list line) (i : nat)
          (above : list block) (b nb : block) (rest : list block),
      parsed k source ls i ->
      groupBlocks ls i = above ++ b :: nb :: rest ->
      test (reIfPrefix k) (btext b) = true ->
      test (reElseBlock k) (btext nb) = true ->
      flagged k false above b = false ->
      test (reTryBlock k) (btext b) && test (reCatchPrefix k) (btext nb)
      = false ->
      exists s,
        let (tail, s1) :=
          build k (parseBody k) i (skipAfter k nb rest) rest s in
        let '(cond, cw) :=
          extractColumnWidths
            (stripColon (stripMatch (reIfPrefix k) (btext b))) in
        let '(trueChild, s2) := parseBody k (children b) (i + 4) s1 in
        let '(falseChild, s3) := parseBody k (children nb) (i + 4) s2 in
        In (BranchNode (Some (uidText (S s3))) cond cw trueChild falseChild
                       tail)
           (nodes (parsePseudocode source k)))
  /\ (forall (k : keywords) (source : string) (ls : list line) (i : nat)
             (above : list block) (b : block) (rest : list block),
         parsed k source ls i ->
         groupBlocks ls i = above ++ b :: rest ->
         test (reIfPrefix k) (btext b) = true ->
         (forall nb, hd_error rest = Some nb ->
                     test (reElseBlock k) (btext nb) = false) ->
         flagged k false above b = false ->
         (forall nb, hd_error rest = Some nb ->
                     test (reTryBlock k) (btext b)
                     && test (reCatchPrefix k) (btext nb) = false) ->
         exists s,
           let (tail, s1) :=
             build k (parseBody k) i (skipAfter k b rest) rest s in
           let '(cond, cw) :=
             extractColumnWidths
               (stripColon (stripMatch (reIfPrefix k) (btext b))) in
           let '(trueChild, s2) := parseBody k (children b) (i + 4) s1 in
           In (BranchNode (Some (uidText (S s2))) cond cw trueChild
                 (InsertNode (Some (uidText (S (S s2))))
                             (Placeholder None Null))
                 tail)
              (nodes (parsePseudocode source k)))
  /\ (forall (k : keywords) (above : list block) (b : block) (next : string),
         builtin k ->
         test (reIfPrefix k) (btext b) = true ->
         flagged k false above b = false
         /\ test (reTryBlock k) (btext b) && test (reCatchPrefix k) next
            = false)
  /\ erase_ids (parsePseudocode fourLines KEYWORDS_EN)
     = InsertNode None
         (BranchNode None "x > 0" None
            (InsertNode None
               (OutputNode None "pos" (InsertNode None Null)))
            (InsertNode None
               (OutputNode None "neg" (InsertNode None Null)))
            (InsertNode None Null)).
Proof.
  split; [| split; [| split]].
  - intros k source ls i above b nb rest Hp Hg Hif Helse Hflag Htry.
    apply (parsed_branch_else k source ls i above b nb rest); assumption.
  - intros k source ls i above b rest Hp Hg Hif Helse Hflag Htry.
    apply (parsed_branch_alone k source ls i above b rest); assumption.
  - apply builtin_if_turn.
  - vm_compute. reflexivity.
Qed.

(** Witness of [if_else_merge]: in the body of a loop, an if/else pair
    and an if line on its own; and the provisos for an if line under the
    English keywords. *)
Lemma if_else_merge_witness :
  (exists s,
     let (tail, s1) :=
       build KEYWORDS_EN (parseBody KEYWORDS_EN) 4
             (skipAfter KEYWORDS_EN
                {| btext := "else:"; bindent := 4;
                   children := [{| text := "b"; Parser.indent := 8 |}] |} [])
             [] s in
     let '(cond, cw) :=
       extractColumnWidths
         (stripColon (stripMatch (reIfPrefix KEYWORDS_EN) "if x > 0:")) in
     let '(trueChild, s2) :=
       parseBody KEYWORDS_EN [{| text := "a"; Parser.indent := 8 |}]
                 (4 + 4) s1 in
     let '(falseChild, s3) :=
       parseBody KEYWORDS_EN [{| text := "b"; Parser.indent := 8 |}]
                 (4 + 4) s2 in
     In (BranchNode (Some (uidText (S s3))) cond cw trueChild falseChild tail)
        (nodes (parsePseudocode loopedBranch KEYWORDS_EN)))
  /\ (exists s,
         let (tail, s1) :=
           build KEYWORDS_EN (parseBody KEYWORDS_EN) 4
                 (skipAfter KEYWORDS_EN
                    {| btext := "if x [0.25, 0.25, 0.5]:"; bindent := 4;
                       children :=
                         [{| text := "a"; Parser.indent := 8 |}] |} [])
                 [] s in
         let '(cond, cw) :=
           extractColumnWidths
             (stripColon (stripMatch (reIfPrefix KEYWORDS_EN)
                                     "if x [0.25, 0.25, 0.5]:")) in
         let '(trueChild, s2) :=
           parseBody KEYWORDS_EN [{| text := "a"; Parser.indent := 8 |}]
                     (4 + 4) s1 in
         In (BranchNode (Some (uidText (S s2))) cond cw trueChild
               (InsertNode (Some (uidText (S (S s2))))
                           (Placeholder None Null))
               tail)
            (nodes (parsePseudocode widthsInLoop KEYWORDS_EN)))
  /\ (flagged KEYWORDS_EN false
              [{| btext := "x = 1"; bindent := 0; children := [] |}]
              {| btext := "if x > 0:"; bindent := 0; children := [] |}
      = false
      /\ test (reTryBlock KEYWORDS_EN) "if x > 0:"
         && test (reCatchPrefix KEYWORDS_EN) "else:" = false).
Proof.
  split; [| split].
  1: { refine (proj1 if_else_merge KEYWORDS_EN loopedBranch
              [ {| text := "if x > 0:"; Parser.indent := 4 |};
                {| text := "a"; Parser.indent := 8 |};
                {| text := "else:"; Parser.indent := 4 |};
                {| text := "b"; Parser.indent := 8 |} ] 4 []
              {| btext := "if x > 0:"; bindent := 4;
                 children := [{| text := "a"; Parser.indent := 8 |}] |}
              {| btext := "else:"; bindent := 4;
                 children := [{| text := "b"; Parser.indent := 8 |}] |}
              [] _ _ _ _ _ _).
    - unfold parsed.
      replace (tokenize loopedBranch)
        with [ {| text := "repeat while c:"; Parser.indent := 0 |};
               {| text := "if x > 0:"; Parser.indent := 4 |};
               {| text := "a"; Parser.indent := 8 |};
               {| text := "else:"; Parser.indent := 4 |};
               {| text := "b"; Parser.indent := 8 |} ]
        by (vm_compute; reflexivity).
      apply (parses_nested KEYWORDS_EN _ _ []
               {| btext := "repeat while c:"; bindent := 0;
                  children :=
                    [ {| text := "if x > 0:"; Parser.indent := 4 |};
                      {| text := "a"; Parser.indent := 8 |};
                      {| text := "else:"; Parser.indent := 4 |};
                      {| text := "b"; Parser.indent := 8 |} ] |}
               []
               [ {| text := "if x > 0:"; Parser.indent := 4 |};
                 {| text := "a"; Parser.indent := 8 |};
                 {| text := "else:"; Parser.indent := 4 |};
                 {| text := "b"; Parser.indent := 8 |} ] 4).
      + reflexivity.
      + reflexivity.
      + vm_compute. left. reflexivity.
      + apply parses_self.
    - reflexivity.
    - reflexivity.
    - reflexivity.
    - reflexivity.
    - reflexivity. }
  - refine (proj1 (proj2 if_else_merge) KEYWORDS_EN widthsInLoop
              [ {| text := "if x [0.25, 0.25, 0.5]:"; Parser.indent := 4 |};
                {| text := "a"; Parser.indent := 8 |} ] 4 []
              {| btext := "if x [0.25, 0.25, 0.5]:"; bindent := 4;
                 children := [{| text := "a"; Parser.indent := 8 |}] |}
              [] _ _ _ _ _ _).
    + unfold parsed.
      replace (tokenize widthsInLoop)
        with [ {| text := "repeat while c:"; Parser.indent := 0 |};
               {| text := "if x [0.25, 0.25, 0.5]:"; Parser.indent := 4 |};
               {| text := "a"; Parser.indent := 8 |} ]
        by (vm_compute; reflexivity).
      apply (parses_nested KEYWORDS_EN _ _ []
               {| btext := "repeat while c:"; bindent := 0;
                  children :=
                    [ {| text := "if x [0.25, 0.25, 0.5]:";
                         Parser.indent := 4 |};
                      {| text := "a"; Parser.indent := 8 |} ] |}
               []
               [ {| text := "if x [0.25, 0.25, 0.5]:"; Parser.indent := 4 |};
                 {| text := "a"; Parser.indent := 8 |} ] 4).
      * reflexivity.
      * reflexivity.
      * vm_compute. left. reflexivity.
      * apply parses_self.
    + reflexivity.
    + reflexivity.
    + intros nb E. discriminate E.
    + reflexivity.
    + intros nb E. discriminate E.
  - refine (proj1 (proj2 (proj2 if_else_merge)) KEYWORDS_EN
              [{| btext := "x = 1"; bindent := 0; children := [] |}]
              {| btext := "if x > 0:"; bindent := 0; children := [] |}
              "else:" _ _).
    + left. reflexivity.
    + reflexivity.
Defined.

(** C3 as stated fails for a keyword map that uses a keyword twice.  When
    the catch keyword is the if keyword, an if line after a try block is
    taken for its catch line, and the else block after it for the second
    half of a pair: the tree is one TryCatchNode, the if body is its catch
    branch and the else body is lost.  When the try keyword is an if line
    and the catch keyword the else keyword, the pair is parsed as a
    try/catch pair.  Neither tree holds a BranchNode. *)
Lemma if_else_counterexample :
  (test (reIfPrefix (withKeywords "if" "try" "if")) "if x:" = true
   /\ test (reElseBlock (withKeywords "if" "try" "if")) "else:" = true
   /\ erase_ids
        (parsePseudocode
           (unlines ["try:"; "    a"; "if x:"; "    b"; "else:"; "    c"])
           (withKeywords "if" "try" "if"))
      = InsertNode None
          (TryCatchNode None "x"
             (InsertNode None (TaskNode None "a" (InsertNode None Null)))
             (InsertNode None (TaskNode None "b" (InsertNode None Null)))
             (InsertNode None Null)))
  /\ (test (reIfPrefix (withKeywords "if" "if x" "else")) "if x:" = true
      /\ test (reElseBlock (withKeywords "if" "if x" "else")) "else :" = true
      /\ erase_ids
           (parsePseudocode
              (unlines ["if x:"; "    a"; "else :"; "    b"])
              (withKeywords "if" "if x" "else"))
         = InsertNode None
             (TryCatchNode None ""
                (InsertNode None (TaskNode None "a" (InsertNode None Null)))
                (InsertNode None (TaskNode None "b" (InsertNode None Null)))
                (InsertNode None Null))).
Proof. repeat split; vm_compute; reflexivity. Qed.

(** ** Foot-loop merging *)

Lemma flagged_last :
  forall (k : keywords) (above : list block) (b nb : block) (skip : bool),
    flagged k skip (above ++ [b]) nb = pairs k (btext b) (btext nb).
Proof.
  intros k. induction above as [|a r IH]; intros b nb skip.
  - reflexivity.
  - change ((a :: r) ++ [b]) with (a :: (r ++ [b])). cbn [flagged].
    apply IH.
Qed.

(** A repeat block followed by a while line without a colon, in its
    turn. *)
Lemma parsed_foot_loop :
  forall (k : keywords) (source : string) (ls : list line) (i : nat)
         (above : list block) (b nb : block) (rest : list block),
    parsed k source ls i ->
    groupBlocks ls i = above ++ b :: nb :: rest ->
    flagged k false above b = false ->
    test (reRepeatBlock k) (btext b) = true ->
    test (reWhilePrefix k) (btext nb) = true ->
    endsWithChar (btext nb) ":" = false ->
    test (reIfPrefix k) (btext b) = false ->
    test (reTryBlock k) (btext b) && test (reCatchPrefix k) (btext nb)
    = false ->
    exists s,
      let (tail, s1) :=
        build k (parseBody k) i (skipAfter k nb rest) rest s in
      let '(childTree, s2) := parseBody k (children b) (i + 4) s1 in
      In (FootLoopNode (Some (uidText (S s2)))
            (trim (stripMatch (reWhilePrefix k) (btext nb))) childTree tail)
         (nodes (parsePseudocode source k)).
Proof.
  intros k source ls i above b nb rest Hp Hg Hflag Hrep Hwhile Hcolon Hif
         Htry.
  destruct (parsed_turn k source ls i above b (nb :: rest) Hp Hg Hflag)
    as (s & Hs).
  exists s.
  assert (Hpair : skipAfter k b (nb :: rest) = true).
  { unfold skipAfter, pairs. rewrite Hrep, Hwhile, Hcolon. cbn [andb negb].
    rewrite !orb_true_r. reflexivity. }
  rewrite Hpair, build_marked in Hs. cbn [hd_error] in Hs.
  destruct (build k (parseBody k) i (skipAfter k nb rest) rest s)
    as [tail s1].
  rewrite (statement_foot_loop k (parseBody k) i b nb tail s1
             Hrep Hwhile Hcolon Hif Htry) in Hs.
  destruct (parseBody k (children b) (i + 4) s1) as [childTree s2].
  apply Hs. cbn [fst nodes]. right. left. reflexivity.
Qed.

(** A block followed by a while line that ends in a colon, in its turn:
    the while line is not marked and the block is parsed as if nothing
    followed it. *)
Lemma parsed_no_foot_loop :
  forall (k : keywords) (source : string) (ls : list line) (i : nat)
         (above : list block) (b nb : block) (rest : list block),
    parsed k source ls i ->
    groupBlocks ls i = above ++ b :: nb :: rest ->
    flagged k false above b = false ->
    endsWithChar (btext nb) ":" = true ->
    test (reTryBlock k) (btext b) && test (reCatchPrefix k) (btext nb)
    = false ->
    test (reIfPrefix k) (btext b) && test (reElseBlock k) (btext nb)
    = false ->
    flagged k false (above ++ [b]) nb = false
    /\ exists s,
         forall x,
           In x (nodes (fst (let (tail, s1) :=
                               build k (parseBody k) i false (nb :: rest) s in
                             statement k (parseBody k) i b None tail s1))) ->
           In x (nodes (parsePseudocode source k)).
Proof.
  intros k source ls i above b nb rest Hp Hg Hflag Hcolon Htry Hif.
  assert (Hpair : pairs k (btext b) (btext nb) = false).
  { unfold pairs. rewrite Htry, Hif, Hcolon. cbn [negb].
    rewrite !andb_false_r. reflexivity. }
  split; [rewrite flagged_last; exact Hpair |].
  destruct (parsed_turn k source ls i above b (nb :: rest) Hp Hg Hflag)
    as (s & Hs).
  exists s. intros x Hx. apply Hs.
  unfold skipAfter. rewrite Hpair. cbn [hd_error].
  destruct (build k (parseBody k) i false (nb :: rest) s) as [tail s1].
  rewrite statement_ignores_head_loop by assumption.
  exact Hx.
Qed.

Lemma builtin_repeat_turn :
  forall (k : keywords) (above : list block) (b : block) (next : string),
    builtin k ->
    test (reRepeatBlock k) (btext b) = true ->
    flagged k false above b = false
    /\ test (reIfPrefix k) (btext b) = false
    /\ test (reTryBlock k) (btext b) && test (reCatchPrefix k) next = false.
Proof.
  intros k above b next Hk Hrep. split; [| split].
  - rewrite flagged_unpaired; [destruct above; reflexivity |].
    intros p. apply (builtin_repeat_visited k p (btext b) "" Hk Hrep).
  - apply (builtin_repeat_visited k "" (btext b) next Hk Hrep).
  - apply (builtin_repeat_visited k "" (btext b) next Hk Hrep).
Qed.

(** C4, amended.  In every body the parser parses, at any depth, a repeat
    block followed by a block that starts with the while keyword and does
    not end in a colon becomes one FootLoopNode of the tree: its child is
    the chain the parser builds for the lines under the repeat line, four
    columns deeper, its text the while line without the prefix, and it is
    followed by the chain of the blocks after the while line.  When the
    while line ends in a colon there is no merge: the pre-scan leaves the
    while block unmarked, so that it has a turn of its own, and the repeat
    block is parsed as if nothing followed it.  This holds when the
    pre-scan has not marked the repeat block as the second half of a pair,
    and when the block is not taken by a test the loop makes before (an if
    line, a try/catch pair); with the built-in keyword maps these
    conditions hold by themselves. *)
Theorem foot_loop_merge :
  (forall (k : keywords) (source : string) (ls : list line) (i : nat)
          (above : list block) (b nb : block) (rest : list block),
      parsed k source ls i ->
      groupBlocks ls i = above ++ b :: nb :: rest ->
      test (reRepeatBlock k) (btext b) = true ->
      test (reWhilePrefix k) (btext nb) = true ->
      endsWithChar (btext nb) ":" = false ->
      flagged k false above b = false ->
      test (reIfPrefix k) (btext b) = false ->
      test (reTryBlock k) (btext b) && test (reCatchPrefix k) (btext nb)
      = false ->
      exists s,
        let (tail, s1) :=
          build k (parseBody k) i (skipAfter k nb rest) rest s in
        let '(childTree, s2) := parseBody k (children b) (i + 4) s1 in
        In (FootLoopNode (Some (uidText (S s2)))
              (trim (stripMatch (reWhilePrefix k) (btext nb)))
              childTree tail)
           (nodes (parsePseudocode source k)))
  /\ (forall (k : keywords) (source : string) (ls : list line) (i : nat)
             (above : list block) (b nb : block) (rest : list block),
         parsed k source ls i ->
         groupBlocks ls i = above ++ b :: nb :: rest ->
         test (reWhilePrefix k) (btext nb) = true ->
         endsWithChar (btext nb) ":" = true ->
         flagged k false above b = false ->
         test (reTryBlock k) (btext b) && test (reCatchPrefix k) (btext nb)
         = false ->
         test (reIfPrefix k) (btext b) && test (reElseBlock k) (btext nb)
         = false ->
         flagged k false (above ++ [b]) nb = false
         /\ exists s,
              forall x,
                In x (nodes (fst (let (tail, s1) :=
                                    build k (parseBody k) i false
                                          (nb :: rest) s in
                                  statement k (parseBody k) i b None
                                            tail s1))) ->
                In x (nodes (parsePseudocode source k)))
  /\ (forall (k : keywords) (above : list block) (b : block) (next : string),
         builtin k ->
         test (reRepeatBlock k) (btext b) = true ->
         flagged k false above b = false
         /\ test (reIfPrefix k) (btext b) = false
         /\ test (reTryBlock k) (btext b) && test (reCatchPrefix k) next
            = false).
Proof.
  split; [| split].
  - intros k source ls i above b nb rest Hp Hg Hrep Hwhile Hcolon Hflag Hif
           Htry.
    apply (parsed_foot_loop k source ls i above b nb rest); assumption.
  - intros k source ls i above b nb rest Hp Hg Hwhile Hcolon Hflag Htry Hif.
    apply (parsed_no_foot_loop k source ls i above b nb rest); assumption.
  - apply builtin_repeat_turn.
Qed.

(** Witness of [foot_loop_merge]: in the body of a loop, a foot-tested
    loop, and the same two lines with a colon after the condition; and
    the provisos for a repeat line under the English keywords. *)
Lemma foot_loop_merge_witness :
  (exists s,
     let (tail, s1) :=
       build KEYWORDS_EN (parseBody KEYWORDS_EN) 4
             (skipAfter KEYWORDS_EN
                {| btext := "while x > 0"; bindent := 4; children := [] |} [])
             [] s in
     let '(childTree, s2) :=
       parseBody KEYWORDS_EN [{| text := "a"; Parser.indent := 8 |}]
                 (4 + 4) s1 in
     In (FootLoopNode (Some (uidText (S s2)))
           (trim (stripMatch (reWhilePrefix KEYWORDS_EN) "while x > 0"))
           childTree tail)
        (nodes (parsePseudocode loopedFootLoop KEYWORDS_EN)))
  /\ (flagged KEYWORDS_EN false
              ([] ++ [{| btext := "repeat:"; bindent := 4;
                         children :=
                           [{| text := "a"; Parser.indent := 8 |}] |}])
              {| btext := "while x > 0:"; bindent := 4; children := [] |}
      = false
      /\ exists s,
           forall x,
             In x (nodes
                     (fst (let (tail, s1) :=
                             build KEYWORDS_EN (parseBody KEYWORDS_EN) 4
                                   false
                                   ({| btext := "while x > 0:"; bindent := 4;
                                       children := [] |} :: []) s in
                           statement KEYWORDS_EN (parseBody KEYWORDS_EN) 4
                                     {| btext := "repeat:"; bindent := 4;
                                        children :=
                                          [{| text := "a";
                                              Parser.indent := 8 |}] |}
                                     None tail s1))) ->
             In x (nodes (parsePseudocode loopedColon KEYWORDS_EN)))
  /\ (flagged KEYWORDS_EN false
              [{| btext := "x = 1"; bindent := 0; children := [] |}]
              {| btext := "repeat:"; bindent := 0; children := [] |}
      = false
      /\ test (reIfPrefix KEYWORDS_EN) "repeat:" = false
      /\ test (reTryBlock KEYWORDS_EN) "repeat:"
         && test (reCatchPrefix KEYWORDS_EN) "while x > 0" = false).
Proof.
  split; [| split].
  1: { refine (proj1 foot_loop_merge KEYWORDS_EN loopedFootLoop
              [ {| text := "repeat:"; Parser.indent := 4 |};
                {| text := "a"; Parser.indent := 8 |};
                {| text := "while x > 0"; Parser.indent := 4 |} ] 4 []
              {| btext := "repeat:"; bindent := 4;
                 children := [{| text := "a"; Parser.indent := 8 |}] |}
              {| btext := "while x > 0"; bindent := 4; children := [] |}
              [] _ _ _ _ _ _ _ _).
    - unfold parsed.
      replace (tokenize loopedFootLoop)
        with [ {| text := "repeat while c:"; Parser.indent := 0 |};
               {| text := "repeat:"; Parser.indent := 4 |};
               {| text := "a"; Parser.indent := 8 |};
               {| text := "while x > 0"; Parser.indent := 4 |} ]
        by (vm_compute; reflexivity).
      apply (parses_nested KEYWORDS_EN _ _ []
               {| btext := "repeat while c:"; bindent := 0;
                  children :=
                    [ {| text := "repeat:"; Parser.indent := 4 |};
                      {| text := "a"; Parser.indent := 8 |};
                      {| text := "while x > 0"; Parser.indent := 4 |} ] |}
               []
               [ {| text := "repeat:"; Parser.indent := 4 |};
                 {| text := "a"; Parser.indent := 8 |};
                 {| text := "while x > 0"; Parser.indent := 4 |} ] 4).
      + reflexivity.
      + reflexivity.
      + vm_compute. left. reflexivity.
      + apply parses_self.
    - reflexivity.
    - reflexivity.
    - reflexivity.
    - reflexivity.
    - reflexivity.
    - reflexivity.
    - reflexivity. }
  - refine (proj1 (proj2 foot_loop_merge) KEYWORDS_EN loopedColon
              [ {| text := "repeat:"; Parser.indent := 4 |};
                {| text := "a"; Parser.indent := 8 |};
                {| text := "while x > 0:"; Parser.indent := 4 |} ] 4 []
              {| btext := "repeat:"; bindent := 4;
                 children := [{| text := "a"; Parser.indent := 8 |}] |}
              {| btext := "while x > 0:"; bindent := 4; children := [] |}
              [] _ _ _ _ _ _ _).
    + unfold parsed.
      replace (tokenize loopedColon)
        with [ {| text := "repeat while c:"; Parser.indent := 0 |};
               {| text := "repeat:"; Parser.indent := 4 |};
               {| text := "a"; Parser.indent := 8 |};
               {| text := "while x > 0:"; Parser.indent := 4 |} ]
        by (vm_compute; reflexivity).
      apply (parses_nested KEYWORDS_EN _ _ []
               {| btext := "repeat while c:"; bindent := 0;
                  children :=
                    [ {| text := "repeat:"; Parser.indent := 4 |};
                      {| text := "a"; Parser.indent := 8 |};
                      {| text := "while x > 0:"; Parser.indent := 4 |} ] |}
               []
               [ {| text := "repeat:"; Parser.indent := 4 |};
                 {| text := "a"; Parser.indent := 8 |};
                 {| text := "while x > 0:"; Parser.indent := 4 |} ] 4).
      * reflexivity.
      * reflexivity.
      * vm_compute. left. reflexivity.
      * apply parses_self.
    + reflexivity.
    + reflexivity.
    + reflexivity.
    + reflexivity.
    + reflexivity.
    + reflexivity.
  - refine (proj2 (proj2 foot_loop_merge) KEYWORDS_EN
              [{| btext := "x = 1"; bindent := 0; children := [] |}]
              {| btext := "repeat:"; bindent := 0; children := [] |}
              "while x > 0" _ _).
    + left. reflexivity.
    + reflexivity.
Defined.

(** C4 as stated fails for a keyword map that uses a keyword twice.  When
    the if keyword is the repeat keyword, a repeat line with a blank
    before the colon is an if line, which the loop tests first: the tree
    holds a BranchNode and the while line becomes a statement.  When the
    try and catch keywords are the repeat and while keywords, the pair is
    parsed as a try/catch pair.  When the catch keyword is the repeat
    keyword, a repeat line after a try block is taken for its catch line.
    None of the trees holds a FootLoopNode. *)
Lemma foot_loop_counterexample :
  (test (reRepeatBlock (withKeywords "repeat" "try" "catch")) "repeat :"
   = true
   /\ test (reWhilePrefix (withKeywords "repeat" "try" "catch")) "while c"
      = true
   /\ existsb is_footLoop
        (nodes (parsePseudocode (unlines ["repeat :"; "    a"; "while c"])
                                (withKeywords "repeat" "try" "catch")))
      = false)
  /\ (test (reRepeatBlock (withKeywords "if" "repeat" "while")) "repeat:"
      = true
      /\ test (reWhilePrefix (withKeywords "if" "repeat" "while")) "while c"
         = true
      /\ erase_ids
           (parsePseudocode (unlines ["repeat:"; "    a"; "while c"])
                            (withKeywords "if" "repeat" "while"))
         = InsertNode None
             (TryCatchNode None "c"
                (InsertNode None (TaskNode None "a" (InsertNode None Null)))
                (InsertNode None (Placeholder None Null))
                (InsertNode None Null)))
  /\ (test (reRepeatBlock (withKeywords "if" "try" "repeat")) "repeat :"
      = true
      /\ test (reWhilePrefix (withKeywords "if" "try" "repeat")) "while c"
         = true
      /\ erase_ids
           (parsePseudocode
              (unlines ["try:"; "    a"; "repeat :"; "    b"; "while c"])
              (withKeywords "if" "try" "repeat"))
         = InsertNode None
             (TryCatchNode None ""
                (InsertNode None (TaskNode None "a" (InsertNode None Null)))
                (InsertNode None (TaskNode None "b" (InsertNode None Null)))
                (InsertNode None Null))).
Proof. repeat split; vm_compute; reflexivity. Qed.

(** ** Column widths of parsed trees, by header *)

(** A switch line, in its turn, becomes a CaseNode with the variable and
    the widths taken from the header. *)
Lemma statement_switch :
  forall (k : keywords) (rec : list line -> nat -> M node)
         (baseIndent : nat) (b : block) (nextBlock : option block)
         (tail : node) (s : nat) (rawVar : string),
    opensSwitch k (btext b) = Some rawVar ->
    exists id d dn cs,
      In (CaseNode id (fst (extractColumnWidths rawVar))
                   (snd (extractColumnWidths rawVar)) d dn cs tail)
         (nodes (fst (statement k rec baseIndent b nextBlock tail s))).
Proof.
  intros k rec baseIndent b nextBlock tail s rawVar H.
  unfold opensSwitch in H.
  destruct (test (reTryBlock k) (btext b)) eqn:E1; [discriminate H |].
  destruct (test (reIfPrefix k) (btext b)) eqn:E2; [discriminate H |].
  destruct (test (reRepeatBlock k) (btext b)) eqn:E3; [discriminate H |].
  unfold matched in H.
  destruct (capture1 (reCountLoop k) (btext b)) eqn:E4; [discriminate H |].
  destruct (capture1 (reHeadLoop k) (btext b)) eqn:E5; [discriminate H |].
  destruct (capture2 (reFuncDef k) (btext b)) eqn:E6; [discriminate H |].
  cbn [orb] in H.
  unfold statement. rewrite E1, E2, E3, E4, E5, E6, H. cbn [andb].
  destruct (extractColumnWidths rawVar) as [varName cw]. cbn [fst snd].
  unfold Counter.bind.
  destruct (caseLoop k rec _ _ _ s) as [[[cases fd] don] s1].
  destruct fd as [d|];
    cbn [fst nodes uid makeInsert tick Counter.bind Counter.ret].
  all: do 4 eexists; right; left; reflexivity.
Qed.

(** An if block in its turn becomes a BranchNode with the condition and
    the widths taken from the header, with or without an else block. *)
Lemma parsed_branch_header :
  forall (k : keywords) (source : string) (ls : list line) (i : nat)
         (above : list block) (b : block) (rest : list block),
    parsed k source ls i ->
    groupBlocks ls i = above ++ b :: rest ->
    flagged k false above b = false ->
    test (reIfPrefix k) (btext b) = true ->
    (forall nb, hd_error rest = Some nb ->
                test (reTryBlock k) (btext b)
                && test (reCatchPrefix k) (btext nb) = false) ->
    let header :=
      extractColumnWidths
        (stripColon (stripMatch (reIfPrefix k) (btext b))) in
    exists id trueChild falseChild tail,
      In (BranchNode id (fst header) (snd header) trueChild falseChild tail)
         (nodes (parsePseudocode source k)).
Proof.
  intros k source ls i above b rest Hp Hg Hflag Hif Htry header.
  subst header.
  destruct rest as [|nb rest'].
  - destruct (parsed_branch_alone k source ls i above b [] Hp Hg Hflag Hif)
      as (s & Hs); try (intros nb' E; discriminate E).
    destruct (build k (parseBody k) i _ [] s) as [tail s1].
    destruct (extractColumnWidths _) as [cond cw].
    destruct (parseBody k (children b) (i + 4) s1) as [trueChild s2].
    cbn [fst snd]. eauto.
  - destruct (test (reElseBlock k) (btext nb)) eqn:Ee.
    + destruct (parsed_branch_else k source ls i above b nb rest'
                  Hp Hg Hflag Hif Ee (Htry nb eq_refl)) as (s & Hs).
      destruct (build k (parseBody k) i _ rest' s) as [tail s1].
      destruct (extractColumnWidths _) as [cond cw].
      destruct (parseBody k (children b) (i + 4) s1) as [trueChild s2].
      destruct (parseBody k (children nb) (i + 4) s2) as [falseChild s3].
      cbn [fst snd]. eauto.
    + destruct (parsed_branch_alone k source ls i above b (nb :: rest')
                  Hp Hg Hflag Hif) as (s & Hs).
      * intros nb' E. injection E as <-. exact Ee.
      * exact Htry.
      * destruct (build k (parseBody k) i _ (nb :: rest') s) as [tail s1].
        destruct (extractColumnWidths _) as [cond cw].
        destruct (parseBody k (children b) (i + 4) s1) as [trueChild s2].
        cbn [fst snd]. eauto.
Qed.

Lemma parsed_switch_header :
  forall (k : keywords) (source : string) (ls : list line) (i : nat)
         (above : list block) (b : block) (rest : list block)
         (rawVar : string),
    parsed k source ls i ->
    groupBlocks ls i = above ++ b :: rest ->
    flagged k false above b = false ->
    opensSwitch k (btext b) = Some rawVar ->
    exists id d dn cs tail,
      In (CaseNode id (fst (extractColumnWidths rawVar))
                   (snd (extractColumnWidths rawVar)) d dn cs tail)
         (nodes (parsePseudocode source k)).
Proof.
  intros k source ls i above b rest rawVar Hp Hg Hflag Hsw.
  destruct (parsed_turn k source ls i above b rest Hp Hg Hflag) as (s & Hs).
  destruct (build k (parseBody k) i (skipAfter k b rest) rest s)
    as [tail s1].
  destruct (statement_switch k (parseBody k) i b (hd_error rest) tail s1
              rawVar Hsw) as (id & d & dn & cs & H).
  exists id, d, dn, cs, tail. apply Hs. exact H.
Qed.

Lemma columnWidths_even :
  forall (w : Q) (n : nat) (fs : list Q),
    length fs <> n ->
    Renderer.columnWidths w n (Some fs)
    = List.repeat (w / inject_Z (Z.of_nat n))%Q n.
Proof.
  intros w n fs H. unfold Renderer.columnWidths.
  destruct (Nat.eqb_spec (length fs) n); [contradiction | reflexivity].
Qed.

Lemma columnWidths_fractions :
  forall (w : Q) (n : nat) (fs : list Q),
    length fs = n ->
    Renderer.columnWidths w n (Some fs) = map (fun f => (w * f)%Q) fs.
Proof.
  intros w n fs H. unfold Renderer.columnWidths.
  rewrite (proj2 (Nat.eqb_eq _ _) H). reflexivity.
Qed.

(** C9, amended.  In every parsed tree a [columnWidths] field, when
    present, holds at least one number.  The list taken from a header has
    one entry for each part between the commas of the trailing bracketed
    list in which [parseFloat] finds a number, whatever the number of
    branches; and it is this list, with the text before the brackets, that
    the BranchNode of an if block and the CaseNode of a switch block
    carry, in every body the parser parses, when the block has its turn
    and is not taken by a test the loop makes before.  The layout engine
    does not rely on the length: its column widths always number the
    columns, the fractions being used when there are exactly as many as
    columns and an even split otherwise. *)
Theorem parsed_widths_by_header :
  (forall (k : keywords) (source : string),
      widths_ok (parsePseudocode source k) = true)
  /\ (forall str : string,
         option_map (@length Q) (snd (extractColumnWidths str))
         = widthCount str)
  /\ (forall (k : keywords) (source : string) (ls : list line) (i : nat)
             (above : list block) (b : block) (rest : list block),
         parsed k source ls i ->
         groupBlocks ls i = above ++ b :: rest ->
         flagged k false above b = false ->
         (test (reIfPrefix k) (btext b) = true ->
          (forall nb, hd_error rest = Some nb ->
                      test (reTryBlock k) (btext b)
                      && test (reCatchPrefix k) (btext nb) = false) ->
          let header :=
            extractColumnWidths
              (stripColon (stripMatch (reIfPrefix k) (btext b))) in
          exists id trueChild falseChild tail,
            In (BranchNode id (fst header) (snd header)
                           trueChild falseChild tail)
               (nodes (parsePseudocode source k)))
         /\ (forall rawVar,
                opensSwitch k (btext b) = Some rawVar ->
                exists id d dn cs tail,
                  In (CaseNode id (fst (extractColumnWidths rawVar))
                               (snd (extractColumnWidths rawVar))
                               d dn cs tail)
                     (nodes (parsePseudocode source k))))
  /\ (forall (w : Q) (n : nat) (fr : option (list Q)),
         length (Renderer.columnWidths w n fr) = n)
  /\ (forall (w : Q) (n : nat) (fs : list Q),
         (length fs = n ->
          Renderer.columnWidths w n (Some fs)
          = map (fun f => (w * f)%Q) fs)
         /\ (length fs <> n ->
             Renderer.columnWidths w n (Some fs)
             = List.repeat (w / inject_Z (Z.of_nat n))%Q n)).
Proof.
  split; [| split; [| split; [| split]]].
  - intros k source. unfold parsePseudocode, eval.
    destruct (tokenize source) as [|l rest]; [reflexivity |].
    apply mergeBlocks_ok.
  - apply extractColumnWidths_count.
  - intros k source ls i above b rest Hp Hg Hflag. split.
    + intros Hif Htry.
      apply (parsed_branch_header k source ls i above b rest); assumption.
    + intros rawVar Hsw.
      apply (parsed_switch_header k source ls i above b rest rawVar);
        assumption.
  - apply columnWidths_length.
  - intros w n fs. split.
    + apply columnWidths_fractions.
    + apply columnWidths_even.
Qed.

(** Witness of [parsed_widths_by_header]: in the body of a loop, an if
    line with three widths for its two branches, and a switch line with
    one width for its two cases; two columns laid out with two fractions,
    and with three. *)
Lemma parsed_widths_by_header_witness :
  (exists id trueChild falseChild tail,
      In (BranchNode id "x" (Some [(1 # 4)%Q; (1 # 4)%Q; (1 # 2)%Q])
                     trueChild falseChild tail)
         (nodes (parsePseudocode widthsInLoop KEYWORDS_EN)))
  /\ (exists id d dn cs tail,
         In (CaseNode id "x" (Some [1%Q]) d dn cs tail)
            (nodes (parsePseudocode switchInLoop KEYWORDS_EN)))
  /\ Renderer.columnWidths 600 2 (Some [(1 # 4)%Q; (3 # 4)%Q])
     = map (fun f => (600 * f)%Q) [(1 # 4)%Q; (3 # 4)%Q]
  /\ Renderer.columnWidths 600 2 (Some [(1 # 4)%Q; (1 # 4)%Q; (1 # 2)%Q])
     = List.repeat (600 / inject_Z (Z.of_nat 2))%Q 2.
Proof.
  split; [| split; [| split]].
  - refine (proj1 (proj1 (proj2 (proj2 parsed_widths_by_header))
                         KEYWORDS_EN widthsInLoop
                         [ {| text := "if x [0.25, 0.25, 0.5]:";
                              Parser.indent := 4 |};
                           {| text := "a"; Parser.indent := 8 |} ] 4 []
                         {| btext := "if x [0.25, 0.25, 0.5]:"; bindent := 4;
                            children :=
                              [{| text := "a"; Parser.indent := 8 |}] |}
                         [] _ _ _) _ _).
    + unfold parsed.
      replace (tokenize widthsInLoop)
        with [ {| text := "repeat while c:"; Parser.indent := 0 |};
               {| text := "if x [0.25, 0.25, 0.5]:"; Parser.indent := 4 |};
               {| text := "a"; Parser.indent := 8 |} ]
        by (vm_compute; reflexivity).
      apply (parses_nested KEYWORDS_EN _ _ []
               {| btext := "repeat while c:"; bindent := 0;
                  children :=
                    [ {| text := "if x [0.25, 0.25, 0.5]:";
                         Parser.indent := 4 |};
                      {| text := "a"; Parser.indent := 8 |} ] |}
               []
               [ {| text := "if x [0.25, 0.25, 0.5]:"; Parser.indent := 4 |};
                 {| text := "a"; Parser.indent := 8 |} ] 4).
      * reflexivity.
      * reflexivity.
      * vm_compute. left. reflexivity.
      * apply parses_self.
    + reflexivity.
    + reflexivity.
    + reflexivity.
    + intros nb E. discriminate E.
  - refine (proj2 (proj1 (proj2 (proj2 parsed_widths_by_header))
                         KEYWORDS_EN switchInLoop
                         [ {| text := "switch x [1]:"; Parser.indent := 4 |};
                           {| text := "case 1:"; Parser.indent := 8 |};
                           {| text := "a"; Parser.indent := 12 |};
                           {| text := "case 2:"; Parser.indent := 8 |};
                           {| text := "b"; Parser.indent := 12 |} ] 4 []
                         {| btext := "switch x [1]:"; bindent := 4;
                            children :=
                              [ {| text := "case 1:"; Parser.indent := 8 |};
                                {| text := "a"; Parser.indent := 12 |};
                                {| text := "case 2:"; Parser.indent := 8 |};
                                {| text := "b"; Parser.indent := 12 |} ] |}
                         [] _ _ _) "x [1]" _).
    + unfold parsed.
      replace (tokenize switchInLoop)
        with [ {| text := "repeat while c:"; Parser.indent := 0 |};
               {| text := "switch x [1]:"; Parser.indent := 4 |};
               {| text := "case 1:"; Parser.indent := 8 |};
               {| text := "a"; Parser.indent := 12 |};
               {| text := "case 2:"; Parser.indent := 8 |};
               {| text := "b"; Parser.indent := 12 |} ]
        by (vm_compute; reflexivity).
      apply (parses_nested KEYWORDS_EN _ _ []
               {| btext := "repeat while c:"; bindent := 0;
                  children :=
                    [ {| text := "switch x [1]:"; Parser.indent := 4 |};
                      {| text := "case 1:"; Parser.indent := 8 |};
                      {| text := "a"; Parser.indent := 12 |};
                      {| text := "case 2:"; Parser.indent := 8 |};
                      {| text := "b"; Parser.indent := 12 |} ] |}
               []
               [ {| text := "switch x [1]:"; Parser.indent := 4 |};
                 {| text := "case 1:"; Parser.indent := 8 |};
                 {| text := "a"; Parser.indent := 12 |};
                 {| text := "case 2:"; Parser.indent := 8 |};
                 {| text := "b"; Parser.indent := 12 |} ] 4).
      * reflexivity.
      * reflexivity.
      * vm_compute. left. reflexivity.
      * apply parses_self.
    + reflexivity.
    + reflexivity.
    + reflexivity.
  - refine (proj1 (proj2 (proj2 (proj2 (proj2 parsed_widths_by_header)))
                         600%Q 2 [(1 # 4)%Q; (3 # 4)%Q]) _).
    reflexivity.
  - refine (proj2 (proj2 (proj2 (proj2 (proj2 parsed_widths_by_header)))
                         600%Q 2 [(1 # 4)%Q; (1 # 4)%Q; (1 # 2)%Q]) _).
    discriminate.
Defined.

(* ================================================================== *)
(** * Further properties *)
(* ================================================================== *)

(** ** The shape of a parsed tree *)

Section ParsedShape.
Variable k : keywords.

Lemma parsedChain_switch :
  forall j i t cw d dn cs g,
    parsedChain (InsertNode (Some j) (CaseNode (Some i) t cw d dn cs g))
    = cw_ok cw && forallb caseShape cs && caseShape dn && parsedChain g.
Proof. reflexivity. Qed.

Section Step.
Variable rec : list line -> nat -> M node.
Hypothesis Hrec : forall ls i s, parsedChain (fst (rec ls i s)) = true.

Lemma caseLoop_shape :
  forall (caseBlocks : list block) (ci : nat) (cases : list node)
         (found : option node) (don : bool) (s : nat),
    forallb caseShape cases = true ->
    (forall d, found = Some d -> caseShape d = true) ->
    let '(cases', found', _) :=
      fst (caseLoop k rec ci caseBlocks (cases, found, don) s) in
    forallb caseShape cases' = true
    /\ (forall d, found' = Some d -> caseShape d = true).
Proof.
  induction caseBlocks as [|cb rest IH]; intros ci cases found don s Hc Hf.
  - cbn. auto.
  - cbn [caseLoop].
    destruct (capture1 (reCaseLabel k) (btext cb)) as [label|].
    + unfold Counter.bind.
      pose proof (Hrec (children cb) ci s) as Hb.
      destruct (rec (children cb) ci s) as [body s1]. cbn [fst] in Hb.
      destruct (uid s1) as [i s2].
      apply IH; [| exact Hf].
      rewrite forallb_app, Hc. cbn [forallb caseShape andb]. rewrite Hb.
      reflexivity.
    + destruct (test (reElseBlock k) (btext cb)).
      * unfold Counter.bind.
        pose proof (Hrec (children cb) ci s) as Hb.
        destruct (rec (children cb) ci s) as [body s1]. cbn [fst] in Hb.
        destruct (uid s1) as [i s2].
        apply IH; [exact Hc |].
        intros d [= <-]. exact Hb.
      * apply IH; assumption.
Qed.

Lemma statement_shape :
  forall (baseIndent : nat) (b : block) (nextBlock : option block)
         (tail : node) (s : nat),
    parsedChain tail = true ->
    parsedChain (fst (statement k rec baseIndent b nextBlock tail s)) = true.
Proof.
  intros baseIndent b nextBlock tail s Htail.
  unfold statement.
  repeat match goal with
         | |- context [if ?c then _ else _] => destruct c
         | |- context [match ?c with Some _ => _ | None => _ end] =>
             destruct c
         end.
  all: repeat match goal with
         | |- context [extractColumnWidths ?x] =>
             let H := fresh "Hcw" in
             pose proof (extractColumnWidths_ok x) as H;
             destruct (extractColumnWidths x); cbn [snd] in H
         | p : (string * string)%type |- _ => destruct p
         end.
  all: cbv beta iota delta [Counter.bind makeInsert uid tick Counter.ret].
  all: repeat match goal with
         | |- context [rec ?ls ?i ?s0] =>
             let H := fresh "Hr" in
             pose proof (Hrec ls i s0) as H;
             destruct (rec ls i s0); cbn [fst] in H
         end.
  all: try (cbn [fst parsedChain placeholder];
            rewrite ?Htail;
            repeat match goal with
              | H : parsedChain _ = true |- _ => rewrite H; clear H
              | H : cw_ok _ = true |- _ => rewrite H; clear H
              end;
            reflexivity).
  (* the switch *)
  all: match goal with
       | |- context [caseLoop k rec ?ci ?bs (?c, ?f, ?d) ?s0] =>
           pose proof (caseLoop_shape bs ci c f d s0 eq_refl
                         ltac:(intros ? [=])) as Hloop;
           destruct (caseLoop k rec ci bs (c, f, d) s0)
             as [[[cs fd] don] sLoop]
       end.
  all: cbn [fst] in Hloop; destruct Hloop as [Hcs Hfd].
  all: destruct fd as [d|]; cbn [fst].
  all: rewrite parsedChain_switch.
  all: rewrite ?Hcs, ?Htail; rewrite ?(Hfd _ eq_refl).
  all: repeat match goal with
         | H : cw_ok _ = true |- _ => rewrite H; clear H
         end.
  all: reflexivity.
Qed.

Lemma build_shape :
  forall (baseIndent : nat) (blocks : list block) (skip : bool) (s : nat),
    parsedChain (fst (build k rec baseIndent skip blocks s)) = true.
Proof.
  intros baseIndent.
  induction blocks as [|b rest IH]; intros skip s; [reflexivity |].
  cbn [build]. unfold Counter.bind.
  match goal with
  | |- context [build k rec baseIndent ?f rest s] =>
      specialize (IH f s); destruct (build k rec baseIndent f rest s)
  end.
  cbn [fst] in IH.
  destruct skip; [exact IH |].
  apply statement_shape. exact IH.
Qed.

Lemma mergeBody_shape :
  forall (lines : list line) (baseIndent s : nat),
    parsedChain (fst (mergeBody k rec lines baseIndent s)) = true.
Proof.
  intros lines baseIndent s. unfold mergeBody.
  destruct (groupBlocks lines baseIndent); [reflexivity |].
  apply build_shape.
Qed.
End Step.

Lemma mergeBlocks_shape :
  forall (fuel : nat) (lines : list line) (baseIndent s : nat),
    parsedChain (fst (mergeBlocks fuel lines baseIndent k s)) = true.
Proof.
  induction fuel as [|f IH]; intros lines baseIndent s; cbn [mergeBlocks].
  - apply mergeBody_shape. reflexivity.
  - apply mergeBody_shape. intros ls i s0. apply IH.
Qed.

Lemma parsePseudocode_shape :
  forall (source : string),
    parsedChain (parsePseudocode source k) = true.
Proof.
  intros source. unfold parsePseudocode, eval.
  destruct (tokenize source) as [|l rest]; [reflexivity |].
  apply mergeBlocks_shape.
Qed.

(** X1.  Every tree the parser returns is a chain of the parsed shape: it
    is rooted at an InsertNode, insert markers and content nodes alternate,
    every node but a Placeholder carries an identifier, every chain ends in
    an InsertNode followed by nothing or by a bare Placeholder, and every
    case and default case of a switch is an InsertCase. *)
Theorem parsed_tree_shape :
  forall (source : string),
    parsedChain (parsePseudocode source k) = true.
Proof. exact parsePseudocode_shape. Qed.

End ParsedShape.

(** ** The identifiers of a parsed tree *)

Lemma to_uint_not_nil : forall n, Nat.to_uint n <> Decimal.Nil.
Proof.
  intros n H.
  pose proof (DecimalNat.Unsigned.of_to n) as E. rewrite H in E.
  cbn in E. subst n. discriminate H.
Qed.

Lemma ofNat_inj : forall a b, ofNat a = ofNat b -> a = b.
Proof.
  intros a b H. unfold ofNat in H.
  apply (f_equal NilZero.uint_of_string) in H.
  rewrite !NilZero.usu in H by apply to_uint_not_nil.
  injection H as H. apply DecimalNat.Unsigned.to_uint_inj. exact H.
Qed.

Lemma uidText_inj : forall a b, uidText a = uidText b -> a = b.
Proof.
  intros a b H. unfold uidText in H. cbn [String.append] in H.
  apply ofNat_inj. congruence.
Qed.

Lemma flat_map_ids :
  forall cs, flat_map idOf (flat_map nodes cs) = flat_map ids cs.
Proof.
  induction cs as [|c r IH]; [reflexivity |].
  cbn [flat_map]. rewrite flat_map_app, IH. reflexivity.
Qed.

Lemma ids_insert : forall i f, ids (InsertNode (Some i) f) = i :: ids f.
Proof. reflexivity. Qed.
Lemma ids_task : forall i t f, ids (TaskNode (Some i) t f) = i :: ids f.
Proof. reflexivity. Qed.
Lemma ids_input : forall i t f, ids (InputNode (Some i) t f) = i :: ids f.
Proof. reflexivity. Qed.
Lemma ids_output : forall i t f, ids (OutputNode (Some i) t f) = i :: ids f.
Proof. reflexivity. Qed.
Lemma ids_insertCase :
  forall i t f, ids (InsertCase (Some i) t f) = i :: ids f.
Proof. reflexivity. Qed.
Lemma ids_branch :
  forall i t cw a b f,
    ids (BranchNode (Some i) t cw a b f) = i :: ids f ++ ids a ++ ids b.
Proof.
  intros. unfold ids. cbn [nodes flat_map idOf node_id app].
  rewrite !flat_map_app. reflexivity.
Qed.
Lemma ids_try :
  forall i t a b f,
    ids (TryCatchNode (Some i) t a b f) = i :: ids f ++ ids a ++ ids b.
Proof.
  intros. unfold ids. cbn [nodes flat_map idOf node_id app].
  rewrite !flat_map_app. reflexivity.
Qed.
Lemma ids_head :
  forall i t c f, ids (HeadLoopNode (Some i) t c f) = i :: ids f ++ ids c.
Proof.
  intros. unfold ids. cbn [nodes flat_map idOf node_id app].
  rewrite !flat_map_app. reflexivity.
Qed.
Lemma ids_count :
  forall i t c f, ids (CountLoopNode (Some i) t c f) = i :: ids f ++ ids c.
Proof.
  intros. unfold ids. cbn [nodes flat_map idOf node_id app].
  rewrite !flat_map_app. reflexivity.
Qed.
Lemma ids_foot :
  forall i t c f, ids (FootLoopNode (Some i) t c f) = i :: ids f ++ ids c.
Proof.
  intros. unfold ids. cbn [nodes flat_map idOf node_id app].
  rewrite !flat_map_app. reflexivity.
Qed.
Lemma ids_function :
  forall i t ps c f,
    ids (FunctionNode (Some i) t ps c f) = i :: ids f ++ ids c.
Proof.
  intros. unfold ids. cbn [nodes flat_map idOf node_id app].
  rewrite !flat_map_app. reflexivity.
Qed.
Lemma ids_switch :
  forall i t cw d dn cs f,
    ids (CaseNode (Some i) t cw d dn cs f)
    = i :: ids f ++ flat_map ids cs ++ ids dn.
Proof.
  intros. unfold ids. cbn [nodes flat_map idOf node_id app].
  rewrite !flat_map_app, flat_map_ids. reflexivity.
Qed.
Lemma ids_placeholder : ids placeholder = [].
Proof. reflexivity. Qed.
Lemma ids_null : ids Null = [].
Proof. reflexivity. Qed.

Ltac ids_norm :=
  repeat (progress
    (rewrite ?ids_insert, ?ids_task, ?ids_input, ?ids_output,
       ?ids_insertCase, ?ids_branch, ?ids_try, ?ids_head, ?ids_count,
       ?ids_foot, ?ids_function, ?ids_switch, ?ids_placeholder, ?ids_null,
       ?flat_map_app;
     cbn [flat_map]; rewrite ?app_nil_r)).

(** Membership in a list built from parts, split into its cases; a part
    known to be drawn yields the counter value of its identifier. *)
Ltac split_in :=
  repeat match goal with
    | H : In _ (_ ++ _) |- _ => apply in_app_or in H; destruct H as [H | H]
    | H : In _ (_ :: _) |- _ => destruct H as [H | H]
    | H : In _ [] |- _ => destruct H
    end;
  repeat match goal with
    | D : drawn _ _ ?l, H : In _ ?l |- _ =>
        let j := fresh "j" in
        let Hj := fresh "Hj" in
        let E := fresh "E" in
        destruct (D _ H) as (j & Hj & E); clear H
    end;
  subst;
  repeat match goal with
    | E : uidText _ = uidText _ |- _ => apply uidText_inj in E
    end.

Ltac clash :=
  intros;
  first
    [ match goal with
      | X : forall i, In i ?l1 -> ~ In i ?l2,
        H1 : In ?i ?l1, H2 : In ?i ?l2 |- _ => exact (X i H1 H2)
      end
    | split_in; lia ].

Ltac is_drawn :=
  let i := fresh "i" in
  let H := fresh "H" in
  intros i H; split_in; eexists; (split; [| reflexivity]); lia.

Ltac no_dup :=
  repeat first
    [ assumption
    | apply NoDup_nil
    | apply NoDup_cons; [ intro; clash | ]
    | apply NoDup_app; [ | | intros ? ? ?; clash ] ].

Ltac open_fresh :=
  repeat match goal with
    | H : freshIn _ _ _ |- _ =>
        let L := fresh "L" in
        let N := fresh "N" in
        let D := fresh "D" in
        destruct H as (L & N & D)
    end.

Section FreshIds.
Variable k : keywords.

Section Step.
Variable rec : list line -> nat -> M node.
Hypothesis Hrec :
  forall ls i s, freshIn s (snd (rec ls i s)) (fst (rec ls i s)).

Lemma caseLoop_fresh :
  forall (caseBlocks : list block) (ci : nat) (lo : nat) (cases : list node)
         (found : option node) (don : bool) (s : nat),
    gathered lo s cases found ->
    let '(cases', found', _, s') :=
      caseLoop k rec ci caseBlocks (cases, found, don) s in
    gathered lo s' cases' found'.
Proof.
  induction caseBlocks as [|cb rest IH];
    intros ci lo cases found don s (L & N1 & N2 & X & D1 & D2).
  - cbn. repeat split; assumption.
  - cbn [caseLoop].
    destruct (capture1 (reCaseLabel k) (btext cb)) as [label|].
    + unfold Counter.bind.
      pose proof (Hrec (children cb) ci s) as Hb.
      destruct (rec (children cb) ci s) as [body s1]. cbn [fst snd] in Hb.
      rewrite uid_run. open_fresh.
      apply IH. unfold gathered. ids_norm.
      split; [lia |]. split; [no_dup |]. split; [assumption |].
      split; [| split; is_drawn].
      intros i H1 H2. apply in_app_or in H1. destruct H1 as [H1 | H1].
      * exact (X i H1 H2).
      * clash.
    + destruct (test (reElseBlock k) (btext cb)).
      * unfold Counter.bind.
        pose proof (Hrec (children cb) ci s) as Hb.
        destruct (rec (children cb) ci s) as [body s1]. cbn [fst snd] in Hb.
        rewrite uid_run. open_fresh.
        apply IH. unfold gathered. cbn [idsOpt]. ids_norm.
        split; [lia |]. split; [assumption |]. split; [no_dup |].
        split; [| split; is_drawn].
        intros i H1 H2. clash.
      * apply IH. repeat split; assumption.
Qed.
Lemma statement_fresh :
  forall (baseIndent : nat) (b : block) (nextBlock : option block)
         (tail : node) (lo s : nat),
    freshIn lo s tail ->
    freshIn lo (snd (statement k rec baseIndent b nextBlock tail s))
            (fst (statement k rec baseIndent b nextBlock tail s)).
Proof.
  intros baseIndent b nextBlock tail lo s Htail.
  unfold statement.
  repeat match goal with
         | |- context [if ?c then _ else _] => destruct c
         | |- context [match ?c with Some _ => _ | None => _ end] =>
             destruct c
         end.
  all: repeat match goal with
         | |- context [extractColumnWidths ?x] =>
             destruct (extractColumnWidths x)
         | p : (string * string)%type |- _ => destruct p
         end.
  all: cbv beta iota delta [Counter.bind Counter.ret].
  all: repeat match goal with
         | |- context [rec ?ls ?i ?s0] =>
             let H := fresh "Hr" in
             pose proof (Hrec ls i s0) as H;
             destruct (rec ls i s0); cbn [fst snd] in H
         end.
  all: try match goal with
       | |- context [caseLoop k rec ?ci ?bs ([], None, ?d) ?s0] =>
           assert (Hloop : gathered s0 s0 [] None)
             by (repeat split;
                 first [ lia | apply NoDup_nil | intros ? [] ]);
           apply (caseLoop_fresh bs ci s0 [] None d s0) in Hloop;
           destruct (caseLoop k rec ci bs ([], None, d) s0)
             as [[[cs fd] don] sLoop];
           destruct Hloop as (LL & NL1 & NL2 & XL & DL1 & DL2);
           destruct fd as [dn|]; cbn [idsOpt] in *
       end.
  all: repeat (rewrite ?uid_run, ?makeInsert_run; cbv beta iota).
  all: cbn [fst snd]; open_fresh; unfold freshIn; ids_norm.
  all: (split; [lia |]); (split; [no_dup | is_drawn]).
Qed.
Lemma build_fresh :
  forall (baseIndent : nat) (blocks : list block) (skip : bool) (s : nat),
    freshIn s (snd (build k rec baseIndent skip blocks s))
            (fst (build k rec baseIndent skip blocks s)).
Proof.
  intros baseIndent.
  induction blocks as [|b rest IH]; intros skip s.
  - cbn [build]. rewrite makeInsert_run. cbn [fst snd].
    unfold freshIn. ids_norm.
    split; [lia |]. split; [no_dup | is_drawn].
  - cbn [build]. unfold Counter.bind.
    match goal with
    | |- context [build k rec baseIndent ?f rest s] =>
        specialize (IH f s); destruct (build k rec baseIndent f rest s)
    end.
    cbn [fst snd] in IH.
    destruct skip; [exact IH |].
    apply statement_fresh. exact IH.
Qed.

Lemma mergeBody_fresh :
  forall (lines : list line) (baseIndent s : nat),
    freshIn s (snd (mergeBody k rec lines baseIndent s))
            (fst (mergeBody k rec lines baseIndent s)).
Proof.
  intros lines baseIndent s. unfold mergeBody.
  destruct (groupBlocks lines baseIndent); [| apply build_fresh].
  rewrite makeInsert_run. cbn [fst snd].
  unfold freshIn. ids_norm.
  split; [lia |]. split; [no_dup | is_drawn].
Qed.
End Step.

Lemma mergeBlocks_fresh :
  forall (fuel : nat) (lines : list line) (baseIndent s : nat),
    freshIn s (snd (mergeBlocks fuel lines baseIndent k s))
            (fst (mergeBlocks fuel lines baseIndent k s)).
Proof.
  induction fuel as [|f IH]; intros lines baseIndent s; cbn [mergeBlocks].
  - apply mergeBody_fresh. intros ls i s0.
    rewrite makeInsert_run. cbn [fst snd].
    unfold freshIn. ids_norm.
    split; [lia |]. split; [no_dup | is_drawn].
  - apply mergeBody_fresh. intros ls i s0. apply IH.
Qed.

(** X2.  No two nodes of a parsed tree carry the same identifier, and
    every identifier is the prefix [__pseudo_] followed by a positive
    counter value. *)
Theorem parsed_ids_distinct :
  forall (source : string),
    NoDup (ids (parsePseudocode source k))
    /\ (forall i, In i (ids (parsePseudocode source k)) ->
        exists j, 0 < j /\ i = "__pseudo_" +++ ofNat j).
Proof.
  intros source.
  assert (H : exists hi, freshIn 0 hi (parsePseudocode source k)).
  { unfold parsePseudocode, eval.
    destruct (tokenize source) as [|l rest].
    - exists 1. rewrite makeInsert_run. cbn [fst].
      unfold freshIn. ids_norm.
      split; [lia |]. split; [no_dup | is_drawn].
    - eexists. apply mergeBlocks_fresh. }
  destruct H as (hi & L & N & D). split; [exact N |].
  intros i Hi. destruct (D i Hi) as (j & Hj & ->).
  exists j. split; [lia | reflexivity].
Qed.

End FreshIds.

(** ** The serializer and the code generator never throw on a tree whose
       cases are all objects *)

Lemma cases_total_follow :
  forall n, cases_total n = true -> cases_total (follow n) = true.
Proof.
  destruct n; cbn [cases_total follow]; intros H;
    repeat (apply andb_true_iff in H; destruct H as [H ?]); auto.
Qed.

Section SerializerTotal.
Variable numberToString : Q -> string.
Variable kw : keywords.

Let ser := serialize numberToString kw.

Lemma serialize_total_follow :
  forall n,
    cases_total n = true ->
    (forall level, exists ls, ser n level = Ok ls)
    /\ (forall level, exists ls, ser (follow n) level = Ok ls).
Proof.
  unfold ser.
  induction n using node_induction; intros Hct; cbn [cases_total] in Hct;
    repeat (apply andb_true_iff in Hct; destruct Hct as [Hct ?]).
  all: repeat match goal with
         | IH : cases_total ?x = true -> _, H : cases_total ?x = true |- _ =>
             specialize (IH H); destruct IH as [? ?]
         end.
  all: split;
    [| cbn [follow];
       first [assumption | intros; eexists; reflexivity]].
  all: intros level; cbn [serialize].
  all: repeat match goal with
         | IH : forall level, exists ls, serialize _ _ ?x level = Ok ls
           |- context [serialize _ _ ?x ?l] =>
             let ls := fresh "ls" in
             let E := fresh "E" in
             destruct (IH l) as [ls E]; rewrite E; clear E;
             cbn [Result.bind]
         end.
  all: try (eexists; reflexivity).
  (* the switch *)
  match goal with
  | |- context [Result.bind (?F cs)] =>
      assert (Hcs : exists l, F cs = Ok l)
  end.
  { match goal with
    | HF : Forall _ cs, HC : forallb _ cs = true |- _ =>
        revert HF HC; clear
    end.
    intros HF HC.
    induction cs as [|c r IHr]; [eexists; reflexivity |].
    cbn [forallb] in HC.
    apply andb_true_iff in HC. destruct HC as [Hc Hr].
    apply andb_true_iff in Hc. destruct Hc as [Hnn Hc].
    inversion HF as [|? ? Pc Pr]; subst.
    destruct (Pc Hc) as [_ Hbody].
    destruct (IHr Pr Hr) as [l El]. rewrite El.
    destruct c; try discriminate Hnn; cbn [text_of Result.bind follow] in *.
    all: match goal with
         | |- context [serialize _ _ ?x ?l] =>
             destruct (Hbody l) as [lb Eb]; rewrite Eb
         end.
    all: cbn [Result.bind]; eexists; reflexivity. }
  destruct Hcs as [l El]. rewrite El. cbn [Result.bind].
  match goal with
  | |- context [if ?c then _ else _] => destruct c
  end; [| eexists; reflexivity].
  match goal with
  | H : forall level, exists ls, serialize _ _ (follow ?x) level = Ok ls
    |- context [match ?x with Null => _ | _ => _ end] =>
      destruct x; cbn [Result.bind follow] in *;
      try (eexists; reflexivity);
      match goal with
      | |- context [serialize _ _ ?g ?l] =>
          destruct (H l) as [lb Eb]; rewrite Eb
      end
  end.
  all: cbn [Result.bind]; eexists; reflexivity.
Qed.
End SerializerTotal.

Section GeneratorTotal.
Variable t : table.
Variable lang : string.
Hypothesis Hcomplete : complete t = true.

Lemma transform_total_follow :
  forall n,
    cases_total n = true ->
    (forall level, exists ls, transform t lang n level = Ok ls)
    /\ (forall level, exists ls, transform t lang (follow n) level = Ok ls).
Proof.
  unfold complete in Hcomplete.
  destruct (tInputNode t) as [eIn|] eqn:EIn; [| discriminate].
  destruct (tOutputNode t) as [eOut|] eqn:EOut; [| discriminate].
  destruct (tTaskNode t) as [eTask|] eqn:ETask; [| discriminate].
  destruct (tBranchNode t) as [eBranch|] eqn:EBranch; [| discriminate].
  destruct (tTryCatchNode t) as [eTry|] eqn:ETry; [| discriminate].
  destruct (tCountLoopNode t) as [eCount|] eqn:ECount; [| discriminate].
  destruct (tHeadLoopNode t) as [eHead|] eqn:EHead; [| discriminate].
  destruct (tFootLoopNode t) as [eFoot|] eqn:EFoot; [| discriminate].
  destruct (tFunctionNode t) as [eFun|] eqn:EFun; [| discriminate].
  destruct (tCaseNode t) as [eCase|] eqn:ECase; [| discriminate].
  destruct (tInsertCase t) as [eIC|] eqn:EIC; [| discriminate].
  clear Hcomplete.
  induction n using node_induction; intros Hct; cbn [cases_total] in Hct;
    repeat (apply andb_true_iff in Hct; destruct Hct as [Hct ?]).
  all: repeat match goal with
         | IH : cases_total ?x = true -> _, H : cases_total ?x = true |- _ =>
             specialize (IH H); destruct IH as [? ?]
         end.
  all: split;
    [| cbn [follow];
       first [assumption | intros; eexists; reflexivity]].
  all: intros level; cbn [transform].
  all: rewrite ?EIn, ?EOut, ?ETask, ?EBranch, ?ETry, ?ECount, ?EHead,
         ?EFoot, ?EFun, ?ECase; cbn [get Result.bind].
  all: repeat match goal with
         | IH : forall level, exists ls, transform _ _ ?x level = Ok ls
           |- context [transform _ _ ?x ?l] =>
             let ls := fresh "ls" in
             let E := fresh "E" in
             destruct (IH l) as [ls E]; rewrite E; clear E;
             cbn [Result.bind]
         end.
  all: try (eexists; reflexivity).
  (* the switch *)
  assert (Hdefault :
            forall l,
            exists body,
              match n1 with
              | Null => Ok []
              | InsertNode _ g | Placeholder _ g
              | TaskNode _ _ g | InputNode _ _ g
              | OutputNode _ _ g | BranchNode _ _ _ _ _ g
              | CaseNode _ _ _ _ _ _ g | InsertCase _ _ g
              | HeadLoopNode _ _ _ g | CountLoopNode _ _ _ g
              | FootLoopNode _ _ _ g | FunctionNode _ _ _ _ g
              | TryCatchNode _ _ _ _ g => transform t lang g l
              end = Ok body).
  { intros l.
    match goal with
    | H : forall level, exists ls, transform _ _ (follow n1) level = Ok ls
      |- _ => destruct n1; cbn [follow] in H;
              first [ eexists; reflexivity | apply H ]
    end. }
  destruct (pseudoSwitch t).
  - match goal with
    | |- context [Result.bind (?F true cs)] =>
        assert (Hcs : forall first, exists l, F first cs = Ok l)
    end.
    { match goal with
      | HF : Forall _ cs, HC : forallb _ cs = true |- _ =>
          revert HF HC; clear - EIC
      end.
      intros HF HC.
      induction cs as [|c r IHr]; intros first; [eexists; reflexivity |].
      cbn [forallb] in HC.
      apply andb_true_iff in HC. destruct HC as [Hc Hr].
      apply andb_true_iff in Hc. destruct Hc as [Hnn Hc].
      inversion HF as [|? ? Pc Pr]; subst.
      destruct (Pc Hc) as [_ Hbody].
      destruct c; try discriminate Hnn; try apply (IHr Pr Hr).
      cbn [Result.bind follow] in *.
      destruct (IHr Pr Hr false) as [l El]. rewrite El.
      match goal with
      | |- context [transform _ _ ?x ?l] =>
          destruct (Hbody l) as [lb Eb]; rewrite Eb
      end.
      rewrite EIC. cbn [get Result.bind]. eexists; reflexivity. }
    destruct (Hcs true) as [l El]. rewrite El. cbn [Result.bind].
    destruct (Hdefault (level + 1)) as [body Eb].
    destruct n1; cbn [Result.bind]; try (eexists; reflexivity).
    all: destruct d; cbn [Result.bind]; try (eexists; reflexivity).
    all: rewrite EIC; cbn [get Result.bind]; rewrite Eb; cbn [Result.bind].
    all: eexists; reflexivity.
  - match goal with
    | |- context [Result.bind (?F cs)] =>
        assert (Hcs : exists l, F cs = Ok l)
    end.
    { match goal with
      | HF : Forall _ cs, HC : forallb _ cs = true |- _ =>
          revert HF HC; clear - EIC
      end.
      intros HF HC.
      induction cs as [|c r IHr]; [eexists; reflexivity |].
      cbn [forallb] in HC.
      apply andb_true_iff in HC. destruct HC as [Hc Hr].
      apply andb_true_iff in Hc. destruct Hc as [Hnn Hc].
      inversion HF as [|? ? Pc Pr]; subst.
      destruct (Pc Hc) as [_ Hbody].
      destruct c; try discriminate Hnn; try apply (IHr Pr Hr).
      cbn [Result.bind follow] in *.
      destruct (IHr Pr Hr) as [l El]. rewrite El.
      match goal with
      | |- context [transform _ _ ?x ?l] =>
          destruct (Hbody l) as [lb Eb]; rewrite Eb
      end.
      rewrite EIC. cbn [get Result.bind]. eexists; reflexivity. }
    destruct Hcs as [l El]. rewrite El. cbn [Result.bind].
    destruct (Hdefault (level + 2)) as [body Eb].
    destruct n1; cbn [Result.bind]; try (eexists; reflexivity).
    all: destruct d; cbn [Result.bind]; try (eexists; reflexivity).
    all: rewrite EIC; cbn [get Result.bind]; rewrite Eb; cbn [Result.bind].
    all: eexists; reflexivity.
Qed.
End GeneratorTotal.

(** ** Parsed trees are tidy *)

Lemma parsedChain_tidy_follow :
  forall n,
    (parsedChain n = true -> tidy n = true)
    /\ (forall j, parsedChain (InsertNode (Some j) n) = true ->
        tidy n = true)
    /\ (parsedChain (follow n) = true -> tidy (follow n) = true).
Proof.
  induction n using node_induction.
  all: repeat match goal with
         | IH : _ /\ _ /\ _ |- _ => destruct IH as (? & ? & ?)
         end.
  all: split; [| split; [| cbn [follow]; first [assumption | reflexivity]]].
  (* a chain *)
  all: try (intros Hp; cbn [parsedChain] in Hp; discriminate Hp).
  all: try (intros j Hp; cbn [parsedChain] in Hp; discriminate Hp).
  all: try (intros j Hp; cbn [parsedChain] in Hp;
            match goal with
            | i : option string |- _ => destruct i; [| discriminate Hp]
            end;
            repeat (apply andb_true_iff in Hp; destruct Hp as [Hp ?]);
            cbn [tidy];
            repeat match goal with
              | IH : parsedChain ?x = true -> tidy ?x = true,
                H : parsedChain ?x = true |- _ =>
                  rewrite (IH H); clear H
              end;
            reflexivity).
  - reflexivity.
  - intros Hp. cbn [parsedChain] in Hp.
    destruct i as [i|]; [| discriminate Hp]. cbn [tidy].
    match goal with
    | IH : forall j, parsedChain (InsertNode (Some j) n) = true -> _ |- _ =>
        apply (IH i); exact Hp
    end.
  - intros j Hp. cbn [parsedChain] in Hp.
    destruct i; [discriminate Hp |]. destruct n; [| discriminate Hp..].
    reflexivity.
  - intros j Hp. cbn [parsedChain] in Hp.
    destruct i; [| discriminate Hp].
    repeat (apply andb_true_iff in Hp; destruct Hp as [Hp ?]).
    cbn [tidy].
    match goal with
    | IH : parsedChain n2 = true -> tidy n2 = true,
      H : parsedChain n2 = true |- _ => rewrite (IH H)
    end.
    assert (Hdn : is_insertCase n1 = true /\ tidy n1 = true).
    { destruct n1; try discriminate.
      match goal with
      | i : option string |- _ => destruct i; [| discriminate]
      end.
      cbn [follow tidy] in *. auto. }
    destruct Hdn as [-> ->]. rewrite orb_true_r, !andb_true_r.
    match goal with
    | HF : Forall _ cs, HC : forallb _ cs = true |- _ =>
        revert HF HC; clear
    end.
    intros HF HC.
    induction cs as [|c r IHr]; [reflexivity |].
    cbn [forallb] in *.
    apply andb_true_iff in HC. destruct HC as [Hc Hr].
    inversion HF as [|? ? Pc Pr]; subst.
    rewrite (IHr Pr Hr), andb_true_r.
    destruct Pc as (_ & _ & Pc).
    destruct c; try discriminate Hc.
    match goal with
    | i : option string |- _ => destruct i; [| discriminate Hc]
    end.
    cbn [follow tidy is_insertCase andb] in *. auto.
Qed.

Lemma parsedChain_tidy :
  forall n, parsedChain n = true -> tidy n = true.
Proof. intros n. apply parsedChain_tidy_follow. Qed.

Lemma tidy_cases_total :
  forall n, tidy n = true -> cases_total n = true.
Proof.
  induction n using node_induction; intros Ht; cbn [tidy cases_total] in *;
    repeat (apply andb_true_iff in Ht; destruct Ht as [Ht ?]);
    repeat match goal with
      | IH : tidy ?x = true -> _, H : tidy ?x = true |- _ =>
          rewrite (IH H); clear IH
      end;
    try reflexivity; auto.
  - destruct n; [reflexivity | discriminate..].
  - rewrite !andb_true_r.
    match goal with
    | HF : Forall _ cs, HC : forallb _ cs = true |- _ =>
        revert HF HC; clear
    end.
    intros HF HC.
    induction cs as [|c r IHr]; [reflexivity |].
    cbn [forallb] in *.
    apply andb_true_iff in HC. destruct HC as [Hc Hr].
    apply andb_true_iff in Hc. destruct Hc as [Hic Hc].
    inversion HF as [|? ? Pc Pr]; subst.
    rewrite (IHr Pr Hr), (Pc Hc).
    destruct c; try discriminate Hic. reflexivity.
Qed.

(** X3.  On a tree in which no [cases] array holds [null] the serializer
    throws nothing: it returns a text. *)
Theorem serialize_never_throws :
  forall (numberToString : Q -> string) (kw : keywords) (tree : node),
    cases_total tree = true ->
    exists text, treeToPseudocode numberToString kw tree = Ok text.
Proof.
  intros nts kw tree H. unfold treeToPseudocode.
  destruct (proj1 (serialize_total_follow nts kw tree H) 0) as [ls E].
  rewrite E. eexists; reflexivity.
Qed.

(** Witness of [serialize_never_throws]: a chain of two statements. *)
Lemma serialize_never_throws_witness :
  exists text,
    treeToPseudocode decimalToString KEYWORDS_EN twoStatements = Ok text.
Proof.
  apply (serialize_never_throws decimalToString KEYWORDS_EN twoStatements).
  reflexivity.
Defined.

Lemma supported_key :
  forall key,
    mem key ownKeys = true ->
    key = "python" \/ key = "java" \/ key = "javascript".
Proof.
  intros key H. unfold mem, ownKeys in H. cbn [existsb] in H.
  repeat (apply orb_true_iff in H; destruct H as [H | H]);
    try apply String.eqb_eq in H; auto.
  discriminate H.
Qed.

(** X4.  A target whose lower-case form is one of the three supported
    identifiers is accepted in any letter case, and on a tree in which no
    [cases] array holds [null] the generator throws nothing: it returns
    the same code as for the lower-case identifier. *)
Theorem generateCode_supported :
  forall (tree : node) (lang : string),
    cases_total tree = true ->
    mem (toLowerCase lang) ownKeys = true ->
    exists code,
      generateCode tree lang = Ok code
      /\ generateCode tree (toLowerCase lang) = Ok code.
Proof.
  intros tree lang Ht Hl.
  destruct (supported_key _ Hl) as [E | [E | E]].
  - destruct (proj1 (transform_total_follow python "python" eq_refl tree Ht) 0)
      as [ls El].
    exists (join "" ls). unfold generateCode. rewrite E.
    change (toLowerCase "python") with "python".
    change (lookup "python") with (Some python).
    cbv beta iota. rewrite El. auto.
  - destruct (proj1 (transform_total_follow java "java" eq_refl tree Ht) 0)
      as [ls El].
    exists (join "" ls). unfold generateCode. rewrite E.
    change (toLowerCase "java") with "java".
    change (lookup "java") with (Some java).
    cbv beta iota. rewrite El. auto.
  - destruct (proj1 (transform_total_follow javascript "javascript" eq_refl
                       tree Ht) 0) as [ls El].
    exists (join "" ls). unfold generateCode. rewrite E.
    change (toLowerCase "javascript") with "javascript".
    change (lookup "javascript") with (Some javascript).
    cbv beta iota. rewrite El. auto.
Qed.

(** Witness of [generateCode_supported]: two statements, for Java written
    with a capital. *)
Lemma generateCode_supported_witness :
  exists code,
    generateCode twoStatements "Java" = Ok code
    /\ generateCode twoStatements (toLowerCase "Java") = Ok code.
Proof.
  apply (generateCode_supported twoStatements "Java"); reflexivity.
Defined.

(** X5.  Whatever the source text and the keyword map, the parsed tree
    can be written back as text, with any keyword map, and translated to
    each of the three languages: none of the calls throws. *)
Theorem parsed_tree_exports :
  forall (source : string) (k kw : keywords) (numberToString : Q -> string),
    (exists text,
        treeToPseudocode numberToString kw (parsePseudocode source k)
        = Ok text)
    /\ (exists code,
           generateCode (parsePseudocode source k) "python" = Ok code)
    /\ (exists code,
           generateCode (parsePseudocode source k) "java" = Ok code)
    /\ (exists code,
           generateCode (parsePseudocode source k) "javascript" = Ok code).
Proof.
  intros source k kw nts.
  pose proof (tidy_cases_total _
                (parsedChain_tidy _ (parsePseudocode_shape k source))) as H.
  split; [| split; [| split]].
  - unfold treeToPseudocode.
    destruct (proj1 (serialize_total_follow nts kw _ H) 0) as [ls E].
    rewrite E. eexists; reflexivity.
  - destruct (proj1 (transform_total_follow python "python" eq_refl _ H) 0)
      as [ls El].
    exists (join "" ls). unfold generateCode.
    change (lookup (toLowerCase "python")) with (Some python).
    change (toLowerCase "python") with "python". cbv beta iota.
    rewrite El. reflexivity.
  - destruct (proj1 (transform_total_follow java "java" eq_refl _ H) 0)
      as [ls El].
    exists (join "" ls). unfold generateCode.
    change (lookup (toLowerCase "java")) with (Some java).
    change (toLowerCase "java") with "java". cbv beta iota.
    rewrite El. reflexivity.
  - destruct (proj1 (transform_total_follow javascript "javascript" eq_refl
                       _ H) 0) as [ls El].
    exists (join "" ls). unfold generateCode.
    change (lookup (toLowerCase "javascript")) with (Some javascript).
    change (toLowerCase "javascript") with "javascript".
    cbv beta iota. rewrite El. reflexivity.
Qed.

(** X6.  A switch whose [cases] array holds [null] makes both the
    serializer and the code generator throw, whatever the keyword map and
    the translation table. *)
Theorem null_case_throws :
  forall (numberToString : Q -> string) (kw : keywords) (t : table)
         (lang : string) (i : option string) (text : string)
         (cw : option (list Q)) (d : bool) (dn : node) (cs : list node)
         (f : node) (level : nat),
    In Null cs ->
    throws (serialize numberToString kw (CaseNode i text cw d dn cs f) level)
    = true
    /\ throws (transform t lang (CaseNode i text cw d dn cs f) level) = true.
Proof.
  intros nts kw t lang i text cw d dn cs f level Hin. split.
  - cbn [serialize].
    match goal with
    | |- context [Result.bind (?F cs)] =>
        assert (Hcs : exists e, F cs = Throw e)
    end.
    { revert Hin. clear. intros Hin.
      induction cs as [|c r IHr]; [destruct Hin |].
      destruct Hin as [-> | Hin]; [eexists; reflexivity |].
      destruct (IHr Hin) as [e Ee]. rewrite Ee.
      destruct (text_of c); [| eexists; reflexivity].
      cbn [Result.bind].
      match goal with
      | |- context [Result.bind ?m] => destruct m
      end; eexists; reflexivity. }
    destruct Hcs as [e Ee]. rewrite Ee. reflexivity.
  - cbn [transform]. destruct (pseudoSwitch t).
    + match goal with
      | |- context [Result.bind (?F true cs)] =>
          assert (Hcs : forall first, exists e, F first cs = Throw e)
      end.
      { revert Hin. clear. intros Hin.
        induction cs as [|c r IHr]; intros first; [destruct Hin |].
        destruct Hin as [-> | Hin]; [eexists; reflexivity |].
        destruct c; try apply (IHr Hin); [eexists; reflexivity |].
        destruct (IHr Hin false) as [e Ee]. rewrite Ee.
        destruct (get (tInsertCase t)); [| eexists; reflexivity].
        cbn [Result.bind].
        match goal with
        | |- context [Result.bind ?m] => destruct m
        end; eexists; reflexivity. }
      destruct (Hcs true) as [e Ee]. rewrite Ee. reflexivity.
    + destruct (get (tCaseNode t)); [| reflexivity]. cbn [Result.bind].
      match goal with
      | |- context [Result.bind (?F cs)] =>
          assert (Hcs : exists e, F cs = Throw e)
      end.
      { revert Hin. clear. intros Hin.
        induction cs as [|c r IHr]; [destruct Hin |].
        destruct Hin as [-> | Hin]; [eexists; reflexivity |].
        destruct c; try apply (IHr Hin); [eexists; reflexivity |].
        destruct (IHr Hin) as [e Ee]. rewrite Ee.
        destruct (get (tInsertCase t)); [| eexists; reflexivity].
        cbn [Result.bind].
        match goal with
        | |- context [Result.bind ?m] => destruct m
        end; eexists; reflexivity. }
      destruct Hcs as [e Ee]. rewrite Ee. reflexivity.
Qed.

(** Witness of [null_case_throws]: a switch whose only case is [null]. *)
Lemma null_case_throws_witness :
  throws (serialize decimalToString KEYWORDS_EN
            (CaseNode None "x" None false Null [Null] Null) 0) = true
  /\ throws (transform python "python"
               (CaseNode None "x" None false Null [Null] Null) 0) = true.
Proof.
  apply (null_case_throws decimalToString KEYWORDS_EN python "python"
           None "x" None false Null [Null] Null 0).
  left. reflexivity.
Defined.

(** ** Cleaning a tree for export *)

Section StripFacts.
Import Editor.

Lemma cleanIds_erase : forall n, cleanIds n = erase_ids n.
Proof. reflexivity. Qed.

Lemma cleanIds_idem : forall n, cleanIds (cleanIds n) = cleanIds n.
Proof.
  induction n using node_induction; cbn [cleanIds]; try congruence.
  f_equal; try assumption.
  match goal with
  | HF : Forall _ cs |- _ => induction HF as [|c r Hc _ IHr]
  end; [reflexivity |].
  cbn [map]. congruence.
Qed.

Lemma cleanIds_stripChain :
  forall n, cleanIds (stripChain n) = stripChain n.
Proof.
  induction n using node_induction; cbn [stripChain];
    try apply cleanIds_idem; auto.
Qed.

Lemma cleanIds_null : forall n, is_null (cleanIds n) = is_null n.
Proof. destruct n; reflexivity. Qed.

Lemma keepObjects_cleanIds :
  forall cs, map cleanIds (keepObjects cs) = keepObjects (map cleanIds cs).
Proof.
  induction cs as [|c r IH]; [reflexivity |].
  cbn [map keepObjects filter]. rewrite cleanIds_null.
  destruct (is_null c); cbn [negb map]; unfold keepObjects in IH;
    rewrite IH; reflexivity.
Qed.

Lemma cleanIds_stripCase :
  forall c,
    cleanIds match c with
             | InsertCase j u g => InsertCase j u (stripChain g)
             | _ => stripChain c
             end
    = stripCase c.
Proof.
  destruct c; cbn [stripCase]; try apply cleanIds_stripChain.
  cbn [cleanIds]. rewrite cleanIds_stripChain. reflexivity.
Qed.

(** The equations of [stripChain] once the identifiers are deleted. *)
Lemma stripChain_task :
  forall i t f, stripChain (TaskNode i t f) = TaskNode None t (stripChain f).
Proof. intros. cbn [stripChain cleanIds]. now rewrite cleanIds_stripChain. Qed.
Lemma stripChain_input :
  forall i t f,
    stripChain (InputNode i t f) = InputNode None t (stripChain f).
Proof. intros. cbn [stripChain cleanIds]. now rewrite cleanIds_stripChain. Qed.
Lemma stripChain_output :
  forall i t f,
    stripChain (OutputNode i t f) = OutputNode None t (stripChain f).
Proof. intros. cbn [stripChain cleanIds]. now rewrite cleanIds_stripChain. Qed.
Lemma stripChain_insertCase :
  forall i t f,
    stripChain (InsertCase i t f) = InsertCase None t (stripChain f).
Proof. intros. cbn [stripChain cleanIds]. now rewrite cleanIds_stripChain. Qed.
Lemma stripChain_branch :
  forall i t cw a b f,
    stripChain (BranchNode i t cw a b f)
    = BranchNode None t cw (stripChain a) (stripChain b) (stripChain f).
Proof. intros. cbn [stripChain cleanIds]. now rewrite !cleanIds_stripChain. Qed.
Lemma stripChain_head :
  forall i t c f,
    stripChain (HeadLoopNode i t c f)
    = HeadLoopNode None t (stripChain c) (stripChain f).
Proof. intros. cbn [stripChain cleanIds]. now rewrite !cleanIds_stripChain. Qed.
Lemma stripChain_count :
  forall i t c f,
    stripChain (CountLoopNode i t c f)
    = CountLoopNode None t (stripChain c) (stripChain f).
Proof. intros. cbn [stripChain cleanIds]. now rewrite !cleanIds_stripChain. Qed.
Lemma stripChain_foot :
  forall i t c f,
    stripChain (FootLoopNode i t c f)
    = FootLoopNode None t (stripChain c) (stripChain f).
Proof. intros. cbn [stripChain cleanIds]. now rewrite !cleanIds_stripChain. Qed.
Lemma stripChain_function :
  forall i t ps c f,
    stripChain (FunctionNode i t ps c f)
    = FunctionNode None t ps (stripChain c) (stripChain f).
Proof. intros. cbn [stripChain cleanIds]. now rewrite !cleanIds_stripChain. Qed.
Lemma stripChain_try :
  forall i t a b f,
    stripChain (TryCatchNode i t a b f)
    = TryCatchNode None t (stripChain a) (stripChain b) (stripChain f).
Proof. intros. cbn [stripChain cleanIds]. now rewrite !cleanIds_stripChain. Qed.
Lemma stripChain_switch :
  forall i t cw d dn cs f,
    stripChain (CaseNode i t cw d dn cs f)
    = CaseNode None t cw d (stripCase dn) (keepObjects (map stripCase cs))
               (stripChain f).
Proof.
  intros. cbn [stripChain cleanIds].
  rewrite cleanIds_stripChain, cleanIds_stripCase, keepObjects_cleanIds.
  rewrite map_map. f_equal. f_equal.
  apply map_ext. intros c. apply cleanIds_stripCase.
Qed.

End StripFacts.

Ltac strip_norm :=
  rewrite ?stripChain_task, ?stripChain_input, ?stripChain_output,
    ?stripChain_insertCase, ?stripChain_branch, ?stripChain_head,
    ?stripChain_count, ?stripChain_foot, ?stripChain_function,
    ?stripChain_try, ?stripChain_switch.

Section StripClean.
Import Editor.

Lemma forallb_flat_map :
  forall (A B : Type) (p : B -> bool) (f : A -> list B) (l : list A),
    forallb p (flat_map f l) = forallb (fun x => forallb p (f x)) l.
Proof.
  induction l as [|x r IH]; [reflexivity |].
  cbn [flat_map forallb]. rewrite forallb_app, IH. reflexivity.
Qed.

Lemma bare_unfold :
  forall n,
    bare n = bareNode n && forallb bare (subnodes n).
Proof.
  intros n. unfold bare.
  destruct n; cbn [nodes subnodes forallb];
    rewrite ?forallb_app, ?forallb_flat_map, ?andb_true_r;
    cbn [forallb]; rewrite ?andb_true_r; reflexivity.
Qed.

(** What [stripChain] returns has no markers, no identifiers and no
    [null] among its cases. *)
Lemma stripChain_clean_follow :
  forall n,
    (bare (stripChain n) = true /\ cases_total (stripChain n) = true)
    /\ (bare (stripChain (follow n)) = true
        /\ cases_total (stripChain (follow n)) = true).
Proof.
  induction n using node_induction.
  all: repeat match goal with
         | IH : (_ /\ _) /\ (_ /\ _) |- _ =>
             destruct IH as [[? ?] [? ?]]
         end.
  all: split; [| cbn [follow]; first [split; assumption | split; reflexivity]].
  all: try (cbn [stripChain]; first [split; assumption | split; reflexivity]).
  all: strip_norm; rewrite bare_unfold; cbn [subnodes forallb cases_total].
  all: repeat match goal with
         | H : _ = true |- _ => rewrite H; clear H
         end.
  all: try (split; reflexivity).
  (* the switch *)
  rewrite forallb_app. cbn [forallb bareNode is_marker node_id negb andb].
  assert (Hdn : bare (stripCase n1) = true
                /\ cases_total (stripCase n1) = true).
  { destruct n1; cbn [stripCase follow] in *; auto. }
  destruct Hdn as [-> ->]. rewrite !andb_true_r.
  match goal with
  | HF : Forall _ cs |- _ => revert HF; clear
  end.
  intros HF.
  induction HF as [|c r Pc _ IHr]; [split; reflexivity |].
  destruct Pc as [[Pb Pt] [Fb Ft]].
  cbn [map keepObjects filter].
  assert (Hc : bare (stripCase c) = true
               /\ cases_total (stripCase c) = true).
  { destruct c; cbn [stripCase follow] in *; auto. }
  destruct Hc as [Hcb Hct].
  destruct IHr as [IHb IHt].
  destruct (is_null (stripCase c)) eqn:En; cbn [negb];
    [split; assumption |].
  cbn [forallb]. unfold keepObjects in *.
  rewrite Hcb, Hct, IHb, IHt, En. split; reflexivity.
Qed.

Lemma bare_follow :
  forall n, bare n = true -> bare (follow n) = true.
Proof.
  intros n H. rewrite bare_unfold in H.
  apply andb_true_iff in H. destruct H as [_ H].
  destruct n; cbn [subnodes forallb follow] in *; try reflexivity;
    apply andb_true_iff in H; tauto.
Qed.

(** On a tree that has no markers, no identifiers and no [null] among
    its cases, [stripChain] changes nothing. *)
Lemma stripChain_fixed_follow :
  forall n,
    bare n = true -> cases_total n = true ->
    stripChain n = n /\ stripChain (follow n) = follow n.
Proof.
  induction n using node_induction; intros Hb Ht.
  all: pose proof (bare_follow _ Hb) as Hbf;
    pose proof (cases_total_follow _ Ht) as Htf; cbn [follow] in Hbf, Htf.
  all: rewrite bare_unfold in Hb; cbn [subnodes forallb cases_total] in Hb, Ht.
  all: apply andb_true_iff in Hb; destruct Hb as [Hnode Hb].
  all: cbn [bareNode is_marker node_id negb andb] in Hnode.
  all: try discriminate Hnode.
  all: repeat match goal with
         | H : _ && _ = true |- _ =>
             apply andb_true_iff in H; destruct H
         end.
  all: repeat match goal with
         | IH : bare ?x = true -> cases_total ?x = true -> _,
           H1 : bare ?x = true, H2 : cases_total ?x = true |- _ =>
             destruct (IH H1 H2) as [? ?]; clear IH
         end.
  all: cbn [follow]; split; try assumption; try reflexivity.
  all: strip_norm.
  all: destruct i; [discriminate Hnode |].
  all: try congruence.
  (* the switch *)
  match goal with
  | HB : forallb bare (cs ++ _) = true |- _ =>
      rewrite forallb_app in HB; cbn [forallb] in HB;
      apply andb_true_iff in HB; destruct HB as [Hcs Hdn];
      rewrite andb_true_r in Hdn
  end.
  f_equal; try assumption.
  - match goal with
    | IH : bare n1 = true -> _, HT : cases_total n1 = true |- _ =>
        destruct (IH Hdn HT) as [E1 E2]
    end.
    destruct n1; cbn [stripCase follow] in *; try assumption.
    match type of Hdn with
    | bare (InsertCase ?i _ _) = true =>
        rewrite bare_unfold in Hdn;
        destruct i; [cbn in Hdn; discriminate Hdn |]
    end.
    congruence.
  - match goal with
    | HF : Forall _ cs, HT : forallb _ cs = true |- _ =>
        revert HF Hcs HT; clear
    end.
    intros HF HB HT.
    induction HF as [|c r Pc _ IHr]; [reflexivity |].
    cbn [forallb] in HB, HT.
    apply andb_true_iff in HB. destruct HB as [Hcb Hrb].
    apply andb_true_iff in HT. destruct HT as [Hct Hrt].
    apply andb_true_iff in Hct. destruct Hct as [Hnn Hct].
    destruct (Pc Hcb Hct) as [E1 E2].
    assert (Ec : stripCase c = c).
    { destruct c; cbn [stripCase follow] in *; try assumption.
      match type of Hcb with
      | bare (InsertCase ?i _ _) = true =>
          rewrite bare_unfold in Hcb;
          destruct i; [cbn in Hcb; discriminate Hcb |]
      end.
      congruence. }
    cbn [map keepObjects filter]. rewrite Ec, Hnn. cbn [negb].
    unfold keepObjects in IHr. rewrite (IHr Hrb Hrt). reflexivity.
Qed.

(** X7.  What [stripInsertNodes] returns holds no InsertNode, no
    Placeholder and no identifier, its [cases] arrays hold no [null], and
    stripping it again changes nothing. *)
Theorem stripInsertNodes_clean :
  forall (tree : node),
    bare (stripInsertNodes tree) = true
    /\ cases_total (stripInsertNodes tree) = true
    /\ stripInsertNodes (stripInsertNodes tree) = stripInsertNodes tree.
Proof.
  intros tree.
  assert (H : stripInsertNodes tree = stripChain tree)
    by (destruct tree; reflexivity).
  destruct (stripChain_clean_follow tree) as [[Hb Ht] _].
  rewrite H. split; [exact Hb |]. split; [exact Ht |].
  assert (H2 : stripInsertNodes (stripChain tree) = stripChain (stripChain tree))
    by (destruct (stripChain tree); reflexivity).
  rewrite H2. apply stripChain_fixed_follow; assumption.
Qed.

End StripClean.

(** ** Trees without their column widths *)

Section WidthsApart.
Import Editor.

Lemma map_ext_Forall :
  forall (A B : Type) (f g : A -> B) (l : list A),
    Forall (fun x => f x = g x) l -> map f l = map g l.
Proof.
  intros A B f g l H. induction H as [|x r Hx Hr IH]; [reflexivity |].
  cbn [map]. rewrite Hx, IH. reflexivity.
Qed.

Lemma erase_widths_ids :
  forall n, erase_widths (erase_ids n) = erase_ids (erase_widths n).
Proof.
  induction n using node_induction; cbn [erase_widths erase_ids];
    try congruence.
  rewrite IHn1, IHn2. f_equal.
  rewrite !map_map. apply map_ext_Forall. exact H.
Qed.

Lemma erase_widths_cleanIds :
  forall n, erase_widths (cleanIds n) = cleanIds (erase_widths n).
Proof.
  induction n using node_induction; cbn [erase_widths cleanIds];
    try congruence.
  rewrite IHn1, IHn2. f_equal.
  rewrite !map_map. apply map_ext_Forall. exact H.
Qed.

Lemma erase_widths_null :
  forall n, is_null (erase_widths n) = is_null n.
Proof. destruct n; reflexivity. Qed.

Lemma erase_widths_insertCase :
  forall n, is_insertCase (erase_widths n) = is_insertCase n.
Proof. destruct n; reflexivity. Qed.

Lemma keepObjects_widths :
  forall cs,
    keepObjects (map erase_widths cs) = map erase_widths (keepObjects cs).
Proof.
  unfold keepObjects. induction cs as [|c r IH]; [reflexivity |].
  cbn [map filter]. rewrite erase_widths_null.
  destruct (is_null c); cbn [negb map]; rewrite IH; reflexivity.
Qed.

(** Stripping and leaving out the widths can be done in either order. *)
Lemma erase_widths_stripChain :
  forall n, erase_widths (stripChain n) = stripChain (erase_widths n).
Proof.
  assert (Hcase : forall j u g,
             erase_widths (stripChain (InsertCase j u g))
             = stripChain (erase_widths (InsertCase j u g)) ->
             erase_widths (stripChain g) = stripChain (erase_widths g)).
  { intros j u g E. cbn [erase_widths stripChain cleanIds] in E.
    injection E as E.
    rewrite !cleanIds_stripChain in E. exact E. }
  induction n using node_induction; cbn [erase_widths stripChain].
  all: try reflexivity.
  all: try assumption.
  all: rewrite ?erase_widths_cleanIds; cbn [erase_widths].
  all: try congruence.
  (* CaseNode *)
  rewrite IHn2. f_equal. f_equal.
  - destruct n1; try exact IHn1.
    cbn [erase_widths]. f_equal. apply (Hcase _ _ _ IHn1).
  - rewrite <- keepObjects_widths. f_equal.
    rewrite !map_map. apply map_ext_Forall.
    eapply Forall_impl; [| exact H].
    intros c Hc.
    destruct c; try exact Hc.
    cbn [erase_widths]. f_equal. apply (Hcase _ _ _ Hc).
Qed.

Lemma erase_widths_strip :
  forall n,
    erase_widths (stripInsertNodes n) = stripInsertNodes (erase_widths n).
Proof.
  intros n. unfold stripInsertNodes, cloneTree.
  rewrite erase_widths_null.
  destruct (is_null n); [reflexivity | apply erase_widths_stripChain].
Qed.

Lemma erase_widths_tidy :
  forall n, tidy (erase_widths n) = tidy n.
Proof.
  induction n using node_induction; cbn [erase_widths tidy];
    rewrite ?erase_widths_null, ?erase_widths_insertCase; try congruence.
  rewrite IHn1, IHn2. f_equal. f_equal. f_equal.
  induction H as [|c r Hc Hr IH]; [reflexivity |].
  cbn [map forallb]. rewrite erase_widths_insertCase, Hc, IH. reflexivity.
Qed.

End WidthsApart.

(** ** Export does not change what the serializer and the generator see *)

Section ExportInvariance.
Import Editor.

Lemma tidy_follow : forall n, tidy n = true -> tidy (follow n) = true.
Proof.
  destruct n; cbn [tidy follow]; intros H; try assumption;
    try (repeat (apply andb_true_iff in H; destruct H as [H ?]); assumption).
  destruct n; [reflexivity | discriminate H..].
Qed.

Section Serialize.
Variable numberToString : Q -> string.
Variable kw : keywords.

Lemma serialize_strip_follow :
  forall n,
    tidy n = true ->
    (forall level,
        serialize numberToString kw (stripChain n) level
        = serialize numberToString kw n level)
    /\ (forall level,
          serialize numberToString kw (stripChain (follow n)) level
          = serialize numberToString kw (follow n) level).
Proof.
  induction n using node_induction; intros Ht.
  all: pose proof (tidy_follow _ Ht) as Htf; cbn [follow] in Htf.
  all: cbn [tidy] in Ht.
  all: repeat match goal with
         | H : _ && _ = true |- _ =>
             apply andb_true_iff in H; destruct H
         end.
  all: repeat match goal with
         | IH : tidy ?x = true -> _, H : tidy ?x = true |- _ =>
             destruct (IH H) as [? ?]; clear IH
         end.
  all: split; [| cbn [follow]; first [assumption | reflexivity]].
  all: intros level; strip_norm; cbn [stripChain serialize].
  all: repeat match goal with
         | H : forall level, serialize _ _ (stripChain ?x) level = _
           |- context [serialize _ _ (stripChain ?x) ?l] => rewrite (H l)
         end.
  all: try reflexivity.
  (* the switch *)
  assert (Hdn : is_null (stripCase n1) = is_null n1
                /\ forall l,
                  match stripCase n1 with
                  | Null => Ok []
                  | InsertNode _ g | Placeholder _ g
                  | TaskNode _ _ g | InputNode _ _ g
                  | OutputNode _ _ g | BranchNode _ _ _ _ _ g
                  | CaseNode _ _ _ _ _ _ g | InsertCase _ _ g
                  | HeadLoopNode _ _ _ g | CountLoopNode _ _ _ g
                  | FootLoopNode _ _ _ g | FunctionNode _ _ _ _ g
                  | TryCatchNode _ _ _ _ g =>
                      serialize numberToString kw g l
                  end
                  = match n1 with
                    | Null => Ok []
                    | InsertNode _ g | Placeholder _ g
                    | TaskNode _ _ g | InputNode _ _ g
                    | OutputNode _ _ g | BranchNode _ _ _ _ _ g
                    | CaseNode _ _ _ _ _ _ g | InsertCase _ _ g
                    | HeadLoopNode _ _ _ g | CountLoopNode _ _ _ g
                    | FootLoopNode _ _ _ g | FunctionNode _ _ _ _ g
                    | TryCatchNode _ _ _ _ g =>
                        serialize numberToString kw g l
                    end).
  { match goal with
    | H : is_null n1 || is_insertCase n1 = true |- _ =>
        destruct n1; try discriminate H
    end; cbn [stripCase stripChain follow] in *; auto. }
  destruct Hdn as [-> ->].
  match goal with
  | |- Result.bind (?F (keepObjects (map stripCase cs))) _
       = Result.bind (?G cs) _ =>
      assert (Hcs : F (keepObjects (map stripCase cs)) = G cs)
  end.
  { match goal with
    | HF : Forall _ cs, HT : forallb _ cs = true |- _ =>
        revert HF HT; clear
    end.
    intros HF HT.
    induction HF as [|c r Pc _ IHr]; [reflexivity |].
    cbn [forallb] in HT.
    apply andb_true_iff in HT. destruct HT as [Hc Hr].
    apply andb_true_iff in Hc. destruct Hc as [Hic Hc].
    destruct (Pc Hc) as [_ Hbody].
    destruct c; try discriminate Hic.
    cbn [map keepObjects filter stripCase is_null negb text_of
         Result.bind follow] in *.
    rewrite Hbody. unfold keepObjects in IHr. rewrite (IHr Hr).
    reflexivity. }
  rewrite Hcs. reflexivity.
Qed.
End Serialize.

Section Transform.
Variable t : table.
Variable lang : string.

Lemma transform_strip_follow :
  forall n,
    tidy n = true ->
    (forall level,
        transform t lang (stripChain n) level = transform t lang n level)
    /\ (forall level,
          transform t lang (stripChain (follow n)) level
          = transform t lang (follow n) level).
Proof.
  induction n using node_induction; intros Ht.
  all: pose proof (tidy_follow _ Ht) as Htf; cbn [follow] in Htf.
  all: cbn [tidy] in Ht.
  all: repeat match goal with
         | H : _ && _ = true |- _ =>
             apply andb_true_iff in H; destruct H
         end.
  all: repeat match goal with
         | IH : tidy ?x = true -> _, H : tidy ?x = true |- _ =>
             destruct (IH H) as [? ?]; clear IH
         end.
  all: split; [| cbn [follow]; first [assumption | reflexivity]].
  all: intros level; strip_norm; cbn [stripChain transform].
  all: repeat match goal with
         | H : forall level, transform _ _ (stripChain ?x) level = _
           |- context [transform _ _ (stripChain ?x) ?l] => rewrite (H l)
         end.
  all: try reflexivity.
  - (* a Placeholder ends its chain *)
    destruct n; [reflexivity | discriminate Ht..].
  - (* the switch *)
    destruct (pseudoSwitch t).
    + match goal with
      | |- Result.bind (?F true (keepObjects (map stripCase cs))) _
           = Result.bind (?G true cs) _ =>
          assert (Hcs : forall first,
                     F first (keepObjects (map stripCase cs)) = G first cs)
      end.
      { match goal with
        | HF : Forall _ cs, HT : forallb _ cs = true |- _ =>
            revert HF HT; clear
        end.
        intros HF HT.
        induction HF as [|c r Pc _ IHr]; intros first; [reflexivity |].
        cbn [forallb] in HT.
        apply andb_true_iff in HT. destruct HT as [Hc Hr].
        apply andb_true_iff in Hc. destruct Hc as [Hic Hc].
        destruct (Pc Hc) as [_ Hbody].
        destruct c; try discriminate Hic.
        cbn [map keepObjects filter stripCase is_null negb
             Result.bind follow] in *.
        rewrite Hbody. unfold keepObjects in IHr. rewrite (IHr Hr).
        reflexivity. }
      rewrite Hcs.
      match goal with
      | H : is_null n1 || is_insertCase n1 = true |- _ =>
          destruct n1; try discriminate H
      end; cbn [stripCase stripChain follow] in *; [reflexivity |].
      match goal with
      | H : forall level, transform _ _ (stripChain ?x) level = _
        |- context [transform _ _ (stripChain ?x) ?l] => rewrite (H l)
      end.
      reflexivity.
    + match goal with
      | |- Result.bind _ (fun e => Result.bind
               (?F (keepObjects (map stripCase cs))) _)
           = Result.bind _ (fun e' => Result.bind (?G cs) _) =>
          assert (Hcs : F (keepObjects (map stripCase cs)) = G cs)
      end.
      { match goal with
        | HF : Forall _ cs, HT : forallb _ cs = true |- _ =>
            revert HF HT; clear
        end.
        intros HF HT.
        induction HF as [|c r Pc _ IHr]; [reflexivity |].
        cbn [forallb] in HT.
        apply andb_true_iff in HT. destruct HT as [Hc Hr].
        apply andb_true_iff in Hc. destruct Hc as [Hic Hc].
        destruct (Pc Hc) as [_ Hbody].
        destruct c; try discriminate Hic.
        cbn [map keepObjects filter stripCase is_null negb
             Result.bind follow] in *.
        rewrite Hbody. unfold keepObjects in IHr. rewrite (IHr Hr).
        reflexivity. }
      rewrite Hcs.
      match goal with
      | H : is_null n1 || is_insertCase n1 = true |- _ =>
          destruct n1; try discriminate H
      end; cbn [stripCase stripChain follow] in *; [reflexivity |].
      match goal with
      | H : forall level, transform _ _ (stripChain ?x) level = _
        |- context [transform _ _ (stripChain ?x) ?l] => rewrite (H l)
      end.
      reflexivity.
Qed.
End Transform.

(** X8.  On a tidy tree (nothing follows a Placeholder, the cases are
    InsertCases) the export does not change the generated code: the
    generator returns for the stripped tree what it returns for the tree,
    the error included.  Nor does it change the pseudocode, the bracketed
    column widths apart: the serializer returns the same for the stripped
    tree and for the tree once the widths are left out of both (the copy
    the export starts from is read back from a JSON text, which does not
    keep a width that is not a finite number). *)
Theorem export_keeps_text_and_code :
  forall (numberToString : Q -> string) (kw : keywords) (tree : node)
         (lang : string),
    tidy tree = true ->
    generateCode (stripInsertNodes tree) lang = generateCode tree lang
    /\ treeToPseudocode numberToString kw
                        (erase_widths (stripInsertNodes tree))
       = treeToPseudocode numberToString kw (erase_widths tree).
Proof.
  intros nts kw tree lang Ht.
  assert (H : forall n, stripInsertNodes n = stripChain n)
    by (destruct n; reflexivity).
  split.
  - rewrite H. unfold generateCode.
    destruct (lookup (toLowerCase lang)) as [t|]; [| reflexivity].
    rewrite (proj1 (transform_strip_follow t (toLowerCase lang) tree Ht) 0).
    reflexivity.
  - rewrite erase_widths_strip, H. unfold treeToPseudocode.
    rewrite (proj1 (serialize_strip_follow nts kw (erase_widths tree)
                      (eq_trans (erase_widths_tidy tree) Ht)) 0).
    reflexivity.
Qed.

End ExportInvariance.

(** Witness of [export_keeps_text_and_code]: two statements between insert
    markers, translated to Python. *)
Lemma export_keeps_text_and_code_witness :
  generateCode (Editor.stripInsertNodes twoStatements) "python"
  = generateCode twoStatements "python"
  /\ treeToPseudocode decimalToString KEYWORDS_EN
                      (erase_widths (Editor.stripInsertNodes twoStatements))
     = treeToPseudocode decimalToString KEYWORDS_EN
                        (erase_widths twoStatements).
Proof.
  apply (export_keeps_text_and_code decimalToString KEYWORDS_EN twoStatements
           "python").
  reflexivity.
Defined.

(** ** Preparing a tree for the editor *)

Lemma bind_run :
  forall (A B : Type) (m : Editor.Ed A) (f : A -> Editor.Ed B)
         (s s' : nat) (a : A),
    m s = Ok (a, s') -> Editor.bind m f s = f a s'.
Proof.
  intros A B m f s s' a H. unfold Editor.bind. rewrite H. reflexivity.
Qed.

Lemma is_null_true : forall n, is_null n = true -> n = Null.
Proof. destruct n; intros H; [reflexivity | discriminate H..]. Qed.

(** One step of a computation: the bind at the head of the goal is run
    with a fact of the form [returns m Q]. *)
Ltac run H :=
  lazymatch type of H with
  | returns ?m _ =>
      match goal with
      | |- context [Editor.bind m ?f ?s] =>
          let r := fresh "r" in
          let s' := fresh "s" in
          let E := fresh "E" in
          let HQ := fresh "HQ" in
          destruct (H s) as (r & s' & E & HQ);
          rewrite (bind_run _ _ m f s s' r E); clear E; cbv beta
      end
  end.

Ltac done_ret :=
  unfold Editor.bind, Editor.genId, Editor.ret;
  do 2 eexists; (split; [reflexivity |]).

Lemma returns_weaken :
  forall (A : Type) (m : Editor.Ed A) (Q R : A -> Prop),
    returns m Q -> (forall a, Q a -> R a) -> returns m R.
Proof.
  intros A m Q R H HQR s. destruct (H s) as (a & s' & E & Ha).
  exists a, s'. auto.
Qed.

(** The equations of [wrappedContent]. *)
Lemma wrappedContent_task :
  forall i t f, wrappedContent (TaskNode i t f) = wrappedChain f.
Proof. reflexivity. Qed.
Lemma wrappedContent_input :
  forall i t f, wrappedContent (InputNode i t f) = wrappedChain f.
Proof. reflexivity. Qed.
Lemma wrappedContent_output :
  forall i t f, wrappedContent (OutputNode i t f) = wrappedChain f.
Proof. reflexivity. Qed.
Lemma wrappedContent_insertCase :
  forall i t f, wrappedContent (InsertCase i t f) = wrappedChain f.
Proof. reflexivity. Qed.
Lemma wrappedContent_branch :
  forall i t cw a b f,
    wrappedContent (BranchNode i t cw a b f)
    = (is_null a || wrappedChain a) && (is_null b || wrappedChain b)
      && wrappedChain f.
Proof. reflexivity. Qed.
Lemma wrappedContent_try :
  forall i t a b f,
    wrappedContent (TryCatchNode i t a b f)
    = (is_null a || wrappedChain a) && (is_null b || wrappedChain b)
      && wrappedChain f.
Proof. reflexivity. Qed.
Lemma wrappedContent_head :
  forall i t c f,
    wrappedContent (HeadLoopNode i t c f)
    = (is_null c || wrappedChain c) && wrappedChain f.
Proof. reflexivity. Qed.
Lemma wrappedContent_count :
  forall i t c f,
    wrappedContent (CountLoopNode i t c f)
    = (is_null c || wrappedChain c) && wrappedChain f.
Proof. reflexivity. Qed.
Lemma wrappedContent_foot :
  forall i t c f,
    wrappedContent (FootLoopNode i t c f)
    = (is_null c || wrappedChain c) && wrappedChain f.
Proof. reflexivity. Qed.
Lemma wrappedContent_function :
  forall i t ps c f,
    wrappedContent (FunctionNode i t ps c f)
    = (is_null c || wrappedChain c) && wrappedChain f.
Proof. reflexivity. Qed.
Lemma wrappedContent_switch :
  forall i t cw d dn cs f,
    wrappedContent (CaseNode i t cw d dn cs f)
    = forallb wrappedCase cs && (is_null dn || wrappedCase dn)
      && wrappedChain f.
Proof. reflexivity. Qed.

Ltac wrapped_norm :=
  rewrite ?wrappedContent_task, ?wrappedContent_input,
    ?wrappedContent_output, ?wrappedContent_insertCase,
    ?wrappedContent_branch, ?wrappedContent_try, ?wrappedContent_head,
    ?wrappedContent_count, ?wrappedContent_foot, ?wrappedContent_function,
    ?wrappedContent_switch.

Ltac wrapped_norm_in W :=
  rewrite ?wrappedContent_task, ?wrappedContent_input,
    ?wrappedContent_output, ?wrappedContent_insertCase,
    ?wrappedContent_branch, ?wrappedContent_try, ?wrappedContent_head,
    ?wrappedContent_count, ?wrappedContent_foot, ?wrappedContent_function,
    ?wrappedContent_switch in W.

Section WrapFacts.
Import Editor.
Variable clock : nat -> string.


(** What wrapping keeps and what it establishes. *)
Let keptContent (n n' : node) : Prop :=
  stripChain n' = stripChain n /\ wrappedContent n' = true.
Let keptChain (n n' : node) : Prop :=
  stripChain n' = stripChain n /\ wrappedChain n' = true.

Let wrapsWell (n : node) : Prop :=
  returns (wrapContent clock n) (keptContent n)
  /\ returns (wrapChain clock n) (keptChain n)
  /\ returns (wrapChain clock (follow n)) (keptChain (follow n)).

Lemma wrappedContent_not_null :
  forall n, wrappedContent n = true -> is_null n = false.
Proof. destruct n; intros H; [discriminate H | reflexivity..]. Qed.

Lemma newChain_kept : returns (newChain clock) (keptChain Null).
Proof.
  intros s. unfold newChain, newPlaceholder. done_ret. split; reflexivity.
Qed.

Lemma next_ok :
  forall x,
    returns (wrapChain clock x) (keptChain x) ->
    returns (if is_null x then newChain clock else wrapChain clock x) (keptChain x).
Proof.
  intros x H. destruct x; exact H.
Qed.

Lemma child_ok :
  forall x,
    returns (wrapChain clock x) (keptChain x) ->
    returns (if is_null x then ret x else wrapChain clock x)
            (fun x' => stripChain x' = stripChain x
                       /\ is_null x' || wrappedChain x' = true).
Proof.
  intros x H. destruct x; cbn [is_null].
  1: { intros s. unfold ret. do 2 eexists. split; [reflexivity |].
       split; reflexivity. }
  all: eapply returns_weaken; [exact H |];
    intros a [E W]; split; [exact E |]; rewrite W; apply orb_true_r.
Qed.

Lemma inner_ok :
  forall i x,
    returns (wrapContent clock x) (keptContent x) ->
    returns (bind (if is_null x then newPlaceholder clock
                   else wrapContent clock x)
                  (fun f' => ret (InsertNode i f')))
            (fun n' => keptContent (InsertNode i x) n'
                       /\ keptChain (InsertNode i x) n').
Proof.
  intros i x H s. destruct x; cbn [is_null].
  1: { unfold newPlaceholder. done_ret. repeat split. }
  all: run H; done_ret; destruct HQ as [E W];
    unfold keptContent, keptChain; cbn [stripChain wrappedContent wrappedChain];
    rewrite E, W, (wrappedContent_not_null _ W); repeat split.
Qed.

Lemma case_ok :
  forall c,
    returns (wrapChain clock c) (keptChain c) ->
    returns (wrapChain clock (follow c)) (keptChain (follow c)) ->
    returns match c with
            | InsertCase j u g =>
                bind (wrapChain clock g) (fun g' => ret (InsertCase j u g'))
            | _ => wrapChain clock c
            end
            (fun c' => stripCase c' = stripCase c
                       /\ wrappedCase c' = true).
Proof.
  intros c Hb Hc.
  destruct c; cbn [follow] in Hc;
    try (eapply returns_weaken; [exact Hb |];
         intros a [E W]; destruct a; try discriminate W;
         split; [exact E | exact W]).
  intros s. run Hc. done_ret. destruct HQ as [E W].
  cbn [stripCase wrappedCase]. rewrite E. auto.
Qed.

Lemma chain_of_content :
  forall n,
    is_content n = true ->
    returns (wrapContent clock n) (keptContent n) ->
    returns (wrapChain clock n) (keptChain n).
Proof.
  intros n Hc Ha s.
  destruct n; try discriminate Hc; unfold wrapChain; cbn [wrapChainWith].
  all: run Ha; done_ret; destruct HQ as [E W]; split;
    [ cbn [stripChain]; exact E
    | cbn [wrappedChain];
      rewrite W, (wrappedContent_not_null _ W); reflexivity ].
Qed.

Lemma wrapContent_kept : forall n, wrapsWell n.
Proof.
  induction n using node_induction.
  all: repeat match goal with
         | IH : wrapsWell _ |- _ => destruct IH as (? & ? & ?)
         end.
  all: repeat match goal with
         | H : returns (wrapChain clock ?x) (keptChain ?x) |- _ =>
             pose proof (next_ok x H);
             pose proof (child_ok x H);
             revert H
         end; intros.
  (* null, an InsertNode, a Placeholder *)
  1: { split; [| split; apply newChain_kept].
       intros s. cbn [wrapContent]. unfold newPlaceholder. done_ret.
       split; reflexivity. }
  1: { match goal with
       | H : returns (wrapContent clock n) _ |- _ =>
           pose proof (inner_ok i n H) as Hin
       end.
       split; [| split; [| assumption]];
         (eapply returns_weaken; [exact Hin |]);
         intros a [? ?]; assumption. }
  1: { split; [| split; [| assumption]]; intros s.
       - cbn [wrapContent]. unfold ret. do 2 eexists.
         split; [reflexivity |]. split; reflexivity.
       - unfold wrapChain. cbn [wrapChainWith]. done_ret.
         split; reflexivity. }
  (* the content nodes *)
  all: match goal with
       | |- wrapsWell ?n =>
           assert (Ha : returns (wrapContent clock n) (keptContent n));
           [| split; [exact Ha
                     | split; [apply chain_of_content; [reflexivity | exact Ha]
                              | cbn [follow]; assumption]]]
       end.
  all: intros s; cbn [wrapContent];
    change (wrapChainWith clock (wrapContent clock)) with (wrapChain clock).
  all: try (repeat match goal with
              | H : returns ?m _ |- context [bind ?m _ _] => run H
              end;
            done_ret; unfold keptContent, keptChain in *; strip_norm;
            repeat match goal with
              | H : _ /\ _ |- _ => destruct H
              end;
            split; [congruence |];
            wrapped_norm;
            repeat match goal with
              | H : _ = true |- _ => rewrite H; clear H
              end;
            reflexivity).
  (* the switch *)
  match goal with
  | |- context [bind (?F cs)] =>
      assert (Hcs : returns (F cs)
                      (fun cs' => map stripCase cs' = map stripCase cs
                                  /\ forallb wrappedCase cs' = true))
  end.
  { match goal with
    | HF : Forall _ cs |- _ => revert HF; clear
    end.
    intros HF.
    induction HF as [|c r Pc _ IHr]; intros s.
    - unfold ret. do 2 eexists. split; [reflexivity |]. split; reflexivity.
    - destruct Pc as (_ & Pb & Pf).
      pose proof (case_ok c Pb Pf) as Hc.
      run Hc. run IHr. done_ret.
      destruct HQ as [E1 W1]. destruct HQ0 as [E2 W2].
      cbn [map forallb]. rewrite E1, E2, W1, W2. split; reflexivity. }
  assert (Hdn : returns
                  (if is_null n1 then ret n1
                   else match n1 with
                        | InsertCase j u g =>
                            bind (wrapChain clock g)
                                 (fun g' => ret (InsertCase j u g'))
                        | _ => wrapChain clock n1
                        end)
                  (fun dn' => stripCase dn' = stripCase n1
                              /\ is_null dn' || wrappedCase dn' = true)).
  { destruct (is_null n1) eqn:En.
    - intros s0. unfold ret. do 2 eexists. split; [reflexivity |].
      rewrite En. split; reflexivity.
    - eapply returns_weaken; [apply case_ok; assumption |].
      intros a [E W]. rewrite W, orb_true_r. auto. }
  run Hcs. run Hdn.
  match goal with
  | H : returns ?m _ |- context [bind ?m _ _] => run H
  end.
  done_ret. unfold keptContent, keptChain in *. strip_norm.
  repeat match goal with
    | H : _ /\ _ |- _ => destruct H
    end.
  split; [congruence |].
  wrapped_norm.
  repeat match goal with
    | H : _ = true |- _ => rewrite H; clear H
    end.
  reflexivity.
Qed.

(** On a tree of the wrapped shape, wrapping changes nothing and draws no
    identifier. *)
Let fixedBy (n : node) : Prop :=
  (wrappedContent n = true -> forall s, wrapContent clock n s = Ok (n, s))
  /\ (wrappedChain n = true -> forall s, wrapChain clock n s = Ok (n, s))
  /\ (wrappedChain (follow n) = true ->
      forall s, wrapChain clock (follow n) s = Ok (follow n, s)).

Lemma wrappedChain_not_null :
  forall n, wrappedChain n = true -> is_null n = false.
Proof. destruct n; intros H; [discriminate H | reflexivity..]. Qed.

Lemma next_fixed :
  forall x s,
    (wrappedChain x = true -> forall s, wrapChain clock x s = Ok (x, s)) ->
    wrappedChain x = true ->
    (if is_null x then newChain clock else wrapChain clock x) s = Ok (x, s).
Proof.
  intros x s H W. rewrite (wrappedChain_not_null _ W). apply H. exact W.
Qed.

Lemma child_fixed :
  forall x s,
    (wrappedChain x = true -> forall s, wrapChain clock x s = Ok (x, s)) ->
    is_null x || wrappedChain x = true ->
    (if is_null x then ret x else wrapChain clock x) s = Ok (x, s).
Proof.
  intros x s H W. destruct (is_null x); [reflexivity |]. apply H. exact W.
Qed.

Lemma case_fixed :
  forall c s,
    (wrappedChain c = true -> forall s, wrapChain clock c s = Ok (c, s)) ->
    (wrappedChain (follow c) = true ->
     forall s, wrapChain clock (follow c) s = Ok (follow c, s)) ->
    wrappedCase c = true ->
    match c with
    | InsertCase j u g =>
        bind (wrapChain clock g) (fun g' => ret (InsertCase j u g'))
    | _ => wrapChain clock c
    end s = Ok (c, s).
Proof.
  intros c s Hb Hf W.
  destruct c; cbn [wrappedCase follow] in *; try (apply Hb; exact W).
  rewrite (bind_run _ _ _ _ s s _ (Hf W s)). reflexivity.
Qed.

Lemma wrapContent_fixed : forall n, fixedBy n.
Proof.
  induction n using node_induction.
  all: repeat match goal with
         | IH : fixedBy _ |- _ => destruct IH as (? & ? & ?)
         end.
  all: unfold fixedBy.
  all: split; [| split; [| cbn [follow];
                            first [assumption | intros W; discriminate W]]].
  all: try (intros W; discriminate W).
  all: intros W s; unfold wrapChain; cbn [wrapContent wrapChainWith];
    change (wrapChainWith clock (wrapContent clock)) with (wrapChain clock).
  all: try reflexivity.
  1, 2: cbn [wrappedContent wrappedChain] in W;
    apply andb_true_iff in W; destruct W as [Wn Wc];
    apply negb_true_iff in Wn; rewrite Wn;
    match goal with
    | Hx : wrappedContent ?x = true -> _ |- _ =>
        rewrite (bind_run _ _ _ _ s s x (Hx Wc s))
    end;
    reflexivity.
  all: wrapped_norm_in W.
  all: repeat match goal with
         | H : _ && _ = true |- _ =>
             apply andb_true_iff in H; destruct H
         end.
  all: repeat match goal with
         | Hx : wrappedChain ?x = true -> _, Wx : wrappedChain ?x = true
           |- context [bind (if is_null ?x then newChain clock
                             else wrapChain clock ?x) ?f ?s0] =>
             rewrite (bind_run _ _ _ f s0 s0 x (next_fixed x s0 Hx Wx));
             cbv beta
         | Hx : wrappedChain ?x = true -> _,
           Wx : is_null ?x || wrappedChain ?x = true
           |- context [bind (if is_null ?x then ret ?x
                             else wrapChain clock ?x) ?f ?s0] =>
             rewrite (bind_run _ _ _ f s0 s0 x (child_fixed x s0 Hx Wx));
             cbv beta
         end.
  all: try reflexivity.
  (* the switch *)
  match goal with
  | |- context [bind (?F cs)] =>
      assert (Hcs : forall s0, F cs s0 = Ok (cs, s0))
  end.
  { match goal with
    | HF : Forall _ cs, HW : forallb wrappedCase cs = true |- _ =>
        revert HF HW; clear
    end.
    intros HF HW.
    induction HF as [|c r Pc _ IHr]; intros s0; [reflexivity |].
    cbn [forallb] in HW. apply andb_true_iff in HW. destruct HW as [Wc Wr].
    destruct Pc as (_ & Pb & Pf).
    rewrite (bind_run _ _ _ _ s0 s0 c (case_fixed c s0 Pb Pf Wc)).
    cbv beta. rewrite (bind_run _ _ _ _ s0 s0 r (IHr Wr s0)).
    reflexivity. }
  rewrite (bind_run _ _ _ _ s s cs (Hcs s)). cbv beta.
  match goal with
  | Wd : is_null ?dn || wrappedCase ?dn = true |- _ =>
      assert (Hdn : (if is_null dn then ret dn
                     else match dn with
                          | InsertCase j u g =>
                              bind (wrapChain clock g)
                                   (fun g' => ret (InsertCase j u g'))
                          | _ => wrapChain clock dn
                          end) s = Ok (dn, s));
      [ destruct (is_null dn) eqn:En; [reflexivity |];
        apply case_fixed; try assumption; exact Wd
      | rewrite (bind_run _ _ _ _ s s dn Hdn); cbv beta ]
  end.
  match goal with
  | Hx : wrappedChain ?x = true -> _, Wx : wrappedChain ?x = true
    |- context [bind (if is_null ?x then newChain clock
                      else wrapChain clock ?x) ?f ?s0] =>
      rewrite (bind_run _ _ _ f s0 s0 x (next_fixed x s0 Hx Wx)); cbv beta
  end.
  reflexivity.
Qed.
Lemma wrapWithInsertNodes_chain :
  forall tree, wrapWithInsertNodes clock tree = wrapChain clock tree.
Proof. destruct tree; reflexivity. Qed.

(** X9.  [wrapWithInsertNodes] throws nothing and returns a chain of the
    wrapped shape: an InsertNode stands before every content node and at
    the head of every body, and no InsertNode is left without something
    after it.  Wrapping the result again returns it unchanged and draws
    no identifier, and stripping the result gives what stripping the
    tree gives: the markers [wrapWithInsertNodes] adds are the ones
    [stripInsertNodes] removes. *)
Theorem wrap_shape_and_idempotence :
  forall (tree : node) (s : nat),
    exists tree' s',
      wrapWithInsertNodes clock tree s = Ok (tree', s')
      /\ wrappedChain tree' = true
      /\ (forall s2, wrapWithInsertNodes clock tree' s2 = Ok (tree', s2))
      /\ stripInsertNodes tree' = stripInsertNodes tree.
Proof.
  intros tree s. rewrite wrapWithInsertNodes_chain.
  destruct (wrapContent_kept tree) as (_ & Hb & _).
  destruct (Hb s) as (tree' & s' & E & Hs & W).
  exists tree', s'. split; [exact E |]. split; [exact W |]. split.
  - intros s2. rewrite wrapWithInsertNodes_chain.
    destruct (wrapContent_fixed tree') as (_ & Hf & _). apply Hf. exact W.
  - assert (H : forall n, stripInsertNodes n = stripChain n)
      by (destruct n; reflexivity).
    rewrite !H. exact Hs.
Qed.

End WrapFacts.

(** ** Giving every node an identifier *)

Lemma forallb_nodes :
  forall (p : node -> bool) (n : node),
    forallb p (nodes n)
    = p n && forallb (fun x => forallb p (nodes x)) (subnodes n).
Proof.
  intros p n.
  destruct n; cbn [nodes subnodes forallb];
    rewrite ?forallb_app, ?forallb_flat_map, ?andb_true_r;
    cbn [forallb]; rewrite ?andb_true_r; reflexivity.
Qed.

Section EnsureIdsFacts.
Import Editor.
Variable clock : nat -> string.

Let walked (n : node) : Prop :=
  forall s, exists n' s',
    walk clock n s = Ok (n', s')
    /\ erase_ids n' = erase_ids n
    /\ allIdentified n' = true
    /\ (allIdentified n = true -> n' = n /\ s' = s).

Lemma ensureId_run :
  forall i s, exists i' s',
    ensureId clock i s = Ok (i', s')
    /\ falsy i' = false
    /\ (falsy i = false -> i' = i /\ s' = s).
Proof.
  intros i s. unfold ensureId. destruct (falsy i) eqn:Ei.
  - unfold bind, genId, ret. do 2 eexists. split; [reflexivity |].
    split; [reflexivity | discriminate].
  - unfold ret. do 2 eexists. split; [reflexivity |]. auto.
Qed.

Lemma allIdentified_unfold :
  forall n,
    allIdentified n = identified n && forallb allIdentified (subnodes n).
Proof. intros n. apply forallb_nodes. Qed.

Ltac walk_id :=
  match goal with
  | |- context [bind (ensureId clock ?i) ?f ?s] =>
      let i' := fresh "i'" in
      let s' := fresh "s" in
      let E := fresh "E" in
      let Hi := fresh "Hi" in
      let Hk := fresh "Hk" in
      destruct (ensureId_run i s) as (i' & s' & E & Hi & Hk);
      rewrite (bind_run _ _ _ f s s' i' E); clear E; cbv beta
  end.

Ltac walk_sub :=
  match goal with
  | IH : walked ?x |- context [bind (walk clock ?x) ?f ?s] =>
      let x' := fresh "x'" in
      let s' := fresh "s" in
      let E := fresh "E" in
      let He := fresh "He" in
      let Ha := fresh "Ha" in
      let Hk := fresh "Hk" in
      destruct (IH s) as (x' & s' & E & He & Ha & Hk);
      rewrite (bind_run _ _ _ f s s' x' E); clear E; cbv beta
  end.

Lemma walk_ok : forall n, walked n.
Proof.
  induction n using node_induction; intros s; cbn [walk].
  1: { unfold ret. do 2 eexists. split; [reflexivity |]. auto. }
  all: walk_id; repeat walk_sub.
  all: try (unfold ret; do 2 eexists; (split; [reflexivity |]);
            split; [cbn [erase_ids]; congruence |];
            split;
            [ rewrite allIdentified_unfold;
              cbn [subnodes forallb identified is_null node_id orb];
              rewrite Hi;
              repeat match goal with
                | H : allIdentified _ = true |- _ => rewrite H; clear H
                end;
              reflexivity
            | intros Hall; rewrite allIdentified_unfold in Hall;
              cbn [subnodes forallb identified is_null node_id orb] in Hall;
              repeat match goal with
                | H : _ && _ = true |- _ =>
                    apply andb_true_iff in H; destruct H
                end;
              match goal with
              | H : negb (falsy _) = true |- _ => apply negb_true_iff in H
              end;
              repeat match goal with
                | Hk : ?P -> _ /\ _, H : ?P |- _ =>
                    destruct (Hk H); clear Hk; subst
                end;
              split; reflexivity ]).
  (* the switch *)
  match goal with
  | |- context [bind (?F cs)] =>
      assert (Hcs : forall s0, exists cs' s',
                 F cs s0 = Ok (cs', s')
                 /\ map erase_ids cs' = map erase_ids cs
                 /\ forallb allIdentified cs' = true
                 /\ (forallb allIdentified cs = true ->
                     cs' = cs /\ s' = s0))
  end.
  { match goal with
    | HF : Forall _ cs |- _ => revert HF; clear
    end.
    intros HF.
    induction HF as [|c r Pc _ IHr]; intros s0.
    - unfold ret. do 2 eexists. split; [reflexivity |]. auto.
    - destruct (Pc s0) as (c' & s1 & E1 & He1 & Ha1 & Hk1).
      rewrite (bind_run _ _ _ _ s0 s1 c' E1). cbv beta.
      destruct (IHr s1) as (r' & s2 & E2 & He2 & Ha2 & Hk2).
      rewrite (bind_run _ _ _ _ s1 s2 r' E2). cbv beta.
      unfold ret. do 2 eexists. split; [reflexivity |].
      cbn [map forallb]. rewrite He1, He2, Ha1, Ha2.
      split; [reflexivity |]. split; [reflexivity |].
      intros Hall. apply andb_true_iff in Hall. destruct Hall as [Hc Hr].
      destruct (Hk1 Hc) as [-> ->]. destruct (Hk2 Hr) as [-> ->].
      split; reflexivity. }
  destruct (Hcs s1) as (cs' & s2 & E2 & He2 & Ha2 & Hk2).
  rewrite (bind_run _ _ _ _ s1 s2 cs' E2). cbv beta.
  walk_sub.
  unfold ret. do 2 eexists. split; [reflexivity |].
  split; [cbn [erase_ids]; congruence |].
  split.
  - rewrite allIdentified_unfold.
    cbn [subnodes forallb identified is_null node_id orb].
    rewrite Hi, forallb_app. cbn [forallb].
    repeat match goal with
      | H : allIdentified _ = true |- _ => rewrite H; clear H
      end.
    rewrite Ha2. reflexivity.
  - intros Hall. rewrite allIdentified_unfold in Hall.
    cbn [subnodes forallb identified is_null node_id orb] in Hall.
    rewrite forallb_app in Hall. cbn [forallb] in Hall.
    repeat match goal with
      | H : _ && _ = true |- _ =>
          apply andb_true_iff in H; destruct H
      end.
    match goal with
    | H : negb (falsy _) = true |- _ => apply negb_true_iff in H
    end.
    repeat match goal with
      | Hk : ?P -> _ /\ _, H : ?P |- _ =>
          destruct (Hk H); clear Hk; subst
      end.
    split; reflexivity.
Qed.

(** X10.  [ensureIds] throws nothing; the tree it returns has the nodes
    and texts of the given one (identifiers and column widths apart),
    every node of it carries an identifier that is not empty, and for a
    tree whose nodes all carry one already no identifier is drawn and
    none is changed: the tree returned is the given one, the column
    widths apart. *)
Theorem ensureIds_identifies :
  forall (tree : node) (s : nat),
    exists tree' s',
      ensureIds clock tree s = Ok (tree', s')
      /\ erase_ids (erase_widths tree') = erase_ids (erase_widths tree)
      /\ allIdentified tree' = true
      /\ (allIdentified tree = true ->
          erase_widths tree' = erase_widths tree /\ s' = s).
Proof.
  intros tree s.
  assert (H : ensureIds clock tree = walk clock tree)
    by (destruct tree; reflexivity).
  rewrite H.
  destruct (walk_ok tree s) as (tree' & s' & E & He & Ha & Hk).
  exists tree', s'. split; [exact E |]. split.
  - rewrite <- !erase_widths_ids, He. reflexivity.
  - split; [exact Ha |]. intros Hall.
    destruct (Hk Hall) as [-> ->]. split; reflexivity.
Qed.
End EnsureIdsFacts.

(** ** Finding a node and its place *)

Section FindFacts.
Import Editor.

(** The loops of [findNode] and of [findParent] over the cases of a
    switch agree: the first finds the node at the path the second
    returns. *)
Lemma find_cases_agree :
  forall (id : string) (i : option string) (t : string)
         (cw : option (list Q)) (d : bool) (dn f : node)
         (r pre : list node),
    Forall (fun c => forall id,
                findNode c id = option_map (getAt c) (findParent c id)) r ->
    (fix each (cs0 : list node) : option node :=
       match cs0 with
       | [] => None
       | c :: r => orElse (findNode c id) (each r)
       end) r
    = option_map (getAt (CaseNode i t cw d dn (pre ++ r) f))
        ((fix each (i0 : nat) (cs0 : list node) {struct cs0} : option path :=
            match cs0 with
            | [] => None
            | c :: r =>
                orElse (under (Kcases i0) (findParent c id)) (each (S i0) r)
            end) (length pre) r).
Proof.
  intros id i t cw d dn f r.
  induction r as [|c r IH]; intros pre HF; [reflexivity |].
  inversion HF as [|? ? Pc Pr]; subst.
  rewrite (Pc id).
  destruct (findParent c id) as [q|]; cbn [option_map under orElse].
  - cbn [getAt getKey]. rewrite nth_middle. reflexivity.
  - specialize (IH (pre ++ [c]) Pr).
    rewrite <- app_assoc in IH. cbn [app] in IH.
    rewrite length_app in IH. cbn [length] in IH.
    rewrite Nat.add_1_r in IH. exact IH.
Qed.

Lemma findNode_at_findParent :
  forall (T : node) (id : string),
    findNode T id = option_map (getAt T) (findParent T id).
Proof.
  induction T using node_induction; intros id.
  all: cbn [findNode findParent].
  all: destruct (has_id _ id); [reflexivity |].
  all: try reflexivity.
  all: repeat match goal with
         | IH : forall id, findNode ?x id = _ |- _ =>
             rewrite (IH id); clear IH
         end.
  all: try (repeat match goal with
              | |- context [findParent ?x ?j] => destruct (findParent x j)
              end; reflexivity).
  (* the switch *)
  match goal with
  | |- context [findParent ?f ?j] =>
      destruct (findParent f j) as [q|]; [reflexivity |]
  end.
  cbn [under option_map orElse].
  match goal with
  | HF : Forall _ ?cs |- context [CaseNode ?i ?t ?cw ?d ?dn ?cs ?f] =>
      rewrite (find_cases_agree id i t cw d dn f cs [] HF)
  end.
  cbn [app length].
  match goal with
  | |- context [orElse (option_map _ ?x)] => destruct x
  end; [reflexivity |].
  cbn [option_map orElse].
  match goal with
  | |- context [findParent ?dn ?j] => destruct (findParent dn j)
  end; reflexivity.
Qed.

End FindFacts.

(** ** Reading and writing at a path *)

Section PathFacts.
Import Editor.

Lemma nth_setNth :
  forall (cs : list node) (i : nat) (v : node),
    i < length cs -> nth i (setNth i cs v) Null = v.
Proof.
  induction cs as [|c r IH]; intros i v Hi; [simpl in Hi; lia |].
  destruct i as [|j]; [reflexivity |].
  cbn [setNth nth]. apply IH. simpl in Hi. lia.
Qed.

Lemma setNth_setNth :
  forall (cs : list node) (i : nat) (v w : node),
    setNth i (setNth i cs v) w = setNth i cs w.
Proof.
  induction cs as [|c r IH]; intros i v w; [destruct i; reflexivity |].
  destruct i as [|j]; [reflexivity |].
  cbn [setNth]. rewrite IH. reflexivity.
Qed.

Lemma setNth_nth :
  forall (cs : list node) (i : nat),
    i < length cs -> setNth i cs (nth i cs Null) = cs.
Proof.
  induction cs as [|c r IH]; intros i Hi; [destruct i; reflexivity |].
  destruct i as [|j]; [reflexivity |].
  cbn [setNth nth]. rewrite IH; [reflexivity | simpl in Hi; lia].
Qed.

Lemma setNth_length :
  forall (cs : list node) (i : nat) (v : node),
    length (setNth i cs v) = length cs.
Proof.
  induction cs as [|c r IH]; intros i v; [destruct i; reflexivity |].
  destruct i as [|j]; [reflexivity |].
  cbn [setNth length]. rewrite IH. reflexivity.
Qed.

Lemma getKey_setKey :
  forall (n : node) (k : key) (v : node),
    key_ok n k = true -> getKey (setKey n k v) k = v.
Proof.
  intros n k v Hok. destruct k; destruct n; try discriminate Hok.
  all: try reflexivity.
  cbn [key_ok] in Hok. apply Nat.ltb_lt in Hok.
  cbn [setKey getKey]. apply nth_setNth. exact Hok.
Qed.

Lemma setKey_setKey :
  forall (n : node) (k : key) (v w : node),
    setKey (setKey n k v) k w = setKey n k w.
Proof.
  intros n k v w. destruct k; destruct n; try reflexivity.
  cbn [setKey]. rewrite setNth_setNth. reflexivity.
Qed.

Lemma setKey_getKey :
  forall (n : node) (k : key),
    key_ok n k = true -> setKey n k (getKey n k) = n.
Proof.
  intros n k Hok. destruct k; destruct n; try discriminate Hok.
  all: try reflexivity.
  cbn [key_ok] in Hok. apply Nat.ltb_lt in Hok.
  cbn [setKey getKey]. rewrite setNth_nth; [reflexivity | exact Hok].
Qed.

Lemma key_ok_setKey :
  forall (n : node) (k : key) (v : node),
    key_ok (setKey n k v) k = key_ok n k.
Proof.
  intros n k v. destruct k; destruct n; try reflexivity.
  cbn [setKey key_ok]. rewrite setNth_length. reflexivity.
Qed.

(** What is written at a path of the tree is read back there. *)
Lemma getAt_setAt :
  forall (p : path) (n v : node),
    valid n p = true -> getAt (setAt n p v) p = v.
Proof.
  induction p as [|k r IH]; intros n v Hv; [reflexivity |].
  cbn [valid] in Hv. apply andb_true_iff in Hv. destruct Hv as [Hk Hr].
  cbn [setAt getAt]. rewrite (getKey_setKey _ _ _ Hk). apply IH. exact Hr.
Qed.

(** Of two writes at the same path the second one stays. *)
Lemma setAt_setAt :
  forall (p : path) (n v w : node),
    valid n p = true -> setAt (setAt n p v) p w = setAt n p w.
Proof.
  induction p as [|k r IH]; intros n v w Hv; [reflexivity |].
  cbn [valid] in Hv. apply andb_true_iff in Hv. destruct Hv as [Hk Hr].
  cbn [setAt]. rewrite (getKey_setKey _ _ _ Hk), setKey_setKey.
  rewrite (IH _ _ _ Hr). reflexivity.
Qed.

(** Writing back what is there changes nothing. *)
Lemma setAt_getAt :
  forall (p : path) (n : node),
    valid n p = true -> setAt n p (getAt n p) = n.
Proof.
  induction p as [|k r IH]; intros n Hv; [reflexivity |].
  cbn [valid] in Hv. apply andb_true_iff in Hv. destruct Hv as [Hk Hr].
  cbn [setAt getAt]. rewrite (IH _ Hr). apply setKey_getKey. exact Hk.
Qed.

Lemma valid_setAt :
  forall (p : path) (n v : node),
    valid n p = true -> valid (setAt n p v) p = true.
Proof.
  induction p as [|k r IH]; intros n v Hv; [reflexivity |].
  cbn [valid] in Hv. apply andb_true_iff in Hv. destruct Hv as [Hk Hr].
  cbn [setAt valid]. rewrite key_ok_setKey, Hk.
  rewrite (getKey_setKey _ _ _ Hk). cbn [andb]. apply IH. exact Hr.
Qed.

Lemma getAt_app :
  forall (p q : path) (n : node),
    getAt n (p ++ q) = getAt (getAt n p) q.
Proof.
  induction p as [|k r IH]; intros q n; [reflexivity |].
  cbn [app getAt]. apply IH.
Qed.

Lemma setAt_app :
  forall (p q : path) (n v : node),
    setAt n (p ++ q) v = setAt n p (setAt (getAt n p) q v).
Proof.
  induction p as [|k r IH]; intros q n v; [reflexivity |].
  cbn [app setAt getAt]. rewrite IH. reflexivity.
Qed.

Lemma valid_app :
  forall (p q : path) (n : node),
    valid n (p ++ q) = valid n p && valid (getAt n p) q.
Proof.
  induction p as [|k r IH]; intros q n; [reflexivity |].
  cbn [app valid getAt]. rewrite IH, andb_assoc. reflexivity.
Qed.

Lemma has_id_setKey :
  forall (n : node) (k : key) (v : node) (id : string),
    has_id (setKey n k v) id = has_id n id.
Proof. intros n k v id. destruct k; destruct n; reflexivity. Qed.

Lemma findParent_here :
  forall (v : node) (id : string),
    has_id v id = true -> findParent v id = Some [].
Proof. intros v id H. destruct v; cbn [findParent]; rewrite H; reflexivity. Qed.

Lemma findNode_here :
  forall (v : node) (id : string),
    has_id v id = true -> findNode v id = Some v.
Proof. intros v id H. destruct v; cbn [findNode]; rewrite H; reflexivity. Qed.

(** The loop of [findParent] over the cases, after the entry it stopped
    at has been written to. *)
Lemma findParent_cases_written :
  forall (id : string) (v : node) (r : list node) (i : nat) (p : path),
    Forall (fun c => forall id p v,
                findParent c id = Some p -> has_id v id = true ->
                findParent (setAt c p v) id = Some p) r ->
    has_id v id = true ->
    (fix each (i0 : nat) (cs0 : list node) {struct cs0} : option path :=
       match cs0 with
       | [] => None
       | c :: r =>
           orElse (under (Kcases i0) (findParent c id)) (each (S i0) r)
       end) i r = Some p ->
    exists j q,
      p = Kcases (i + j) :: q
      /\ (fix each (i0 : nat) (cs0 : list node) {struct cs0} : option path :=
            match cs0 with
            | [] => None
            | c :: r =>
                orElse (under (Kcases i0) (findParent c id)) (each (S i0) r)
            end) i (setNth j r (setAt (nth j r Null) q v)) = Some p.
Proof.
  intros id v. induction r as [|c r IH]; intros i p HF Hv H; [discriminate |].
  inversion HF as [|? ? Pc Pr]; subst.
  apply orElse_Some in H. destruct H as [H | [Hn H]].
  - apply under_Some in H. destruct H as (q & Hq & ->).
    exists 0, q. rewrite Nat.add_0_r. split; [reflexivity |].
    cbn [setNth nth]. rewrite (Pc id q v Hq Hv). reflexivity.
  - destruct (IH (S i) p Pr Hv H) as (j & q & -> & Hq).
    exists (S j), q. split; [rewrite Nat.add_succ_r; reflexivity |].
    cbn [setNth nth]. rewrite Hn. cbn [orElse]. exact Hq.
Qed.

(** A node written where an identifier was found, and carrying that
    identifier itself, is found at the same place. *)
Lemma findParent_written :
  forall (T : node) (id : string) (p : path) (v : node),
    findParent T id = Some p -> has_id v id = true ->
    findParent (setAt T p v) id = Some p.
Proof.
  induction T using node_induction; intros id p v.
  all: cbn [findParent].
  all: destruct (has_id _ id) eqn:Hid;
    [intros [= <-] Hv; cbn [setAt]; apply findParent_here; exact Hv |].
  all: try discriminate.
  all: intros Hp Hv.
  all: repeat match goal with
         | H : orElse _ _ = Some _ |- _ =>
             apply orElse_Some in H; destruct H as [H | [? H]]
         end.
  all: try match goal with
         | H : under _ (findParent _ _) = Some _ |- _ =>
             apply under_Some in H; destruct H as (q & Hq & ->);
             cbn [setAt setKey getKey follow setFollow findParent];
             unfold has_id in Hid |- *; cbn [node_id] in Hid |- *; rewrite Hid;
             repeat match goal with
               | IH : forall id p v, findParent ?x id = Some p -> _,
                 Hx : findParent ?x _ = Some _ |- _ =>
                   rewrite (IH _ _ v Hx Hv); clear Hx
               | Hn : _ = None |- _ => rewrite Hn; clear Hn
               end;
             reflexivity
         end.
  (* the cases of a switch *)
  match goal with
  | HF : Forall _ _ |- _ =>
      destruct (findParent_cases_written _ v _ 0 _ HF Hv Hp)
        as (j & q & -> & Hq)
  end.
  cbn [Nat.add] in *.
  cbn [setAt setKey getKey findParent].
  unfold has_id in Hid |- *. cbn [node_id] in Hid |- *. rewrite Hid.
  match goal with Hn : _ = None |- _ => rewrite Hn end.
  cbn [orElse]. rewrite Hq. reflexivity.
Qed.

Lemma findNode_written :
  forall (T : node) (id : string) (p : path) (v : node),
    findParent T id = Some p -> has_id v id = true ->
    findNode (setAt T p v) id = Some v.
Proof.
  intros T id p v Hp Hv.
  rewrite findNode_at_findParent, (findParent_written T id p v Hp Hv).
  cbn [option_map]. f_equal. apply getAt_setAt.
  apply (findParent_sound T id p Hp).
Qed.

End PathFacts.

(** ** The operations of the editor *)

Section OperationFacts.
Import Editor.

Lemma present_occurs :
  forall (T : node) (id : string),
    present T id = true <-> 1 <= occurrences (carries id) T.
Proof.
  intros T id. split; intros H.
  - unfold present in H. apply existsb_exists in H.
    destruct H as (m & Hin & Hm). exact (occurrences_In _ T m Hin Hm).
  - destruct (present T id) eqn:E; [reflexivity |].
    apply occurrences_zero in E. lia.
Qed.

Lemma found_not_null :
  forall (T : node) (id : string) (n : node),
    findNode T id = Some n -> is_null T = false.
Proof. intros T id n H. destruct T; [discriminate H | reflexivity ..]. Qed.

Lemma cloned_fresh :
  forall (T R : node), is_null T = false -> cloned T R = Fresh R.
Proof. intros T R H. unfold cloned. rewrite H. reflexivity. Qed.

(** Where [findNode] finds a node, [findParent] finds its place. *)
Lemma found_place :
  forall (T : node) (id : string) (n : node),
    findNode T id = Some n ->
    exists p, findParent T id = Some p /\ getAt T p = n
              /\ valid T p = true /\ has_id n id = true.
Proof.
  intros T id n H. rewrite findNode_at_findParent in H.
  destruct (findParent T id) as [p|] eqn:E; [| discriminate H].
  injection H as H. exists p.
  destruct (findParent_sound T id p E) as [Hv Hid].
  rewrite H in Hid. auto.
Qed.

Lemma setText_setText :
  forall (n : node) (a b : string), setText (setText n a) b = setText n b.
Proof. intros n a b. destruct n; reflexivity. Qed.

Lemma has_id_setText :
  forall (n : node) (a id : string), has_id (setText n a) id = has_id n id.
Proof. intros n a id. destruct n; reflexivity. Qed.

Lemma editText_run :
  forall (T : node) (id txt : string) (s : nat) (p : path),
    findParent T id = Some p ->
    editText T id txt s
    = Ok (Fresh (setAt T p (setText (getAt T p) txt)), s).
Proof.
  intros T id txt s p Hp. unfold editText, cloneTree.
  rewrite findNode_at_findParent, Hp. cbn [option_map].
  assert (Hn : is_null T = false).
  { destruct T; [discriminate Hp | reflexivity ..]. }
  unfold ret. rewrite (cloned_fresh _ _ Hn). reflexivity.
Qed.

End OperationFacts.

(** X11.  [findNode] and [findParent] look at the nodes in the same order:
    the node the first returns is the one at the place the second
    returns, that place exists in the tree and its node carries the
    identifier, and both return nothing exactly when no node of the tree
    carries the identifier. *)
Theorem findNode_findParent_agree :
  forall (T : node) (id : string),
    Editor.findNode T id
    = option_map (Editor.getAt T) (Editor.findParent T id)
    /\ (forall p, Editor.findParent T id = Some p ->
                  valid T p = true
                  /\ Editor.has_id (Editor.getAt T p) id = true)
    /\ (Editor.findNode T id = None <-> present T id = false).
Proof.
  intros T id. split; [apply findNode_at_findParent |].
  split; [intros p; apply findParent_sound |].
  split; [| apply absent_not_found].
  intros H. destruct (present T id) eqn:E; [| reflexivity].
  apply present_occurs in E. apply occurring_found in E.
  destruct E as [p Hp].
  apply findNode_findParent_None in H. congruence.
Qed.

(** X12.  [editText] on the identifier of a node that is no InsertNode and
    no Placeholder returns a new tree: the input with the first node that
    carries the identifier replaced by itself with the new text.  The
    node keeps its identifier, type and sub-nodes, it is what [findNode]
    returns for the identifier afterwards, and of two edits of the same
    identifier only the second one shows. *)
Theorem editText_sets_text :
  forall (T : node) (id txt : string) (s : nat) (n : node),
    Editor.findNode T id = Some n ->
    is_marker n = false ->
    exists p,
      Editor.findParent T id = Some p
      /\ Editor.getAt T p = n
      /\ Editor.editText T id txt s
         = Ok (Editor.Fresh (Editor.setAt T p (Editor.setText n txt)), s)
      /\ Editor.findNode (Editor.setAt T p (Editor.setText n txt)) id
         = Some (Editor.setText n txt)
      /\ Editor.textOf (Editor.setText n txt) = txt
      /\ node_id (Editor.setText n txt) = node_id n
      /\ Editor.typeName (Editor.setText n txt) = Editor.typeName n
      /\ subnodes (Editor.setText n txt) = subnodes n
      /\ forall txt2,
           Editor.editText (Editor.setAt T p (Editor.setText n txt))
                           id txt2 s
           = Editor.editText T id txt2 s.
Proof.
  intros T id txt s n Hfind Hm.
  destruct (found_place T id n Hfind) as (p & Hp & Hget & Hv & Hid).
  assert (Hid' : Editor.has_id (Editor.setText n txt) id = true)
    by (rewrite has_id_setText; exact Hid).
  exists p. split; [exact Hp |]. split; [exact Hget |].
  split; [rewrite (editText_run T id txt s p Hp), Hget; reflexivity |].
  split; [apply findNode_written; assumption |].
  split; [destruct n; try reflexivity; try discriminate Hm; discriminate Hid |].
  split; [destruct n; reflexivity |].
  split; [destruct n; reflexivity |].
  split; [destruct n; reflexivity |].
  intros txt2.
  rewrite (editText_run _ id txt2 s p (findParent_written T id p _ Hp Hid')).
  rewrite (editText_run T id txt2 s p Hp).
  rewrite (getAt_setAt p T _ Hv), (setAt_setAt p T _ _ Hv).
  rewrite setText_setText, Hget. reflexivity.
Qed.

(** The second statement of a chain of two is given a new text. *)
Lemma editText_sets_text_witness :
  let n := TaskNode (Some "b") "y = 2"
             (InsertNode (Some "i2") (Placeholder (Some "end") Null)) in
  let n' := Editor.setText n "y = 3" in
  exists p,
    Editor.findParent twoStatements "b" = Some p
    /\ Editor.getAt twoStatements p = n
    /\ Editor.editText twoStatements "b" "y = 3" 0
       = Ok (Editor.Fresh (Editor.setAt twoStatements p n'), 0)
    /\ Editor.findNode (Editor.setAt twoStatements p n') "b" = Some n'
    /\ Editor.textOf n' = "y = 3"
    /\ node_id n' = node_id n
    /\ Editor.typeName n' = Editor.typeName n
    /\ subnodes n' = subnodes n
    /\ forall txt2,
         Editor.editText (Editor.setAt twoStatements p n') "b" txt2 0
         = Editor.editText twoStatements "b" txt2 0.
Proof.
  exact (editText_sets_text twoStatements "b" "y = 3" 0 _ eq_refl eq_refl).
Defined.

Section RemoveFacts.
Import Editor.

Lemma found_inner :
  forall (T : node) (id : string) (p : path),
    has_id T id = false -> findParent T id = Some p -> p <> [].
Proof.
  intros T id p Hroot Hp ->.
  destruct (findParent_sound T id [] Hp) as [_ H]. cbn [getAt] in H.
  congruence.
Qed.

Lemma removeNode_run :
  forall (T : node) (id : string) (s : nat) (p : path),
    has_id T id = false -> findParent T id = Some p ->
    removeNode T id s = Ok (Fresh (detached T p), s).
Proof.
  intros T id s p Hroot Hp.
  pose proof (found_inner T id p Hroot Hp) as Hne.
  destruct (findParent_sound T id p Hp) as [Hv Hid].
  assert (Hn : is_null T = false).
  { destruct T; [discriminate Hp | reflexivity ..]. }
  assert (Hsrc : is_null (getAt T p) = false).
  { destruct (getAt T p); [discriminate Hid | reflexivity ..]. }
  unfold removeNode, cloneTree. rewrite Hp. unfold bind.
  rewrite (readSlot_inner T p s Hne), Hsrc.
  rewrite (writeSlot_inner T p _ s Hne).
  unfold ret. rewrite (cloned_fresh _ _ Hn). reflexivity.
Qed.

(** Taking a node out of the tree takes out one carrier of every
    property the node has, and adds none. *)
Lemma detached_count :
  forall (P : node -> bool) (T : node) (p : path),
    (forall n k v, P (setKey n k v) = P n) ->
    P (Placeholder None Null) = false -> P Null = false ->
    valid T p = true -> getAt T p <> Null ->
    occurrences P (detached T p) + (if P (getAt T p) then 1 else 0)
    <= occurrences P T.
Proof.
  intros P T p Hsh HP HN Hv Hne. unfold detached.
  pose proof (occ_setAt P Hsh p T (followOrPlaceholder (getAt T p)) Hv).
  pose proof (occ_getAt_le P p T Hv).
  pose proof (occurrences_followOrPlaceholder P (getAt T p) HP HN Hne).
  lia.
Qed.

End RemoveFacts.

(** X13.  [removeNode] on an identifier that some node below the root
    carries returns a new tree in which the first such node is replaced
    by what followed it (a Placeholder when nothing did).  The identifier
    has one carrier less, so it is gone when it was carried once, and no
    identifier has more carriers than before. *)
Theorem removeNode_takes_out :
  forall (T : node) (id : string) (s : nat),
    Editor.has_id T id = false ->
    present T id = true ->
    exists p,
      Editor.findParent T id = Some p
      /\ Editor.removeNode T id s = Ok (Editor.Fresh (detached T p), s)
      /\ Editor.getAt (detached T p) p
         = Editor.followOrPlaceholder (Editor.getAt T p)
      /\ occurrences (carries id) (detached T p)
         < occurrences (carries id) T
      /\ (occurrences (carries id) T = 1 ->
          Editor.findNode (detached T p) id = None)
      /\ forall j, occurrences (carries j) (detached T p)
                   <= occurrences (carries j) T.
Proof.
  intros T id s Hroot Hpres.
  apply present_occurs in Hpres.
  destruct (occurring_found T id Hpres) as [p Hp].
  destruct (findParent_sound T id p Hp) as [Hv Hid].
  pose proof (has_id_not_null _ _ Hid) as Hne.
  assert (Hcount : forall j,
             occurrences (carries j) (detached T p)
             + (if carries j (Editor.getAt T p) then 1 else 0)
             <= occurrences (carries j) T).
  { intros j. apply detached_count; auto using carries_shallow. }
  exists p. split; [exact Hp |].
  split; [apply removeNode_run; assumption |].
  split; [apply getAt_setAt; exact Hv |].
  pose proof (Hcount id) as Hc. unfold carries at 2 in Hc.
  rewrite Hid in Hc.
  split; [lia |].
  split.
  - intros H1. apply absent_not_found. apply occurrences_zero. lia.
  - intros j. specialize (Hcount j).
    destruct (carries j (Editor.getAt T p)); lia.
Qed.

(** The first statement of a chain of two is removed. *)
Lemma removeNode_takes_out_witness :
  exists p,
    Editor.findParent twoStatements "a" = Some p
    /\ Editor.removeNode twoStatements "a" 0
       = Ok (Editor.Fresh (detached twoStatements p), 0)
    /\ Editor.getAt (detached twoStatements p) p
       = Editor.followOrPlaceholder (Editor.getAt twoStatements p)
    /\ occurrences (carries "a") (detached twoStatements p)
       < occurrences (carries "a") twoStatements
    /\ (occurrences (carries "a") twoStatements = 1 ->
        Editor.findNode (detached twoStatements p) "a" = None)
    /\ forall j, occurrences (carries j) (detached twoStatements p)
                 <= occurrences (carries j) twoStatements.
Proof.
  exact (removeNode_takes_out twoStatements "a" 0 eq_refl eq_refl).
Defined.

Section RootFacts.
Import Editor.
Variable clock : nat -> string.

(** [createNode] throws nothing; the node it returns is an object that
    carries the first identifier drawn and is followed by nothing. *)
Lemma createNode_run :
  forall (type : string) (s : nat),
    exists n s',
      createNode clock type s = Ok (n, s')
      /\ node_id n = Some (edId clock (S s))
      /\ is_null n = false
      /\ follow n = Null.
Proof.
  intros type s.
  unfold createNode, bind, genId, emptyCase, emptyChain, ret.
  cbv beta iota.
  repeat match goal with
         | |- context [if String.eqb type ?x then _ else _] =>
             destruct (String.eqb type x)
         end.
  all: eexists; eexists; split; [reflexivity |].
  all: repeat split.
Qed.

Lemma root_place :
  forall (T : node) (id : string),
    has_id T id = true -> findParent T id = Some [].
Proof. intros; apply findParent_here; assumption. Qed.

End RootFacts.

(** X14.  An operation aimed at the identifier of the root throws a
    TypeError, as the place [findParent] reports for the root has no
    parent object: [removeNode] always, [moveNode] for every target with
    another identifier, and [insertAt] when the root is a Placeholder. *)
Theorem root_operations_throw :
  forall (clock : nat -> string) (T : node) (id : string) (s : nat),
    Editor.has_id T id = true ->
    Editor.removeNode T id s = Throw TypeError
    /\ (forall t, id <> t -> Editor.moveNode T id t s = Throw TypeError)
    /\ (Editor.typeName T = "Placeholder" ->
        forall type, Editor.insertAt clock T id type s = Throw TypeError).
Proof.
  intros clock T id s Hid.
  pose proof (root_place T id Hid) as Hp.
  split; [| split].
  - unfold Editor.removeNode, Editor.cloneTree. rewrite Hp. reflexivity.
  - intros t Hne. unfold Editor.moveNode, Editor.cloneTree.
    rewrite (proj2 (String.eqb_neq id t) Hne), Hp. reflexivity.
  - intros Hty type.
    unfold Editor.insertAt, Editor.cloneTree.
    rewrite (findNode_here T id Hid), Hp.
    destruct (createNode_run clock type s) as (n & s' & Hn & _).
    unfold Editor.bind at 1. rewrite Hn.
    destruct T; try discriminate Hty. reflexivity.
Qed.

(** An InsertNode at the root, addressed by its own identifier. *)
Lemma root_operations_throw_witness :
  Editor.removeNode rootedAtSource "s" 0 = Throw TypeError
  /\ (forall t, "s" <> t ->
                Editor.moveNode rootedAtSource "s" t 0 = Throw TypeError)
  /\ (Editor.typeName rootedAtSource = "Placeholder" ->
      forall type,
        Editor.insertAt stillClock rootedAtSource "s" type 0
        = Throw TypeError).
Proof.
  exact (root_operations_throw stillClock rootedAtSource "s" 0 eq_refl).
Defined.

Section AbsentFacts.
Import Editor.

Lemma absent_place :
  forall (T : node) (id : string),
    present T id = false -> findParent T id = None.
Proof.
  intros T id H. apply findNode_findParent_None, absent_not_found, H.
Qed.

Lemma absent_flat_map :
  forall (id : string) (cs : list node),
    existsb (carries id) (flat_map nodes cs) = false ->
    Forall (fun c => present c id = false) cs.
Proof.
  intros id. induction cs as [|c r IH]; intros H; constructor.
  - cbn [flat_map] in H. apply existsb_app_false in H. apply H.
  - apply IH. cbn [flat_map] in H. apply existsb_app_false in H. apply H.
Qed.

(** An identifier no node of the tree carries is carried neither by the
    root nor below any of its sub-nodes. *)
Lemma absent_parts :
  forall (T : node) (id : string),
    present T id = false ->
    has_id T id = false
    /\ Forall (fun c => present c id = false) (subnodes T).
Proof.
  intros T id H. unfold present in H.
  destruct T; cbn [nodes existsb] in H.
  all: apply orb_false_iff in H; destruct H as [Hid H].
  all: split; [exact Hid |]; cbn [subnodes].
  all: rewrite ?existsb_app_false in H.
  all: repeat match goal with
         | H : _ /\ _ |- _ => destruct H
         end.
  all: repeat constructor; try assumption.
  (* the cases and the default case of a switch *)
  apply Forall_app. split; [apply absent_flat_map; assumption |].
  repeat constructor. assumption.
Qed.

Lemma option_map_app_nil :
  forall (x : option path), option_map (app []) x = x.
Proof. intros [q|]; reflexivity. Qed.

Lemma under_map :
  forall (k : key) (r : path) (x : option path),
    under k (option_map (app r) x) = option_map (app (k :: r)) x.
Proof. intros k r [q|]; reflexivity. Qed.

Lemma findParent_cases_none :
  forall (id : string) (cs : list node) (n : nat),
    Forall (fun c => present c id = false) cs ->
    (fix each (i0 : nat) (cs0 : list node) {struct cs0} : option path :=
       match cs0 with
       | [] => None
       | c :: r =>
           orElse (under (Kcases i0) (findParent c id)) (each (S i0) r)
       end) n cs = None.
Proof.
  intros id cs n HF. revert n.
  induction HF as [|c r Hc Hr IHr]; intros n; [reflexivity |].
  rewrite (absent_place _ _ Hc). cbn [under option_map orElse].
  apply IHr.
Qed.

(** The loop of [findParent] over cases none of which holds the
    identifier, after one entry has been written to. *)
Lemma findParent_cases_absent :
  forall (id : string) (w : node) (cs : list node) (i j : nat),
    Forall (fun c => present c id = false) cs ->
    j < length cs ->
    (fix each (i0 : nat) (cs0 : list node) {struct cs0} : option path :=
       match cs0 with
       | [] => None
       | c :: r =>
           orElse (under (Kcases i0) (findParent c id)) (each (S i0) r)
       end) i (setNth j cs w)
    = under (Kcases (i + j)) (findParent w id).
Proof.
  intros id w. induction cs as [|c r IH]; intros i j HF Hj;
    [simpl in Hj; lia |].
  inversion HF as [|? ? Pc Pr]; subst.
  destruct j as [|j]; cbn [setNth].
  - rewrite Nat.add_0_r.
    rewrite (findParent_cases_none id r (S i) Pr).
    destruct (findParent w id); reflexivity.
  - rewrite (absent_place _ _ Pc). cbn [under option_map orElse].
    simpl in Hj.
    rewrite (IH (S i) j Pr ltac:(lia)), Nat.add_succ_r. reflexivity.
Qed.

(** In a tree no node of which carries the identifier, after a write at
    a place of the tree, the identifier is found where it is found in
    what was written, below that place. *)
Lemma findParent_absent_written :
  forall (id : string) (v : node) (p : path) (T : node),
    present T id = false -> valid T p = true ->
    findParent (setAt T p v) id = option_map (app p) (findParent v id).
Proof.
  intros id v. induction p as [|k r IH]; intros T Habs Hv.
  - cbn [setAt]. rewrite option_map_app_nil. reflexivity.
  - cbn [valid] in Hv. apply andb_true_iff in Hv. destruct Hv as [Hk Hr].
    destruct (absent_parts T id Habs) as [Hid HF].
    cbn [setAt].
    destruct k; destruct T; try discriminate Hk.
    all: cbn [subnodes] in HF.
    all: try (apply Forall_cons_iff in HF; destruct HF as [Hf HF]).
    all: repeat match goal with
           | H : Forall _ (_ :: _) |- _ =>
               let H1 := fresh "Hs" in
               apply Forall_cons_iff in H; destruct H as [H1 H]
           end.
    all: cbn [getKey follow] in Hr |- *.
    all: cbn [setKey setFollow findParent].
    all: unfold has_id in Hid |- *; cbn [node_id] in Hid |- *; rewrite Hid.
    all: try (rewrite (IH _ Hf Hr)).
    all: repeat match goal with
           | H : present ?x ?j = false |- context [findParent ?x ?j] =>
               rewrite (absent_place x j H)
           end.
    all: rewrite ?under_map.
    all: try (destruct (findParent v id); reflexivity).
    all: try (match goal with
              | H : present ?x _ = false |- context [setAt ?x _ _] =>
                  rewrite (IH x H Hr)
              end;
              rewrite ?under_map;
              repeat match goal with
                | H : present ?x ?j = false |- context [findParent ?x ?j] =>
                    rewrite (absent_place x j H)
                end;
              destruct (findParent v id); reflexivity).
    + (* what follows a switch *)
      apply Forall_app in HF. destruct HF as [Hcs Hdn].
      apply Forall_cons_iff in Hdn. destruct Hdn as [Hd _].
      rewrite (findParent_cases_none id cases 0 Hcs).
      rewrite (absent_place _ _ Hd).
      destruct (findParent v id); reflexivity.
    + (* an entry of [cases] *)
      cbn [key_ok] in Hk. apply Nat.ltb_lt in Hk.
      apply Forall_app in HF. destruct HF as [Hcs Hdn].
      cbn [under option_map orElse].
      rewrite (findParent_cases_absent id
                 (setAt (nth index cases Null) r v) cases 0 index Hcs Hk).
      cbn [Nat.add].
      rewrite Forall_forall in Hcs.
      rewrite (IH _ (Hcs _ (nth_In cases Null Hk)) Hr).
      rewrite under_map.
      apply Forall_cons_iff in Hdn. destruct Hdn as [Hd _].
      rewrite (absent_place _ _ Hd).
      destruct (findParent v id); reflexivity.
    + (* the default case *)
      apply Forall_app in HF. destruct HF as [Hcs Hdn].
      apply Forall_cons_iff in Hdn. destruct Hdn as [Hd _].
      cbn [under option_map orElse].
      rewrite (findParent_cases_none id cases 0 Hcs). cbn [orElse].
      rewrite (IH _ Hd Hr), under_map.
      destruct (findParent v id); reflexivity.
Qed.

End AbsentFacts.

Section InsertFacts.
Import Editor.

Lemma absent_at :
  forall (T : node) (id : string) (p : path),
    present T id = false -> valid T p = true ->
    present (getAt T p) id = false.
Proof.
  intros T id p Habs Hv. unfold present in *.
  apply occurrences_zero. apply occurrences_zero in Habs.
  pose proof (occ_getAt_le (carries id) p T Hv). lia.
Qed.

Lemma removeNode_at :
  forall (T : node) (id : string) (s : nat) (p : path),
    p <> [] -> findParent T id = Some p ->
    removeNode T id s = Ok (Fresh (detached T p), s).
Proof.
  intros T id s p Hne Hp.
  destruct (findParent_sound T id p Hp) as [Hv Hid].
  assert (Hn : is_null T = false).
  { destruct T; [discriminate Hp | reflexivity ..]. }
  assert (Hsrc : is_null (getAt T p) = false).
  { destruct (getAt T p); [discriminate Hid | reflexivity ..]. }
  unfold removeNode, cloneTree. rewrite Hp. unfold bind.
  rewrite (readSlot_inner T p s Hne), Hsrc.
  rewrite (writeSlot_inner T p _ s Hne).
  unfold ret. rewrite (cloned_fresh _ _ Hn). reflexivity.
Qed.

Lemma has_id_setFollow :
  forall (n f : node) (id : string),
    has_id (setFollow n f) id = has_id n id.
Proof. intros n f id. destruct n; reflexivity. Qed.

Lemma follow_setFollow :
  forall (n f : node), is_null n = false -> follow (setFollow n f) = f.
Proof. intros n f H. destruct n; [discriminate H | reflexivity ..]. Qed.

Lemma followOrPlaceholder_follow :
  forall (n : node),
    is_null (follow n) = false -> followOrPlaceholder n = follow n.
Proof.
  intros n H. unfold followOrPlaceholder.
  destruct (follow n); [discriminate H | reflexivity ..].
Qed.

Lemma has_id_own :
  forall (n : node) (id : string), node_id n = Some id -> has_id n id = true.
Proof. intros n id H. unfold has_id. rewrite H. apply String.eqb_refl. Qed.

Lemma insertAt_run :
  forall (clock : nat -> string) (T : node) (t type : string) (s : nat)
         (i : option string) (f : node) (p : path) (n : node) (s' : nat),
    findParent T t = Some p -> getAt T p = InsertNode i f ->
    createNode clock type s = Ok (n, s') ->
    insertAt clock T t type s
    = Ok (Fresh (setAt T p (InsertNode i (setFollow n f))), s').
Proof.
  intros clock T t type s i f p n s' Hp Hget Hn.
  assert (HT : is_null T = false).
  { destruct T; [discriminate Hp | reflexivity ..]. }
  unfold insertAt, cloneTree.
  rewrite findNode_at_findParent, Hp. cbn [option_map]. rewrite Hget.
  unfold bind. rewrite Hn. unfold ret.
  rewrite (cloned_fresh _ _ HT). reflexivity.
Qed.

(** Removing the node that was put after an InsertNode gives the tree
    back, when the identifier of the node was new to the tree and the
    InsertNode was followed by something. *)
Lemma insert_undone :
  forall (T : node) (p : path) (i : option string) (f n : node)
         (id : string) (s : nat),
    valid T p = true -> getAt T p = InsertNode i f ->
    present T id = false -> is_null f = false ->
    node_id n = Some id -> is_null n = false ->
    removeNode (setAt T p (InsertNode i (setFollow n f))) id s
    = Ok (Fresh T, s).
Proof.
  intros T p i f n id s Hv Hget Habs Hf Hn Hnn.
  set (v := InsertNode i (setFollow n f)).
  pose proof (absent_at T id p Habs Hv) as Hat. rewrite Hget in Hat.
  destruct (absent_parts _ _ Hat) as [Hi _].
  assert (Hfound : findParent (setAt T p v) id = Some (p ++ [KfollowElement])).
  { rewrite (findParent_absent_written id v p T Habs Hv).
    unfold v. cbn [findParent].
    change (has_id (InsertNode i (setFollow n f)) id)
      with (has_id (InsertNode i f) id).
    rewrite Hi.
    rewrite (findParent_here (setFollow n f) id).
    - reflexivity.
    - rewrite has_id_setFollow. apply has_id_own. exact Hn. }
  assert (Hne : p ++ [KfollowElement] <> [])
    by (intros E; destruct p; discriminate E).
  rewrite (removeNode_at _ id s _ Hne Hfound).
  unfold detached.
  rewrite getAt_app, setAt_app, (getAt_setAt p T v Hv).
  subst v. cbn [getAt getKey follow setAt setKey setFollow].
  rewrite followOrPlaceholder_follow;
    rewrite (follow_setFollow n f Hnn); [| exact Hf].
  rewrite (setAt_setAt p T _ _ Hv), <- Hget, (setAt_getAt p T Hv).
  reflexivity.
Qed.

End InsertFacts.

(** X15.  [insertAt] on the identifier of an InsertNode puts a new node of
    the asked type right after it, before what followed the InsertNode,
    and draws the node's identifier from the counter.  When no node of
    the tree carried that identifier and the InsertNode was followed by
    something, [removeNode] on the new identifier gives back the tree as
    it was, the column widths apart (each operation works on a copy read
    back from a JSON text, which does not keep a width that is not a
    finite number). *)
Theorem insertAt_then_removeNode :
  forall (clock : nat -> string) (T : node) (t type : string) (s : nat)
         (i : option string) (f : node),
    Editor.findNode T t = Some (InsertNode i f) ->
    exists p n s',
      Editor.findParent T t = Some p
      /\ Editor.createNode clock type s = Ok (n, s')
      /\ node_id n = Some (edId clock (S s))
      /\ Editor.insertAt clock T t type s
         = Ok (Editor.Fresh
                 (Editor.setAt T p (InsertNode i (Editor.setFollow n f))),
               s')
      /\ Editor.findNode
           (Editor.setAt T p (InsertNode i (Editor.setFollow n f))) t
         = Some (InsertNode i (Editor.setFollow n f))
      /\ follow (Editor.setFollow n f) = f
      /\ (present T (edId clock (S s)) = false -> is_null f = false ->
          exists T',
            Editor.removeNode
              (Editor.setAt T p (InsertNode i (Editor.setFollow n f)))
              (edId clock (S s)) s'
            = Ok (Editor.Fresh T', s')
            /\ erase_widths T' = erase_widths T).
Proof.
  intros clock T t type s i f Hfind.
  destruct (found_place T t _ Hfind) as (p & Hp & Hget & Hv & Hid).
  destruct (createNode_run clock type s) as (n & s' & Hn & Hnid & Hnn & _).
  exists p, n, s'.
  split; [exact Hp |]. split; [exact Hn |]. split; [exact Hnid |].
  split; [apply insertAt_run; assumption |].
  split; [apply findNode_written; [exact Hp | exact Hid] |].
  split; [apply follow_setFollow; exact Hnn |].
  intros Habs Hf. exists T. split; [| reflexivity].
  apply insert_undone; assumption.
Qed.

(** A branch is inserted between two statements, at the InsertNode
    [i1]. *)
Lemma insertAt_then_removeNode_witness :
  let f := TaskNode (Some "b") "y = 2"
             (InsertNode (Some "i2") (Placeholder (Some "end") Null)) in
  exists p n s',
    Editor.findParent twoStatements "i1" = Some p
    /\ Editor.createNode stillClock "BranchNode" 0 = Ok (n, s')
    /\ node_id n = Some (edId stillClock 1)
    /\ Editor.insertAt stillClock twoStatements "i1" "BranchNode" 0
       = Ok (Editor.Fresh
               (Editor.setAt twoStatements p
                  (InsertNode (Some "i1") (Editor.setFollow n f))), s')
    /\ Editor.findNode
         (Editor.setAt twoStatements p
            (InsertNode (Some "i1") (Editor.setFollow n f))) "i1"
       = Some (InsertNode (Some "i1") (Editor.setFollow n f))
    /\ follow (Editor.setFollow n f) = f
    /\ (present twoStatements (edId stillClock 1) = false ->
        is_null f = false ->
        exists T',
          Editor.removeNode
            (Editor.setAt twoStatements p
               (InsertNode (Some "i1") (Editor.setFollow n f)))
            (edId stillClock 1) s'
          = Ok (Editor.Fresh T', s')
          /\ erase_widths T' = erase_widths twoStatements).
Proof.
  exact (insertAt_then_removeNode stillClock twoStatements "i1" "BranchNode"
           0 (Some "i1") _ eq_refl).
Defined.

Section MoveFacts.
Import Editor.

Lemma occ_followOrPlaceholder :
  forall (P : node -> bool) (n : node),
    P (Placeholder None Null) = false -> P Null = false ->
    occurrences P (followOrPlaceholder n) = occurrences P (follow n).
Proof.
  intros P n HP HN. unfold followOrPlaceholder.
  destruct (follow n); try reflexivity.
  unfold occurrences. cbn [nodes filter]. rewrite HP, HN. reflexivity.
Qed.

Lemma moveNode_run :
  forall (T : node) (s t : string) (st : nat) (sp tp : path)
         (i : option string) (f : node),
    s <> t -> sp <> [] -> findParent T s = Some sp ->
    findParent (detached T sp) t = Some tp ->
    getAt (detached T sp) tp = InsertNode i f ->
    moveNode T s t st
    = Ok (Fresh (setAt (detached T sp) tp
                   (InsertNode i (setFollow (getAt T sp) f))), st).
Proof.
  intros T s t st sp tp i f Hne Hsp_ne Hsp Htp Hget.
  destruct (findParent_sound T s sp Hsp) as [Hv Hid].
  assert (HT : is_null T = false).
  { destruct T; [discriminate Hsp | reflexivity ..]. }
  assert (Hsrc : is_null (getAt T sp) = false).
  { destruct (getAt T sp); [discriminate Hid | reflexivity ..]. }
  unfold moveNode, cloneTree.
  rewrite (proj2 (String.eqb_neq s t) Hne), Hsp. unfold bind.
  rewrite (readSlot_inner T sp st Hsp_ne), Hsrc.
  rewrite (writeSlot_inner T sp _ st Hsp_ne).
  fold (detached T sp).
  rewrite findNode_at_findParent, Htp. cbn [option_map]. rewrite Hget.
  unfold ret. rewrite (cloned_fresh _ _ HT). reflexivity.
Qed.

(** Moving a node behind an InsertNode changes the number of nodes with
    a property neither way, for a property that depends on no sub-node
    and that a Placeholder without identifier does not have. *)
Lemma moved_count :
  forall (P : node -> bool) (T : node) (sp tp : path)
         (i : option string) (f : node),
    (forall n k v, P (setKey n k v) = P n) ->
    P (Placeholder None Null) = false -> P Null = false ->
    valid T sp = true -> is_null (getAt T sp) = false ->
    valid (detached T sp) tp = true ->
    getAt (detached T sp) tp = InsertNode i f ->
    occurrences P (setAt (detached T sp) tp
                     (InsertNode i (setFollow (getAt T sp) f)))
    = occurrences P T.
Proof.
  intros P T sp tp i f Hsh HP HN Hv Hsrc Hv1 Hget.
  set (src := getAt T sp) in *.
  pose proof (occ_setAt P Hsh sp T (followOrPlaceholder src) Hv) as H1.
  fold src in H1. fold (detached T sp) in H1.
  pose proof (occ_setAt P Hsh tp (detached T sp)
                (InsertNode i (setFollow src f)) Hv1) as H2.
  rewrite Hget in H2.
  pose proof (occ_followOrPlaceholder P src HP HN) as H3.
  assert (Hok : key_ok src KfollowElement = true).
  { destruct src; [discriminate Hsrc | reflexivity ..]. }
  pose proof (occ_setKey P Hsh src KfollowElement f Hok) as H4.
  cbn [setKey getKey] in H4.
  pose proof (Hsh (InsertNode i f) KfollowElement (setFollow src f)) as H5.
  cbn [setKey setFollow] in H5.
  unfold occurrences in H2. cbn [nodes filter] in H2. rewrite H5 in H2.
  fold (occurrences P (setFollow src f)) in H2.
  fold (occurrences P f) in H2.
  unfold occurrences, detached in *. fold src in H2 |- *.
  destruct (P (InsertNode i f)); cbn [length] in H2; lia.
Qed.

Lemma is_content_shallow :
  forall n k v, is_content (setKey n k v) = is_content n.
Proof. intros n k v. destruct k; destruct n; reflexivity. Qed.

End MoveFacts.

(** X16.  [moveNode] of a node below the root onto an InsertNode that is
    still in the tree once the node has been taken out puts the node,
    with what hangs below it, right after that InsertNode and before what
    followed it; what followed the node stays where the node was.
    Nothing is lost or doubled: every identifier is carried by as many
    nodes as before, and the tree has as many nodes that are no
    InsertNode and no Placeholder as before. *)
Theorem moveNode_onto_insert :
  forall (T : node) (s t : string) (st : nat) (sp : Editor.path)
         (i : option string) (f : node),
    s <> t ->
    Editor.has_id T s = false ->
    Editor.findParent T s = Some sp ->
    Editor.findNode (detached T sp) t = Some (InsertNode i f) ->
    exists tp,
      Editor.findParent (detached T sp) t = Some tp
      /\ Editor.moveNode T s t st
         = Ok (Editor.Fresh
                 (Editor.setAt (detached T sp) tp
                    (InsertNode i
                       (Editor.setFollow (Editor.getAt T sp) f))), st)
      /\ Editor.findNode
           (Editor.setAt (detached T sp) tp
              (InsertNode i (Editor.setFollow (Editor.getAt T sp) f))) t
         = Some (InsertNode i (Editor.setFollow (Editor.getAt T sp) f))
      /\ follow (Editor.setFollow (Editor.getAt T sp) f) = f
      /\ (forall j,
            occurrences (carries j)
              (Editor.setAt (detached T sp) tp
                 (InsertNode i (Editor.setFollow (Editor.getAt T sp) f)))
            = occurrences (carries j) T)
      /\ occurrences is_content
           (Editor.setAt (detached T sp) tp
              (InsertNode i (Editor.setFollow (Editor.getAt T sp) f)))
         = occurrences is_content T.
Proof.
  intros T s t st sp i f Hne Hroot Hsp Hfind.
  destruct (findParent_sound T s sp Hsp) as [Hv Hid].
  pose proof (found_inner T s sp Hroot Hsp) as Hsp_ne.
  assert (Hsrc : is_null (Editor.getAt T sp) = false).
  { destruct (Editor.getAt T sp); [discriminate Hid | reflexivity ..]. }
  destruct (found_place _ t _ Hfind) as (tp & Htp & Hget & Hv1 & Hidt).
  exists tp. split; [exact Htp |].
  split; [apply moveNode_run; assumption |].
  split; [apply findNode_written; [exact Htp | exact Hidt] |].
  split; [apply follow_setFollow; exact Hsrc |].
  split.
  - intros j. apply moved_count; auto using carries_shallow.
  - apply moved_count; auto using is_content_shallow.
Qed.

(** The second statement of a chain of two is moved to the front, onto
    the InsertNode [i0]. *)
Lemma moveNode_onto_insert_witness :
  let sp := [Editor.KfollowElement; Editor.KfollowElement;
             Editor.KfollowElement] in
  let f := TaskNode (Some "a") "x = 1"
             (InsertNode (Some "i1")
                (InsertNode (Some "i2") (Placeholder (Some "end") Null))) in
  let moved := Editor.setFollow (Editor.getAt twoStatements sp) f in
  exists tp,
    Editor.findParent (detached twoStatements sp) "i0" = Some tp
    /\ Editor.moveNode twoStatements "b" "i0" 0
       = Ok (Editor.Fresh
               (Editor.setAt (detached twoStatements sp) tp
                  (InsertNode (Some "i0") moved)), 0)
    /\ Editor.findNode
         (Editor.setAt (detached twoStatements sp) tp
            (InsertNode (Some "i0") moved)) "i0"
       = Some (InsertNode (Some "i0") moved)
    /\ follow moved = f
    /\ (forall j,
          occurrences (carries j)
            (Editor.setAt (detached twoStatements sp) tp
               (InsertNode (Some "i0") moved))
          = occurrences (carries j) twoStatements)
    /\ occurrences is_content
         (Editor.setAt (detached twoStatements sp) tp
            (InsertNode (Some "i0") moved))
       = occurrences is_content twoStatements.
Proof.
  refine (moveNode_onto_insert twoStatements "b" "i0" 0 _ (Some "i0") _
            _ eq_refl eq_refl eq_refl).
  discriminate.
Defined.

(** ** Preparing, saving and loading *)

Section PrepFacts.
Import Editor.

Lemma stripCase_erase :
  forall c,
    stripChain (erase_ids c) = stripChain c ->
    stripCase (erase_ids c) = stripCase c.
Proof.
  intros c H. destruct c; try exact H.
  cbn [erase_ids] in H |- *. rewrite !stripChain_insertCase in H.
  exact H.
Qed.

(** Stripping does not look at identifiers. *)
Lemma stripChain_erase :
  forall n, stripChain (erase_ids n) = stripChain n.
Proof.
  induction n using node_induction.
  all: cbn [erase_ids]; strip_norm.
  all: try reflexivity.
  all: try congruence.
  all: try (cbn [stripChain]; assumption).
  (* a switch *)
  rewrite IHn2, (stripCase_erase _ IHn1). f_equal.
  rewrite map_map. f_equal.
  match goal with
  | HF : Forall _ cs |- _ => induction HF as [|c r Hc _ IHr]
  end; [reflexivity |].
  cbn [map]. rewrite (stripCase_erase _ Hc), IHr. reflexivity.
Qed.

Lemma wrappedChain_content :
  forall c, wrappedChain c
            = match c with InsertNode _ _ => wrappedContent c | _ => false end.
Proof. destruct c; reflexivity. Qed.

Lemma is_null_erase : forall n, is_null (erase_ids n) = is_null n.
Proof. destruct n; reflexivity. Qed.

Lemma wrappedChain_erase_of :
  forall c,
    wrappedContent (erase_ids c) = wrappedContent c ->
    wrappedChain (erase_ids c) = wrappedChain c.
Proof.
  intros c H. rewrite !wrappedChain_content.
  destruct c; try reflexivity. exact H.
Qed.

Lemma wrappedCase_erase_of :
  forall c,
    wrappedContent (erase_ids c) = wrappedContent c ->
    wrappedCase (erase_ids c) = wrappedCase c.
Proof.
  intros c H. destruct c; try (apply wrappedChain_erase_of; exact H).
  cbn [erase_ids wrappedCase]. cbn [erase_ids] in H.
  rewrite !wrappedContent_insertCase in H. exact H.
Qed.

(** The wrapped shape does not depend on identifiers. *)
Lemma wrappedContent_erase :
  forall n, wrappedContent (erase_ids n) = wrappedContent n.
Proof.
  induction n using node_induction.
  all: cbn [erase_ids]; wrapped_norm.
  all: rewrite ?is_null_erase.
  all: repeat match goal with
         | IH : wrappedContent (erase_ids ?x) = wrappedContent ?x |- _ =>
             first [ rewrite (wrappedChain_erase_of x IH)
                   | rewrite (wrappedCase_erase_of x IH) ];
             try rewrite (wrappedCase_erase_of x IH);
             clear IH
         end.
  all: try reflexivity.
  all: try (cbn [wrappedContent]; rewrite ?is_null_erase; congruence).
  f_equal. f_equal.
  match goal with
  | HF : Forall _ cs |- _ => induction HF as [|c r Hc _ IHr]
  end; [reflexivity |].
  cbn [map forallb]. rewrite (wrappedCase_erase_of _ Hc), IHr. reflexivity.
Qed.

Lemma wrappedChain_erase :
  forall n, wrappedChain (erase_ids n) = wrappedChain n.
Proof. intros n. apply wrappedChain_erase_of, wrappedContent_erase. Qed.

Lemma stripInsertNodes_chain :
  forall n, stripInsertNodes n = stripChain n.
Proof. destruct n; reflexivity. Qed.

Lemma ensureIds_walk :
  forall clock tree, ensureIds clock tree = walk clock tree.
Proof. destruct tree; reflexivity. Qed.

(** A prepared tree, and what preparing it again gives. *)
Lemma prepTree_ok :
  forall (clock : nat -> string) (tree : node) (s : nat),
    exists tree' s',
      prepTree clock tree s = Ok (tree', s')
      /\ wrappedChain tree' = true
      /\ allIdentified tree' = true
      /\ stripChain tree' = stripChain tree
      /\ forall s2, prepTree clock tree' s2 = Ok (tree', s2).
Proof.
  intros clock tree s.
  pose proof (wrapContent_kept clock tree) as Hk. cbv zeta in Hk.
  destruct Hk as (_ & Hb & _).
  destruct (Hb s) as (t1 & s1 & E1 & Hs1 & W1).
  pose proof (walk_ok clock t1) as Hw. cbv zeta in Hw.
  destruct (Hw s1) as (t2 & s2 & E2 & He & Hall & _).
  assert (W2 : wrappedChain t2 = true).
  { rewrite <- wrappedChain_erase, He, wrappedChain_erase. exact W1. }
  exists t2, s2. split; [| split; [exact W2 | split; [exact Hall | split]]].
  - unfold prepTree, bind.
    rewrite wrapWithInsertNodes_chain, E1, ensureIds_walk. exact E2.
  - rewrite <- stripChain_erase, He, stripChain_erase. exact Hs1.
  - intros s3. unfold prepTree, bind.
    rewrite wrapWithInsertNodes_chain.
    pose proof (wrapContent_fixed clock t2) as Hf. cbv zeta in Hf.
    destruct Hf as (_ & Hf & _). rewrite (Hf W2 s3).
    rewrite ensureIds_walk.
    pose proof (walk_ok clock t2) as Hw2. cbv zeta in Hw2.
    destruct (Hw2 s3) as (t3 & s4 & E3 & _ & _ & Hsame).
    destruct (Hsame Hall) as [-> ->]. exact E3.
Qed.

End PrepFacts.

(** X17.  The tree the editor works on, [ensureIds(wrapWithInsertNodes(t))],
    is always made without an error; it is a chain of the wrapped shape
    in which every node carries an identifier that is not empty, and
    preparing it again changes nothing.  What [saveJSON] writes of it,
    its stripped form, is the stripped form of [t]: loading what was
    saved and saving again gives the same tree. *)
Theorem prepared_tree_saves_as_loaded :
  forall (clock : nat -> string) (t : node) (s : nat),
    exists tree s',
      prepTree clock t s = Ok (tree, s')
      /\ wrappedChain tree = true
      /\ allIdentified tree = true
      /\ (forall s2, prepTree clock tree s2 = Ok (tree, s2))
      /\ Editor.stripInsertNodes tree = Editor.stripInsertNodes t
      /\ forall s2, exists tree2 s3,
           prepTree clock (Editor.stripInsertNodes tree) s2
           = Ok (tree2, s3)
           /\ Editor.stripInsertNodes tree2 = Editor.stripInsertNodes tree.
Proof.
  intros clock t s.
  destruct (prepTree_ok clock t s) as (tree & s' & E & W & A & Hs & Hfix).
  exists tree, s'.
  split; [exact E |]. split; [exact W |]. split; [exact A |].
  split; [exact Hfix |].
  split; [rewrite !stripInsertNodes_chain; exact Hs |].
  intros s2.
  destruct (prepTree_ok clock (Editor.stripInsertNodes tree) s2)
    as (tree2 & s3 & E2 & _ & _ & Hs2 & _).
  exists tree2, s3. split; [exact E2 |].
  rewrite (stripInsertNodes_chain tree2), Hs2.
  rewrite <- stripInsertNodes_chain.
  rewrite !stripInsertNodes_chain.
  destruct (stripChain_clean_follow tree) as [[Hb Hc] _].
  apply (stripChain_fixed_follow _ Hb Hc).
Qed.

(** ** New nodes *)

Lemma lacks_digits :
  forall u, lacks "_" (NilEmpty.string_of_uint u) = true.
Proof. induction u; cbn; auto. Qed.

Lemma lacks_ofNat : forall n, lacks "_" (ofNat n) = true.
Proof.
  intros n. unfold ofNat, NilZero.string_of_uint.
  destruct (Nat.to_uint n); try apply lacks_digits. reflexivity.
Qed.

Lemma lacks_app :
  forall c x y, lacks c (x +++ String c y) = false.
Proof.
  intros c. induction x as [|a r IH]; intros y; cbn.
  - rewrite Ascii.eqb_refl. reflexivity.
  - rewrite IH. apply andb_false_r.
Qed.

(** Two texts that end in an underscore and a tail without underscore
    are equal only when the tails are. *)
Lemma tail_unique :
  forall (x y d e : string),
    lacks "_" d = true -> lacks "_" e = true ->
    x +++ String "_" d = y +++ String "_" e -> d = e.
Proof.
  induction x as [|a x IH]; intros y d e Hd He H.
  - destruct y as [|b y]; cbn in H.
    + congruence.
    + injection H as _ H. rewrite H, lacks_app in Hd. discriminate Hd.
  - destruct y as [|b y]; cbn in H.
    + injection H as _ H. rewrite <- H, lacks_app in He. discriminate He.
    + injection H as _ H. exact (IH y d e Hd He H).
Qed.

(** The identifiers of the editor drawn at different values of the
    counter are different, whatever the clock reads. *)
Lemma edId_inj :
  forall (clock : nat -> string) (a b : nat),
    edId clock a = edId clock b -> a = b.
Proof.
  intros clock a b H. unfold edId in H.
  cbn [String.append] in H. injection H as H.
  apply ofNat_inj.
  exact (tail_unique _ _ _ _ (lacks_ofNat a) (lacks_ofNat b) H).
Qed.

Section CreateFacts.
Import Editor.
Variable clock : nat -> string.

Lemma createNode_fresh :
  forall (type : string) (s : nat),
    exists n s',
      createNode clock type s = Ok (n, s')
      /\ s + 2 <= s' <= s + 8
      /\ NoDup (ids n)
      /\ (forall i, In i (ids n) ->
            exists j, s < j <= s' /\ i = edId clock j)
      /\ typeName n = (if mem type templateTypes then type else "TaskNode")
      /\ (mem type templateTypes = false ->
          n = TaskNode (Some (edId clock (S s))) type Null).
Proof.
  intros type s.
  unfold createNode, bind, genId, emptyCase, emptyChain, ret.
  cbv beta iota.
  repeat match goal with
         | |- context [if String.eqb type ?x then _ else _] =>
             let E := fresh "E" in
             destruct (String.eqb type x) eqn:E;
             [apply String.eqb_eq in E; subst type |]
         end.
  all: eexists; eexists; split; [reflexivity |].
  all: repeat match goal with
         | |- context ["__ed_" +++ clock ?n +++ "_" +++ ofNat ?n] =>
             change ("__ed_" +++ clock n +++ "_" +++ ofNat n)
               with (edId clock n)
         end.
  all: split; [lia |].
  all: split;
    [ cbn [ids nodes flat_map idOf node_id app];
      repeat constructor; cbn [In]; intros H;
      repeat (destruct H as [H | H]; [apply edId_inj in H; lia |]);
      exact H |].
  all: split;
    [ cbn [ids nodes flat_map idOf node_id app In]; intros i H;
      repeat (destruct H as [H | H];
              [eexists; split; [| symmetry; exact H]; lia |]);
      contradiction |].
  all: split; [try reflexivity | try (intros H; discriminate H)].
  - unfold mem, templateTypes. cbn [existsb].
    repeat match goal with
           | E : String.eqb type _ = false |- _ => rewrite E; clear E
           end.
    reflexivity.
  - reflexivity.
Qed.

End CreateFacts.

(** X18.  [createNode] throws nothing and draws between two and eight
    identifiers.  The identifiers of the node it returns and of the
    InsertNodes and InsertCases under it are pairwise different and were
    all drawn by this call.  The node has the asked type when the type is
    one of the ten the editor offers; for any other type it is a TaskNode
    whose text is the name of the asked type. *)
Theorem createNode_new_identifiers :
  forall (clock : nat -> string) (type : string) (s : nat),
    exists n s',
      Editor.createNode clock type s = Ok (n, s')
      /\ s + 2 <= s' <= s + 8
      /\ NoDup (ids n)
      /\ (forall i, In i (ids n) ->
            exists j, s < j <= s' /\ i = edId clock j)
      /\ Editor.typeName n
         = (if mem type templateTypes then type else "TaskNode")
      /\ (mem type templateTypes = false ->
          n = TaskNode (Some (edId clock (S s))) type Null).
Proof. exact createNode_fresh. Qed.

Section MoveElseFacts.
Import Editor.

Lemma moveNode_dropped :
  forall (T : node) (s t : string) (st : nat) (sp : path),
    s <> t -> sp <> [] -> findParent T s = Some sp ->
    (forall i f, findNode (detached T sp) t <> Some (InsertNode i f)) ->
    moveNode T s t st = Ok (Fresh (detached T sp), st).
Proof.
  intros T s t st sp Hne Hsp_ne Hsp Htarget.
  destruct (findParent_sound T s sp Hsp) as [Hv Hid].
  assert (HT : is_null T = false).
  { destruct T; [discriminate Hsp | reflexivity ..]. }
  assert (Hsrc : is_null (getAt T sp) = false).
  { destruct (getAt T sp); [discriminate Hid | reflexivity ..]. }
  unfold moveNode, cloneTree.
  rewrite (proj2 (String.eqb_neq s t) Hne), Hsp. unfold bind.
  rewrite (readSlot_inner T sp st Hsp_ne), Hsrc.
  rewrite (writeSlot_inner T sp _ st Hsp_ne).
  fold (detached T sp).
  unfold ret. rewrite (cloned_fresh _ _ HT).
  destruct (findNode (detached T sp) t) as [m|] eqn:Em; [| reflexivity].
  destruct m; try (destruct (findParent (detached T sp) t); reflexivity).
  exfalso. exact (Htarget _ _ eq_refl).
Qed.

Lemma absent_detached :
  forall (T : node) (t : string) (p : path),
    valid T p = true -> getAt T p <> Null ->
    present T t = false -> present (detached T p) t = false.
Proof.
  intros T t p Hv Hne Habs. unfold present in *.
  apply occurrences_zero. apply occurrences_zero in Habs.
  pose proof (detached_count (carries t) T p (carries_shallow t)
                eq_refl eq_refl Hv Hne).
  lia.
Qed.

End MoveElseFacts.

(** X19.  [moveNode] of a node below the root loses the node whenever the
    target is no InsertNode: when the identifier of the target is not
    found once the node has been taken out, or is found on a Placeholder
    or on a content node, the tree without the node is returned and the
    identifier of the node has one carrier less.  This is so in
    particular when no node of the given tree carries the identifier of
    the target. *)
Theorem moveNode_without_insert_target :
  forall (T : node) (s t : string) (st : nat) (sp : Editor.path),
    s <> t ->
    Editor.has_id T s = false ->
    Editor.findParent T s = Some sp ->
    (present T t = false ->
     insertFound (Editor.findNode (detached T sp) t) = false)
    /\ (insertFound (Editor.findNode (detached T sp) t) = false ->
        Editor.moveNode T s t st = Ok (Editor.Fresh (detached T sp), st)
        /\ occurrences (carries s) (detached T sp)
           < occurrences (carries s) T).
Proof.
  intros T s t st sp Hne Hroot Hsp.
  destruct (findParent_sound T s sp Hsp) as [Hv Hid].
  pose proof (found_inner T s sp Hroot Hsp) as Hsp_ne.
  pose proof (has_id_not_null _ _ Hid) as Hnn.
  split.
  - intros Habs.
    rewrite (absent_not_found _ _ (absent_detached T t sp Hv Hnn Habs)).
    reflexivity.
  - intros Htarget. split.
    + apply moveNode_dropped; try assumption.
      intros i f E. rewrite E in Htarget. discriminate Htarget.
    + pose proof (detached_count (carries s) T sp (carries_shallow s)
                    eq_refl eq_refl Hv Hnn) as Hc.
      unfold carries at 2 in Hc. rewrite Hid in Hc. lia.
Qed.

(** The first statement of a chain of two is moved onto the second
    statement, which is no InsertNode. *)
Lemma moveNode_without_insert_target_witness :
  let sp := [Editor.KfollowElement] in
  (present twoStatements "b" = false ->
   insertFound (Editor.findNode (detached twoStatements sp) "b") = false)
  /\ (insertFound (Editor.findNode (detached twoStatements sp) "b") = false
      -> Editor.moveNode twoStatements "a" "b" 0
         = Ok (Editor.Fresh (detached twoStatements sp), 0)
         /\ occurrences (carries "a") (detached twoStatements sp)
            < occurrences (carries "a") twoStatements).
Proof.
  refine (moveNode_without_insert_target twoStatements "a" "b" 0 _
            _ eq_refl eq_refl).
  discriminate.
Defined.

Section InsertElseFacts.
Import Editor.
Variable clock : nat -> string.

Lemma genId_run :
  forall s, genId clock s = Ok (edId clock (S s), S s).
Proof. reflexivity. Qed.

Lemma insertAt_placeholder_run :
  forall (T : node) (t type : string) (s : nat) (i : option string)
         (f : node) (p : path) (n : node) (s' : nat),
    p <> [] -> findParent T t = Some p -> getAt T p = Placeholder i f ->
    createNode clock type s = Ok (n, s') ->
    insertAt clock T t type s
    = Ok (Fresh
            (setAt T p
               (InsertNode (Some (edId clock (S s')))
                  (setFollow n
                     (InsertNode (Some (edId clock (S (S s'))))
                        (Placeholder None Null))))),
          S (S s')).
Proof.
  intros T t type s i f p n s' Hne Hp Hget Hn.
  assert (HT : is_null T = false).
  { destruct T; [discriminate Hp | reflexivity ..]. }
  unfold insertAt, cloneTree.
  rewrite findNode_at_findParent, Hp. cbn [option_map]. rewrite Hget.
  unfold bind at 1. rewrite Hn.
  unfold bind. rewrite !genId_run.
  rewrite (writeSlot_inner T p _ _ Hne).
  unfold ret. rewrite (cloned_fresh _ _ HT). reflexivity.
Qed.

Lemma insertAt_content_run :
  forall (T : node) (t type : string) (s : nat) (p : path)
         (n : node) (s' : nat),
    findParent T t = Some p -> is_marker (getAt T p) = false ->
    createNode clock type s = Ok (n, s') ->
    insertAt clock T t type s = Ok (Fresh T, s').
Proof.
  intros T t type s p n s' Hp Hm Hn.
  assert (HT : is_null T = false).
  { destruct T; [discriminate Hp | reflexivity ..]. }
  unfold insertAt, cloneTree.
  rewrite findNode_at_findParent, Hp. cbn [option_map].
  unfold bind. rewrite Hn.
  unfold ret. rewrite (cloned_fresh _ _ HT).
  destruct (getAt T p); try reflexivity; discriminate Hm.
Qed.

End InsertElseFacts.

(** X20.  [insertAt] on an identifier whose first carrier is no
    InsertNode.  On a Placeholder below the root, the Placeholder and
    whatever followed it are replaced by a new InsertNode, the new node
    and a second new InsertNode that leads to a Placeholder without
    identifier; the two InsertNodes carry the identifiers drawn after
    those of the new node.  On any other node nothing is inserted: a copy
    of the tree is returned, and the identifiers drawn for the node that
    was not inserted are spent. *)
Theorem insertAt_other_targets :
  forall (clock : nat -> string) (T : node) (t type : string) (s : nat)
         (m : node),
    Editor.findNode T t = Some m ->
    exists p n s',
      Editor.findParent T t = Some p
      /\ Editor.createNode clock type s = Ok (n, s')
      /\ s < s'
      /\ (forall i f, m = Placeholder i f -> Editor.has_id T t = false ->
            Editor.insertAt clock T t type s
            = Ok (Editor.Fresh
                    (Editor.setAt T p
                       (InsertNode (Some (edId clock (S s')))
                          (Editor.setFollow n
                             (InsertNode (Some (edId clock (S (S s'))))
                                (Placeholder None Null))))),
                  S (S s')))
      /\ (is_marker m = false ->
          Editor.insertAt clock T t type s = Ok (Editor.Fresh T, s')).
Proof.
  intros clock T t type s m Hfind.
  destruct (found_place T t m Hfind) as (p & Hp & Hget & Hv & Hid).
  destruct (createNode_fresh clock type s)
    as (n & s' & Hn & Hs & _).
  exists p, n, s'.
  split; [exact Hp |]. split; [exact Hn |]. split; [lia |]. split.
  - intros i f -> Hroot.
    apply (insertAt_placeholder_run clock T t type s i f p n s');
      try assumption.
    exact (found_inner T t p Hroot Hp).
  - intros Hm. apply (insertAt_content_run clock T t type s p n s');
      try assumption.
    rewrite Hget. exact Hm.
Qed.

(** An input is inserted at the Placeholder that ends a chain of two
    statements. *)
Lemma insertAt_other_targets_witness :
  exists p n s',
    Editor.findParent twoStatements "end" = Some p
    /\ Editor.createNode stillClock "InputNode" 0 = Ok (n, s')
    /\ 0 < s'
    /\ (forall i f,
          Placeholder (Some "end") Null = Placeholder i f ->
          Editor.has_id twoStatements "end" = false ->
          Editor.insertAt stillClock twoStatements "end" "InputNode" 0
          = Ok (Editor.Fresh
                  (Editor.setAt twoStatements p
                     (InsertNode (Some (edId stillClock (S s')))
                        (Editor.setFollow n
                           (InsertNode (Some (edId stillClock (S (S s'))))
                              (Placeholder None Null))))),
                S (S s')))
    /\ (is_marker (Placeholder (Some "end") Null) = false ->
        Editor.insertAt stillClock twoStatements "end" "InputNode" 0
        = Ok (Editor.Fresh twoStatements, s')).
Proof.
  exact (insertAt_other_targets stillClock twoStatements "end" "InputNode"
           0 _ eq_refl).
Defined.

(** ** Listing drop targets and editable nodes *)

Section CollectFacts.
Import Editor.

Lemma collectEditableNodes_nodes :
  forall T,
    collectEditableNodes T = map summary (filter is_content (nodes T)).
Proof.
  induction T using node_induction.
  all: cbn [collectEditableNodes nodes filter is_content is_null is_marker
            negb andb typeName String.eqb Ascii.eqb Bool.eqb app map].
  all: rewrite ?filter_app, ?map_app.
  all: try reflexivity.
  all: try (unfold summary at 1; cbn [typeName]; f_equal).
  all: rewrite ?IHT, ?IHT1, ?IHT2, ?IHT3.
  all: try reflexivity.
  (* a switch *)
  f_equal. f_equal.
  match goal with
  | HF : Forall _ cs |- _ => induction HF as [|c r Hc _ IHr]
  end; [reflexivity |].
  cbn [flat_map]. rewrite filter_app, map_app, Hc, IHr. reflexivity.
Qed.

Lemma collectInsertPoints_nodes :
  forall T,
    collectInsertPoints T = flat_map pointId (filter is_marker (nodes T)).
Proof.
  induction T using node_induction.
  all: cbn [collectInsertPoints nodes filter is_marker app flat_map].
  all: rewrite ?filter_app, ?flat_map_app.
  all: try reflexivity.
  all: try congruence.
  - unfold pointId. cbn [node_id]. rewrite IHT.
    destruct i as [j|]; [destruct (is_empty j) |]; reflexivity.
  - unfold pointId. cbn [node_id]. rewrite IHT.
    destruct i as [j|]; [destruct (is_empty j) |]; reflexivity.
  - rewrite IHT1, IHT2. f_equal. f_equal.
    match goal with
    | HF : Forall _ cs |- _ => induction HF as [|c r Hc _ IHr]
    end; [reflexivity |].
    cbn [flat_map]. rewrite filter_app, flat_map_app, Hc, IHr. reflexivity.
Qed.

Lemma carried_found :
  forall (T n : node) (i : string),
    In n (nodes T) -> node_id n = Some i ->
    exists m, findNode T i = Some m /\ has_id m i = true.
Proof.
  intros T n i Hin Hid.
  assert (Hp : 1 <= occurrences (carries i) T).
  { apply (occurrences_In _ T n Hin). unfold carries, has_id.
    rewrite Hid. apply String.eqb_refl. }
  destruct (occurring_found T i Hp) as [p Hp'].
  exists (getAt T p). rewrite findNode_at_findParent, Hp'.
  split; [reflexivity |]. apply (findParent_sound T i p Hp').
Qed.

End CollectFacts.

(** X21.  [collectEditableNodes] lists identifier, type and text of every
    node of the tree that is no InsertNode and no Placeholder, the
    InsertCases among them, each once and in the order of a depth-first
    walk; [collectInsertPoints] lists, in the same order, the identifiers
    of the InsertNodes and Placeholders that have one that is not empty.
    [findNode] finds a node for every identifier either of them lists. *)
Theorem collectors_list_the_nodes :
  forall T : node,
    Editor.collectEditableNodes T
    = map summary (filter is_content (nodes T))
    /\ Editor.collectInsertPoints T
       = flat_map pointId (filter is_marker (nodes T))
    /\ (forall i, In i (Editor.collectInsertPoints T) ->
          exists m, Editor.findNode T i = Some m
                    /\ Editor.has_id m i = true)
    /\ (forall e i, In e (Editor.collectEditableNodes T) ->
          Editor.eid e = Some i ->
          exists m, Editor.findNode T i = Some m
                    /\ Editor.has_id m i = true).
Proof.
  intros T.
  split; [apply collectEditableNodes_nodes |].
  split; [apply collectInsertPoints_nodes |].
  split.
  - intros i Hi. rewrite collectInsertPoints_nodes in Hi.
    apply in_flat_map in Hi. destruct Hi as (n & Hn & Hi).
    apply filter_In in Hn. destruct Hn as [Hn _].
    apply (carried_found T n i Hn).
    unfold pointId in Hi. destruct (node_id n) as [j|]; [| contradiction].
    destruct (is_empty j); [contradiction |].
    destruct Hi as [-> | []]. reflexivity.
  - intros e i He Hid. rewrite collectEditableNodes_nodes in He.
    apply in_map_iff in He. destruct He as (n & <- & Hn).
    apply filter_In in Hn. destruct Hn as [Hn _].
    apply (carried_found T n i Hn). exact Hid.
Qed.

(** ** The drawing as a whole *)

(** X22.  [renderStructogramSVG] lays the tree out at the origin with the
    asked width and font size, 600 and 14 standing in for an option that
    is missing or zero.  It closes the diagram by a line down the right
    edge and a line along the bottom, both at the height the measuring
    pass computes.  The viewBox leaves a margin of the stroke width on
    every side of the diagram, a diagram of height zero counting 40 high;
    with an insert height and a font size that are not negative the
    viewBox is at least 3 high and reaches below the bottom line. *)
Theorem drawing_frame :
  forall (measureText : Q -> string -> Q) (insertNodeHeight : Q)
         (tree : node) (optWidth optFontSize : option Q),
    let width := Renderer.orDefault optWidth 600 in
    let fontSize := Renderer.orDefault optFontSize 14 in
    let H := Renderer.measureHeight measureText insertNodeHeight tree
                                    fontSize width in
    let drawing :=
      Renderer.renderStructogramSVG measureText insertNodeHeight tree
                                    optWidth optFontSize in
    Renderer.nonzero width = true
    /\ Renderer.nonzero fontSize = true
    /\ Renderer.appended drawing
       = Renderer.elements
           (Renderer.renderNode measureText insertNodeHeight tree 0 0
                                width fontSize None)
           ++ [Renderer.Line width 0 width H; Renderer.Line 0 H width H]
    /\ (let '(minX, minY, w, h) := Renderer.viewBox drawing in
        (minX == - (3 # 2))%Q /\ (minY == - (3 # 2))%Q
        /\ (w == width + 3)%Q
        /\ (h == (if Renderer.nonzero H then H else 40) + 3)%Q
        /\ ((0 <= insertNodeHeight)%Q -> (0 <= fontSize)%Q ->
            (3 <= h)%Q /\ (H + 3 <= h)%Q)).
Proof.
  intros measureText inh tree ow ofs width fontSize H drawing.
  assert (Hdef : forall o d, Renderer.nonzero d = true ->
                             Renderer.nonzero (Renderer.orDefault o d) = true).
  { intros [v|] d Hd; cbn [Renderer.orDefault]; [| exact Hd].
    destruct (Renderer.nonzero v) eqn:E; [exact E | exact Hd]. }
  split; [apply Hdef; reflexivity |].
  split; [apply Hdef; reflexivity |].
  split.
  - unfold drawing, Renderer.renderStructogramSVG. cbn [Renderer.appended].
    rewrite placed_height. reflexivity.
  - unfold drawing, Renderer.renderStructogramSVG. cbn [Renderer.viewBox].
    fold width. fold fontSize. fold H.
    unfold Renderer.STROKE_WIDTH.
    split; [reflexivity |]. split; [reflexivity |].
    split; [lra |]. split; [lra |].
    intros Hinh Hfs.
    pose proof (measure_nonneg measureText inh Hinh tree fontSize width Hfs)
      as Hpos.
    fold H in Hpos.
    destruct (Renderer.nonzero H) eqn:E; [split; lra |].
    unfold Renderer.nonzero in E. apply negb_false_iff in E.
    apply Qeq_bool_iff in E. split; lra.
Qed.

(** X23.  When the available height is ignored.  For a chain that holds
    no statement, case label, branch or switch to take the slack (a chain
    of insert markers, loops, functions and try/catch blocks), every
    available height gives the layout of the call without one, and the
    height returned is the measured height. *)
Theorem stretch_not_applied :
  forall (measureText : Q -> string -> Q) (insertNodeHeight : Q)
         (n : node) (x y width fontSize : Q) (availH : option Q),
    absorbs n = false ->
    Renderer.renderNode measureText insertNodeHeight n x y width fontSize
                        availH
    = Renderer.renderNode measureText insertNodeHeight n x y width fontSize
                          None
    /\ Renderer.height
         (Renderer.renderNode measureText insertNodeHeight n x y width
                              fontSize availH)
       = Renderer.measureHeight measureText insertNodeHeight n
                                fontSize width.
Proof.
  intros measureText inh n x y width fontSize availH H.
  assert (E : Renderer.renderNode measureText inh n x y width fontSize
                                  availH
              = Renderer.renderNode measureText inh n x y width fontSize
                                    None)
    by (apply stretch_ignored; exact H).
  split; [exact E |]. rewrite E. apply placed_height.
Qed.

(** A loop with an empty body, given an available height of 100. *)
Lemma stretch_not_applied_witness :
  layoutOf "repeat while c:" (Some 100%Q) = layoutOf "repeat while c:" None
  /\ Renderer.height (layoutOf "repeat while c:" (Some 100%Q))
     = Renderer.measureHeight narrowText 0
         (parsePseudocode "repeat while c:" KEYWORDS_EN) 14 600.
Proof.
  refine (stretch_not_applied narrowText 0
            (parsePseudocode "repeat while c:" KEYWORDS_EN)
            0 0 600 14 (Some 100%Q) _).
  reflexivity.
Defined.

(** ** Programs of plain statements *)

Lemma split_lacks :
  forall (p : string), lacks lf p = true -> split lf p = [p].
Proof.
  induction p as [|c r IH]; intros H; [reflexivity |].
  cbn [lacks] in H. apply andb_true_iff in H. destruct H as [Hc Hr].
  apply negb_true_iff in Hc.
  cbn [split]. rewrite Hc, (IH Hr). reflexivity.
Qed.

Lemma split_line :
  forall (p rest : string),
    lacks lf p = true ->
    split lf (p +++ String lf rest) = p :: split lf rest.
Proof.
  induction p as [|c r IH]; intros rest H.
  - cbn [String.append split]. rewrite Ascii.eqb_refl. reflexivity.
  - cbn [lacks] in H. apply andb_true_iff in H. destruct H as [Hc Hr].
    apply negb_true_iff in Hc.
    cbn [String.append split]. rewrite Hc, (IH rest Hr). reflexivity.
Qed.

(** Lines without line feed, joined by line feeds, are split into
    themselves. *)
Lemma split_unlines :
  forall (texts : list string),
    texts <> [] -> Forall (fun t => lacks lf t = true) texts ->
    split lf (unlines texts) = texts.
Proof.
  induction texts as [|t r IH]; intros Hne HF; [congruence |].
  inversion HF as [|? ? Ht Hr]; subst.
  destruct r as [|t2 r].
  - cbn [unlines join]. apply split_lacks. exact Ht.
  - unfold unlines in *.
    change (join (str1 lf) (t :: t2 :: r))
      with (t +++ String lf (join (str1 lf) (t2 :: r))).
    rewrite (split_line _ _ Ht), (IH ltac:(discriminate) Hr). reflexivity.
Qed.

Section StraightLine.
Variable k : keywords.

Let lineOf (t : string) : line := {| text := t; Parser.indent := 0 |}.
Let blockOf (t : string) : block :=
  {| btext := t; bindent := 0; children := [] |}.

Lemma tokenize_plain :
  forall (texts : list string),
    texts <> [] -> Forall (plainLine k) texts ->
    tokenize (unlines texts) = map lineOf texts.
Proof.
  intros texts Hne HF. unfold tokenize.
  rewrite split_unlines; [| exact Hne |].
  - clear Hne. induction HF as [|t r (_ & Ht & _) _ IH]; [reflexivity |].
    cbn [map keepLines]. rewrite Ht. cbn [keepLines]. rewrite IH.
    reflexivity.
  - eapply Forall_impl; [| exact HF]. intros t (H & _). exact H.
Qed.

Lemma minIndent_plain :
  forall (t : string) (r : list string),
    minIndent (lineOf t) (map lineOf r) = 0.
Proof.
  intros t r. revert t. induction r as [|t2 r IH]; intros t; [reflexivity |].
  cbn [map minIndent]. reflexivity.
Qed.

Lemma groupBlocks_plain :
  forall (texts : list string),
    groupBlocks (map lineOf texts) 0 = map blockOf texts.
Proof.
  induction texts as [|t r IH]; [reflexivity |].
  cbn [map groupBlocks]. cbn. rewrite IH. unfold blockOf at 1. f_equal.
  destruct r; reflexivity.
Qed.

Lemma plain_no_pair :
  forall (t u : string), matches_none k t = true -> pairs k t u = false.
Proof.
  intros t u H. unfold matches_none in H. rewrite negb_true_iff in H.
  repeat (apply orb_false_iff in H; destruct H as [H ?]).
  unfold pairs.
  repeat match goal with
         | Ht : test ?r ?t = false |- context [test ?r ?t] => rewrite Ht
         end.
  reflexivity.
Qed.

(** The chain built from blocks of plain statements. *)
Lemma build_plain :
  forall (rec : list line -> nat -> M node) (texts : list string) (s : nat),
    Forall (plainLine k) texts ->
    exists n s',
      build k rec 0 false (map blockOf texts) s = (n, s')
      /\ erase_ids n = statements texts
      /\ forall nts kw,
           Serializer.serialize nts kw n 0 = Ok texts.
Proof.
  intros rec texts s HF. revert s.
  induction HF as [|t r (_ & _ & Hm) _ IH]; intros s.
  - eexists. eexists. split; [reflexivity |]. split; reflexivity.
  - cbn [map build].
    assert (Hskip :
      match hd_error (map blockOf r) with
      | Some nb => pairs k (btext (blockOf t)) (btext nb)
      | None => false
      end = false).
    { destruct (hd_error (map blockOf r)); [| reflexivity].
      apply plain_no_pair. exact Hm. }
    rewrite Hskip.
    destruct (IH s) as (n & s' & E & He & Hs).
    unfold Counter.bind. rewrite E.
    rewrite (statement_task k rec 0 (blockOf t) _ n s' Hm).
    eexists. eexists. split; [reflexivity |]. split.
    + cbn [erase_ids btext blockOf]. rewrite He. reflexivity.
    + intros nts kw. cbn [Serializer.serialize btext blockOf].
      rewrite (Hs nts kw). reflexivity.
Qed.

Lemma parse_plain :
  forall (texts : list string),
    texts <> [] -> Forall (plainLine k) texts ->
    erase_ids (parsePseudocode (unlines texts) k) = statements texts
    /\ forall nts kw,
         treeToPseudocode nts kw (parsePseudocode (unlines texts) k)
         = Ok (unlines texts).
Proof.
  intros texts Hne HF.
  unfold parsePseudocode. rewrite (tokenize_plain texts Hne HF).
  destruct texts as [|t r]; [congruence |].
  cbn [map length]. rewrite minIndent_plain.
  cbn [mergeBlocks]. unfold mergeBody.
  change (lineOf t :: map lineOf r) with (map lineOf (t :: r)).
  rewrite groupBlocks_plain.
  destruct (build_plain
              (fun ls b => mergeBlocks (length (map lineOf r)) ls b k)
              (t :: r) 0 HF) as (n & s' & E & He & Hs).
  cbn [map] in E |- *. unfold eval. rewrite E. cbn [fst].
  split; [exact He |].
  intros nts kw. unfold treeToPseudocode. rewrite (Hs nts kw).
  reflexivity.
Qed.

End StraightLine.

(** ** Flat programs: one indentation, blank lines and comments between *)

Section FlatProgram.
Variable k : keywords.

Lemma minIndent_flat :
  forall (m : nat) (rest : list line) (l : line),
    Forall (flatPlain k m) (l :: rest) -> minIndent l rest = m.
Proof.
  intros m. induction rest as [|l2 r IH]; intros l HF.
  - inversion HF as [|? ? [Hl _] _]; subst. reflexivity.
  - inversion HF as [|? ? [Hl _] Hr]; subst.
    cbn [minIndent]. rewrite (IH l2 Hr). apply Nat.min_id.
Qed.

Lemma groupBlocks_flat :
  forall (m : nat) (ls : list line),
    Forall (flatPlain k m) ls ->
    map btext (groupBlocks ls m) = map text ls.
Proof.
  intros m. induction ls as [|l r IH]; intros HF; [reflexivity |].
  inversion HF as [|? ? [Hl _] Hr]; subst.
  cbn [groupBlocks]. rewrite Nat.ltb_irrefl.
  cbn [map btext]. rewrite (IH Hr). reflexivity.
Qed.

Lemma groupBlocks_flat_plain :
  forall (m : nat) (ls : list line),
    Forall (flatPlain k m) ls ->
    Forall (fun b => matches_none k (btext b) = true) (groupBlocks ls m).
Proof.
  intros m. induction ls as [|l r IH]; intros HF; [constructor |].
  inversion HF as [|? ? [Hl (_ & _ & Hm)] Hr]; subst.
  cbn [groupBlocks]. rewrite Nat.ltb_irrefl.
  constructor; [exact Hm | apply IH; exact Hr].
Qed.

(** The chain built from blocks of plain statements depends on their
    texts only. *)
Lemma build_texts :
  forall (rec1 rec2 : list line -> nat -> M node) (base1 base2 : nat)
         (bs1 bs2 : list block) (s : nat),
    map btext bs1 = map btext bs2 ->
    Forall (fun b => matches_none k (btext b) = true) bs1 ->
    build k rec1 base1 false bs1 s = build k rec2 base2 false bs2 s.
Proof.
  intros rec1 rec2 base1 base2. induction bs1 as [|b1 r1 IH];
    intros bs2 s Hmap HF.
  - destruct bs2; [reflexivity | discriminate Hmap].
  - destruct bs2 as [|b2 r2]; [discriminate Hmap |].
    cbn [map] in Hmap. injection Hmap as Hb Hr.
    inversion HF as [|? ? Hm Hrest]; subst.
    assert (Hm2 : matches_none k (btext b2) = true) by (rewrite <- Hb; exact Hm).
    cbn [build].
    assert (H1 : match hd_error r1 with
                 | Some nb => pairs k (btext b1) (btext nb)
                 | None => false
                 end = false).
    { destruct (hd_error r1); [apply plain_no_pair; exact Hm | reflexivity]. }
    assert (H2 : match hd_error r2 with
                 | Some nb => pairs k (btext b2) (btext nb)
                 | None => false
                 end = false).
    { destruct (hd_error r2); [apply plain_no_pair; exact Hm2 | reflexivity]. }
    rewrite H1, H2. unfold Counter.bind.
    rewrite (IH r2 s Hr Hrest).
    destruct (build k rec2 base2 false r2 s) as [tail s1].
    rewrite (statement_task k rec1 base1 b1 _ tail s1 Hm).
    rewrite (statement_task k rec2 base2 b2 _ tail s1 Hm2).
    rewrite Hb. reflexivity.
Qed.

Lemma flat_texts_plain :
  forall (m : nat) (ls : list line),
    Forall (flatPlain k m) ls -> Forall (plainLine k) (map text ls).
Proof.
  intros m ls HF. induction HF as [|l r [_ Hl] _ IH]; constructor; assumption.
Qed.

(** The tree of a flat program of plain statements is the tree of its
    statements written one a line at the first column. *)
Lemma parse_flat :
  forall (source : string) (m : nat),
    tokenize source <> [] ->
    Forall (flatPlain k m) (tokenize source) ->
    parsePseudocode source k
    = parsePseudocode (unlines (map text (tokenize source))) k.
Proof.
  intros source m Hne HF.
  pose proof (flat_texts_plain m _ HF) as HP.
  assert (Hne' : map text (tokenize source) <> [])
    by (destruct (tokenize source); [congruence | discriminate]).
  unfold parsePseudocode at 2.
  rewrite (tokenize_plain k _ Hne' HP).
  unfold parsePseudocode.
  destruct (tokenize source) as [|l r] eqn:E; [congruence |].
  rewrite (minIndent_flat m r l HF).
  cbn [map length]. rewrite minIndent_plain.
  unfold eval. f_equal.
  cbn [mergeBlocks]. unfold mergeBody.
  pose proof (groupBlocks_flat m (l :: r) HF) as Ht.
  pose proof (groupBlocks_flat_plain m (l :: r) HF) as Hm.
  change ({| text := text l; Parser.indent := 0 |}
          :: map (fun t => {| text := t; Parser.indent := 0 |}) (map text r))
    with (map (fun t => {| text := t; Parser.indent := 0 |})
              (map text (l :: r))).
  rewrite groupBlocks_plain.
  destruct (groupBlocks (l :: r) m) as [|b bs] eqn:Eg;
    [discriminate Ht |].
  cbn [map]. cbn [map] in Ht.
  apply build_texts; [| exact Hm].
  cbn [map btext]. rewrite Ht. rewrite map_map. cbn [btext].
  rewrite map_id. reflexivity.
Qed.

End FlatProgram.

(** X24.  On a program of plain statements the text round trip holds
    up to layout.  When the lines the tokenizer keeps are all indented
    alike and each is a statement that matches none of the patterns of
    the parser, the parser builds the chain of these statements, one
    TaskNode a kept line in their order; the serializer, whatever
    keywords it is given, writes the statements one a line at the first
    column, so blank lines, comment lines and the common indentation are
    not written back; and parsing that text gives the same tree again. *)
Theorem plain_statements_round_trip :
  forall (k : keywords) (source : string) (m : nat),
    tokenize source <> [] ->
    Forall (flatPlain k m) (tokenize source) ->
    let texts := map text (tokenize source) in
    erase_ids (parsePseudocode source k) = statements texts
    /\ forall (numberToString : Q -> string) (kw : keywords),
         exists t',
           treeToPseudocode numberToString kw (parsePseudocode source k)
           = Ok t'
           /\ t' = unlines texts
           /\ parsePseudocode t' k = parsePseudocode source k.
Proof.
  intros k source m Hne HF texts.
  assert (Hne' : texts <> [])
    by (subst texts; destruct (tokenize source); [congruence | discriminate]).
  pose proof (flat_texts_plain k m _ HF) as HP.
  destruct (parse_plain k texts Hne' HP) as [He Hs].
  rewrite (parse_flat k source m Hne HF). fold texts.
  split; [exact He |].
  intros nts kw. exists (unlines texts).
  split; [apply Hs |]. split; reflexivity.
Qed.

(** Three statements indented by two spaces, with a blank line and a
    comment line between them, under the English keywords. *)
Lemma plain_statements_round_trip_witness :
  let source := unlines ["  x = 1"; ""; "# note"; "  print x"; "  done"] in
  let texts := map text (tokenize source) in
  texts = ["x = 1"; "print x"; "done"]
  /\ erase_ids (parsePseudocode source KEYWORDS_EN) = statements texts
  /\ forall (numberToString : Q -> string) (kw : keywords),
       exists t',
         treeToPseudocode numberToString kw
                          (parsePseudocode source KEYWORDS_EN)
         = Ok t'
         /\ t' = unlines texts
         /\ parsePseudocode t' KEYWORDS_EN
            = parsePseudocode source KEYWORDS_EN.
Proof.
  intros source texts. split; [vm_compute; reflexivity |].
  refine (plain_statements_round_trip KEYWORDS_EN source 2 _ _).
  - vm_compute. discriminate.
  - replace (tokenize source)
      with [ {| text := "x = 1"; Parser.indent := 2 |};
             {| text := "print x"; Parser.indent := 2 |};
             {| text := "done"; Parser.indent := 2 |} ]
      by (vm_compute; reflexivity).
    repeat constructor.
Defined.

(** ** Texts without statements, and lines before the outermost one *)

Section BlankFacts.
Variable k : keywords.

Lemma tokenize_blank :
  forall (source : string),
    forallb blankLine (split lf source) = true <-> tokenize source = [].
Proof.
  intros source. unfold tokenize.
  induction (split lf source) as [|raw r IH]; [split; reflexivity |].
  cbn [forallb map keepLines]. unfold tokenizeLine at 1.
  fold (blankLine raw).
  destruct (blankLine raw); cbn [andb keepLines]; [exact IH |].
  split; discriminate.
Qed.

(** Whatever a block becomes, it is a content node behind an
    InsertNode. *)
Lemma statement_content :
  forall (rec : list line -> nat -> M node) (baseIndent : nat) (b : block)
         (nextBlock : option block) (tail : node) (s : nat),
    is_content (follow (fst (statement k rec baseIndent b nextBlock tail s)))
    = true.
Proof.
  intros rec baseIndent b nextBlock tail s.
  unfold statement.
  repeat match goal with
         | |- context [if ?c then _ else _] => destruct c
         | |- context [match ?c with Some _ => _ | None => _ end] =>
             destruct c
         | |- context [let '(_, _) := ?c in _] => destruct c
         end.
  all: unfold Counter.bind, makeInsert, uid, tick, Counter.ret.
  all: repeat match goal with
         | |- context [let (_, _) := ?m in _] => destruct m
         | |- context [match ?c with Some _ => _ | None => _ end] =>
             destruct c
         end.
  all: reflexivity.
Qed.

Lemma build_content :
  forall (rec : list line -> nat -> M node) (baseIndent : nat) (b : block)
         (rest : list block) (s : nat),
    is_content (follow (fst (build k rec baseIndent false (b :: rest) s)))
    = true.
Proof.
  intros rec baseIndent b rest s. cbn [build]. unfold Counter.bind.
  destruct (build k rec baseIndent _ rest s) as [tail s1].
  apply statement_content.
Qed.

Lemma groupBlocks_skip :
  forall (above lines : list line) (baseIndent : nat),
    (forall x, In x above -> baseIndent < Parser.indent x) ->
    groupBlocks (above ++ lines) baseIndent = groupBlocks lines baseIndent.
Proof.
  induction above as [|x r IH]; intros lines baseIndent H; [reflexivity |].
  cbn [app groupBlocks].
  assert (Hx : baseIndent < Parser.indent x) by (apply H; left; reflexivity).
  destruct (Parser.indent x <? baseIndent) eqn:E1;
    [apply Nat.ltb_lt in E1; lia |].
  rewrite (proj2 (Nat.ltb_lt _ _) Hx).
  apply IH. intros y Hy. apply H. right. exact Hy.
Qed.

Lemma minIndent_app :
  forall (above : list line) (l : line) (rest : list line) (x : line)
         (r : list line),
    x :: r = above ++ l :: rest ->
    (forall p, In p above -> minIndent l rest < Parser.indent p) ->
    minIndent x r = minIndent l rest.
Proof.
  induction above as [|p above IH]; intros l rest x r E H.
  - cbn [app] in E. injection E as -> ->. reflexivity.
  - cbn [app] in E. injection E as -> ->.
    assert (Hp : minIndent l rest < Parser.indent p)
      by (apply H; left; reflexivity).
    assert (Habove : forall q, In q above -> minIndent l rest < Parser.indent q)
      by (intros q Hq; apply H; right; exact Hq).
    destruct above as [|p2 above2].
    + cbn [app minIndent]. lia.
    + cbn [app]. cbn [minIndent].
      specialize (IH l rest p2 (above2 ++ l :: rest) eq_refl Habove).
      rewrite IH. lia.
Qed.

(** The tree of a list of tokens does not change when lines that are all
    indented deeper than its outermost line are put before it. *)
Lemma mergeBlocks_skip :
  forall (above : list line) (l : line) (rest : list line) (s : nat),
    (forall p, In p above -> minIndent l rest < Parser.indent p) ->
    mergeBlocks (length (above ++ l :: rest)) (above ++ l :: rest)
                (minIndent l rest) k s
    = mergeBlocks (length (l :: rest)) (l :: rest) (minIndent l rest) k s.
Proof.
  intros above l rest s H.
  rewrite length_app. cbn [length]. rewrite Nat.add_succ_r.
  cbn [mergeBlocks]. unfold mergeBody at 1.
  rewrite (groupBlocks_skip above (l :: rest) _ H).
  fold (mergeBody k (fun ls b => mergeBlocks (length above + length rest) ls b k)
          (l :: rest) (minIndent l rest)).
  apply mergeBody_agree.
  intros ls i s' Hls. cbn [length] in Hls.
  apply mergeBlocks_fuel; lia.
Qed.

End BlankFacts.

(** X25.  A text without a statement line gives the diagram without
    statements: when every line is blank or a comment that starts at the
    first column, the parser returns an InsertNode that leads to a
    Placeholder, and the serializer and the three code generators write
    nothing for it.  Any other text gives a chain that starts with a
    content node. *)
Theorem text_without_statements :
  forall (source : string) (k : keywords),
    (forallb blankLine (split lf source) = true ->
     parsePseudocode source k = emptyDiagram)
    /\ (forallb blankLine (split lf source) = false ->
        is_content (follow (parsePseudocode source k)) = true)
    /\ (forall numberToString kw,
          treeToPseudocode numberToString kw emptyDiagram = Ok "")
    /\ (forall lang, mem lang ownKeys = true ->
          generateCode emptyDiagram lang = Ok "").
Proof.
  intros source k. split; [| split; [| split]].
  - intros H. apply tokenize_blank in H.
    unfold parsePseudocode. rewrite H. reflexivity.
  - intros H. unfold parsePseudocode, eval.
    destruct (tokenize source) as [|l rest] eqn:E.
    + apply tokenize_blank in E. congruence.
    + cbn [length mergeBlocks]. unfold mergeBody.
      destruct (minIndent_attained rest l) as (x & Hx & Hm).
      destruct (groupBlocks_complete (l :: rest) (minIndent l rest) x
                  (minIndent_le rest l) Hx Hm) as (b & Hb & _).
      destruct (groupBlocks (l :: rest) (minIndent l rest)) as [|b0 bs];
        [contradiction |].
      apply build_content.
  - intros nts kw. reflexivity.
  - intros lang Hl. unfold mem, ownKeys in Hl. cbn [existsb] in Hl.
    repeat (apply orb_true_iff in Hl; destruct Hl as [Hl | Hl];
            [apply String.eqb_eq in Hl; subst lang; reflexivity |]).
    discriminate Hl.
Qed.

(** X26.  Lines that stand before the first line of the outermost
    indentation and are indented deeper than it leave no trace: the
    parser returns the tree of the text without them. *)
Theorem lines_before_outermost_dropped :
  forall (k : keywords) (source rest : string) (above : list line),
    tokenize source = above ++ tokenize rest ->
    tokenize rest <> [] ->
    (forall p, In p above ->
               exists x, In x (tokenize rest)
                         /\ Parser.indent x < Parser.indent p) ->
    parsePseudocode source k = parsePseudocode rest k.
Proof.
  intros k source rest above Htok Hne Habove.
  unfold parsePseudocode. rewrite Htok.
  destruct (tokenize rest) as [|l r] eqn:El; [congruence |].
  assert (Hdeep : forall p, In p above -> minIndent l r < Parser.indent p).
  { intros p Hp. destruct (Habove p Hp) as (x & Hx & Hlt).
    pose proof (minIndent_le r l x Hx). lia. }
  destruct (above ++ l :: r) as [|x xs] eqn:Ex.
  { destruct above; discriminate Ex. }
  rewrite (minIndent_app above l r x xs (eq_sym Ex) Hdeep).
  unfold eval. f_equal.
  rewrite <- Ex. apply mergeBlocks_skip. exact Hdeep.
Qed.

(** A line indented by four spaces before a line at the first
    column. *)
Lemma lines_before_outermost_dropped_witness :
  parsePseudocode (unlines ["    a"; "b"]) KEYWORDS_EN
  = parsePseudocode "b" KEYWORDS_EN.
Proof.
  refine (lines_before_outermost_dropped KEYWORDS_EN
            (unlines ["    a"; "b"]) "b"
            [{| text := "a"; Parser.indent := 4 |}] eq_refl _ _).
  - discriminate.
  - intros p [<- | []].
    exists {| text := "b"; Parser.indent := 0 |}.
    split; [left; reflexivity | cbn; lia].
Defined.

(** ** Code for programs of plain statements *)

Section StraightLineCode.
Variable k : keywords.

(** The lines of code for the chain built from blocks of plain
    statements. *)
Lemma build_plain_code :
  forall (rec : list line -> nat -> M node) (texts : list string) (s : nat)
         (t : table) (lang : string) (e : entry) (level : nat),
    Forall (plainLine k) texts ->
    tTaskNode t = Some e ->
    transform t lang
      (fst (build k rec 0 false
              (map (fun x => {| btext := x; bindent := 0; children := [] |})
                   texts) s))
      level
    = Ok (map (fun x => CodeGen.indent level +++ pre e +++ x +++ post e)
              texts).
Proof.
  intros rec texts s t lang e level HF He. revert s.
  induction HF as [|x r (_ & _ & Hm) _ IH]; intros s; [reflexivity |].
  cbn [map build].
  assert (Hskip :
    match hd_error
            (map (fun x => {| btext := x; bindent := 0; children := [] |}) r)
    with
    | Some nb => pairs k x (btext nb)
    | None => false
    end = false).
  { destruct (hd_error _); [| reflexivity]. apply plain_no_pair. exact Hm. }
  cbn [btext]. rewrite Hskip.
  unfold Counter.bind.
  specialize (IH s).
  destruct (build k rec 0 false _ s) as [n s'] eqn:E.
  rewrite (statement_task k rec 0
             {| btext := x; bindent := 0; children := [] |} _ n s' Hm).
  cbn [fst transform btext]. rewrite He. cbn [get Result.bind].
  cbn [fst] in IH. rewrite IH. reflexivity.
Qed.

Lemma parse_plain_code :
  forall (texts : list string) (t : table) (lang : string) (e : entry),
    texts <> [] -> Forall (plainLine k) texts ->
    tTaskNode t = Some e ->
    transform t lang (parsePseudocode (unlines texts) k) 0
    = Ok (map (fun x => pre e +++ x +++ post e) texts).
Proof.
  intros texts t lang e Hne HF He.
  unfold parsePseudocode. rewrite (tokenize_plain k texts Hne HF).
  destruct texts as [|x r]; [congruence |].
  cbn [map length]. rewrite minIndent_plain.
  cbn [mergeBlocks]. unfold mergeBody.
  change ({| text := x; Parser.indent := 0 |}
          :: map (fun t0 => {| text := t0; Parser.indent := 0 |}) r)
    with (map (fun t0 => {| text := t0; Parser.indent := 0 |}) (x :: r)).
  rewrite groupBlocks_plain.
  unfold eval.
  pose proof (build_plain_code
                (fun ls b =>
                   mergeBlocks
                     (length (map (fun t0 =>
                                     {| text := t0; Parser.indent := 0 |}) r))
                     ls b k)
                (x :: r) 0 t lang e 0 HF He) as H.
  cbn [map] in H |- *. exact H.
Qed.

End StraightLineCode.

(** X27.  The code of a program of plain statements is the program,
    statement by statement: when the lines the tokenizer keeps are all
    indented alike and each is a statement that matches none of the
    patterns of the parser, the Python code of the parsed tree is each
    statement followed by a line feed, and the Java and the JavaScript
    code is each statement followed by a semicolon and a line feed, in
    the order of the lines and with nothing else. *)
Theorem plain_statements_code :
  forall (k : keywords) (source : string) (m : nat),
    tokenize source <> [] ->
    Forall (flatPlain k m) (tokenize source) ->
    let texts := map text (tokenize source) in
    generateCode (parsePseudocode source k) "python"
    = Ok (join "" (map (fun x => x +++ nl) texts))
    /\ generateCode (parsePseudocode source k) "java"
       = Ok (join "" (map (fun x => x +++ ";" +++ nl) texts))
    /\ generateCode (parsePseudocode source k) "javascript"
       = Ok (join "" (map (fun x => x +++ ";" +++ nl) texts)).
Proof.
  intros k source m Hne HF texts.
  assert (Hne' : texts <> [])
    by (subst texts; destruct (tokenize source); [congruence | discriminate]).
  pose proof (flat_texts_plain k m _ HF) as HP.
  rewrite (parse_flat k source m Hne HF). fold texts.
  unfold generateCode.
  change (lookup (toLowerCase "python")) with (Some python).
  change (lookup (toLowerCase "java")) with (Some java).
  change (lookup (toLowerCase "javascript")) with (Some javascript).
  cbv beta iota.
  rewrite (parse_plain_code k texts python _ _ Hne' HP eq_refl).
  rewrite (parse_plain_code k texts java _ _ Hne' HP eq_refl).
  rewrite (parse_plain_code k texts javascript _ _ Hne' HP eq_refl).
  repeat split.
Qed.

(** The code of three statements indented by two spaces, with a blank
    line and a comment line between them, under the English keywords. *)
Lemma plain_statements_code_witness :
  let source := unlines ["  x = 1"; ""; "# note"; "  print x"; "  done"] in
  let texts := map text (tokenize source) in
  generateCode (parsePseudocode source KEYWORDS_EN) "python"
  = Ok (join "" (map (fun x => x +++ nl) texts))
  /\ generateCode (parsePseudocode source KEYWORDS_EN) "java"
     = Ok (join "" (map (fun x => x +++ ";" +++ nl) texts))
  /\ generateCode (parsePseudocode source KEYWORDS_EN) "javascript"
     = Ok (join "" (map (fun x => x +++ ";" +++ nl) texts)).
Proof.
  intros source texts.
  refine (plain_statements_code KEYWORDS_EN source 2 _ _).
  - vm_compute. discriminate.
  - replace (tokenize source)
      with [ {| text := "x = 1"; Parser.indent := 2 |};
             {| text := "print x"; Parser.indent := 2 |};
             {| text := "done"; Parser.indent := 2 |} ]
      by (vm_compute; reflexivity).
    repeat constructor.
Defined.

(** ** Identifiers stay distinct *)

Lemma sum_cons :
  forall (a : nat) (l : list nat), list_sum (a :: l) = a + list_sum l.
Proof. reflexivity. Qed.

Lemma sum_nil : list_sum [] = 0.
Proof. reflexivity. Qed.

Section DrawnFacts.
Variable clock : nat -> string.

Lemma drawnAs_same : forall s x, drawnAs clock s s x = 0.
Proof. intros s x. unfold drawnAs. rewrite Nat.sub_diag. reflexivity. Qed.

Lemma drawnAs_step :
  forall s x, drawnAs clock s (S s) x = own x (Some (edId clock (S s))).
Proof.
  intros s x. unfold drawnAs.
  replace (S s - s) with 1 by lia. cbn [List.seq map].
  rewrite sum_cons, sum_nil. lia.
Qed.

Lemma drawnAs_split :
  forall s s' s'' x,
    s <= s' <= s'' ->
    drawnAs clock s s'' x = drawnAs clock s s' x + drawnAs clock s' s'' x.
Proof.
  intros s s' s'' x H. unfold drawnAs.
  replace (s'' - s) with ((s' - s) + (s'' - s')) by lia.
  rewrite seq_app, map_app, list_sum_app.
  replace (S s + (s' - s)) with (S s') by lia. reflexivity.
Qed.

Lemma own_other :
  forall (a j : nat), a <> j -> own (edId clock a) (Some (edId clock j)) = 0.
Proof.
  intros a j H. cbn [own].
  destruct (String.eqb_spec (edId clock j) (edId clock a)) as [E | E];
    [| reflexivity].
  apply edId_inj in E. congruence.
Qed.

Lemma drawn_outside :
  forall (l : list nat) (a : nat),
    ~ In a l ->
    list_sum (map (fun j => own (edId clock a) (Some (edId clock j))) l) = 0.
Proof.
  induction l as [|j r IH]; intros a H; [reflexivity |].
  cbn [map]. rewrite sum_cons, own_other, IH; [reflexivity | |].
  - intros Hin. apply H. right. exact Hin.
  - intros ->. apply H. left. reflexivity.
Qed.

Lemma drawnAs_outside :
  forall s s' j, (j <= s \/ s' < j) -> drawnAs clock s s' (edId clock j) = 0.
Proof.
  intros s s' j H. unfold drawnAs. apply drawn_outside.
  rewrite in_seq. lia.
Qed.

Lemma drawn_once :
  forall (n a : nat) (x : string),
    list_sum (map (fun j => own x (Some (edId clock j))) (List.seq a n)) <= 1.
Proof.
  induction n as [|n IH]; intros a x; [cbn; lia |].
  cbn [List.seq map]. rewrite sum_cons.
  unfold own at 1.
  destruct (String.eqb_spec (edId clock a) x) as [E | E].
  - subst x. rewrite drawn_outside; [lia |].
    rewrite in_seq. lia.
  - specialize (IH (S a) x). lia.
Qed.

Lemma drawnAs_once : forall s s' x, drawnAs clock s s' x <= 1.
Proof. intros. apply drawn_once. Qed.

Lemma drawn_some :
  forall (l : list nat) (x : string),
    0 < list_sum (map (fun j => own x (Some (edId clock j))) l) ->
    exists j, In j l /\ x = edId clock j.
Proof.
  induction l as [|j r IH]; intros x H; [cbn in H; lia |].
  cbn [map] in H. rewrite sum_cons in H. unfold own at 1 in H.
  destruct (String.eqb_spec (edId clock j) x) as [E | E].
  - exists j. split; [left; reflexivity | congruence].
  - destruct (IH x ltac:(lia)) as (j' & Hin & Hx).
    exists j'. split; [right; exact Hin | exact Hx].
Qed.

Lemma drawnAs_some :
  forall s s' x,
    0 < drawnAs clock s s' x -> exists j, s < j /\ x = edId clock j.
Proof.
  intros s s' x H. apply drawn_some in H.
  destruct H as (j & Hin & Hx). apply in_seq in Hin.
  exists j. split; [lia | exact Hx].
Qed.

(** What a tree with distinct identifiers, none from the future of the
    counter, becomes when only identifiers drawn in between are added. *)
Lemma distinct_kept :
  forall (T T' : node) (s s' : nat),
    s <= s' ->
    distinctIds T -> settled clock s T ->
    addsTo clock T s T' s' ->
    distinctIds T' /\ settled clock s' T'.
Proof.
  intros T T' s s' Hle Hd Hs Ha. split.
  - intros x. specialize (Ha x). specialize (Hd x).
    pose proof (drawnAs_once s s' x) as H1.
    destruct (drawnAs clock s s' x) as [|d] eqn:E; [lia |].
    destruct (drawnAs_some s s' x ltac:(lia)) as (j & Hj & ->).
    rewrite (Hs j Hj) in Ha. lia.
  - intros j Hj. specialize (Ha (edId clock j)).
    rewrite (Hs j ltac:(lia)) in Ha.
    rewrite (drawnAs_outside s s' j ltac:(lia)) in Ha. lia.
Qed.

End DrawnFacts.

Section CountFacts.

Lemma filter_flat_map_length :
  forall (P : node -> bool) (cs : list node),
    length (filter P (flat_map nodes cs))
    = list_sum (map (occurrences P) cs).
Proof.
  intros P. induction cs as [|c r IH]; [reflexivity |].
  cbn [flat_map map]. rewrite sum_cons, filter_app, length_app, IH.
  reflexivity.
Qed.

(** The carriers of an identifier: the node itself, and those below its
    sub-nodes. *)
Lemma occ_node :
  forall (x : string) (n : node),
    occurrences (carries x) n
    = own x (node_id n)
      + list_sum (map (occurrences (carries x)) (subnodes n)).
Proof.
  intros x n. unfold occurrences at 1.
  destruct n; cbn [nodes filter subnodes map node_id].
  all: unfold carries at 1, Editor.has_id, own; cbn [node_id].
  1: reflexivity.
  all: match goal with
       | |- context [match ?i with Some _ => _ | None => _ end] =>
           destruct i as [j|]
       end.
  all: try match goal with
         | |- context [String.eqb ?a ?b] => destruct (String.eqb a b)
         end.
  all: cbn [length]; rewrite ?filter_app, ?length_app.
  all: rewrite ?map_app, ?list_sum_app, ?filter_flat_map_length.
  all: cbn [map]; rewrite ?sum_cons, ?list_sum_app, ?sum_cons, ?sum_nil.
  all: unfold occurrences; lia.
Qed.

End CountFacts.

Ltac head_of t :=
  lazymatch t with
  | ?f _ => head_of f
  | _ => t
  end.

(** The carriers of [x] in every node written out in the goal, counted
    through its sub-nodes. *)
Ltac count_at x :=
  repeat match goal with
    | |- context [occurrences (carries x) ?n] =>
        let h := head_of n in
        is_constructor h;
        rewrite (occ_node x n);
        cbn [node_id subnodes map]; rewrite ?map_app; cbn [map];
        rewrite ?sum_cons, ?list_sum_app, ?sum_cons, ?sum_nil
    end.

(** One step of a computation, run with a fact of the form
    [grows m Q]. *)
Ltac step H :=
  lazymatch type of H with
  | grows ?m _ =>
      match goal with
      | |- context [Editor.bind m ?f ?s] =>
          let r := fresh "r" in
          let s' := fresh "s" in
          let E := fresh "E" in
          let Hle := fresh "Hle" in
          let HQ := fresh "HQ" in
          destruct (H s) as (r & s' & E & Hle & HQ);
          rewrite (bind_run _ _ m f s s' r E); clear E; cbv beta
      end
  end.

(** The identifiers drawn between two states, cut at the states in
    between that the context knows. *)
Ltac cut_draws clock x :=
  repeat match goal with
    | H : ?a <= ?b |- context [drawnAs clock ?a ?c x] =>
        lazymatch b with
        | c => fail
        | a => fail
        | _ => rewrite (drawnAs_split clock a b c x) by lia
        end
    | |- context [drawnAs clock ?a (S ?c) x] =>
        lazymatch a with
        | c => fail
        | _ => rewrite (drawnAs_split clock a c (S c) x) by lia
        end
    end;
  rewrite ?drawnAs_step, ?drawnAs_same;
  change (own x None) with 0.

(** The end of a computation: the value returned is compared with the
    given tree, identifier by identifier. *)
Ltac tally clock :=
  unfold Editor.bind, Editor.genId, Editor.ret;
  do 2 eexists; split; [reflexivity |]; split; [lia |];
  let x := fresh "x" in
  intros x;
  repeat match goal with
    | H : addsTo clock _ _ _ _ |- _ => specialize (H x)
    | H : forall y : string, _ <= _ |- _ => specialize (H x)
    end;
  repeat match goal with
    | |- context ["__ed_" +++ clock ?n +++ "_" +++ ofNat ?n] =>
        change ("__ed_" +++ clock n +++ "_" +++ ofNat n) with (edId clock n)
    end;
  repeat match goal with
    | H : _ <= _ + drawnAs clock _ _ x |- _ => revert H
    end;
  count_at x; cut_draws clock x; intros; try lia.

Section WrapIds.
Import Editor.
Variable clock : nat -> string.

Let wrapGrows (n : node) : Prop :=
  grows (wrapContent clock n) (addsTo clock n)
  /\ grows (wrapChain clock n) (addsTo clock n)
  /\ grows (wrapChain clock (follow n)) (addsTo clock (follow n)).

Lemma newChain_grows : grows (newChain clock) (addsTo clock Null).
Proof.
  intros s. unfold newChain, newPlaceholder. tally clock.
Qed.

Lemma next_grows :
  forall x,
    grows (wrapChain clock x) (addsTo clock x) ->
    grows (if is_null x then newChain clock else wrapChain clock x)
          (addsTo clock x).
Proof. intros x H. destruct x; exact H. Qed.

Lemma child_grows :
  forall x,
    grows (wrapChain clock x) (addsTo clock x) ->
    grows (if is_null x then ret x else wrapChain clock x) (addsTo clock x).
Proof.
  intros x H. destruct x; cbn [is_null]; try exact H.
  intros s. tally clock.
Qed.

Lemma inner_grows :
  forall i x,
    grows (wrapContent clock x) (addsTo clock x) ->
    grows (bind (if is_null x then newPlaceholder clock
                 else wrapContent clock x)
                (fun f' => ret (InsertNode i f')))
          (addsTo clock (InsertNode i x)).
Proof.
  intros i x H s. destruct x; cbn [is_null].
  1: { unfold newPlaceholder. tally clock. }
  all: step H; unfold addsTo in *; tally clock.
Qed.

Lemma case_grows :
  forall c,
    grows (wrapChain clock c) (addsTo clock c) ->
    grows (wrapChain clock (follow c)) (addsTo clock (follow c)) ->
    grows match c with
          | InsertCase j u g =>
              bind (wrapChain clock g) (fun g' => ret (InsertCase j u g'))
          | _ => wrapChain clock c
          end
          (addsTo clock c).
Proof.
  intros c Hb Hc. destruct c; cbn [follow] in Hc; try exact Hb.
  intros s. step Hc. unfold addsTo in *. tally clock.
Qed.

Lemma chain_grows :
  forall n,
    is_content n = true ->
    grows (wrapContent clock n) (addsTo clock n) ->
    grows (wrapChain clock n) (addsTo clock n).
Proof.
  intros n Hc Ha s.
  destruct n; try discriminate Hc; unfold wrapChain; cbn [wrapChainWith].
  all: step Ha; unfold addsTo in *; tally clock.
Qed.

Lemma wrapContent_grows : forall n, wrapGrows n.
Proof.
  induction n using node_induction.
  all: repeat match goal with
         | IH : wrapGrows _ |- _ => destruct IH as (? & ? & ?)
         end.
  all: repeat match goal with
         | H : grows (wrapChain clock ?x) (addsTo clock ?x) |- _ =>
             pose proof (next_grows x H);
             pose proof (child_grows x H);
             revert H
         end; intros.
  (* null, an InsertNode, a Placeholder *)
  1: { split; [| split; apply newChain_grows].
       intros s. cbn [wrapContent]. unfold newPlaceholder. tally clock. }
  1: { match goal with
       | H : grows (wrapContent clock n) _ |- _ =>
           pose proof (inner_grows i n H) as Hin
       end.
       split; [exact Hin | split; [exact Hin | assumption]]. }
  1: { split; [| split; [| assumption]]; intros s.
       - cbn [wrapContent]. tally clock.
       - unfold wrapChain. cbn [wrapChainWith]. tally clock. }
  (* the content nodes *)
  all: match goal with
       | |- wrapGrows ?n =>
           assert (Ha : grows (wrapContent clock n) (addsTo clock n));
           [| split; [exact Ha
                     | split; [apply chain_grows; [reflexivity | exact Ha]
                              | cbn [follow]; assumption]]]
       end.
  all: intros s; cbn [wrapContent];
    change (wrapChainWith clock (wrapContent clock)) with (wrapChain clock).
  all: try (repeat match goal with
              | H : grows ?m _ |- context [bind ?m _ _] => step H
              end;
            unfold addsTo in *; tally clock).
  (* the switch *)
  match goal with
  | |- context [bind (?F cs)] =>
      assert (Hcs : grows (F cs)
                      (fun s cs' s' =>
                         forall x,
                           list_sum (map (occurrences (carries x)) cs')
                           <= list_sum (map (occurrences (carries x)) cs)
                              + drawnAs clock s s' x))
  end.
  { match goal with
    | HF : Forall _ cs |- _ => revert HF; clear
    end.
    intros HF.
    induction HF as [|c r Pc _ IHr]; intros s.
    - unfold ret. do 2 eexists. split; [reflexivity |]. split; [lia |].
      intros x. rewrite drawnAs_same. lia.
    - destruct Pc as (_ & Pb & Pf).
      pose proof (case_grows c Pb Pf) as Hc.
      step Hc. step IHr.
      unfold bind, ret. do 2 eexists. split; [reflexivity |].
      split; [lia |]. intros x.
      specialize (HQ x). specialize (HQ0 x).
      cbn [map]. rewrite !sum_cons.
      rewrite (drawnAs_split clock s s0 s1 x) by lia. lia. }
  assert (Hdn : grows
                  (if is_null n1 then ret n1
                   else match n1 with
                        | InsertCase j u g =>
                            bind (wrapChain clock g)
                                 (fun g' => ret (InsertCase j u g'))
                        | _ => wrapChain clock n1
                        end)
                  (addsTo clock n1)).
  { destruct (is_null n1) eqn:En.
    - intros s0. tally clock.
    - apply case_grows; assumption. }
  step Hcs. step Hdn.
  match goal with
  | H : grows ?m _ |- context [bind ?m _ _] => step H
  end.
  unfold addsTo in *. tally clock.
Qed.

Lemma wrapWithInsertNodes_grows :
  forall tree,
    grows (wrapWithInsertNodes clock tree) (addsTo clock tree).
Proof.
  intros tree. rewrite wrapWithInsertNodes_chain.
  apply wrapContent_grows.
Qed.

End WrapIds.

Section WalkIds.
Import Editor.
Variable clock : nat -> string.

Lemma ensureId_grows :
  forall i,
    grows (ensureId clock i)
          (fun s i' s' => forall x, own x i' <= own x i + drawnAs clock s s' x).
Proof.
  intros i s. unfold ensureId.
  destruct (falsy i).
  - unfold bind, genId, ret. do 2 eexists. split; [reflexivity |].
    split; [lia |]. intros x. rewrite drawnAs_step.
    fold (edId clock (S s)). lia.
  - unfold ret. do 2 eexists. split; [reflexivity |].
    split; [lia |]. intros x. rewrite drawnAs_same. lia.
Qed.

Lemma walk_grows : forall n, grows (walk clock n) (addsTo clock n).
Proof.
  induction n using node_induction.
  1: { intros s. cbn [walk]. unfold ret. do 2 eexists.
       split; [reflexivity |]. split; [lia |].
       intros x. rewrite drawnAs_same. lia. }
  all: intros s; cbn [walk].
  all: pose proof (ensureId_grows i) as Hid; step Hid.
  all: try (repeat match goal with
              | H : grows ?m _ |- context [bind ?m _ _] => step H
              end;
            unfold addsTo in *;
            unfold Editor.bind, Editor.ret;
            do 2 eexists; (split; [reflexivity |]); (split; [lia |]);
            let x := fresh "x" in
            intros x;
            repeat match goal with
              | H : forall y : string, _ <= _ |- _ => specialize (H x)
              end;
            repeat match goal with
              | H : _ <= _ + drawnAs clock _ _ x |- _ => revert H
              end;
            count_at x; cut_draws clock x; intros; lia).
  (* the switch *)
  match goal with
  | H : grows (walk clock n2) _ |- _ => step H
  end.
  match goal with
  | |- context [bind (?F cs)] =>
      assert (Hcs : grows (F cs)
                      (fun s cs' s' =>
                         forall x,
                           list_sum (map (occurrences (carries x)) cs')
                           <= list_sum (map (occurrences (carries x)) cs)
                              + drawnAs clock s s' x))
  end.
  { match goal with
    | HF : Forall _ cs |- _ => revert HF; clear
    end.
    intros HF.
    induction HF as [|c r Pc _ IHr]; intros s.
    - unfold ret. do 2 eexists. split; [reflexivity |]. split; [lia |].
      intros x. rewrite drawnAs_same. lia.
    - step Pc. step IHr.
      unfold bind, ret. do 2 eexists. split; [reflexivity |].
      split; [lia |]. intros x.
      specialize (HQ x). specialize (HQ0 x).
      cbn [map]. rewrite !sum_cons.
      rewrite (drawnAs_split clock s s0 s1 x) by lia. lia. }
  step Hcs.
  match goal with
  | H : grows (walk clock n1) _ |- _ => step H
  end.
  unfold addsTo in *. unfold Editor.bind, Editor.ret.
  do 2 eexists. split; [reflexivity |]. split; [lia |].
  intros x.
  repeat match goal with
    | H : forall y : string, _ <= _ |- _ => specialize (H x)
    end.
  repeat match goal with
    | H : _ <= _ + drawnAs clock _ _ x |- _ => revert H
    end.
  count_at x. cut_draws clock x. intros. lia.
Qed.

Lemma ensureIds_grows :
  forall tree, grows (ensureIds clock tree) (addsTo clock tree).
Proof. intros tree. rewrite ensureIds_walk. apply walk_grows. Qed.

(** Preparing a tree adds only identifiers drawn on the way. *)
Lemma prepTree_grows :
  forall tree, grows (prepTree clock tree) (addsTo clock tree).
Proof.
  intros tree s. unfold prepTree.
  pose proof (wrapWithInsertNodes_grows clock tree) as Hw. step Hw.
  destruct (ensureIds_grows r s0) as (t2 & s2 & E2 & Hle2 & H2).
  exists t2, s2. split; [exact E2 |]. split; [lia |].
  intros x. specialize (HQ x). specialize (H2 x).
  rewrite (drawnAs_split clock s s0 s2 x) by lia. lia.
Qed.

End WalkIds.

(** X28.  Preparing a tree keeps its identifiers apart.  When every
    identifier of the tree is carried by one node only and none of them
    is one that [genId] is yet to return, [ensureIds(wrapWithInsertNodes(t))]
    gives a tree with the same two properties at the new state of the
    counter; every node of it has an identifier, so each of its nodes
    can be addressed.  A tree without identifiers, as [saveJSON] writes
    it, is such a tree. *)
Theorem prepared_ids_distinct :
  forall (clock : nat -> string) (t : node) (s : nat),
    distinctIds t ->
    settled clock s t ->
    exists tree s',
      prepTree clock t s = Ok (tree, s')
      /\ s <= s'
      /\ distinctIds tree
      /\ settled clock s' tree
      /\ allIdentified tree = true.
Proof.
  intros clock t s Hd Hs.
  destruct (prepTree_grows clock t s) as (tree & s' & E & Hle & Ha).
  exists tree, s'. split; [exact E |]. split; [exact Hle |].
  destruct (distinct_kept clock t tree s s' Hle Hd Hs Ha) as [Hd' Hs'].
  split; [exact Hd' |]. split; [exact Hs' |].
  destruct (prepTree_ok clock t s) as (tree2 & s2 & E2 & _ & A & _).
  rewrite E in E2. injection E2 as <- <-. exact A.
Qed.

(** Two statements without identifiers, as a saved diagram holds
    them. *)
Lemma prepared_ids_distinct_witness :
  let t := TaskNode None "x = 1" (TaskNode None "y = 2" Null) in
  exists tree s',
    prepTree stillClock t 0 = Ok (tree, s')
    /\ 0 <= s'
    /\ distinctIds tree
    /\ settled stillClock s' tree
    /\ allIdentified tree = true.
Proof.
  refine (prepared_ids_distinct stillClock
            (TaskNode None "x = 1" (TaskNode None "y = 2" Null)) 0 _ _).
  - intros x. cbn. lia.
  - intros j Hj. reflexivity.
Defined.

Section OperationIds.
Import Editor.
Variable clock : nat -> string.

(** The identifiers of a new node are drawn by the call that makes
    it. *)
Lemma createNode_grows :
  forall (type : string),
    grows (createNode clock type)
          (fun s n s' =>
             forall x, occurrences (carries x) n <= drawnAs clock s s' x).
Proof.
  intros type s.
  unfold createNode, bind, genId, emptyCase, emptyChain, ret.
  cbv beta iota.
  repeat match goal with
         | |- context [if String.eqb type ?x then _ else _] =>
             destruct (String.eqb type x)
         end.
  all: do 2 eexists; split; [reflexivity |]; split; [lia |]; intros x.
  all: repeat match goal with
         | |- context ["__ed_" +++ clock ?n +++ "_" +++ ofNat ?n] =>
             change ("__ed_" +++ clock n +++ "_" +++ ofNat n)
               with (edId clock n)
         end.
  all: count_at x; cut_draws clock x; lia.
Qed.

Lemma createNode_adds :
  forall (type : string) (s : nat) (n : node) (s' : nat),
    createNode clock type s = Ok (n, s') ->
    s <= s'
    /\ forall x, occurrences (carries x) n <= drawnAs clock s s' x.
Proof.
  intros type s n s' H.
  destruct (createNode_grows type s) as (n0 & s0 & E & Hle & HQ).
  rewrite H in E. injection E as <- <-. auto.
Qed.

Lemma Ok_pair :
  forall (A : Type) (a b : A) (s s' : nat),
    Ok (a, s) = Ok (b, s') -> a = b /\ s = s'.
Proof. intros A a b s s' H. injection H as -> ->. auto. Qed.

Lemma same_adds :
  forall (T : node) (s s' : nat), addsTo clock T s T s'.
Proof. intros T s s' x. lia. Qed.

Lemma value_cloned : forall (T : node), value T (cloned T T) = T.
Proof. intros T. unfold cloned. destruct (is_null T); reflexivity. Qed.

Lemma detached_adds :
  forall (T : node) (id : string) (p : path) (s s' : nat),
    findParent T id = Some p -> addsTo clock T s (detached T p) s'.
Proof.
  intros T id p s s' Hp x.
  destruct (findParent_sound T id p Hp) as [Hv Hid].
  pose proof (detached_count (carries x) T p (carries_shallow x)
                eq_refl eq_refl Hv (has_id_not_null _ _ Hid)).
  lia.
Qed.

Lemma setText_count :
  forall (x : string) (n : node) (txt : string),
    occurrences (carries x) (setText n txt) = occurrences (carries x) n.
Proof.
  intros x n txt. rewrite (occ_node x (setText n txt)), (occ_node x n).
  destruct n; reflexivity.
Qed.

Lemma removeNode_adds :
  forall (T : node) (id : string) (s : nat) (r : returned) (s' : nat),
    removeNode T id s = Ok (r, s') ->
    s' = s /\ addsTo clock T s (value T r) s'.
Proof.
  intros T id s r s' H.
  destruct (findParent T id) as [p|] eqn:Hp.
  - destruct p as [|k q].
    + unfold removeNode, cloneTree in H. rewrite Hp in H. discriminate H.
    + rewrite (removeNode_at T id s (k :: q) ltac:(discriminate) Hp) in H.
      apply Ok_pair in H; destruct H as [<- <-]. split; [reflexivity |].
      cbn [value]. eapply detached_adds. exact Hp.
  - unfold removeNode, cloneTree in H. rewrite Hp in H.
    apply Ok_pair in H; destruct H as [<- <-]. split; [reflexivity |].
    rewrite value_cloned. apply same_adds.
Qed.

Lemma editText_adds :
  forall (T : node) (id txt : string) (s : nat) (r : returned) (s' : nat),
    editText T id txt s = Ok (r, s') ->
    s' = s /\ addsTo clock T s (value T r) s'.
Proof.
  intros T id txt s r s' H.
  destruct (findParent T id) as [p|] eqn:Hp.
  - rewrite (editText_run T id txt s p Hp) in H.
    apply Ok_pair in H; destruct H as [<- <-]. split; [reflexivity |].
    cbn [value]. intros x.
    destruct (findParent_sound T id p Hp) as [Hv _].
    pose proof (occ_setAt (carries x) (carries_shallow x) p T
                  (setText (getAt T p) txt) Hv) as Hc.
    rewrite setText_count in Hc. lia.
  - unfold editText, cloneTree in H.
    rewrite (proj2 (findNode_findParent_None T id) Hp) in H.
    apply Ok_pair in H; destruct H as [<- <-]. split; [reflexivity |].
    rewrite value_cloned. apply same_adds.
Qed.

Lemma moveNode_adds :
  forall (T : node) (a b : string) (s : nat) (r : returned) (s' : nat),
    moveNode T a b s = Ok (r, s') ->
    s' = s /\ addsTo clock T s (value T r) s'.
Proof.
  intros T a b s r s' H.
  destruct (String.eqb_spec a b) as [-> | Hne].
  { unfold moveNode in H. rewrite String.eqb_refl in H.
    apply Ok_pair in H; destruct H as [<- <-]. split; [reflexivity |]. apply same_adds. }
  destruct (findParent T a) as [sp|] eqn:Hsp.
  2: { unfold moveNode, cloneTree in H.
       rewrite (proj2 (String.eqb_neq a b) Hne), Hsp in H.
       apply Ok_pair in H; destruct H as [<- <-]. split; [reflexivity |].
       rewrite value_cloned. apply same_adds. }
  destruct sp as [|k q].
  { unfold moveNode, cloneTree in H.
    rewrite (proj2 (String.eqb_neq a b) Hne), Hsp in H. discriminate H. }
  assert (Hsp_ne : k :: q <> []) by discriminate.
  destruct (findParent_sound T a _ Hsp) as [Hv Hid].
  assert (Hsrc : is_null (getAt T (k :: q)) = false).
  { destruct (getAt T (k :: q)); [discriminate Hid | reflexivity ..]. }
  destruct (insertFound (findNode (detached T (k :: q)) b)) eqn:Ef.
  - destruct (findNode (detached T (k :: q)) b) as [m|] eqn:Em;
      [| discriminate Ef].
    destruct m; try discriminate Ef.
    destruct (found_place _ b _ Em) as (tp & Htp & Hget & Hv1 & _).
    rewrite (moveNode_run T a b s (k :: q) tp _ _ Hne Hsp_ne Hsp Htp Hget)
      in H.
    apply Ok_pair in H; destruct H as [<- <-]. split; [reflexivity |].
    cbn [value]. intros x.
    rewrite (moved_count (carries x) T (k :: q) tp _ _
               (carries_shallow x) eq_refl eq_refl Hv Hsrc Hv1 Hget).
    lia.
  - rewrite (moveNode_dropped T a b s (k :: q) Hne Hsp_ne Hsp) in H.
    + apply Ok_pair in H; destruct H as [<- <-]. split; [reflexivity |].
      cbn [value]. eapply detached_adds. exact Hsp.
    + intros i f E. rewrite E in Ef. discriminate Ef.
Qed.

Lemma insertAt_adds :
  forall (T : node) (t type : string) (s : nat) (r : returned) (s' : nat),
    insertAt clock T t type s = Ok (r, s') ->
    s <= s' /\ addsTo clock T s (value T r) s'.
Proof.
  intros T t type s r s' H.
  destruct (findParent T t) as [p|] eqn:Hp.
  2: { unfold insertAt, cloneTree in H.
       rewrite (proj2 (findNode_findParent_None T t) Hp) in H.
       apply Ok_pair in H; destruct H as [<- <-]. split; [lia |].
       rewrite value_cloned. apply same_adds. }
  destruct (findParent_sound T t p Hp) as [Hv Hid].
  destruct (createNode_run clock type s) as (n & s1 & Hn & _ & Hnn & Hnf).
  destruct (createNode_adds type s n s1 Hn) as [Hle Hnew].
  destruct (getAt T p) as [| i f | i f | | | | | | | | | | |] eqn:Hget.
  1: discriminate Hid.
  (* a content node *)
  all: try (rewrite (insertAt_content_run clock T t type s p n s1 Hp
                       ltac:(rewrite Hget; reflexivity) Hn) in H;
            apply Ok_pair in H; destruct H as [<- <-];
            split; [exact Hle |];
            cbn [value]; apply same_adds).
  - (* an InsertNode *)
    rewrite (insertAt_run clock T t type s i f p n s1 Hp Hget Hn) in H.
    apply Ok_pair in H; destruct H as [<- <-]. split; [exact Hle |].
    cbn [value]. intros x. specialize (Hnew x).
    pose proof (occ_setAt (carries x) (carries_shallow x) p T
                  (InsertNode i (setFollow n f)) Hv) as Hc.
    rewrite Hget in Hc.
    assert (Hok : key_ok n KfollowElement = true).
    { destruct n; [discriminate Hnn | reflexivity ..]. }
    pose proof (occ_setKey (carries x) (carries_shallow x) n
                  KfollowElement f Hok) as Hk.
    cbn [setKey getKey] in Hk. rewrite Hnf in Hk.
    revert Hc Hk. count_at x. intros. lia.
  - (* a Placeholder *)
    destruct p as [|k q].
    { unfold insertAt, cloneTree in H.
      rewrite findNode_at_findParent, Hp in H. cbn [option_map] in H.
      rewrite Hget in H. unfold bind at 1 in H. rewrite Hn in H.
      discriminate H. }
    rewrite (insertAt_placeholder_run clock T t type s i f (k :: q) n s1
               ltac:(discriminate) Hp Hget Hn) in H.
    apply Ok_pair in H; destruct H as [<- <-]. split; [lia |].
    cbn [value]. intros x. specialize (Hnew x).
    pose proof (occ_setAt (carries x) (carries_shallow x) (k :: q) T
                  (InsertNode (Some (edId clock (S s1)))
                     (setFollow n
                        (InsertNode (Some (edId clock (S (S s1))))
                           (Placeholder None Null)))) Hv) as Hc.
    rewrite Hget in Hc.
    assert (Hok : key_ok n KfollowElement = true).
    { destruct n; [discriminate Hnn | reflexivity ..]. }
    pose proof (occ_setKey (carries x) (carries_shallow x) n
                  KfollowElement
                  (InsertNode (Some (edId clock (S (S s1))))
                     (Placeholder None Null)) Hok) as Hk.
    cbn [setKey getKey] in Hk. rewrite Hnf in Hk.
    revert Hc Hk. count_at x. cut_draws clock x. intros. lia.
Qed.

End OperationIds.

(** X29.  The operations of the editor keep the identifiers apart.  On a
    tree in which every identifier is carried by one node only and none
    is one that [genId] is yet to return, whatever [insertAt],
    [removeNode], [editText] or [moveNode] returns is such a tree again,
    at the state the counter then has; only [insertAt] moves the
    counter. *)
Theorem operations_keep_ids_distinct :
  forall (clock : nat -> string) (T : node) (s : nat),
    distinctIds T ->
    settled clock s T ->
    (forall t type r s',
        Editor.insertAt clock T t type s = Ok (r, s') ->
        s <= s'
        /\ distinctIds (Editor.value T r)
        /\ settled clock s' (Editor.value T r))
    /\ (forall id r s',
          Editor.removeNode T id s = Ok (r, s') ->
          s' = s
          /\ distinctIds (Editor.value T r)
          /\ settled clock s' (Editor.value T r))
    /\ (forall id txt r s',
          Editor.editText T id txt s = Ok (r, s') ->
          s' = s
          /\ distinctIds (Editor.value T r)
          /\ settled clock s' (Editor.value T r))
    /\ (forall a b r s',
          Editor.moveNode T a b s = Ok (r, s') ->
          s' = s
          /\ distinctIds (Editor.value T r)
          /\ settled clock s' (Editor.value T r)).
Proof.
  intros clock T s Hd Hs.
  split; [| split; [| split]].
  - intros t type r s' H.
    destruct (insertAt_adds clock T t type s r s' H) as [Hle Ha].
    split; [exact Hle |].
    exact (distinct_kept clock T _ s s' Hle Hd Hs Ha).
  - intros id r s' H.
    destruct (removeNode_adds clock T id s r s' H) as [-> Ha].
    split; [reflexivity |].
    exact (distinct_kept clock T _ s s (le_n s) Hd Hs Ha).
  - intros id txt r s' H.
    destruct (editText_adds clock T id txt s r s' H) as [-> Ha].
    split; [reflexivity |].
    exact (distinct_kept clock T _ s s (le_n s) Hd Hs Ha).
  - intros a b r s' H.
    destruct (moveNode_adds clock T a b s r s' H) as [-> Ha].
    split; [reflexivity |].
    exact (distinct_kept clock T _ s s (le_n s) Hd Hs Ha).
Qed.

Lemma twoStatements_distinct : distinctIds twoStatements.
Proof.
  intros x. unfold twoStatements. count_at x. unfold own.
  repeat match goal with
         | |- context [String.eqb ?a x] =>
             destruct (String.eqb_spec a x); [subst x; cbn; lia |]
         end.
  lia.
Qed.

Lemma twoStatements_settled : settled stillClock 0 twoStatements.
Proof. intros j Hj. reflexivity. Qed.

(** The chain of two statements, whose six identifiers are different
    and none of which the editor draws. *)
Lemma operations_keep_ids_distinct_witness :
  (forall t type r s',
      Editor.insertAt stillClock twoStatements t type 0 = Ok (r, s') ->
      0 <= s'
      /\ distinctIds (Editor.value twoStatements r)
      /\ settled stillClock s' (Editor.value twoStatements r))
  /\ (forall id r s',
        Editor.removeNode twoStatements id 0 = Ok (r, s') ->
        s' = 0
        /\ distinctIds (Editor.value twoStatements r)
        /\ settled stillClock s' (Editor.value twoStatements r))
  /\ (forall id txt r s',
        Editor.editText twoStatements id txt 0 = Ok (r, s') ->
        s' = 0
        /\ distinctIds (Editor.value twoStatements r)
        /\ settled stillClock s' (Editor.value twoStatements r))
  /\ (forall a b r s',
        Editor.moveNode twoStatements a b 0 = Ok (r, s') ->
        s' = 0
        /\ distinctIds (Editor.value twoStatements r)
        /\ settled stillClock s' (Editor.value twoStatements r)).
Proof.
  exact (operations_keep_ids_distinct stillClock twoStatements 0
           twoStatements_distinct twoStatements_settled).
Defined.

(** ** Wrapping a text *)

Section WrapTextFacts.
Import Renderer.
Variable measureText : Q -> string -> Q.
Variable maxWidth fontSize : Q.

(** A line that fits the width, is a word of the paragraph, or is
    empty. *)
Let good (words : list string) (l : string) : Prop :=
  Qle_bool (measureText fontSize l) maxWidth = true
  \/ In l words \/ l = EmptyString.

Lemma wrapWords_good :
  forall (all words : list string) (current : string),
    (forall w, In w words -> In w all) ->
    good all current ->
    (forall l, In l (fst (wrapWords measureText maxWidth fontSize
                                    words current)) -> good all l)
    /\ good all (snd (wrapWords measureText maxWidth fontSize words current)).
Proof.
  intros all. induction words as [|word rest IH]; intros current Hsub Hcur.
  - cbn [wrapWords fst snd]. split; [intros l [] | exact Hcur].
  - cbn [wrapWords].
    assert (Hrest : forall w, In w rest -> In w all)
      by (intros w Hw; apply Hsub; right; exact Hw).
    assert (Hword : good all word)
      by (right; left; apply Hsub; left; reflexivity).
    destruct (gt (measureText fontSize
                    (if is_empty current then word
                     else current +++ " " +++ word)) maxWidth
              && negb (is_empty current)) eqn:E.
    + destruct (IH word Hrest Hword) as [Hls Hc].
      destruct (wrapWords measureText maxWidth fontSize rest word)
        as [ls cur].
      cbn [fst snd] in *. split; [| exact Hc].
      intros l [<- | Hl]; [exact Hcur | apply Hls; exact Hl].
    + apply IH; [exact Hrest |].
      destruct (is_empty current) eqn:Ec; [exact Hword |].
      cbn [negb] in E. rewrite andb_true_r in E.
      left. unfold gt in E. apply negb_false_iff in E. exact E.
Qed.

Lemma wrapParagraph_good :
  forall (para l : string),
    In l (wrapParagraph measureText maxWidth fontSize para) ->
    good (splitWs para false) l.
Proof.
  intros para l. unfold wrapParagraph.
  destruct (is_empty para) eqn:Ep.
  - cbn [orb]. intros [<- | []]. right. right.
    destruct para; [reflexivity | discriminate Ep].
  - cbn [orb].
    destruct (Qle_bool (measureText fontSize para) maxWidth) eqn:Ef.
    + intros [<- | []]. left. exact Ef.
    + destruct (wrapWords_good (splitWs para false) (splitWs para false)
                  EmptyString (fun w H => H)
                  (or_intror (or_intror eq_refl))) as [Hls Hc].
      destruct (wrapWords measureText maxWidth fontSize
                  (splitWs para false) EmptyString) as [ls current].
      cbn [fst snd] in *.
      destruct (is_empty current); [apply Hls |].
      intros Hin. apply in_app_or in Hin.
      destruct Hin as [Hin | [<- | []]]; [apply Hls; exact Hin | exact Hc].
Qed.

Lemma wrapText_good :
  forall (str l : string),
    In l (wrapText measureText str maxWidth fontSize) ->
    Qle_bool (measureText fontSize l) maxWidth = true
    \/ l = EmptyString
    \/ exists para, In para (split lf str) /\ In l (splitWs para false).
Proof.
  intros str l. unfold wrapText.
  destruct (is_empty str); [intros [<- | []]; auto |].
  destruct (flat_map (wrapParagraph measureText maxWidth fontSize)
                     (split lf str)) as [|l0 ls] eqn:E;
    [intros [<- | []]; auto |].
  rewrite <- E. intros Hin. apply in_flat_map in Hin.
  destruct Hin as (para & Hpara & Hl).
  destruct (wrapParagraph_good para l Hl) as [H | [H | H]]; eauto.
Qed.

Lemma wrapText_not_empty :
  forall (str : string), wrapText measureText str maxWidth fontSize <> [].
Proof.
  intros str. unfold wrapText.
  destruct (is_empty str); [discriminate |].
  destruct (flat_map _ _); discriminate.
Qed.

End WrapTextFacts.

(** X30.  [wrapText] always returns at least one line, and a line it
    returns is wider than the given width only when it cannot be
    broken: every line fits the width, is empty, or is a single word of
    one of the paragraphs of the text.  The height of a row of text is
    at least 40, whatever the host measures. *)
Theorem wrapText_lines_fit :
  forall (measureText : Q -> string -> Q) (str : string)
         (maxWidth fontSize : Q),
    Renderer.wrapText measureText str maxWidth fontSize <> []
    /\ (forall l,
          In l (Renderer.wrapText measureText str maxWidth fontSize) ->
          Qle_bool (measureText fontSize l) maxWidth = true
          \/ l = EmptyString
          \/ exists para,
               In para (split lf str)
               /\ In l (Renderer.splitWs para false))
    /\ (40 <= Renderer.wrappedTextHeight measureText str maxWidth
                                         fontSize)%Q.
Proof.
  intros measureText str maxWidth fontSize.
  split; [apply wrapText_not_empty |].
  split; [intros l; apply wrapText_good |].
  apply row_height_positive.
Qed.
